(** * abl2tikz: schematic reconstruction and stencil placement

    A shallow embedding of the placement engine of abl2tikz (Keysight ADS
    ABL/XML schematics to CircuiTikZ) and the properties of its
    specification.

    Modelling conventions, used throughout:

    - The numbers of the engine are exact rationals ([Qc]): the
      properties of the engine are stated of its arithmetic carried out
      exactly.  Rounding, NaN, the infinities and the signed zero are
      outside this model; where the source divides, the statements carry
      the hypothesis that the divisor is not zero.
    - Where rounding decides a property, the code is embedded a second
      time over IEEE 754 binary64 numbers (module [F64]): the
      normalization loops of angles and the geometry of the oriented
      placement.
    - [Math.cos] and [Math.sin] (composed with the degree-to-radian
      conversion of [Coordinate.rotate]) are parameters, bundled in [Trig].
    - A distance is only ever compared with another distance, so the model
      keeps the *square* of [getDistance] (the square root is increasing on
      non-negative numbers, and the search radius 1 is its own square).
    - Coordinate objects that are shared (wire vertices, the pool, the
      coordinates live pins end up with) live in a heap and are named by
      their address; coordinates that are private to one computation (the
      clones a placement transforms) are plain values.
    - A thrown [TypeError] is the [Throw] outcome of the [result] monad. *)

From Stdlib Require Import Floats.
From Stdlib Require Import Ascii String QArith Qcanon Qround Field Lqa.
From stdpp Require Import base option numbers list strings gmap.

Local Open Scope Qc_scope.

(** ** Outcomes of a JavaScript computation *)

Inductive Exn : Type :=
  | TypeError.

Inductive result (A : Type) : Type :=
  | Ok (a : A)
  | Throw (e : Exn).
Arguments Ok {A} a.
Arguments Throw {A} e.

#[global] Instance result_ret : MRet result := fun _ a => Ok a.
#[global] Instance result_bind : MBind result := fun _ _ f m =>
  match m with
  | Ok a => f a
  | Throw e => Throw e
  end.

(** [Array.prototype.forEach] with a callback that may throw. *)
Fixpoint forEach {A : Type} (f : A → result unit) (l : list A) : result unit :=
  match l with
  | [] => Ok tt
  | a :: l' => _ ← f a; forEach f l'
  end.

(** Reading a property of a value that may be [undefined] or [null]. *)
Definition deref {A : Type} (o : option A) : result A :=
  match o with
  | Some a => Ok a
  | None => Throw TypeError
  end.

(** ** Angles *)

(** [Math.cos] and [Math.sin] of an angle given in degrees. *)
Record Trig : Type := { cosd : Qc → Qc; sind : Qc → Qc }.

(** The Qc constants the source compares angles with. *)
Definition Qc_of (z : Z) : Qc := Qc_of_Z z.

(** [while (angle <= -180) angle += 360; while (angle > 180) angle -= 360],
    in closed form: subtract 360 times the number of turns.  In exact
    arithmetic the loops end with this value ([normalizeLoop_closed_form]);
    over binary64 they are [F64.raiseAngle] and [F64.lowerAngle], and do
    not end for every angle. *)
Definition normalizeAngle (angle : Qc) : Qc :=
  let turns := (- Qfloor ((Qc_of 180 - angle) / Qc_of 360))%Z in
  angle - Qc_of 360 * Qc_of turns.

(** ** Coordinate (coordinate.mjs) *)

Module Coordinate.

Record t : Type := mk { x : Qc; y : Qc }.

#[global] Instance eq_dec : EqDecision t.
Proof. solve_decision. Defined.

(** [equals(other)]: [!!other && this.x === other.x && this.y === other.y]. *)
Definition equals (this : t) (other : option t) : bool :=
  match other with
  | None => false
  | Some o => bool_decide (x this = x o) && bool_decide (y this = y o)
  end.

(** The square of [getDistance(other)], exactly (the source compares the
    rounded square roots of the rounded sums). *)
Definition getDistance2 (this other : t) : Qc :=
  (x this - x other) * (x this - x other)
  + (y this - y other) * (y this - y other).

Definition add (this other : t) : t :=
  mk (x this + x other) (y this + y other).

Definition subtract (this other : t) : t :=
  mk (x this - x other) (y this - y other).

Definition clone (this : t) : t := mk (x this) (y this).

(** [add] called as a bare function: module code is strict, so the
    receiver of a detached method is [undefined] and [this.x] throws. *)
Definition add_detached (receiver : option t) (other : t) : result t :=
  this ← deref receiver; Ok (add this other).

(** [sum(...others)]: [others.forEach(coordSum.add)] hands the method to
    [forEach] without its receiver, and [forEach] is given no [thisArg]. *)
Definition sum (this : t) (others : list t) : result t :=
  let coordSum := mk (x this) (y this) in
  _ ← forEach (fun other => _ ← add_detached None other; Ok tt) others;
  Ok coordSum.

(** The second argument of [scale]: a factor, or the flag [true]. *)
Inductive scaleY_arg : Type :=
  | Factor (q : Qc)
  | UseScaleX.

(** [scale(scaleX, scaleY)]; every rational is finite. *)
Definition scale (this : t) (scaleX : Qc) (scaleY : scaleY_arg) : t :=
  match scaleY with
  | Factor sy => mk (x this * scaleX) (y this * sy)
  | UseScaleX => mk (x this * scaleX) (y this * scaleX)
  end.

Definition mirrorX (this : t) : t := mk (x this) (- y this).
Definition mirrorY (this : t) : t := mk (- x this) (y this).

(** [orthogonalProjection(lineStart, lineEnd)], in exact arithmetic; the
    same over binary64 is [F64.Coordinate.orthogonalProjection]. *)
Definition orthogonalProjection (this lineStart lineEnd : t) : t :=
  let lineVector := subtract (clone lineEnd) lineStart in
  let helpVector := subtract (clone this) lineStart in
  let lambda :=
    (x lineVector * x helpVector + y lineVector * y helpVector)
    / (x lineVector * x lineVector + y lineVector * y lineVector) in
  add (scale lineVector lambda UseScaleX) lineStart.


(** [rotate(angle, centerCoord)], counter-clockwise, in degrees, in exact
    arithmetic (with a centre, the subtraction and the addition of the
    centre cancel exactly); the same over binary64, with the loops, is
    [F64.Coordinate.rotate]. *)
Definition rotate (trig : Trig) (this : t) (angle : Qc) (centerCoord : option t) : t :=
  let angle := normalizeAngle angle in
  let p := match centerCoord with Some c => subtract this c | None => this end in
  let r :=
    if bool_decide (angle = 0) then p
    else if bool_decide (angle = Qc_of 90) then mk (- y p) (x p)
    else if bool_decide (angle = Qc_of 180) then mk (- x p) (- y p)
    else if bool_decide (angle = Qc_of (-90)) then mk (y p) (- x p)
    else mk (cosd trig angle * x p - sind trig angle * y p)
            (sind trig angle * x p + cosd trig angle * y p) in
  match centerCoord with Some c => add r c | None => r end.

End Coordinate.


(** ** Shared objects: the coordinate heap and the pool *)

(** The address of a shared [Coordinate] object, and of a [Net] object. *)
Definition CoordRef : Type := nat.
Definition NetRef : Type := nat.

#[global] Instance Coordinate_inhabited : Inhabited Coordinate.t :=
  populate (Coordinate.mk 0 0).

(** [heap] holds the shared coordinate objects; [coords] is the schematic's
    coordinate list ([#coords], the pool).  An entry of the pool is
    [None] when [undefined] was pushed. *)
Record Store : Type := mkStore {
  heap : list Coordinate.t;
  coords : list (option CoordRef)
}.

(** Computations that read and change a state [S] and may throw. *)
Definition StateM (S A : Type) : Type := S → result (A * S).

#[global] Instance StateM_ret {S : Type} : MRet (StateM S) := fun _ a s => Ok (a, s).
#[global] Instance StateM_bind {S : Type} : MBind (StateM S) := fun _ _ f m s =>
  match m s with
  | Ok (a, s') => f a s'
  | Throw e => Throw e
  end.

(** Computations of the placement engine: they read and extend the store
    and may throw. *)
Abbreviation Place := (StateM Store).

Definition lift {A : Type} (r : result A) : Place A := fun s =>
  match r with
  | Ok a => Ok (a, s)
  | Throw e => Throw e
  end.

Definition getHeap : Place (list Coordinate.t) := fun s => Ok (heap s, s).
Definition getCoords : Place (list (option CoordRef)) := fun s => Ok (coords s, s).

(** [new Coordinate(x, y)] for an object that may become shared. *)
Definition alloc (c : Coordinate.t) : Place CoordRef := fun s =>
  Ok (length (heap s), mkStore (heap s ++ [c]) (coords s)).

(** [coords.push(c)]. *)
Definition push (c : option CoordRef) : Place unit := fun s =>
  Ok (tt, mkStore (heap s) (coords s ++ [c])).

(** [c.x = v.x; c.y = v.y]: overwrite a shared object in place. *)
Definition overwrite (c : CoordRef) (v : Coordinate.t) : Place unit := fun s =>
  Ok (tt, mkStore (<[c := v]> (heap s)) (coords s)).

(** The value an address holds. *)
Definition valueOf (h : list Coordinate.t) (c : CoordRef) : Coordinate.t := h !!! c.

(** [Array.prototype.find] with a callback that may throw. *)
Fixpoint findM {A : Type} (f : A → result bool) (l : list A) : result (option A) :=
  match l with
  | [] => Ok None
  | a :: l' => b ← f a; if (b : bool) then Ok (Some a) else findM f l'
  end.

(** [coords.find((existingCoord) => c.equals(existingCoord))] where [c] may
    be [undefined]: the callback reads [c.equals] once per entry, so it
    throws on the first entry when [c] is [undefined]. *)
Definition findEqual (h : list Coordinate.t) (c : option CoordRef)
    (pool : list (option CoordRef)) : result (option (option CoordRef)) :=
  findM (fun existingCoord =>
           this ← deref c;
           Ok (Coordinate.equals (valueOf h this) (valueOf h <$> existingCoord)))
        pool.

(** The interning idiom the source repeats at every place a coordinate
    enters the pool:
    [const old = coords.find((e) => c.equals(e)); if (old) c = old; else coords.push(c);] *)
Definition canonicalize (c : option CoordRef) : Place (option CoordRef) :=
  h ← getHeap;
  pool ← getCoords;
  existingCoord ← lift (findEqual h c pool);
  match existingCoord with
  | Some (Some old) => mret (Some old)
  | _ => _ ← push c; mret c
  end.

(** ** Net (net.mjs) and Wire (wire.mjs) *)

Record Net : Type := mkNet { netname : string }.

Record Wire : Type := mkWire {
  wire_net : NetRef;
  wire_coords : list CoordRef
}.

(** ** Pin (pin.mjs) *)

(** General component placement information. *)
Record Placement : Type := mkPlacement {
  pl_x : Qc;
  pl_y : Qc;
  pl_angle : Qc;
  pl_xScale : Qc;
  pl_yScale : Qc;
  pl_mirrorX : bool;
  pl_mirrorY : bool;
  pl_scaling : Qc
}.

(** A distance kept in a search record: the square of a distance, or the
    seed [Number.MAX_VALUE], which no distance exceeds (a distance that
    overflows to [Infinity] is outside the model). *)
Inductive Dist : Type :=
  | Fin (d2 : Qc)
  | MAX_VALUE.

(** [a < b] on distances. *)
Definition Dist_ltb (a b : Dist) : bool :=
  match a, b with
  | Fin p, Fin q => bool_decide (p < q)
  | Fin _, MAX_VALUE => true
  | MAX_VALUE, _ => false
  end.

(** The record [{ distance, coord }] of the search. *)
Record Candidate : Type := mkCandidate {
  distance : Dist;
  cand_coord : option CoordRef
}.

(** [possibleCoords.sort((a, b) => a.distance - b.distance)]: the sort is
    stable (ECMAScript 2019), so it is an insertion of each record before
    the first record of the sorted rest that is not nearer. *)
Fixpoint insertCandidate (a : Candidate) (l : list Candidate) : list Candidate :=
  match l with
  | [] => [a]
  | b :: l' =>
      if Dist_ltb (distance b) (distance a) then b :: insertCandidate a l'
      else a :: b :: l'
  end.

Fixpoint sortCandidates (l : list Candidate) : list Candidate :=
  match l with
  | [] => []
  | a :: l' => insertCandidate a (sortCandidates l')
  end.

Module Pin.

(** A pin whose coordinate is a [C]: a value for the pins of a stencil
    (cloned before every use), an address for the pins of an instance.
    An absent, [null] or empty [name] is the empty string;
    [instTermNumber] is a number ([instTermNumber || 0]). *)
Record t (C : Type) : Type := mk {
  coord : option C;
  name : string;
  instTermNumber : Z;
  net : option NetRef
}.
Arguments mk {C} coord name instTermNumber net.
Arguments coord {C} _.
Arguments name {C} _.
Arguments instTermNumber {C} _.
Arguments net {C} _.

Definition clone {C : Type} (this : t C) : t C :=
  mk (coord this) (name this) (instTermNumber this) (net this).

(** [deepClone()]: [clone.coord.clone()] throws when the pin has no coordinate. *)
Definition deepClone (this : t Coordinate.t) : result (t Coordinate.t) :=
  c ← deref (coord this);
  Ok (mk (Some (Coordinate.clone c)) (name this) (instTermNumber this) (net this)).

Definition setCoord {C D : Type} (this : t C) (c : option D) : t D :=
  mk c (name this) (instTermNumber this) (net this).

(** The reducer of the vertex search over one wire:
    [(prevVal, coord) => { const distance = this.coord.getDistance(coord);
       if (prevVal.distance < distance) return prevVal;
       else return { distance: distance, coord: coord }; }]. *)
Definition nearer (h : list Coordinate.t) (thisCoord : option CoordRef)
    (prevVal : Candidate) (coord : CoordRef) : result Candidate :=
  c ← deref thisCoord;
  let d := Fin (Coordinate.getDistance2 (valueOf h c) (valueOf h coord)) in
  if Dist_ltb (distance prevVal) d then Ok prevVal
  else Ok (mkCandidate d (Some coord)).

(** [wire.coords.reduce(nearer, { distance: seed, coord: null })]. *)
Fixpoint closestVertex (h : list Coordinate.t) (thisCoord : option CoordRef)
    (prevVal : Candidate) (wireCoords : list CoordRef) : result Candidate :=
  match wireCoords with
  | [] => Ok prevVal
  | coord :: rest =>
      next ← nearer h thisCoord prevVal coord;
      closestVertex h thisCoord next rest
  end.

(** [wires.filter((wire) => wire.net == this.net).map(...)]. *)
Fixpoint possibleCoordsOf (h : list Coordinate.t) (thisCoord : option CoordRef)
    (seed : Dist) (wires : list Wire) : result (list Candidate) :=
  match wires with
  | [] => Ok []
  | wire :: rest =>
      c ← closestVertex h thisCoord (mkCandidate seed None) (wire_coords wire);
      cs ← possibleCoordsOf h thisCoord seed rest;
      Ok (c :: cs)
  end.

(** The search for the real position, shared by [Pin.findPosition]
    (seed 1) and the component-level [cloneToPosition]
    (seed [Number.MAX_VALUE]):
    [const possibleCoords = (net && wires.filter(..).map(..)) || [];
     let coord = possibleCoords.sort(..)?.[0]?.coord;
     if (coord) this.coord = coord;
     else { find an equal pool entry, else push }]. *)
Definition snap (seed : Dist) (wires : list Wire) (pinNet : option NetRef)
    (thisCoord : option CoordRef) : Place (option CoordRef) :=
  h ← getHeap;
  possibleCoords ←
    lift match pinNet with
         | Some n =>
             possibleCoordsOf h thisCoord seed
               (filter (fun wire => wire_net wire = n) wires)
         | None => Ok []
         end;
  match head (sortCandidates possibleCoords) ≫= cand_coord with
  | Some coord => mret (Some coord)
  | None => canonicalize thisCoord
  end.

(** The placement hint of a pin: the clone of the coordinate of the first
    stencil pin with the same terminal number,
    [pins?.find((stencilPin) => stencilPin.instTermNumber == this.instTermNumber)?.coord?.clone()]. *)
Definition hint (pins : list (t Coordinate.t)) (termNumber : Z) : option Coordinate.t :=
  Coordinate.clone <$>
    (find (fun stencilPin => bool_decide (instTermNumber stencilPin = termNumber)) pins
       ≫= coord).

(** [scale], [rotate], [mirrorX], [mirrorY] and [add(instanceCoord)] of a
    cloned stencil coordinate, in this order. *)
Definition toAbsolute (trig : Trig) (placement : Placement)
    (instanceCoord : Coordinate.t) (c : Coordinate.t) : Coordinate.t :=
  let c := Coordinate.scale c (pl_xScale placement * pl_scaling placement)
             (Coordinate.Factor (pl_yScale placement * pl_scaling placement)) in
  let c := Coordinate.rotate trig c (pl_angle placement) None in
  let c := if pl_mirrorX placement then Coordinate.mirrorX c else c in
  let c := if pl_mirrorY placement then Coordinate.mirrorY c else c in
  Coordinate.add c instanceCoord.

(** [findPosition(pins, placement, instanceCoord, wires, _nets, coords, relativeCoords)].
    The clone of the hint is private until the search ends, so it is
    allocated once, with the value the in-place transformations give it. *)
Definition findPosition (trig : Trig) (pins : list (t Coordinate.t))
    (placement : option Placement) (instanceCoord : option CoordRef)
    (wires : list Wire) (relativeCoords : bool) (this : t CoordRef)
    : Place (t CoordRef) :=
  h ← getHeap;
  thisCoord ←
    match hint pins (instTermNumber this) with
    | Some c =>
        if relativeCoords then
          pl ← lift (deref placement);
          ic ← lift (deref instanceCoord);
          r ← alloc (toAbsolute trig pl (valueOf h ic) c);
          mret (Some r)
        else
          r ← alloc c; mret (Some r)
    | None =>
        if relativeCoords then mret instanceCoord else mret None
    end;
  coord ← snap (Fin 1) wires (net this) thisCoord;
  mret (setCoord this coord).

End Pin.

(** ** Matching live pins with stencil pins *)

Definition nonEmpty (s : string) : bool := negb (String.eqb s "").

(** The predicate of the reordering,
    [pin.name && ablPin.name ? pin.name == ablPin.name
                             : pin.instTermNumber === ablPin.instTermNumber]. *)
Definition pinMatches {C D : Type} (ablPin : Pin.t C) (pin : Pin.t D) : bool :=
  if nonEmpty (Pin.name pin) && nonEmpty (Pin.name ablPin)
  then String.eqb (Pin.name pin) (Pin.name ablPin)
  else Z.eqb (Pin.instTermNumber pin) (Pin.instTermNumber ablPin).

(** The index of the first element that satisfies [f]: which object
    [Array.prototype.find] returns. *)
Fixpoint findIndex {A : Type} (f : A → bool) (l : list A) : option nat :=
  match l with
  | [] => None
  | a :: l' => if f a then Some 0%nat else S <$> findIndex f l'
  end.

(** [stencilPins.map((ablPin) => pins.find((pin) => ...))], as the positions
    of the selected pin objects in [pins]; [None] is [undefined]. *)
Definition reorder {C D : Type} (stencilPins : list (Pin.t C)) (pins : list (Pin.t D))
    : list (option nat) :=
  map (fun ablPin => findIndex (pinMatches ablPin) pins) stencilPins.

(** The reordered array itself: entry [i] is the pin object selected for
    stencil pin [i]. *)
Definition selected {D : Type} (pins : list (Pin.t D)) (order : list (option nat))
    : list (option (Pin.t D)) :=
  map (fun i => i ≫= (pins !!.)) order.

(** [new Coordinate(placement.x * placement.scaling, placement.y * placement.scaling)]. *)
Definition instanceCoordOf (placement : Placement) : Coordinate.t :=
  Coordinate.mk (pl_x placement * pl_scaling placement)
                (pl_y placement * pl_scaling placement).

Definition withAngle (placement : Placement) (angle : Qc) : Placement :=
  mkPlacement (pl_x placement) (pl_y placement) angle
    (pl_xScale placement) (pl_yScale placement)
    (pl_mirrorX placement) (pl_mirrorY placement) (pl_scaling placement).

(** The pin objects of an instance are mutated in place by [findPosition];
    [positionAt] runs it on the object at position [i] of [pins]. *)
Definition positionAt (trig : Trig) (stencilPins : list (Pin.t Coordinate.t))
    (placement : option Placement) (instanceCoord : option CoordRef)
    (wires : list Wire) (relativeCoords : bool)
    (pins : list (Pin.t CoordRef)) (i : option nat) : Place (list (Pin.t CoordRef)) :=
  pin ← lift (deref (i ≫= (pins !!.)));
  pin' ← Pin.findPosition trig stencilPins placement instanceCoord wires relativeCoords pin;
  mret (<[default 0%nat i := pin']> pins).

(** [order.forEach((pin) => pin.findPosition(...))]. *)
Fixpoint positionAll (trig : Trig) (stencilPins : list (Pin.t Coordinate.t))
    (placement : option Placement) (instanceCoord : option CoordRef)
    (wires : list Wire) (relativeCoords : bool)
    (pins : list (Pin.t CoordRef)) (order : list (option nat))
    : Place (list (Pin.t CoordRef)) :=
  match order with
  | [] => mret pins
  | i :: rest =>
      pins' ← positionAt trig stencilPins placement instanceCoord wires relativeCoords pins i;
      positionAll trig stencilPins placement instanceCoord wires relativeCoords pins' rest
  end.

(** ** PathComponent (pathComponent.mjs) *)

Module PathComponent.

(** [P] is the type of an entry of [pins]. *)
Record t (P : Type) : Type := mk {
  tikzComponentName : string;
  instanceName : string;
  pins : list P;
  angle : Qc;
  mirrorX : bool;
  mirrorY : bool
}.
Arguments mk {P} _ _ _ _ _ _.
Arguments tikzComponentName {P} _.
Arguments instanceName {P} _.
Arguments pins {P} _.
Arguments angle {P} _.
Arguments mirrorX {P} _.
Arguments mirrorY {P} _.

(** [useAsStencil(libraryName, cellName, instanceName, attributes, pins,
    placement, wires, nets, coords)]. *)
Definition useAsStencil (trig : Trig) (this : t (Pin.t Coordinate.t))
    (instanceName : string) (pins : list (Pin.t CoordRef))
    (placement : Placement) (wires : list Wire)
    : Place (t (option (Pin.t CoordRef))) :=
  let placement := withAngle placement (normalizeAngle (pl_angle placement)) in
  fresh ← alloc (instanceCoordOf placement);
  instanceCoord ← canonicalize (Some fresh);
  let order := reorder (PathComponent.pins this) pins in
  pins' ← positionAll trig (PathComponent.pins this) (Some placement) instanceCoord
            wires true pins order;
  mret (mk (tikzComponentName this) instanceName (selected pins' order)
           (pl_angle placement) false false).

End PathComponent.

(** ** PotentialComponent (potentialComponent.mjs) *)

Module PotentialComponent.

(** The [pin] of a potential stencil: a [Pin], as the constructor
    documents, or a bare [Coordinate], as the catalog passes.  A
    [Coordinate] has no [instTermNumber], so it never is the hint of a
    live pin. *)
Inductive pin_t : Type :=
  | IsPin (p : Pin.t Coordinate.t)
  | IsCoordinate (c : Coordinate.t).

Record stencil : Type := mkStencil {
  s_tikzComponentName : string;
  s_printNetName : bool;
  s_pin : pin_t
}.

Record t : Type := mk {
  tikzComponentName : string;
  printNetName : bool;
  pin : option (Pin.t CoordRef);
  angle : Qc;
  mirrorX : bool;
  mirrorY : bool
}.

(** The candidates of [[this.pin].find(...)]. *)
Definition hints (p : pin_t) : list (Pin.t Coordinate.t) :=
  match p with
  | IsPin p => [p]
  | IsCoordinate _ => []
  end.

Definition useAsStencil (trig : Trig) (this : stencil)
    (pins : list (Pin.t CoordRef)) (placement : Placement) (wires : list Wire)
    : Place t :=
  let placement :=
    withAngle placement (normalizeAngle (pl_angle placement + Qc_of 90)) in
  fresh ← alloc (instanceCoordOf placement);
  instanceCoord ← canonicalize (Some fresh);
  pins' ← positionAt trig (hints (s_pin this)) (Some placement) instanceCoord
            wires true pins (Some 0%nat);
  mret (mk (s_tikzComponentName this) (s_printNetName this) (pins' !! 0%nat)
           (pl_angle placement) (pl_mirrorX placement) (pl_mirrorY placement)).

End PotentialComponent.

(** ** Component (component.mjs), the component-level placement *)

Module Component.

Record t (P : Type) : Type := mk {
  tikzComponentName : string;
  instanceName : string;
  pins : list P;
  coord : option CoordRef;
  angle : Qc;
  mirrorX : bool;
  mirrorY : bool
}.
Arguments mk {P} _ _ _ _ _ _ _.
Arguments tikzComponentName {P} _.
Arguments instanceName {P} _.
Arguments pins {P} _.
Arguments coord {P} _.
Arguments angle {P} _.
Arguments mirrorX {P} _.
Arguments mirrorY {P} _.

(** The body of [pins.forEach((pin) => {...})] in [cloneToPosition]: the
    hint, its transformation, and the search with the seed
    [Number.MAX_VALUE]. *)
Definition positionPin (trig : Trig) (stencilPins : list (Pin.t Coordinate.t))
    (placement : Placement) (instanceCoord : option CoordRef)
    (wires : list Wire) (pin : Pin.t CoordRef) : Place (Pin.t CoordRef) :=
  h ← getHeap;
  pinCoord ←
    match Pin.hint stencilPins (Pin.instTermNumber pin) with
    | Some c =>
        ic ← lift (deref instanceCoord);
        r ← alloc (Pin.toAbsolute trig placement (valueOf h ic) c);
        mret (Some r)
    | None => mret instanceCoord
    end;
  coord ← Pin.snap MAX_VALUE wires (Pin.net pin) pinCoord;
  mret (Pin.setCoord pin coord).

Fixpoint positionPins (trig : Trig) (stencilPins : list (Pin.t Coordinate.t))
    (placement : Placement) (instanceCoord : option CoordRef)
    (wires : list Wire) (pins : list (Pin.t CoordRef))
    : Place (list (Pin.t CoordRef)) :=
  match pins with
  | [] => mret []
  | pin :: rest =>
      pin' ← positionPin trig stencilPins placement instanceCoord wires pin;
      rest' ← positionPins trig stencilPins placement instanceCoord wires rest;
      mret (pin' :: rest')
  end.

(** [cloneToPosition(libraryName, cellName, instanceName, attributes, pins,
    placement, wires, nets, coords)]; [attrInstanceName] is
    [attributes.get("instanceName") || null]. *)
Definition cloneToPosition (trig : Trig) (this : t (Pin.t Coordinate.t))
    (attrInstanceName : string) (pins : list (Pin.t CoordRef))
    (placement : Placement) (wires : list Wire)
    : Place (t (Pin.t CoordRef)) :=
  let placement := withAngle placement (normalizeAngle (pl_angle placement)) in
  fresh ← alloc (instanceCoordOf placement);
  instanceCoord ← canonicalize (Some fresh);
  pins' ← positionPins trig (Component.pins this) placement instanceCoord wires pins;
  mret (mk (tikzComponentName this) attrInstanceName pins' instanceCoord
           (pl_angle placement) (pl_mirrorX placement) (pl_mirrorY placement)).

End Component.

(** ** Geometry of a list of pins with private coordinates *)

(** [pins[i].coord], throwing when the pin or its coordinate is missing. *)
Definition coordAt (pins : list (Pin.t Coordinate.t)) (i : nat) : result Coordinate.t :=
  pin ← deref (pins !! i);
  deref (Pin.coord pin).

(** [pins[i].coord] mutated in place to [f] of its value. *)
Definition updateAt (f : Coordinate.t → Coordinate.t)
    (pins : list (Pin.t Coordinate.t)) (i : nat) : result (list (Pin.t Coordinate.t)) :=
  pin ← deref (pins !! i);
  c ← deref (Pin.coord pin);
  Ok (<[i := Pin.setCoord pin (Some (f c))]> pins).

(** [for (let i = 0; i < pins.length; i++) body(i)] over the pins. *)
Fixpoint forIndices (body : list (Pin.t Coordinate.t) → nat → result (list (Pin.t Coordinate.t)))
    (indices : list nat) (pins : list (Pin.t Coordinate.t))
    : result (list (Pin.t Coordinate.t)) :=
  match indices with
  | [] => Ok pins
  | i :: rest => pins' ← body pins i; forIndices body rest pins'
  end.

Definition forPins (body : list (Pin.t Coordinate.t) → nat → result (list (Pin.t Coordinate.t)))
    (pins : list (Pin.t Coordinate.t)) : result (list (Pin.t Coordinate.t)) :=
  forIndices body (seq 0 (length pins)) pins.

(** [if (mirrorX) c.y = -c.y; if (mirrorY) c.x = -c.x;]. *)
Definition flip (mirrorX mirrorY : bool) (c : Coordinate.t) : Coordinate.t :=
  let c := if mirrorX then Coordinate.mk (Coordinate.x c) (- Coordinate.y c) else c in
  if mirrorY then Coordinate.mk (- Coordinate.x c) (Coordinate.y c) else c.

(** What [mirrorMid] is: the coordinate object of the pin [anchorNr], or an
    object of its own. *)
Inductive anchor_t : Type :=
  | AnchorPin (anchorNr : nat)
  | AnchorCoord (anchorCoord : Coordinate.t).

(** One round of the loop of [mirror].  The guard [i !== this.anchorCoord]
    compares a number with an object (or [undefined]) and always holds, so
    every pin is processed:
    [mirrorCoord.subtract(mirrorMid); flip; mirrorCoord.add(mirrorMid)].
    When [mirrorMid] is the coordinate of pin [i] itself, the subtraction
    and the addition act on one object. *)
Definition mirrorStep (mirrorX mirrorY : bool) (anchor : anchor_t)
    (pins : list (Pin.t Coordinate.t)) (i : nat) : result (list (Pin.t Coordinate.t)) :=
  pin ← deref (pins !! i);
  mirrorCoord ← deref (Pin.coord pin);
  match anchor with
  | AnchorCoord mirrorMid =>
      Ok (<[i := Pin.setCoord pin (Some
            (Coordinate.add (flip mirrorX mirrorY (Coordinate.subtract mirrorCoord mirrorMid))
                            mirrorMid))]> pins)
  | AnchorPin anchorNr =>
      if bool_decide (i = anchorNr) then
        let afterSubtract := Coordinate.subtract mirrorCoord mirrorCoord in
        let afterFlip := flip mirrorX mirrorY afterSubtract in
        Ok (<[i := Pin.setCoord pin (Some (Coordinate.add afterFlip afterFlip))]> pins)
      else
        mirrorMid ← coordAt pins anchorNr;
        Ok (<[i := Pin.setCoord pin (Some
              (Coordinate.add (flip mirrorX mirrorY (Coordinate.subtract mirrorCoord mirrorMid))
                              mirrorMid))]> pins)
  end.

(** [get lineCrossingCoord()]:
    [pins[2].coord.orthogonalProjection(pins[0].coord, pins[1].coord)]. *)
Definition lineCrossingCoordOf (pins : list (Pin.t Coordinate.t)) : result Coordinate.t :=
  tap ← coordAt pins 2;
  top ← coordAt pins 0;
  bottom ← coordAt pins 1;
  Ok (Coordinate.orthogonalProjection tap top bottom).


(** [pins.map((pin) => pin.deepClone())]. *)
Fixpoint deepClonePins (pins : list (Pin.t Coordinate.t)) : result (list (Pin.t Coordinate.t)) :=
  match pins with
  | [] => Ok []
  | pin :: rest =>
      pin' ← Pin.deepClone pin;
      rest' ← deepClonePins rest;
      Ok (pin' :: rest')
  end.

(** ** The name pattern of instance labels *)

Definition isLetter (c : ascii) : bool :=
  let n := nat_of_ascii c in
  ((65 <=? n) && (n <=? 90) || (97 <=? n) && (n <=? 122))%nat.

Definition isDigit (c : ascii) : bool :=
  let n := nat_of_ascii c in ((48 <=? n) && (n <=? 57))%nat.

Definition isSeparator (c : ascii) : bool :=
  let n := nat_of_ascii c in ((n =? 95) || (n =? 45))%nat.

(** The longest prefix of characters that satisfy [f], and the rest. *)
Fixpoint spanChars (f : ascii → bool) (s : string) : string * string :=
  match s with
  | EmptyString => (EmptyString, EmptyString)
  | String c s' =>
      if f c then let '(p, r) := spanChars f s' in (String c p, r)
      else (EmptyString, s)
  end.

Definition dropSeparator (s : string) : string :=
  match s with
  | String c s' => if isSeparator c then s' else s
  | EmptyString => s
  end.

(** [instanceName.match(/^([a-zA-Z]+)[_-]?([0-9]+)$/)]: the two groups of the
    match, or [None] for [null].  Letters, separators and digits are
    disjoint classes, so the greedy match is the only one. *)
Definition matchInstanceName (instanceName : string) : option (string * string) :=
  let '(letters, rest) := spanChars isLetter instanceName in
  let '(digits, tail) := spanChars isDigit (dropSeparator rest) in
  if nonEmpty letters && nonEmpty digits && negb (nonEmpty tail)
  then Some (letters, digits)
  else None.

(** [Number.parseInt] of a string of decimal digits: the number the
    digits denote ([Number.parseInt] rounds it when it exceeds 2^53). *)
Definition parseDigits (digits : string) : Z :=
  fold_left (fun acc c => (10 * acc + (Z.of_nat (nat_of_ascii c) - 48))%Z)
            (list_ascii_of_string digits) 0%Z.

(** [Number.prototype.toString], the conversion the string concatenations
    of the serializers use. *)
Record Printer : Type := { showNumber : Qc → string }.

(** The label text: destructuring [null] throws.
    [let [_fullMatch, name, index] = instanceName.match(...);
     if (name && !Number.isNaN((index = Number.parseInt(index)))) `${name}_{index}$`
     else instanceName]. *)
Definition labelOf (pr : Printer) (instanceName : string) : result string :=
  '(name, index) ← deref (matchInstanceName instanceName);
  if nonEmpty name
  then Ok ("${" +:+ name +:+ "}_{" +:+ showNumber pr (Qc_of (parseDigits index)) +:+ "}$")
  else Ok instanceName.

(** ** Transistor (transistor.mjs) *)

Module Transistor.

(** A transistor stencil as the catalog builds it ([fromStruct], or the
    constructor with its defaults): [nodeName] empty, [angle] 0, not
    mirrored.  The constructor sets [anchorCoord] exactly when
    [anchorNr] is [null], which [anchor_t] expresses. *)
Record stencil : Type := mkStencil {
  s_tikzComponentName : string;
  s_instanceName : string;
  s_pins : list (Pin.t Coordinate.t);
  s_anchor : anchor_t
}.

Record t (P : Type) : Type := mk {
  tikzComponentName : string;
  instanceName : string;
  pins : list P;
  anchor : anchor_t;
  nodeName : string;
  angle : Qc;
  mirrorX : bool;
  mirrorY : bool
}.
Arguments mk {P} _ _ _ _ _ _ _ _.
Arguments tikzComponentName {P} _.
Arguments instanceName {P} _.
Arguments pins {P} _.
Arguments anchor {P} _.
Arguments nodeName {P} _.
Arguments angle {P} _.
Arguments mirrorX {P} _.
Arguments mirrorY {P} _.

(** The options of [fromStruct]; an option that is not a finite number is
    [None]. *)
Record tikzTripolOptions : Type := mkOptions {
  pgfCircRlen : option Qc;
  width : option Qc;
  connHeight : option Qc;
  height : option Qc
}.

(** [Transistor.fromStruct(tikzComponentName, anchorNames, options, nodeName)]
    with the default [nodeName]: top, bottom and tap pin, no anchor pin. *)
Definition fromStruct (tikzComponentName : string) (options : tikzTripolOptions) : stencil :=
  let pgfCircRlen := default (Q2Qc (14 # 10)) (pgfCircRlen options) in
  let width := default (Q2Qc (7 # 10)) (width options) in
  let connHeight := default (Q2Qc (5 # 10)) (connHeight options) in
  let height := default (Q2Qc (11 # 10)) (height options) in
  let halfHeight := pgfCircRlen * height * Q2Qc (5 # 10) in
  let width := pgfCircRlen * width in
  mkStencil tikzComponentName ""
    [ Pin.mk (Some (Coordinate.mk 0 halfHeight)) "" 0 None;
      Pin.mk (Some (Coordinate.mk 0 (- halfHeight))) "" 0 None;
      Pin.mk (Some (Coordinate.mk (- width) (halfHeight * connHeight))) "" 0 None ]
    (AnchorCoord (Coordinate.mk 0 0)).

(** [get nodeText()]. *)
Definition nodeText (pr : Printer) (instanceName : string) : result string :=
  if nonEmpty instanceName then labelOf pr instanceName else Ok "".

(** [deepClone()].  The call passes [this.nodeText] where the constructor
    expects [nodeName], and every later argument one place late: the
    clone's [nodeName] is the stencil's node text, its [angle] is
    [nodeName || 0], its [mirrorX] the stencil's [angle] and its
    [mirrorY] the stencil's [mirrorX]. *)
Definition deepClone (pr : Printer) (this : stencil) : result (t (Pin.t Coordinate.t)) :=
  pins' ← deepClonePins (s_pins this);
  text ← nodeText pr (s_instanceName this);
  let anchor' :=
    match s_anchor this with
    | AnchorPin nr => AnchorPin nr
    | AnchorCoord c => AnchorCoord (Coordinate.clone c)
    end in
  Ok (mk (s_tikzComponentName this) (s_instanceName this) pins' anchor' text 0 false false).

(** [rotate(angle)]: the pin [anchorNr] is left out. *)
Definition rotate (trig : Trig) (this : t (Pin.t Coordinate.t)) (angle : Qc)
    : result (t (Pin.t Coordinate.t)) :=
  if bool_decide (angle = 0) then Ok this
  else
    pins' ← forPins (fun pins i =>
               match anchor this with
               | AnchorPin nr =>
                   if bool_decide (i = nr) then Ok pins
                   else updateAt (fun c => Coordinate.rotate trig c angle None) pins i
               | AnchorCoord _ =>
                   updateAt (fun c => Coordinate.rotate trig c angle None) pins i
               end) (pins this);
    Ok (mk (tikzComponentName this) (instanceName this) pins' (anchor this)
           (nodeName this) (normalizeAngle (Transistor.angle this + angle))
           (mirrorX this) (mirrorY this)).

(** [mirror(mirrorX, mirrorY)]; [mirrorMid] is [this.coord]. *)
Definition mirror (this : t (Pin.t Coordinate.t)) (mirrorX mirrorY : bool)
    : result (t (Pin.t Coordinate.t)) :=
  if negb (mirrorX || mirrorY) then Ok this
  else
    pins' ← forPins (mirrorStep mirrorX mirrorY (anchor this)) (pins this);
    Ok (mk (tikzComponentName this) (instanceName this) pins' (anchor this)
           (nodeName this) (angle this)
           (xorb (Transistor.mirrorX this) mirrorX)
           (xorb (Transistor.mirrorY this) mirrorY)).

(** [translate(vector)]: every pin coordinate and [anchorCoord]. *)
Definition translate (this : t (Pin.t Coordinate.t)) (vector : Coordinate.t)
    : t (Pin.t Coordinate.t) :=
  mk (tikzComponentName this) (instanceName this)
     (map (fun pin => Pin.setCoord pin ((fun c => Coordinate.add c vector) <$> Pin.coord pin))
          (pins this))
     match anchor this with
     | AnchorPin nr => AnchorPin nr
     | AnchorCoord c => AnchorCoord (Coordinate.add c vector)
     end
     (nodeName this) (angle this) (mirrorX this) (mirrorY this).

Definition lineCrossingCoord (this : t (Pin.t Coordinate.t)) : result Coordinate.t :=
  lineCrossingCoordOf (pins this).

End Transistor.

(** ** ABLTransistorMapper (ablTransistorMapper.mjs) *)

Module ABLTransistorMapper.

Record t : Type := mk {
  tikzTransistor : Transistor.stencil;
  pins : list (Pin.t Coordinate.t);
  anchorNr : nat
}.

(** [clone()]: only the pins are cloned, deeply. *)
Definition clone (this : t) : result t :=
  pins' ← deepClonePins (pins this);
  Ok (mk (tikzTransistor this) pins' (anchorNr this)).

Definition lineCrossingCoord (this : t) : result Coordinate.t :=
  lineCrossingCoordOf (pins this).

(** [rotate(angle)]: the anchor pin is left out, the others turn about
    the origin. *)
Definition rotate (trig : Trig) (this : t) (angle : Qc) : result t :=
  if bool_decide (angle = 0) then Ok this
  else
    pins' ← forPins (fun pins i =>
               if bool_decide (i = anchorNr this) then Ok pins
               else updateAt (fun c => Coordinate.rotate trig c angle None) pins i)
             (pins this);
    Ok (mk (tikzTransistor this) pins' (anchorNr this)).

(** [mirror(mirrorX, mirrorY)]; [mirrorMid] is
    [this.pins[this.anchorNr].coord], read before the loop. *)
Definition mirror (this : t) (mirrorX mirrorY : bool) : result t :=
  if negb (mirrorX || mirrorY) then Ok this
  else
    _ ← deref (pins this !! anchorNr this);
    pins' ← forPins (mirrorStep mirrorX mirrorY (AnchorPin (anchorNr this))) (pins this);
    Ok (mk (tikzTransistor this) pins' (anchorNr this)).

(** [translate(vector)]. *)
Definition translate (this : t) (vector : Coordinate.t) : result t :=
  pins' ← forPins (updateAt (fun c => Coordinate.add c vector)) (pins this);
  Ok (mk (tikzTransistor this) pins' (anchorNr this)).

(** [pin.coord.scale(scaling.x, scaling.y)] for every pin. *)
Definition scalePins (this : t) (sx sy : Qc) : result t :=
  pins' ← forPins (updateAt (fun c => Coordinate.scale c sx (Coordinate.Factor sy)))
             (pins this);
  Ok (mk (tikzTransistor this) pins' (anchorNr this)).

(** The placed anatomical triangle: [ablTransistorClone] after
    [clone], [scale], [rotate], [mirror] and [translate(instanceCoord)]. *)
Definition placed (trig : Trig) (this : t) (placement : Placement) : result t :=
  let instanceCoord := instanceCoordOf placement in
  ablTransistorClone ← clone this;
  ablTransistorClone ← scalePins ablTransistorClone
      (pl_xScale placement * pl_scaling placement)
      (pl_yScale placement * pl_scaling placement);
  ablTransistorClone ← rotate trig ablTransistorClone (pl_angle placement);
  ablTransistorClone ← mirror ablTransistorClone (pl_mirrorX placement) (pl_mirrorY placement);
  translate ablTransistorClone instanceCoord.

(** The render template before its alignment: [transistor] after
    [deepClone], [rotate] and [mirror]. *)
Definition turned (trig : Trig) (pr : Printer) (this : t) (placement : Placement)
    : result (Transistor.t (Pin.t Coordinate.t)) :=
  transistor ← Transistor.deepClone pr (tikzTransistor this);
  transistor ← Transistor.rotate trig transistor (pl_angle placement);
  Transistor.mirror transistor (pl_mirrorX placement) (pl_mirrorY placement).

(** The first half of [useAsStencil]: the placed anatomical triangle and
    the aligned render template, [ablTransistorClone] and [transistor]
    after
    [transistor.translate(ablTransistorClone.lineCrossingCoord.clone()
                            .subtract(transistor.lineCrossingCoord))]. *)
Definition align (trig : Trig) (pr : Printer) (this : t) (placement : Placement)
    : result (t * Transistor.t (Pin.t Coordinate.t)) :=
  ablTransistorClone ← placed trig this placement;
  transistor ← turned trig pr this placement;
  ablCrossing ← lineCrossingCoord ablTransistorClone;
  tikzCrossing ← Transistor.lineCrossingCoord transistor;
  Ok (ablTransistorClone,
      Transistor.translate transistor
        (Coordinate.subtract (Coordinate.clone ablCrossing) tikzCrossing)).

(** [pins[i].coord.x = transistor.pins[i].coord.x;
     pins[i].coord.y = transistor.pins[i].coord.y]
    for [i] below both lengths: the coordinate object a live pin holds
    is overwritten in place. *)
Fixpoint overwriteCoords (pins : list (option (Pin.t CoordRef)))
    (tikzPins : list (Pin.t Coordinate.t)) : Place unit :=
  match pins, tikzPins with
  | pin :: pins', tikzPin :: tikzPins' =>
      pin ← lift (deref pin);
      c ← lift (deref (Pin.coord pin));
      v ← lift (deref (Pin.coord tikzPin));
      _ ← overwrite c v;
      overwriteCoords pins' tikzPins'
  | _, _ => mret tt
  end.

(** [useAsStencil(libraryName, cellName, instanceName, attributes, pins,
    placement, wires, nets, coords)].  The instance coordinate is not
    interned, and the branch that would intern [transistor.anchorCoord]
    needs [anchorNr != null] together with an [anchorCoord], which the
    constructor never gives. *)
Definition useAsStencil (trig : Trig) (pr : Printer) (this : t)
    (instanceName : string) (pins : list (Pin.t CoordRef))
    (placement : Placement) (wires : list Wire)
    : Place (Transistor.t (option (Pin.t CoordRef))) :=
  let placement := withAngle placement (normalizeAngle (pl_angle placement)) in
  '(ablTransistorClone, transistor) ← lift (align trig pr this placement);
  pins' ← positionAll trig (ABLTransistorMapper.pins ablTransistorClone) None None
            wires false pins (Some <$> seq 0 (length pins));
  let reordered := selected pins' (reorder (ABLTransistorMapper.pins ablTransistorClone) pins') in
  _ ← overwriteCoords reordered (Transistor.pins transistor);
  mret (Transistor.mk (Transistor.tikzComponentName transistor) instanceName reordered
          (Transistor.anchor transistor) (Transistor.nodeName transistor)
          (Transistor.angle transistor) (Transistor.mirrorX transistor)
          (Transistor.mirrorY transistor)).

End ABLTransistorMapper.

(** ** The stencil catalog and placed components *)

(** The values of [ADS_COMPONENTS_MAP] (components.mjs). *)
Inductive Stencil : Type :=
  | StencilPath (s : PathComponent.t (Pin.t Coordinate.t))
  | StencilPotential (s : PotentialComponent.stencil)
  | StencilMapper (s : ABLTransistorMapper.t).

Inductive Placed : Type :=
  | PlacedPath (c : PathComponent.t (option (Pin.t CoordRef)))
  | PlacedPotential (c : PotentialComponent.t)
  | PlacedTransistor (c : Transistor.t (option (Pin.t CoordRef))).

(** [componentStencil.useAsStencil(libraryName, cellName, instanceName,
    attributes, pins, placement, wires, nets, coords)]. *)
Definition useAsStencil (trig : Trig) (pr : Printer) (stencil : Stencil)
    (instanceName : string) (pins : list (Pin.t CoordRef))
    (placement : Placement) (wires : list Wire) : Place Placed :=
  match stencil with
  | StencilPath s =>
      c ← PathComponent.useAsStencil trig s instanceName pins placement wires;
      mret (PlacedPath c)
  | StencilPotential s =>
      c ← PotentialComponent.useAsStencil trig s pins placement wires;
      mret (PlacedPotential c)
  | StencilMapper s =>
      c ← ABLTransistorMapper.useAsStencil trig pr s instanceName pins placement wires;
      mret (PlacedTransistor c)
  end.

(** ** Schematic (schematic.mjs) *)

(** The elements of a schematic view, as the XML helpers hand them to
    [#parse]; the view has its [shapes] and [instances] sections and every
    wire its [points]. *)

(** A [wire] element that has its [genpolyline], [centerline] and
    [points] nodes (for any other, [#parse] throws an error before it
    reads a coordinate, see [Converter.pointsOf]): [netName] is
    [(nameNode ? nameNode.getAttribute("name") : "") || ""]; [points] holds,
    for each token of the text, the pair [parseFloat] gives, or [None]
    when one of the two numbers is not finite. *)
Record WireXml : Type := mkWireXml {
  wx_netName : string;
  wx_points : list (option (Qc * Qc))
}.

(** An [instpin] element: [Number.parseInt(...) || 0], [pinName || ""], and
    the [name] of its [net] child ([""] without one). *)
Record InstPinXml : Type := mkInstPinXml {
  ipx_instTermNumber : Z;
  ipx_pinName : string;
  ipx_netName : string
}.

(** A [placementtransform] element: what [parseFloat] reads from each
    attribute ([None] for NaN), and the two flags compared with ["true"]. *)
Record PlacementXml : Type := mkPlacementXml {
  px_x : option Qc;
  px_y : option Qc;
  px_angle : option Qc;
  px_xScale : option Qc;
  px_yScale : option Qc;
  px_mirrorX : bool;
  px_mirrorY : bool
}.

Record InstanceXml : Type := mkInstanceXml {
  ix_libraryName : string;
  ix_cellName : string;
  ix_instanceName : string;
  ix_placement : option PlacementXml;
  ix_instPins : list InstPinXml
}.

(** [parseFloat(...) || fallback]: NaN and 0 are falsy. *)
Definition orElse (v : option Qc) (fallback : Qc) : Qc :=
  match v with
  | Some q => if bool_decide (q = 0) then fallback else q
  | None => fallback
  end.

(** The [placement] struct; without a [placementtransform] both mirror
    flags are the truthy [1]. *)
Definition placementOf (p : option PlacementXml) (scale : Qc) : Placement :=
  match p with
  | Some p =>
      mkPlacement (orElse (px_x p) 0) (orElse (px_y p) 0) (orElse (px_angle p) 0)
        (orElse (px_xScale p) 1) (orElse (px_yScale p) 1)
        (px_mirrorX p) (px_mirrorY p) scale
  | None => mkPlacement 0 0 0 1 1 true true scale
  end.

(** What [console.error] is called for. *)
Inductive LogEntry : Type :=
  | CouldNotParseWireCoordinate
  | SkippingNotIdentifiedComponent (instanceName libraryName cellName : string).

Module Schematic.

(** The private state of a schematic, the heap of shared coordinates and
    of [Net] objects, the console, and the number of [uuid()] calls. *)
Record t : Type := mk {
  store : Store;
  nets : gmap string NetRef;
  netObjects : list Net;
  wires : list Wire;
  components : list Placed;
  console : list LogEntry;
  uuidCalls : nat
}.

(** [constructor()]. *)
Definition new : t := mk (mkStore [] []) ∅ [] [] [] [] 0.

Abbreviation Parse := (StateM t).

(** Run a placement computation on the schematic's store. *)
Definition onStore {A : Type} (m : Place A) : Parse A := fun s =>
  match m (store s) with
  | Ok (a, st) =>
      Ok (a, mk st (nets s) (netObjects s) (wires s) (components s)
                (console s) (uuidCalls s))
  | Throw e => Throw e
  end.

Definition logError (e : LogEntry) : Parse unit := fun s =>
  Ok (tt, mk (store s) (nets s) (netObjects s) (wires s) (components s)
             (console s ++ [e]) (uuidCalls s)).

(** [let net = this.#nets.get(netName);
     if (!net) this.#nets.set(netName, (net = new Net(netName)));] *)
Definition getOrCreateNet (netName : string) : Parse NetRef := fun s =>
  match nets s !! netName with
  | Some net => Ok (net, s)
  | None =>
      let net := length (netObjects s) in
      Ok (net, mk (store s) (<[netName := net]> (nets s))
                  (netObjects s ++ [mkNet netName]) (wires s) (components s)
                  (console s) (uuidCalls s))
  end.

(** [uuid()]: the next identifier of the generator [uuid]. *)
Definition nextUuid (uuid : nat → string) : Parse string := fun s =>
  Ok (uuid (uuidCalls s),
      mk (store s) (nets s) (netObjects s) (wires s) (components s)
         (console s) (S (uuidCalls s))).

(** The reducer of the coordinate tokens of one wire. *)
Definition parseWireCoord (scale : Qc) (wireCoords : list CoordRef)
    (token : option (Qc * Qc)) : Parse (list CoordRef) :=
  match token with
  | Some (x, y) =>
      coord ← onStore (alloc (Coordinate.mk (scale * x) (scale * y)));
      c ← onStore (canonicalize (Some coord));
      mret (wireCoords ++ [default coord c])
  | None =>
      _ ← logError CouldNotParseWireCoordinate;
      mret wireCoords
  end.

Fixpoint parseWireCoords (scale : Qc) (wireCoords : list CoordRef)
    (tokens : list (option (Qc * Qc))) : Parse (list CoordRef) :=
  match tokens with
  | [] => mret wireCoords
  | token :: rest =>
      wireCoords' ← parseWireCoord scale wireCoords token;
      parseWireCoords scale wireCoords' rest
  end.

(** The callback of [wireArray.map(...)]. *)
Definition parseWire (scale : Qc) (wireXml : WireXml) : Parse Wire :=
  net ← getOrCreateNet (wx_netName wireXml);
  wireCoords ← parseWireCoords scale [] (wx_points wireXml);
  mret (mkWire net wireCoords).

Fixpoint parseWires (scale : Qc) (wireArray : list WireXml) : Parse (list Wire) :=
  match wireArray with
  | [] => mret []
  | wireXml :: rest =>
      wire ← parseWire scale wireXml;
      wires ← parseWires scale rest;
      mret (wire :: wires)
  end.

Definition setWires (ws : list Wire) : Parse unit := fun s =>
  Ok (tt, mk (store s) (nets s) (netObjects s) ws (components s)
             (console s) (uuidCalls s)).

Definition pushComponent (c : Placed) : Parse unit := fun s =>
  Ok (tt, mk (store s) (nets s) (netObjects s) (wires s) (components s ++ [c])
             (console s) (uuidCalls s)).

Definition getWires : Parse (list Wire) := fun s => Ok (wires s, s).

(** The callback of [instPinArray.map(...)]: a pin without a net name
    gets a net named by a fresh [uuid()]. *)
Definition parsePin (uuid : nat → string) (pinXml : InstPinXml)
    : Parse (Pin.t CoordRef) :=
  netName ←
    (if nonEmpty (ipx_netName pinXml) then mret (ipx_netName pinXml)
     else nextUuid uuid);
  net ← getOrCreateNet netName;
  mret (Pin.mk None (ipx_pinName pinXml) (ipx_instTermNumber pinXml) (Some net)).

Fixpoint parsePins (uuid : nat → string) (instPinArray : list InstPinXml)
    : Parse (list (Pin.t CoordRef)) :=
  match instPinArray with
  | [] => mret []
  | pinXml :: rest =>
      pin ← parsePin uuid pinXml;
      pins ← parsePins uuid rest;
      mret (pin :: pins)
  end.

(** [ADS_COMPONENTS_MAP.get(libraryName + ":" + cellName)
     || ADS_COMPONENTS_MAP.get(cellName)]. *)
Definition lookupStencil (catalog : gmap string Stencil)
    (libraryName cellName : string) : option Stencil :=
  match catalog !! (libraryName +:+ ":" +:+ cellName) with
  | Some s => Some s
  | None => catalog !! cellName
  end.

(** The reducer of [instanceArray.reduce(...)]. *)
Definition parseInstance (trig : Trig) (pr : Printer) (uuid : nat → string)
    (catalog : gmap string Stencil) (scale : Qc) (instanceXml : InstanceXml)
    : Parse unit :=
  match lookupStencil catalog (ix_libraryName instanceXml) (ix_cellName instanceXml) with
  | None =>
      logError (SkippingNotIdentifiedComponent (ix_instanceName instanceXml)
                  (ix_libraryName instanceXml) (ix_cellName instanceXml))
  | Some componentStencil =>
      let placement := placementOf (ix_placement instanceXml) scale in
      pins ← parsePins uuid (ix_instPins instanceXml);
      ws ← getWires;
      component ← onStore (useAsStencil trig pr componentStencil
                             (ix_instanceName instanceXml) pins placement ws);
      pushComponent component
  end.

Fixpoint parseInstances (trig : Trig) (pr : Printer) (uuid : nat → string)
    (catalog : gmap string Stencil) (scale : Qc) (instanceArray : list InstanceXml)
    : Parse unit :=
  match instanceArray with
  | [] => mret tt
  | instanceXml :: rest =>
      _ ← parseInstance trig pr uuid catalog scale instanceXml;
      parseInstances trig pr uuid catalog scale rest
  end.

(** [#parse(schematicView, scale)]: the wires, then the instances. *)
Definition parse (trig : Trig) (pr : Printer) (uuid : nat → string)
    (catalog : gmap string Stencil) (scale : Qc)
    (wireArray : list WireXml) (instanceArray : list InstanceXml) : Parse unit :=
  ws ← parseWires scale wireArray;
  _ ← setWires ws;
  parseInstances trig pr uuid catalog scale instanceArray.

(** [Schematic.fromXML(node)]. *)
Definition fromXML (trig : Trig) (pr : Printer) (uuid : nat → string)
    (catalog : gmap string Stencil) (scale : Qc)
    (wireArray : list WireXml) (instanceArray : list InstanceXml) : result t :=
  match parse trig pr uuid catalog scale wireArray instanceArray new with
  | Ok (_, schematic) => Ok schematic
  | Throw e => Throw e
  end.

End Schematic.

(** ** Serialization *)

Fixpoint repeatString (s : string) (n : nat) : string :=
  match n with
  | O => ""
  | S n' => s +:+ repeatString s n'
  end.

Definition tab : string := String (ascii_of_nat 9) "".
Definition newline : string := String (ascii_of_nat 10) "".
Definition backslash : string := String (ascii_of_nat 92) "".

(** [serializeName()]: ["(" + this.x + ", " + this.y + ")"]. *)
Definition serializeName (pr : Printer) (c : Coordinate.t) : string :=
  "(" +:+ showNumber pr (Coordinate.x c) +:+ ", " +:+ showNumber pr (Coordinate.y c) +:+ ")".

(** [pins[i].coord] of a placed component, read for serialization. *)
Definition placedCoord (h : list Coordinate.t) (pins : list (option (Pin.t CoordRef)))
    (i : nat) : result Coordinate.t :=
  pin ← deref (mjoin (pins !! i));
  c ← deref (Pin.coord pin);
  Ok (valueOf h c).

(** [PathComponent.serialize(indent)]. *)
Definition PathComponent_serialize (pr : Printer) (h : list Coordinate.t)
    (this : PathComponent.t (option (Pin.t CoordRef))) (indent : nat) : result string :=
  label ←
    (if nonEmpty (PathComponent.instanceName this) then
       l ← labelOf pr (PathComponent.instanceName this);
       Ok (", l=" +:+ l)
     else Ok "");
  first ← placedCoord h (PathComponent.pins this) 0;
  let start :=
    repeatString tab indent +:+ backslash +:+ "draw[color=blue] "
      +:+ serializeName pr first +:+ " " in
  pinmark ←
    (if bool_decide (PathComponent.angle this = 0)
        || bool_decide (PathComponent.angle this = Qc_of 180) then
       second ← placedCoord h (PathComponent.pins this) 1;
       if bool_decide (Coordinate.x first < Coordinate.x second)
       then Ok (start +:+ "++ (3pt,0) ++ (-1.25pt, -2.5pt) -- ++(2.5pt, 5pt);" +:+ newline)
       else Ok (start +:+ "++ (-3pt,0) ++ (-1.25pt, -2.5pt) -- ++(2.5pt, 5pt);" +:+ newline)
     else if bool_decide (PathComponent.angle this = Qc_of 90)
             || bool_decide (PathComponent.angle this = Qc_of (-90)) then
       second ← placedCoord h (PathComponent.pins this) 1;
       if bool_decide (Coordinate.y first < Coordinate.y second)
       then Ok (start +:+ "++ (0,3pt) ++ (-2.5pt, -1.25pt) -- ++(5pt, 2.5pt);" +:+ newline)
       else Ok (start +:+ "++ (0,-3pt) ++ (-2.5pt, -1.25pt) -- ++(5pt, 2.5pt);" +:+ newline)
     else Ok "");
  first' ← placedCoord h (PathComponent.pins this) 0;
  second' ← placedCoord h (PathComponent.pins this) 1;
  Ok (pinmark +:+ repeatString tab indent +:+ backslash +:+ "draw[color=blue] "
        +:+ serializeName pr first' +:+ " to[" +:+ PathComponent.tikzComponentName this
        +:+ label +:+ "] " +:+ serializeName pr second' +:+ ";").

(** [get coord()] of a placed transistor. *)
Definition Transistor_coord (h : list Coordinate.t)
    (this : Transistor.t (option (Pin.t CoordRef))) : option Coordinate.t :=
  match Transistor.anchor this with
  | AnchorCoord c => Some c
  | AnchorPin nr => valueOf h <$> (mjoin (Transistor.pins this !! nr) ≫= Pin.coord)
  end.

(** [NodeComponent.serialize(indent)] on a transistor; [debug] is
    [global.DEBUG]. *)
Definition Transistor_serialize (pr : Printer) (debug : bool) (h : list Coordinate.t)
    (this : Transistor.t (option (Pin.t CoordRef))) (indent : nat) : result string :=
  text ← Transistor.nodeText pr (Transistor.instanceName this);
  let text :=
    if nonEmpty text && (Transistor.mirrorX this || Transistor.mirrorY this)
    then backslash +:+ "scalebox{" +:+ (if Transistor.mirrorY this then "-1" else "1")
           +:+ "}[" +:+ (if Transistor.mirrorX this then "-1" else "1") +:+ "]{" +:+ text +:+ "}"
    else text in
  let turned := negb (bool_decide (Transistor.angle this = 0)) in
  let text :=
    if nonEmpty text && turned
    then backslash +:+ "rotatebox{" +:+ showNumber pr (- Transistor.angle this)
           +:+ "}{" +:+ text +:+ "}"
    else text in
  coord ← deref (Transistor_coord h this);
  Ok (repeatString tab indent
        +:+ backslash +:+ (if debug then "node[color=blue, " else "node[")
        +:+ Transistor.tikzComponentName this
        +:+ (if Transistor.mirrorX this then ", yscale=-1" else "")
        +:+ (if Transistor.mirrorY this then ", xscale=-1" else "")
        +:+ (if turned then ", rotate=" +:+ showNumber pr (Transistor.angle this) else "")
        +:+ "] "
        +:+ (if nonEmpty (Transistor.nodeName this)
             then "(" +:+ Transistor.nodeName this +:+ ") " else "")
        +:+ "at " +:+ serializeName pr coord +:+ " {" +:+ text +:+ "};").

(** ** Entries of the catalog (components.mjs) *)

Definition TWO_POLE_COMPONENT_LENGTH : Qc := 1.

Definition ZERO_COORD : Coordinate.t := Coordinate.mk 0 0.
Definition ZERO_PIN : Pin.t Coordinate.t := Pin.mk (Some ZERO_COORD) "" 1 None.
Definition TRANSISTOR_TOP_PIN : Pin.t Coordinate.t :=
  Pin.mk (Some (Coordinate.mk (Q2Qc (5 # 10)) (Q2Qc (5 # 10)))) "" 1 None.
Definition TRANSISTOR_TAP_PIN : Pin.t Coordinate.t := Pin.mk (Some ZERO_COORD) "" 2 None.
Definition TRANSISTOR_BOTTOM_PIN : Pin.t Coordinate.t :=
  Pin.mk (Some (Coordinate.mk (Q2Qc (5 # 10)) (- Q2Qc (5 # 10)))) "" 3 None.
Definition TWO_POLE_SECOND_PIN : Pin.t Coordinate.t :=
  Pin.mk (Some (Coordinate.mk TWO_POLE_COMPONENT_LENGTH 0)) "" 2 None.
Definition TWO_POLE_COMPONENT_PINS : list (Pin.t Coordinate.t) :=
  [ZERO_PIN; TWO_POLE_SECOND_PIN].

(** [TIKZ_COMPONENTS.ground], [.R], [.npn], [.nmos], [.nigfete] and
    [TIKZ_COMPONENTS["op amp"]]. *)
Definition TIKZ_ground : PotentialComponent.stencil :=
  PotentialComponent.mkStencil "ground" false (PotentialComponent.IsCoordinate ZERO_COORD).

Definition TIKZ_R : PathComponent.t (Pin.t Coordinate.t) :=
  PathComponent.mk "R" "" TWO_POLE_COMPONENT_PINS 0 false false.

Definition TIKZ_npn : Transistor.stencil :=
  Transistor.fromStruct "npn"
    (Transistor.mkOptions None (Some (Q2Qc (6 # 10))) (Some 0) (Some (Q2Qc (11 # 10)))).

Definition TIKZ_nmos : Transistor.stencil :=
  Transistor.fromStruct "nmos"
    (Transistor.mkOptions None (Some (Q2Qc (7 # 10))) (Some 0) (Some (Q2Qc (11 # 10)))).

Definition TIKZ_nigfete : Transistor.stencil :=
  Transistor.fromStruct "nigfete"
    (Transistor.mkOptions None (Some (Q2Qc (7 # 10))) (Some (- Q2Qc (35 # 100)))
       (Some (Q2Qc (11 # 10)))).

Definition TIKZ_op_amp : Transistor.stencil :=
  Transistor.mkStencil "op amp" ""
    [ Pin.mk (Some (Coordinate.mk (- (Q2Qc (14 # 10) * Q2Qc (17 # 10) * Q2Qc (5 # 10)))
                                  (Q2Qc (14 # 10) * Q2Qc (14 # 10) * Q2Qc (5 # 10) * Q2Qc (5 # 10))))
             "-" 0 None;
      Pin.mk (Some (Coordinate.mk (- (Q2Qc (14 # 10) * Q2Qc (17 # 10) * Q2Qc (5 # 10)))
                                  (- (Q2Qc (14 # 10) * Q2Qc (14 # 10) * Q2Qc (5 # 10) * Q2Qc (5 # 10)))))
             "+" 0 None;
      Pin.mk (Some (Coordinate.mk (Q2Qc (14 # 10) * Q2Qc (17 # 10) * Q2Qc (5 # 10)) 0))
             "out" 0 None ]
    (AnchorCoord ZERO_COORD).

(** [ADS_TIKZ_MAPPERS.BJT], [.SIMPLE_FETN] and the mappers of ["EE_MOS1"]
    and ["OpAmp"]. *)
Definition MAPPER_BJT : ABLTransistorMapper.t :=
  ABLTransistorMapper.mk TIKZ_npn
    [TRANSISTOR_TOP_PIN; TRANSISTOR_BOTTOM_PIN; TRANSISTOR_TAP_PIN] 2.

Definition MAPPER_SIMPLE_FETN : ABLTransistorMapper.t :=
  ABLTransistorMapper.mk TIKZ_nmos
    [TRANSISTOR_TOP_PIN; TRANSISTOR_BOTTOM_PIN; TRANSISTOR_TAP_PIN] 2.

Definition MAPPER_EE_MOS1 : ABLTransistorMapper.t :=
  ABLTransistorMapper.mk TIKZ_nigfete
    [TRANSISTOR_TOP_PIN; TRANSISTOR_BOTTOM_PIN; TRANSISTOR_TAP_PIN] 2.

Definition MAPPER_OpAmp : ABLTransistorMapper.t :=
  ABLTransistorMapper.mk TIKZ_op_amp
    [ Pin.mk (Some ZERO_COORD) "P__0" 1 None;
      Pin.mk (Some (Coordinate.mk 0 (- Q2Qc (5 # 10)))) "P__2" 3 None;
      Pin.mk (Some (Coordinate.mk 1 (- Q2Qc (25 # 100)))) "P__1" 2 None ]
    0.

(** The part of [ADS_COMPONENTS_MAP] over these entries. *)
Definition ADS_COMPONENTS_MAP : gmap string Stencil :=
  list_to_map
    [ ("GROUND", StencilPotential TIKZ_ground);
      ("R", StencilPath TIKZ_R);
      ("EE_MOS1", StencilMapper MAPPER_EE_MOS1);
      ("ads_rflib:FET", StencilMapper MAPPER_SIMPLE_FETN);
      ("BJT_NPN", StencilMapper MAPPER_BJT);
      ("OpAmp", StencilMapper MAPPER_OpAmp) ].

(** * The geometry of the oriented placement in binary64

    The numbers of the program are IEEE 754 binary64 values.  Where a
    property depends on rounding, overflow or the absorption of a small
    summand, the functions are embedded a second time over the kernel's
    binary64 numbers, with the source's operations in the source's
    order.  [x ** 2] is the correctly rounded square. *)

Module F64.

#[local] Open Scope float_scope.
#[local] Set Warnings "-inexact-float".

(** A call returns, throws, or is still running when the fuel of its
    loops is used up. *)
Inductive outcome (A : Type) : Type :=
  | Returns (a : A)
  | Throws (e : Exn)
  | Running.
Arguments Returns {A} a.
Arguments Throws {A} e.
Arguments Running {A}.

#[global] Instance outcome_ret : MRet outcome := fun _ a => Returns a.
#[global] Instance outcome_bind : MBind outcome := fun _ _ f m =>
  match m with
  | Returns a => f a
  | Throws e => Throws e
  | Running => Running
  end.

Definition deref {A : Type} (o : option A) : outcome A :=
  match o with
  | Some a => Returns a
  | None => Throws TypeError
  end.

(** [Math.cos] and [Math.sin], on radians. *)
Record Trig : Type := { cos : float → float; sin : float → float }.

(** [Math.PI]. *)
Definition PI : float := 0x1.921fb54442d18p+1.

(** [while (angle <= -180) angle += 360;] with at most [fuel] rounds. *)
Fixpoint raiseAngle (fuel : nat) (angle : float) : outcome float :=
  if angle <=? -180 then
    match fuel with
    | O => Running
    | S fuel' => raiseAngle fuel' (angle + 360)
    end
  else Returns angle.

(** [while (angle > 180) angle -= 360;] with at most [fuel] rounds. *)
Fixpoint lowerAngle (fuel : nat) (angle : float) : outcome float :=
  if 180 <? angle then
    match fuel with
    | O => Running
    | S fuel' => lowerAngle fuel' (angle - 360)
    end
  else Returns angle.

(** The two loops, one after the other. *)
Definition normalizeAngle (fuel : nat) (angle : float) : outcome float :=
  angle ← raiseAngle fuel angle;
  lowerAngle fuel angle.

Module Coordinate.

Record t : Type := mk { x : float; y : float }.

(** [equals(other)], with [===] on numbers. *)
Definition equals (this : t) (other : option t) : bool :=
  match other with
  | None => false
  | Some o => (x this =? x o) && (y this =? y o)
  end.

Definition add (this other : t) : t := mk (x this + x other) (y this + y other).

Definition subtract (this other : t) : t := mk (x this - x other) (y this - y other).

Definition clone (this : t) : t := mk (x this) (y this).

(** [scale(scaleX, scaleY)]; [scaleY] is a number or [true]. *)
Inductive scaleY_arg : Type :=
  | Factor (q : float)
  | UseScaleX.

Definition scale (this : t) (scaleX : float) (scaleY : scaleY_arg) : t :=
  let x' := if is_finite scaleX then x this * scaleX else x this in
  let y' :=
    match scaleY with
    | Factor sy => if is_finite sy then y this * sy else y this
    | UseScaleX => if is_finite scaleX then y this * scaleX else y this
    end in
  mk x' y'.

Definition mirrorX (this : t) : t := mk (x this) (- y this).
Definition mirrorY (this : t) : t := mk (- x this) (y this).

(** [getDistance(other)]. *)
Definition getDistance (this other : t) : float :=
  sqrt ((x this - x other) * (x this - x other) + (y this - y other) * (y this - y other)).

(** [orthogonalProjection(lineStart, lineEnd)]. *)
Definition orthogonalProjection (this lineStart lineEnd : t) : t :=
  let lineVector := subtract (clone lineEnd) lineStart in
  let helpVector := subtract (clone this) lineStart in
  let lambda :=
    (x lineVector * x helpVector + y lineVector * y helpVector)
    / (x lineVector * x lineVector + y lineVector * y lineVector) in
  add (scale lineVector lambda UseScaleX) lineStart.

(** [rotate(angle, centerCoord)]. *)
Definition rotate (fuel : nat) (trig : Trig) (this : t) (angle : float)
    (centerCoord : option t) : outcome t :=
  angle ← normalizeAngle fuel angle;
  let p := match centerCoord with Some c => subtract this c | None => this end in
  let r :=
    if angle =? 0 then p
    else if angle =? 90 then mk (- y p) (x p)
    else if angle =? 180 then mk (- x p) (- y p)
    else if angle =? -90 then mk (y p) (- x p)
    else
      let radians := (PI / 180) * angle in
      mk (cos trig radians * x p - sin trig radians * y p)
         (sin trig radians * x p + cos trig radians * y p) in
  Returns (match centerCoord with Some c => add r c | None => r end).

End Coordinate.

(** [pins[i].coord]. *)
Definition coordAt (pins : list (Pin.t Coordinate.t)) (i : nat) : outcome Coordinate.t :=
  pin ← deref (pins !! i);
  deref (Pin.coord pin).

(** [pins[i].coord] mutated in place by [f]. *)
Definition updateAt (f : Coordinate.t → outcome Coordinate.t)
    (pins : list (Pin.t Coordinate.t)) (i : nat) : outcome (list (Pin.t Coordinate.t)) :=
  pin ← deref (pins !! i);
  c ← deref (Pin.coord pin);
  c' ← f c;
  Returns (<[i := Pin.setCoord pin (Some c')]> pins).

Fixpoint forIndices (body : list (Pin.t Coordinate.t) → nat → outcome (list (Pin.t Coordinate.t)))
    (indices : list nat) (pins : list (Pin.t Coordinate.t))
    : outcome (list (Pin.t Coordinate.t)) :=
  match indices with
  | [] => Returns pins
  | i :: rest => pins' ← body pins i; forIndices body rest pins'
  end.

Definition forPins (body : list (Pin.t Coordinate.t) → nat → outcome (list (Pin.t Coordinate.t)))
    (pins : list (Pin.t Coordinate.t)) : outcome (list (Pin.t Coordinate.t)) :=
  forIndices body (seq 0 (length pins)) pins.

(** [if (mirrorX) c.y = -c.y; if (mirrorY) c.x = -c.x;]. *)
Definition flip (mirrorX mirrorY : bool) (c : Coordinate.t) : Coordinate.t :=
  let c := if mirrorX then Coordinate.mk (Coordinate.x c) (- Coordinate.y c) else c in
  if mirrorY then Coordinate.mk (- Coordinate.x c) (Coordinate.y c) else c.

(** [mirrorMid]: the coordinate object of a pin, or an object of its own. *)
Inductive anchor_t : Type :=
  | AnchorPin (anchorNr : nat)
  | AnchorCoord (anchorCoord : Coordinate.t).

(** One round of the loop of [mirror] (its guard always holds); when
    [mirrorMid] is the coordinate of pin [i], the subtraction and the
    addition act on one object. *)
Definition mirrorStep (mirrorX mirrorY : bool) (anchor : anchor_t)
    (pins : list (Pin.t Coordinate.t)) (i : nat) : outcome (list (Pin.t Coordinate.t)) :=
  pin ← deref (pins !! i);
  mirrorCoord ← deref (Pin.coord pin);
  match anchor with
  | AnchorCoord mirrorMid =>
      Returns (<[i := Pin.setCoord pin (Some
            (Coordinate.add (flip mirrorX mirrorY (Coordinate.subtract mirrorCoord mirrorMid))
                            mirrorMid))]> pins)
  | AnchorPin anchorNr =>
      if bool_decide (i = anchorNr) then
        let afterSubtract := Coordinate.subtract mirrorCoord mirrorCoord in
        let afterFlip := flip mirrorX mirrorY afterSubtract in
        Returns (<[i := Pin.setCoord pin (Some (Coordinate.add afterFlip afterFlip))]> pins)
      else
        mirrorMid ← coordAt pins anchorNr;
        Returns (<[i := Pin.setCoord pin (Some
              (Coordinate.add (flip mirrorX mirrorY (Coordinate.subtract mirrorCoord mirrorMid))
                              mirrorMid))]> pins)
  end.

(** [get lineCrossingCoord()]. *)
Definition lineCrossingCoordOf (pins : list (Pin.t Coordinate.t)) : outcome Coordinate.t :=
  tap ← coordAt pins 2;
  top ← coordAt pins 0;
  bottom ← coordAt pins 1;
  Returns (Coordinate.orthogonalProjection tap top bottom).

(** [pins.map((pin) => pin.deepClone())]. *)
Fixpoint deepClonePins (pins : list (Pin.t Coordinate.t)) : outcome (list (Pin.t Coordinate.t)) :=
  match pins with
  | [] => Returns []
  | pin :: rest =>
      c ← deref (Pin.coord pin);
      rest' ← deepClonePins rest;
      Returns (Pin.setCoord pin (Some (Coordinate.clone c)) :: rest')
  end.

Module Transistor.

(** The pins, the anchor and the angle of a transistor: the fields that
    take part in its geometry. *)
Record t : Type := mk {
  pins : list (Pin.t Coordinate.t);
  anchor : anchor_t;
  angle : float
}.

(** [Transistor.fromStruct(tikzComponentName, anchorNames, options)]. *)
Definition fromStruct (pgfCircRlen width connHeight height : option float) : t :=
  let pgfCircRlen := default 1.4 pgfCircRlen in
  let width := default 0.7 width in
  let connHeight := default 0.5 connHeight in
  let height := default 1.1 height in
  let halfHeight := pgfCircRlen * height * 0.5 in
  let width := pgfCircRlen * width in
  mk [ Pin.mk (Some (Coordinate.mk 0 halfHeight)) "" 0 None;
       Pin.mk (Some (Coordinate.mk 0 (- halfHeight))) "" 0 None;
       Pin.mk (Some (Coordinate.mk (- width) (halfHeight * connHeight))) "" 0 None ]
     (AnchorCoord (Coordinate.mk 0 0)) 0.

(** [deepClone()] of a stencil of the catalog (no instance name, so the
    node text is empty): the clone's angle starts at 0. *)
Definition deepClone (this : t) : outcome t :=
  pins' ← deepClonePins (pins this);
  let anchor' :=
    match anchor this with
    | AnchorPin nr => AnchorPin nr
    | AnchorCoord c => AnchorCoord (Coordinate.clone c)
    end in
  Returns (mk pins' anchor' 0).

(** [rotate(angle)]. *)
Definition rotate (fuel : nat) (trig : Trig) (this : t) (angle : float) : outcome t :=
  if negb (is_finite angle) || (angle =? 0) then Returns this
  else
    pins' ← forPins (fun pins i =>
               match anchor this with
               | AnchorPin nr =>
                   if bool_decide (i = nr) then Returns pins
                   else updateAt (fun c => Coordinate.rotate fuel trig c angle None) pins i
               | AnchorCoord _ =>
                   updateAt (fun c => Coordinate.rotate fuel trig c angle None) pins i
               end) (pins this);
    angle' ← normalizeAngle fuel (Transistor.angle this + angle);
    Returns (mk pins' (anchor this) angle').

(** [mirror(mirrorX, mirrorY)]. *)
Definition mirror (this : t) (mirrorX mirrorY : bool) : outcome t :=
  if negb (mirrorX || mirrorY) then Returns this
  else
    pins' ← forPins (mirrorStep mirrorX mirrorY (anchor this)) (pins this);
    Returns (mk pins' (anchor this) (angle this)).

(** [translate(vector)]. *)
Definition translate (this : t) (vector : Coordinate.t) : t :=
  mk (map (fun pin => Pin.setCoord pin ((fun c => Coordinate.add c vector) <$> Pin.coord pin))
          (pins this))
     match anchor this with
     | AnchorPin nr => AnchorPin nr
     | AnchorCoord c => AnchorCoord (Coordinate.add c vector)
     end
     (angle this).

Definition lineCrossingCoord (this : t) : outcome Coordinate.t :=
  lineCrossingCoordOf (pins this).

End Transistor.

(** The numbers of a placement. *)
Record Placement : Type := mkPlacement {
  pl_x : float;
  pl_y : float;
  pl_angle : float;
  pl_xScale : float;
  pl_yScale : float;
  pl_mirrorX : bool;
  pl_mirrorY : bool;
  pl_scaling : float
}.

Module ABLTransistorMapper.

Record t : Type := mk {
  tikzTransistor : Transistor.t;
  pins : list (Pin.t Coordinate.t);
  anchorNr : nat
}.

Definition clone (this : t) : outcome t :=
  pins' ← deepClonePins (pins this);
  Returns (mk (tikzTransistor this) pins' (anchorNr this)).

Definition lineCrossingCoord (this : t) : outcome Coordinate.t :=
  lineCrossingCoordOf (pins this).

Definition rotate (fuel : nat) (trig : Trig) (this : t) (angle : float) : outcome t :=
  if negb (is_finite angle) || (angle =? 0) then Returns this
  else
    pins' ← forPins (fun pins i =>
               if bool_decide (i = anchorNr this) then Returns pins
               else updateAt (fun c => Coordinate.rotate fuel trig c angle None) pins i)
             (pins this);
    Returns (mk (tikzTransistor this) pins' (anchorNr this)).

Definition mirror (this : t) (mirrorX mirrorY : bool) : outcome t :=
  if negb (mirrorX || mirrorY) then Returns this
  else
    _ ← deref (pins this !! anchorNr this);
    pins' ← forPins (mirrorStep mirrorX mirrorY (AnchorPin (anchorNr this))) (pins this);
    Returns (mk (tikzTransistor this) pins' (anchorNr this)).

Definition translate (this : t) (vector : Coordinate.t) : outcome t :=
  pins' ← forPins (updateAt (fun c => Returns (Coordinate.add c vector))) (pins this);
  Returns (mk (tikzTransistor this) pins' (anchorNr this)).

Definition scalePins (this : t) (sx sy : float) : outcome t :=
  pins' ← forPins (updateAt (fun c => Returns (Coordinate.scale c sx (Coordinate.Factor sy))))
             (pins this);
  Returns (mk (tikzTransistor this) pins' (anchorNr this)).

(** The placed anatomical triangle: [ablTransistorClone] after
    [clone], [scale], [rotate], [mirror] and [translate(instanceCoord)]. *)
Definition placed (fuel : nat) (trig : Trig) (this : t) (placement : Placement)
    : outcome t :=
  let instanceCoord :=
    Coordinate.mk (pl_x placement * pl_scaling placement)
                  (pl_y placement * pl_scaling placement) in
  ablTransistorClone ← clone this;
  ablTransistorClone ← scalePins ablTransistorClone
      (pl_xScale placement * pl_scaling placement)
      (pl_yScale placement * pl_scaling placement);
  ablTransistorClone ← rotate fuel trig ablTransistorClone (pl_angle placement);
  ablTransistorClone ← mirror ablTransistorClone (pl_mirrorX placement) (pl_mirrorY placement);
  translate ablTransistorClone instanceCoord.

(** The render template before its alignment: [transistor] after
    [deepClone], [rotate] and [mirror]. *)
Definition turned (fuel : nat) (trig : Trig) (this : t) (placement : Placement)
    : outcome Transistor.t :=
  transistor ← Transistor.deepClone (tikzTransistor this);
  transistor ← Transistor.rotate fuel trig transistor (pl_angle placement);
  Transistor.mirror transistor (pl_mirrorX placement) (pl_mirrorY placement).

(** The first half of [useAsStencil] after the normalization of the
    angle: the placed anatomical triangle and the aligned render
    template, [ablTransistorClone] and [transistor] after
    [transistor.translate(ablTransistorClone.lineCrossingCoord.clone()
                            .subtract(transistor.lineCrossingCoord))]. *)
Definition align (fuel : nat) (trig : Trig) (this : t) (placement : Placement)
    : outcome (t * Transistor.t) :=
  ablTransistorClone ← placed fuel trig this placement;
  transistor ← turned fuel trig this placement;
  ablCrossing ← lineCrossingCoord ablTransistorClone;
  tikzCrossing ← Transistor.lineCrossingCoord transistor;
  Returns (ablTransistorClone,
           Transistor.translate transistor
             (Coordinate.subtract (Coordinate.clone ablCrossing) tikzCrossing)).

End ABLTransistorMapper.

(** [TIKZ_COMPONENTS.npn] and [ADS_TIKZ_MAPPERS.BJT] (components.mjs). *)
Definition TIKZ_npn : Transistor.t :=
  Transistor.fromStruct None (Some 0.6) (Some 0) (Some 1.1).

Definition MAPPER_BJT : ABLTransistorMapper.t :=
  ABLTransistorMapper.mk TIKZ_npn
    [ Pin.mk (Some (Coordinate.mk 0.5 0.5)) "" 1 None;
      Pin.mk (Some (Coordinate.mk 0.5 (-0.5))) "" 3 None;
      Pin.mk (Some (Coordinate.mk 0 0)) "" 2 None ]
    2.

(** A trigonometry that is never asked (the angles of the examples are
    quarter turns). *)
Definition noTrig : Trig := {| cos := fun _ => 0; sin := fun _ => 0 |}.

End F64.

(** ** Notions used to state the properties *)

(** A string all of whose characters satisfy [f]. *)
Fixpoint allChars (f : ascii → bool) (s : string) : bool :=
  match s with
  | EmptyString => true
  | String c s' => f c && allChars f s'
  end.

(** The instance names of the form letters, an optional [_] or [-],
    digits; [name] and [index] are the two parts. *)
Definition NamePattern (s name index : string) : Prop :=
  ∃ sep, s = name +:+ sep +:+ index
    ∧ name ≠ "" ∧ allChars isLetter name = true
    ∧ (sep = "" ∨ sep = "_" ∨ sep = "-")
    ∧ index ≠ "" ∧ allChars isDigit index = true.

(** Two schematics that differ at most in what was written to the console. *)
Definition sameButConsole (s1 s2 : Schematic.t) : Prop :=
  Schematic.store s1 = Schematic.store s2
  ∧ Schematic.nets s1 = Schematic.nets s2
  ∧ Schematic.netObjects s1 = Schematic.netObjects s2
  ∧ Schematic.wires s1 = Schematic.wires s2
  ∧ Schematic.components s1 = Schematic.components s2
  ∧ Schematic.uuidCalls s1 = Schematic.uuidCalls s2.

(** A parsing step that never reads the console: from two schematics that
    agree up to the console it throws in both or returns the same value in
    both, writes the same entries to both consoles, and the schematics
    still agree up to the console. *)
Definition consoleBlind {A : Type} (m : StateM Schematic.t A) : Prop :=
  ∀ s1 s2, sameButConsole s1 s2 →
    match m s1, m s2 with
    | Ok (a1, s1'), Ok (a2, s2') =>
        a1 = a2 ∧ sameButConsole s1' s2'
        ∧ ∃ written, Schematic.console s1' = Schematic.console s1 ++ written
                   ∧ Schematic.console s2' = Schematic.console s2 ++ written
    | Throw e1, Throw e2 => e1 = e2
    | _, _ => False
    end.

(** The value a computation returns, if it returns. *)
Definition returned {A S : Type} (r : result (A * S)) : option A :=
  match r with
  | Ok (a, _) => Some a
  | Throw _ => None
  end.

(** The store a computation leaves, if it returns. *)
Definition finalStore {A : Type} (r : result (A * Store)) : option Store :=
  match r with
  | Ok (_, s) => Some s
  | Throw _ => None
  end.

(** Some inputs for concrete runs. *)
Definition noTrig : Trig := {| cosd := fun _ => 0; sind := fun _ => 0 |}.
Definition noPrinter : Printer := {| showNumber := fun _ => "0" |}.
Definition point (x y : Z) : Coordinate.t := Coordinate.mk (Qc_of x) (Qc_of y).

(** A placement at the origin: no rotation, no mirroring, unit scales. *)
Definition atOrigin : Placement := mkPlacement 0 0 0 1 1 false false 1.

(** A store whose pool holds the instance coordinate (0,0) and two wire
    vertices on net 0: one at distance 5 and one at distance exactly 1. *)
Definition boundaryStore : Store :=
  mkStore [point 0 0; point 5 0; point 1 0] [Some 0; Some 1; Some 2]%nat.
Definition farWire : Wire := mkWire 0%nat [1%nat].
Definition edgeWire : Wire := mkWire 0%nat [2%nat].

(** Live pins of an instance, each on a net of its own, by terminal number. *)
Definition livePins (terminals : list Z) : list (Pin.t CoordRef) :=
  imap (fun i n => Pin.mk None "" n (Some i)) terminals.

(** A computation all of whose returning runs relate the state before to
    the state after by [R]. *)
Definition keeps {S A : Type} (R : S → S → Prop) (m : StateM S A) : Prop :=
  ∀ s a s', m s = Ok (a, s') → R s s'.

(** The net table and the [Net] objects agree: the table holds object [r]
    under the name [n] exactly when object [r] is the net named [n].  So
    there is one object per name, and one name per object. *)
Definition netsConsistent (s : Schematic.t) : Prop :=
  ∀ n r, Schematic.nets s !! n = Some r ↔ Schematic.netObjects s !! r = Some (mkNet n).

(** Every entry of the net table is still there, with the same object. *)
Definition netsPreserved (s s' : Schematic.t) : Prop :=
  ∀ n r, Schematic.nets s !! n = Some r → Schematic.nets s' !! n = Some r.

Definition netsStep (s s' : Schematic.t) : Prop :=
  netsPreserved s s' ∧ (netsConsistent s → netsConsistent s').

(** The name under which an instance pin finds its net: its net name, or
    the identifier [uuid()] returns when it has none. *)
Definition pinNetName (uuid : nat → string) (s : Schematic.t) (pinXml : InstPinXml) : string :=
  if nonEmpty (ipx_netName pinXml) then ipx_netName pinXml
  else uuid (Schematic.uuidCalls s).

(** The claim that a wire and an instance pin that carry one net name
    resolve to one [Net] object, whatever the name. *)
Definition netSharedByWireAndPin (uuid : nat → string) : Prop :=
  ∀ scale wireXml pinXml s wire s1 pin s2,
    wx_netName wireXml = ipx_netName pinXml →
    Schematic.parseWire scale wireXml s = Ok (wire, s1) →
    Schematic.parsePin uuid pinXml s1 = Ok (pin, s2) →
    Pin.net pin = Some (wire_net wire).

(** ** Notions for the oriented placement *)

Definition hasCoord (p : Pin.t Coordinate.t) : bool :=
  match Pin.coord p with
  | Some _ => true
  | None => false
  end.

(** Exactly three pins, each with a coordinate: top, bottom and tap. *)
Definition threeTerminals (pins : list (Pin.t Coordinate.t)) : bool :=
  match pins with
  | [p0; p1; p2] => hasCoord p0 && hasCoord p1 && hasCoord p2
  | _ => false
  end.

(** A transistor stencil with three terminals, an anchor among them if it
    has an anchor pin, and an instance name that has a node text. *)
Definition wellFormedStencil (t : Transistor.stencil) : bool :=
  threeTerminals (Transistor.s_pins t)
  && match Transistor.s_anchor t with
     | AnchorPin nr => (nr <? 3)%nat
     | AnchorCoord _ => true
     end
  && (negb (nonEmpty (Transistor.s_instanceName t))
      || bool_decide (is_Some (matchInstanceName (Transistor.s_instanceName t)))).

(** A mapper as the constructor documents it: three anatomical pins, the
    anchor one of them, and a well-formed TikZ transistor. *)
Definition wellFormedMapper (m : ABLTransistorMapper.t) : bool :=
  threeTerminals (ABLTransistorMapper.pins m)
  && (ABLTransistorMapper.anchorNr m <? 3)%nat
  && wellFormedStencil (ABLTransistorMapper.tikzTransistor m).

(** The anchor terminal is the origin of the stencil's own coordinates, as
    in every mapper of the catalog (the anchor pins are [ZERO_COORD]). *)
Definition anchoredAtOrigin (m : ABLTransistorMapper.t) : bool :=
  bool_decide ((ABLTransistorMapper.pins m !! ABLTransistorMapper.anchorNr m) ≫= Pin.coord
               = Some (Coordinate.mk 0 0))
  && match Transistor.s_anchor (ABLTransistorMapper.tikzTransistor m) with
     | AnchorPin nr =>
         bool_decide
           ((Transistor.s_pins (ABLTransistorMapper.tikzTransistor m) !! nr) ≫= Pin.coord
            = Some (Coordinate.mk 0 0))
     | AnchorCoord _ => true
     end.

(** The factor [lambda] of [orthogonalProjection]. *)
Definition lineLambda (p a b : Coordinate.t) : Qc :=
  ((Coordinate.x b - Coordinate.x a) * (Coordinate.x p - Coordinate.x a)
   + (Coordinate.y b - Coordinate.y a) * (Coordinate.y p - Coordinate.y a))
  / ((Coordinate.x b - Coordinate.x a) * (Coordinate.x b - Coordinate.x a)
     + (Coordinate.y b - Coordinate.y a) * (Coordinate.y b - Coordinate.y a)).















(** The placement of an instance at (0.1, 0.7), not turned, not
    mirrored, at the scale 2.54 of [#parse]; in binary64 and in exact
    arithmetic. *)
#[local] Set Warnings "-inexact-float".
Definition offGrid64 (mirrorX : bool) : F64.Placement :=
  F64.mkPlacement 0.1 0.7 0 1 1 mirrorX false 2.54.
#[local] Set Warnings "inexact-float".



(** ** Notions for the coordinate pool *)

(** Every coordinate object of the first store still exists in the
    second, at its address and with its value: the second heap extends
    the first. *)
Definition heapKept (s s' : Store) : Prop := heap s `prefix_of` heap s'.

(** The candidate, if there is one, is an object of the heap. *)
Definition validRef (s : Store) (c : option CoordRef) : Prop :=
  ∀ r, c = Some r → (r < length (heap s))%nat.

(** The pool holds objects of the heap. *)
Definition poolWf (s : Store) : Prop :=
  ∀ r, Some r ∈ coords s → (r < length (heap s))%nat.

(** No two entries of the pool are value-equal: two positions of the pool
    whose coordinates have the same value are one position (and so hold
    one object). *)
Definition poolDistinct (s : Store) : Prop :=
  ∀ i j r1 r2,
    coords s !! i = Some (Some r1) → coords s !! j = Some (Some r2) →
    valueOf (heap s) r1 = valueOf (heap s) r2 → i = j.

Definition poolInv (s : Store) : Prop := poolWf s ∧ poolDistinct s.

(** The oriented (three-terminal) stencils of the catalog. *)
Definition isOriented (stencil : Stencil) : bool :=
  match stencil with
  | StencilMapper _ => true
  | _ => false
  end.

Definition orientedFree (catalog : gmap string Stencil) : Prop :=
  map_Forall (fun _ stencil => isOriented stencil = false) catalog.

(** A step of parsing keeps every coordinate object and the pool
    invariant. *)
Definition poolStep (s s' : Schematic.t) : Prop :=
  heapKept (Schematic.store s) (Schematic.store s')
  ∧ (poolInv (Schematic.store s) → poolInv (Schematic.store s')).

(** The coordinate at address [r] is held by a pin of a placed
    transistor. *)
Definition orientedPinHolds (component : Placed) (r : CoordRef) : Prop :=
  match component with
  | PlacedTransistor c => ∃ pin, Some pin ∈ Transistor.pins c ∧ Pin.coord pin = Some r
  | _ => False
  end.

(** The last pin of [pins] below the index [bound] that holds the
    coordinate object [r] is the pin at the index [i]. *)
Definition lastHolder (pins : list (option (Pin.t CoordRef))) (bound : nat)
    (r : CoordRef) (i : nat) : Prop :=
  (i < bound)%nat
  ∧ (∃ pin, pins !! i = Some (Some pin) ∧ Pin.coord pin = Some r)
  ∧ ∀ j pin, (i < j < bound)%nat → pins !! j = Some (Some pin) → Pin.coord pin ≠ Some r.

(** "No placement changes the value of a pooled coordinate." *)
Definition pooledValuesKept (trig : Trig) (pr : Printer) : Prop :=
  ∀ stencil instanceName pins placement wires s component s' r,
    useAsStencil trig pr stencil instanceName pins placement wires s = Ok (component, s') →
    Some r ∈ coords s →
    valueOf (heap s') r = valueOf (heap s) r.

(** The scale [#parse] is run with: its default, [scale = 2.54]. *)
Definition defaultScale : Qc := Q2Qc (254 # 100).

(** "No two pool entries are ever value-equal", of the schematics
    [Schematic.fromXML] returns over the catalog. *)
Definition poolAlwaysDistinct (trig : Trig) (pr : Printer) (uuid : nat → string) : Prop :=
  ∀ wireArray instanceArray schematic,
    Schematic.fromXML trig pr uuid ADS_COMPONENTS_MAP defaultScale wireArray instanceArray
      = Ok schematic →
    poolDistinct (Schematic.store schematic).

(** A wire on net 1 (the net of the second of [livePins]) with a vertex at
    the origin, where the base of a transistor placed at the origin lies,
    and a vertex away from the transistor. *)
Definition baseWireStore : Store := mkStore [point 0 0; point 5 5] [Some 0; Some 1]%nat.
Definition baseWire : Wire := mkWire 1%nat [0%nat; 1%nat].

(** The same as a schematic view: a wire on the base's net with a vertex
    at the origin, a wire of another net with a vertex at (-17/50, 0),
    and the transistor; and a second transistor in the place of the
    first. *)
Definition baseWireXml : WireXml := mkWireXml "b" [Some (0, 0)].
Definition otherWireXml : WireXml := mkWireXml "z" [Some (- Q2Qc (17 # 50), 0)].
Definition npnXml : InstanceXml :=
  mkInstanceXml "" "BJT_NPN" "Q1"
    (Some (mkPlacementXml (Some 0) (Some 0) (Some 0) (Some 1) (Some 1) false false))
    [mkInstPinXml 1 "" "c"; mkInstPinXml 2 "" "b"; mkInstPinXml 3 "" "e"].
Definition secondNpnXml : InstanceXml :=
  mkInstanceXml "" "BJT_NPN" "Q2"
    (Some (mkPlacementXml (Some 0) (Some 0) (Some 0) (Some 1) (Some 1) false false))
    [mkInstPinXml 1 "" "c"; mkInstPinXml 2 "" "b"; mkInstPinXml 3 "" "e"].

(** A pool of two coordinates and a candidate, at address 2, with the
    value of the first. *)
Definition junctionStore : Store :=
  mkStore [point 0 0; point 1 0; point 0 0] [Some 0; Some 1]%nat.

(** A wire and a resistor, and a catalog of the resistor alone. *)
Definition resistorXml : InstanceXml :=
  mkInstanceXml "" "R" "R1"
    (Some (mkPlacementXml (Some 0) (Some 0) (Some 0) (Some 1) (Some 1) false false))
    [mkInstPinXml 1 "" "b"; mkInstPinXml 2 "" "out"].
Definition resistorCatalog : gmap string Stencil := {[ "R" := StencilPath TIKZ_R ]}.

(** ** Notions for the nets of a whole view *)

(** Two pin objects that differ at most in their coordinate. *)
Definition samePin (p p' : Pin.t CoordRef) : Prop :=
  Pin.name p' = Pin.name p
  ∧ Pin.instTermNumber p' = Pin.instTermNumber p
  ∧ Pin.net p' = Pin.net p.

(** The pins of a placed component. *)
Definition placedPins (component : Placed) : list (Pin.t CoordRef) :=
  match component with
  | PlacedPath c => omap id (PathComponent.pins c)
  | PlacedPotential c => option_list (PotentialComponent.pin c)
  | PlacedTransistor c => omap id (Transistor.pins c)
  end.

(** The number of instance pins without a net name: the [uuid()] calls
    their parsing makes. *)
Definition unnamedPins (instPins : list InstPinXml) : nat :=
  length (filter (fun p => ipx_netName p = "") instPins).

(** The names under which the pins of an instance look up their nets, in
    document order: the net name of the pin, or for a pin without one
    the identifier of the next [uuid()] call, [k] calls having been made
    before. *)
Fixpoint resolvedNames (uuid : nat → string) (k : nat) (instPins : list InstPinXml)
    : list string :=
  match instPins with
  | [] => []
  | p :: rest =>
      if nonEmpty (ipx_netName p) then ipx_netName p :: resolvedNames uuid k rest
      else uuid k :: resolvedNames uuid (S k) rest
  end.

(** The instances [#parse] places, those with a catalog entry, each with
    the number of [uuid()] calls made before its pins are parsed. *)
Fixpoint placedInstances (catalog : gmap string Stencil) (k : nat)
    (instanceArray : list InstanceXml) : list (nat * InstanceXml) :=
  match instanceArray with
  | [] => []
  | instanceXml :: rest =>
      match Schematic.lookupStencil catalog (ix_libraryName instanceXml) (ix_cellName instanceXml) with
      | Some _ =>
          (k, instanceXml)
            :: placedInstances catalog (k + unnamedPins (ix_instPins instanceXml)) rest
      | None => placedInstances catalog k rest
      end
  end.

(** The pin object [pin] is the one parsed from an [instpin] element of
    the instance, and its net is the table's [Net] for the name that
    element resolves to. *)
Definition pinResolved (uuid : nat → string) (nets : gmap string NetRef)
    (position : nat * InstanceXml) (pin : Pin.t CoordRef) : Prop :=
  ∃ i pinXml name r,
    ix_instPins position.2 !! i = Some pinXml
    ∧ resolvedNames uuid position.1 (ix_instPins position.2) !! i = Some name
    ∧ Pin.name pin = ipx_pinName pinXml
    ∧ Pin.instTermNumber pin = ipx_instTermNumber pinXml
    ∧ Pin.net pin = Some r
    ∧ nets !! name = Some r.

(** The identifiers [uuid()] returns are pairwise different and are not
    net names of the view. *)
Definition uuidsFresh (uuid : nat → string) (wireArray : list WireXml)
    (instanceArray : list InstanceXml) : Prop :=
  (∀ k k', uuid k = uuid k' → k = k')
  ∧ (∀ k wireXml, wireXml ∈ wireArray → wx_netName wireXml ≠ uuid k)
  ∧ (∀ k instanceXml pinXml,
       instanceXml ∈ instanceArray → pinXml ∈ ix_instPins instanceXml →
       ipx_netName pinXml ≠ uuid k).

(** The name the element [i] of the placed instance [j] resolves to. *)
Definition resolvedAt (uuid : nat → string) (placed : list (nat * InstanceXml))
    (j i : nat) (pinXml : InstPinXml) (name : string) : Prop :=
  ∃ position,
    placed !! j = Some position
    ∧ ix_instPins position.2 !! i = Some pinXml
    ∧ resolvedNames uuid position.1 (ix_instPins position.2) !! i = Some name.

(** A view for the nets: a wire on the net [b], a wire without a net
    name, and a resistor with a pin on [b] and a pin without a net name;
    and a generator of identifiers: the call [k] returns [k + 1] letters
    [u]. *)
Definition unnamedWireXml : WireXml := mkWireXml "" [Some (1, 0)].
Definition danglingResistorXml : InstanceXml :=
  mkInstanceXml "" "R" "R1"
    (Some (mkPlacementXml (Some 0) (Some 0) (Some 0) (Some 1) (Some 1) false false))
    [mkInstPinXml 1 "" "b"; mkInstPinXml 2 "" ""].
Definition lettersUuid (k : nat) : string := repeatString "u" (S k).

(** ** Notions for the search of a pin's position *)

(** The distance from the pin's computed coordinate to a vertex. *)
Definition distTo (h : list Coordinate.t) (c v : CoordRef) : Dist :=
  Fin (Coordinate.getDistance2 (valueOf h c) (valueOf h v)).

(** [v] is a vertex of a wire of [wires] on net [n]. *)
Definition vertexOnNet (wires : list Wire) (n : NetRef) (v : CoordRef) : Prop :=
  ∃ wire, wire ∈ wires ∧ wire_net wire = n ∧ v ∈ wire_coords wire.

(** * Further notions and models *)



(** ** Notions for the outcome of a placement *)

(** An angle of a whole number of degrees of a size at which binary64
    counts exactly: the normalization loops of the source then compute
    without rounding and end, with the value of [normalizeAngle]. *)
Definition wholeDegrees (angle : Qc) : Prop :=
  ∃ k : Z, angle = Qc_of k ∧ (Z.abs k ≤ 2 ^ 52)%Z.

(** A placement at the origin, turned by 270 degrees, at the scale of
    [#parse]. *)
Definition turnedPlacement : Placement :=
  mkPlacement 0 0 (Qc_of 270) 1 1 false false defaultScale.

(** Every stencil pin has a live pin that the reordering selects for it. *)
Definition allMatched {C : Type} (stencilPins : list (Pin.t C)) (pins : list (Pin.t CoordRef))
    : Prop :=
  ∀ ablPin, ablPin ∈ stencilPins → ∃ pin, pin ∈ pins ∧ pinMatches ablPin pin = true.

(** ** Notions for the growth of the pool *)

(** The pool of the second store extends the pool of the first, entry by
    entry, and the heap has not shrunk. *)
Definition poolGrows (s s' : Store) : Prop :=
  coords s `prefix_of` coords s' ∧ (length (heap s) ≤ length (heap s'))%nat.

Definition schematicPoolGrows (s s' : Schematic.t) : Prop :=
  poolGrows (Schematic.store s) (Schematic.store s').

(** Every vertex of the wires is an entry of the pool. *)
Definition wiresPooled (wires : list Wire) (s : Store) : Prop :=
  ∀ wire v, wire ∈ wires → v ∈ wire_coords wire → Some v ∈ coords s.

(** The coordinates the pins of a list hold. *)
Definition pinCoords (pins : list (Pin.t CoordRef)) : list CoordRef :=
  omap Pin.coord pins.

(** The coordinates the pins of a placed component hold. *)
Definition placedCoords (component : Placed) : list CoordRef :=
  match component with
  | PlacedPath c => pinCoords (omap id (PathComponent.pins c))
  | PlacedPotential c => pinCoords (option_list (PotentialComponent.pin c))
  | PlacedTransistor c => pinCoords (omap id (Transistor.pins c))
  end.

(** Every coordinate of the list is an entry of the pool. *)
Definition pooled (l : list CoordRef) (s : Store) : Prop :=
  ∀ v, v ∈ l → Some v ∈ coords s.

(** Every vertex of the wires and every coordinate of a pin of a placed
    component is an entry of the pool. *)
Definition coordsInUsePooled (s : Schematic.t) : Prop :=
  wiresPooled (Schematic.wires s) (Schematic.store s)
  ∧ ∀ component, component ∈ Schematic.components s →
      pooled (placedCoords component) (Schematic.store s).

(** The wire list and the component list are as before. *)
Definition sameLists (s s' : Schematic.t) : Prop :=
  Schematic.wires s' = Schematic.wires s
  ∧ Schematic.components s' = Schematic.components s.

(** ** Notions for the parsing of a view *)

(** The coordinate a token of a wire stands for. *)
Definition tokenCoord (scale : Qc) (token : Qc * Qc) : Coordinate.t :=
  Coordinate.mk (scale * token.1) (scale * token.2).

(** The tokens of a wire that [parseFloat] could read. *)
Definition parsableTokens (wireXml : WireXml) : list (Qc * Qc) :=
  omap id (wx_points wireXml).

(** The number of tokens of the wires that [parseFloat] could not read. *)
Definition unparsableCount (wireArray : list WireXml) : nat :=
  length (filter (fun token => token = None) (mjoin (wx_points <$> wireArray))).

(** The component list and the console are as before. *)
Definition sameOutput (s s' : Schematic.t) : Prop :=
  Schematic.components s' = Schematic.components s
  ∧ Schematic.console s' = Schematic.console s.

(** The instances of a view that the catalog knows. *)
Definition knownInstances (catalog : gmap string Stencil) (instanceArray : list InstanceXml)
    : list InstanceXml :=
  filter (fun instanceXml =>
            is_Some (Schematic.lookupStencil catalog (ix_libraryName instanceXml)
                       (ix_cellName instanceXml))) instanceArray.

(** The warnings for the instances of a view that the catalog does not
    know, in the order of the view. *)
Definition skipWarnings (catalog : gmap string Stencil) (instanceArray : list InstanceXml)
    : list LogEntry :=
  (fun instanceXml =>
     SkippingNotIdentifiedComponent (ix_instanceName instanceXml)
       (ix_libraryName instanceXml) (ix_cellName instanceXml))
  <$> filter (fun instanceXml =>
                Schematic.lookupStencil catalog (ix_libraryName instanceXml)
                  (ix_cellName instanceXml) = None) instanceArray.

(** ** The normalization loops, as written *)

(** [while (angle <= -180) angle += 360], with a bound on the rounds. *)
Fixpoint raiseAngle (fuel : nat) (angle : Qc) : option Qc :=
  if bool_decide (angle <= Qc_of (-180)) then
    match fuel with
    | O => None
    | S fuel' => raiseAngle fuel' (angle + Qc_of 360)
    end
  else Some angle.

(** [while (angle > 180) angle -= 360], with a bound on the rounds. *)
Fixpoint lowerAngle (fuel : nat) (angle : Qc) : option Qc :=
  if bool_decide (Qc_of 180 < angle) then
    match fuel with
    | O => None
    | S fuel' => lowerAngle fuel' (angle - Qc_of 360)
    end
  else Some angle.

Definition normalizeLoop (fuel : nat) (angle : Qc) : option Qc :=
  raiseAngle fuel angle ≫= lowerAngle fuel.

(** ** Quarter turns *)

(** The representative of [k] quarter turns among -1, 0, 1 and 2. *)
Definition quarter (k : Z) : Z := (2 - (2 - k) mod 4)%Z.

(** The rotation about the origin by [quarter k] quarter turns, as the
    four exact cases of [rotate] write it. *)
Definition quarterTurn (k : Z) (c : Coordinate.t) : Coordinate.t :=
  match quarter k with
  | 0%Z => c
  | 1%Z => Coordinate.mk (- Coordinate.y c) (Coordinate.x c)
  | 2%Z => Coordinate.mk (- Coordinate.x c) (- Coordinate.y c)
  | _ => Coordinate.mk (Coordinate.y c) (- Coordinate.x c)
  end.

(** ** Mirroring about an anchor pin *)

(** The reflection of [c] about [mid] that the loop of [mirror] computes
    for a coordinate other than [mid] itself. *)
Definition mirroredAbout (mirrorX mirrorY : bool) (mid c : Coordinate.t) : Coordinate.t :=
  Coordinate.add (flip mirrorX mirrorY (Coordinate.subtract c mid)) mid.

(** Where [mirror] leaves the coordinate [c] of the pin [i], [mid] being
    the anchor coordinate at the call. *)
Definition mirrorTarget (mirrorX mirrorY : bool) (anchorNr : nat) (mid : Coordinate.t)
    (i : nat) (c : Coordinate.t) : Coordinate.t :=
  if decide (i < anchorNr)%nat then mirroredAbout mirrorX mirrorY mid c
  else if decide (i = anchorNr) then Coordinate.mk 0 0
  else flip mirrorX mirrorY c.

(** The pins after the first [k] rounds of the loop. *)
Definition mirroredPins (mirrorX mirrorY : bool) (anchorNr : nat) (mid : Coordinate.t)
    (k : nat) (pins : list (Pin.t Coordinate.t)) : list (Pin.t Coordinate.t) :=
  imap (fun i pin =>
          if decide (i < k)%nat
          then Pin.setCoord pin (mirrorTarget mirrorX mirrorY anchorNr mid i <$> Pin.coord pin)
          else pin) pins.

(** ** Printing a schematic (wire.mjs, nodeComponent.mjs, schematic.mjs) *)

(** [Array.prototype.join(sep)] on strings. *)
Fixpoint joinStrings (sep : string) (l : list string) : string :=
  match l with
  | [] => ""
  | [s] => s
  | s :: rest => s +:+ sep +:+ joinStrings sep rest
  end.

(** [Wire.serialize(indent)]. *)
Definition Wire_serialize (pr : Printer) (h : list Coordinate.t) (this : Wire)
    (indent : nat) : string :=
  repeatString tab indent +:+ backslash +:+ "draw[Rays-Rays,red] "
    +:+ joinStrings " -- " (map (fun coord => serializeName pr (valueOf h coord))
                                (wire_coords this))
    +:+ ";".

(** [get nodeText()] of a potential:
    [this.potentialType.printNetName ? (this.pin?.net?.getPrettyName() || "") : ""].
    A [Net] has no method [getPrettyName], so the call throws whenever
    the pin has a net. *)
Definition PotentialComponent_nodeText (this : PotentialComponent.t) : result string :=
  if PotentialComponent.printNetName this then
    match PotentialComponent.pin this ≫= Pin.net with
    | Some _ => Throw TypeError
    | None => Ok ""
    end
  else Ok "".

(** [get coord()] of a potential, [this.pin.coord], as it is read for
    [serializeName()]. *)
Definition PotentialComponent_coord (h : list Coordinate.t) (this : PotentialComponent.t)
    : result Coordinate.t :=
  pin ← deref (PotentialComponent.pin this);
  c ← deref (Pin.coord pin);
  Ok (valueOf h c).

(** [NodeComponent.serialize(indent)] on a potential, which has no
    [nodeName]; [debug] is [global.DEBUG]. *)
Definition PotentialComponent_serialize (pr : Printer) (debug : bool)
    (h : list Coordinate.t) (this : PotentialComponent.t) (indent : nat) : result string :=
  text ← PotentialComponent_nodeText this;
  let text :=
    if nonEmpty text && (PotentialComponent.mirrorX this || PotentialComponent.mirrorY this)
    then backslash +:+ "scalebox{" +:+ (if PotentialComponent.mirrorY this then "-1" else "1")
           +:+ "}[" +:+ (if PotentialComponent.mirrorX this then "-1" else "1")
           +:+ "]{" +:+ text +:+ "}"
    else text in
  let turned := negb (bool_decide (PotentialComponent.angle this = 0)) in
  let text :=
    if nonEmpty text && turned
    then backslash +:+ "rotatebox{" +:+ showNumber pr (- PotentialComponent.angle this)
           +:+ "}{" +:+ text +:+ "}"
    else text in
  coord ← PotentialComponent_coord h this;
  Ok (repeatString tab indent
        +:+ backslash +:+ (if debug then "node[color=blue, " else "node[")
        +:+ PotentialComponent.tikzComponentName this
        +:+ (if PotentialComponent.mirrorX this then ", yscale=-1" else "")
        +:+ (if PotentialComponent.mirrorY this then ", xscale=-1" else "")
        +:+ (if turned then ", rotate=" +:+ showNumber pr (PotentialComponent.angle this)
             else "")
        +:+ "] "
        +:+ "at " +:+ serializeName pr coord +:+ " {" +:+ text +:+ "};").

(** [component.serialize(indent)], by the class of the component. *)
Definition Placed_serialize (pr : Printer) (debug : bool) (h : list Coordinate.t)
    (component : Placed) (indent : nat) : result string :=
  match component with
  | PlacedPath c => PathComponent_serialize pr h c indent
  | PlacedPotential c => PotentialComponent_serialize pr debug h c indent
  | PlacedTransistor c => Transistor_serialize pr debug h c indent
  end.

(** [println(line)] on a stream that takes every write: the chunks
    written so far gain [line + "\n"]. *)
Definition println (line : string) (out : list string) : list string :=
  out ++ [line +:+ newline].

(** [for (const wire of this.#wires) await println(wire.serialize(1))]. *)
Definition printWires (pr : Printer) (h : list Coordinate.t) (wires : list Wire)
    (out : list string) : list string :=
  fold_left (fun out wire => println (Wire_serialize pr h wire 1) out) wires out.

(** [for (const component of this.#components) await println(component.serialize(1))]:
    what was written, and whether the loop ended or threw. *)
Fixpoint printComponents (pr : Printer) (debug : bool) (h : list Coordinate.t)
    (components : list Placed) (out : list string) : list string * result unit :=
  match components with
  | [] => (out, Ok tt)
  | component :: rest =>
      match Placed_serialize pr debug h component 1 with
      | Ok line => printComponents pr debug h rest (println line out)
      | Throw e => (out, Throw e)
      end
  end.

(** [printToStream(out)]: the chunks on the stream at the end, and
    whether the promise is fulfilled or rejected. *)
Definition printToStream (pr : Printer) (debug : bool) (this : Schematic.t)
    (out : list string) : list string * result unit :=
  let h := heap (Schematic.store this) in
  let out := println (backslash +:+ "begin{tikzpicture}") out in
  let out := printWires pr h (Schematic.wires this) out in
  let out := println "" out in
  match printComponents pr debug h (Schematic.components this) out with
  | (out, Ok _) => (println (backslash +:+ "end{tikzpicture}") out, Ok tt)
  | (out, Throw e) => (out, Throw e)
  end.

(** The chunks of a picture before its components. *)
Definition pictureHead (pr : Printer) (this : Schematic.t) : list string :=
  [(backslash +:+ "begin{tikzpicture}") +:+ newline]
  ++ map (fun wire => Wire_serialize pr (heap (Schematic.store this)) wire 1 +:+ newline)
         (Schematic.wires this)
  ++ ["" +:+ newline].

(** ** Which schematics are printed in full *)

(** An instance name the label pattern accepts, or no name. *)
Definition printableName (instanceName : string) : bool :=
  negb (nonEmpty instanceName) || bool_decide (is_Some (matchInstanceName instanceName)).

(** A placed component whose name, or whose type for a potential, lets
    the serializers through. *)
Definition printable (component : Placed) : bool :=
  match component with
  | PlacedPath c => printableName (PathComponent.instanceName c)
  | PlacedPotential c => negb (PotentialComponent.printNetName c)
  | PlacedTransistor c => printableName (Transistor.instanceName c)
  end.

(** What the serializers read besides the name: the first two pins of a
    path component and their coordinates, the pin of a potential with its
    coordinate and net, the anchor coordinate of a transistor. *)
Definition wellPlaced (component : Placed) : Prop :=
  match component with
  | PlacedPath c =>
      ∃ p0 p1, PathComponent.pins c !! 0%nat = Some (Some p0)
               ∧ PathComponent.pins c !! 1%nat = Some (Some p1)
               ∧ is_Some (Pin.coord p0) ∧ is_Some (Pin.coord p1)
  | PlacedPotential c =>
      ∃ pin, PotentialComponent.pin c = Some pin
             ∧ is_Some (Pin.coord pin) ∧ is_Some (Pin.net pin)
  | PlacedTransistor c => ∃ anchorCoord, Transistor.anchor c = AnchorCoord anchorCoord
  end.

(** The stencils of the catalog: two-poles have (at least) two pins, and
    transistors are built without an anchor pin. *)
Definition stencilShape (stencil : Stencil) : Prop :=
  match stencil with
  | StencilPath s => (2 ≤ length (PathComponent.pins s))%nat
  | StencilPotential _ => True
  | StencilMapper m =>
      ∃ anchorCoord,
        Transistor.s_anchor (ABLTransistorMapper.tikzTransistor m) = AnchorCoord anchorCoord
  end.

(** ** The XML helpers (converter.mjs) *)

Module Converter.

(** What a helper throws: [new Error(message)], or the [TypeError] of
    reading a property of [undefined]. *)
Inductive Thrown : Type :=
  | JsError (message : string)
  | JsTypeError.

Inductive outcome (A : Type) : Type :=
  | Returned (a : A)
  | Threw (e : Thrown).
Arguments Returned {A} a.
Arguments Threw {A} e.

#[global] Instance outcome_ret : MRet outcome := fun _ a => Returned a.
#[global] Instance outcome_bind : MBind outcome := fun _ _ f m =>
  match m with
  | Returned a => f a
  | Threw e => Threw e
  end.

(** A DOM node: an element ([nodeType === 1]) with its local name, its
    attributes and its children, or a node of another type (text,
    comment, ...), which has no children of interest. *)
#[warnings="-register-all"] Inductive Node : Type :=
  | Element (localName : string) (attributes : list (string * string))
            (childNodes : list Node)
  | Other.

(** [root.childNodes]; [root] may be [undefined]. *)
Definition childNodesOf (root : option Node) : outcome (list Node) :=
  match root with
  | None => Threw JsTypeError
  | Some (Element _ _ childNodes) => Returned childNodes
  | Some Other => Returned []
  end.

(** The value of the attribute [name] among [attributes]; [None] is the
    [null] of a missing attribute. *)
Definition attributeOf (attributes : list (string * string)) (name : string)
    : option string :=
  snd <$> List.find (fun attribute => String.eqb (fst attribute) name) attributes.

(** [node.getAttribute(name) == text] on an element: [null] equals no
    string.  (Nodes of other types are never asked, see [isNamed] and
    [attributeEquals].) *)
Definition attributeIs (node : Node) (name text : string) : bool :=
  match node with
  | Element _ attributes _ =>
      match attributeOf attributes name with
      | Some value => String.eqb value text
      | None => false
      end
  | Other => false
  end.

(** [node.getAttribute(name) == text] on any node: a node that is not an
    element has no method [getAttribute]. *)
Definition attributeEquals (name text : string) (node : Node) : outcome bool :=
  match node with
  | Element _ _ _ => Returned (attributeIs node name text)
  | Other => Threw JsTypeError
  end.

(** [Array.prototype.find] with a predicate that may throw. *)
Fixpoint findFirst (predicate : Node → outcome bool) (l : list Node)
    : outcome (option Node) :=
  match l with
  | [] => Returned None
  | node :: rest =>
      predicate node ≫= fun found : bool =>
        if found then Returned (Some node) else findFirst predicate rest
  end.

(** The predicate of [getNamedTag] and [getNamedTags]:
    [node.nodeType === 1 && node.localName
     && node.localName.toLowerCase() == tagName
     && (!additionalFilter || additionalFilter(node))];
    [lower] is [String.prototype.toLowerCase]. *)
Definition isNamed (lower : string → string) (tagName : string)
    (additionalFilter : option (Node → bool)) (node : Node) : bool :=
  match node with
  | Element localName _ _ =>
      nonEmpty localName && String.eqb (lower localName) tagName
      && match additionalFilter with
         | Some f => f node
         | None => true
         end
  | Other => false
  end.

(** [getNamedTag(root, tagName, additionalFilter)]; [None] is [undefined]. *)
Definition getNamedTag (lower : string → string) (root : option Node) (tagName : string)
    (additionalFilter : option (Node → bool)) : outcome (option Node) :=
  childNodes ← childNodesOf root;
  Returned (List.find (isNamed lower tagName additionalFilter) childNodes).

(** [getNamedTags(root, tagName, additionalFilter)]. *)
Definition getNamedTags (lower : string → string) (root : option Node) (tagName : string)
    (additionalFilter : option (Node → bool)) : outcome (list Node) :=
  childNodes ← childNodesOf root;
  Returned (List.filter (isNamed lower tagName additionalFilter) childNodes).

(** [assertTagFound(variable, tagname)] on a node that may be [undefined]
    (the check of an empty array applies to arrays only). *)
Definition assertTagFound (variable : option Node) (tagname : string) : outcome unit :=
  match variable with
  | Some _ => Returned tt
  | None => Threw (JsError ("XML-Tag not found: " +:+ tagname))
  end.

(** The double quote of the messages. *)
Definition quote : string := String (ascii_of_nat 34) EmptyString.

(** [findCell(cellArray, cellname)]. *)
Definition findCell (cellArray : list Node) (cellname : string) : outcome Node :=
  if String.eqb cellname "" then
    match cellArray with
    | thisCell :: _ => Returned thisCell
    | [] => Threw (JsError "No cells found")
    end
  else
    thisCell ← findFirst (attributeEquals "name" cellname) cellArray;
    match thisCell with
    | Some thisCell => Returned thisCell
    | None => Threw (JsError ("Cell " +:+ quote +:+ cellname +:+ quote +:+ " not found"))
    end.

(** [getSchematicViews(cell)]. *)
Definition getSchematicViews (lower : string → string) (cell : Node) : outcome (list Node) :=
  views ← getNamedTag lower (Some cell) "views" None;
  match views with
  | None => Returned []
  | Some views =>
      getNamedTags lower (Some views) "schematicview"
        (Some (fun node => attributeIs node "type" "schematic"))
  end.

(** [findSchematicView(schematicViewArray, schematicViewName)]. *)
Definition findSchematicView (schematicViewArray : list Node) (schematicViewName : string)
    : outcome Node :=
  if String.eqb schematicViewName "" then
    match schematicViewArray with
    | thisSchematicView :: _ => Returned thisSchematicView
    | [] => Threw (JsError "Error: No schematic found")
    end
  else
    thisSchematicView ← findFirst (attributeEquals "name" schematicViewName)
                          schematicViewArray;
    match thisSchematicView with
    | Some thisSchematicView => Returned thisSchematicView
    | None =>
        Threw (JsError ("Error: Schematic " +:+ quote +:+ schematicViewName +:+ quote
                          +:+ " not found"))
    end.

(** [parseFile] after the document is parsed: the cells of
    [documentElement], which is [None] for a document without a root. *)
Definition cellsOf (lower : string → string) (ABLRoot : option Node) : outcome (list Node) :=
  _ ← assertTagFound ABLRoot "The XML root tag";
  Library ← getNamedTag lower ABLRoot "library" None;
  _ ← assertTagFound Library "library";
  Cells ← getNamedTag lower Library "cells" None;
  _ ← assertTagFound Cells "cells";
  getNamedTags lower Cells "cell" None.

(** The chain of the [convert] command up to the schematic view:
    [findCell], [getSchematicViews], [findSchematicView]. *)
Definition selectView (lower : string → string) (cellArray : list Node)
    (cellname schematicname : string) : outcome Node :=
  cell ← findCell cellArray cellname;
  views ← getSchematicViews lower cell;
  findSchematicView views schematicname.

(** Step 1 of [Schematic.#parse]: the [wire] elements and the [instance]
    elements of a schematic view.  The second assertion checks [shapes]
    again, not [instances]. *)
Definition sectionsOf (lower : string → string) (schematicView : Node)
    : outcome (list Node * list Node) :=
  shapes ← getNamedTag lower (Some schematicView) "shapes" None;
  _ ← assertTagFound shapes "shapes";
  wireArray ← getNamedTags lower shapes "wire" None;
  instances ← getNamedTag lower (Some schematicView) "instances" None;
  _ ← assertTagFound shapes "instances";
  instanceArray ← getNamedTags lower instances "instance" None;
  Returned (wireArray, instanceArray).

(** The reducer of the chain of a wire element:
    [(node, tagname) => { node = Converter.getNamedTag(node, tagname);
                          Converter.assertTagFound(node, tagname);
                          return node; }]. *)
Definition descend (lower : string → string) (node : option Node) (tagname : string)
    : outcome (option Node) :=
  node ← getNamedTag lower node tagname None;
  _ ← assertTagFound node tagname;
  Returned node.

(** [tagnames.reduce(descend, root)]. *)
Fixpoint reduceTags (lower : string → string) (tagnames : list string) (node : option Node)
    : outcome (option Node) :=
  match tagnames with
  | [] => Returned node
  | tagname :: rest => descend lower node tagname ≫= reduceTags lower rest
  end.

(** Step 2 of [Schematic.#parse], for one wire element: the node that
    holds the coordinates,
    [["genpolyline", "centerline", "points"].reduce(descend, wireXml)]. *)
Definition pointsOf (lower : string → string) (wireXml : Node) : outcome (option Node) :=
  reduceTags lower ["genpolyline"; "centerline"; "points"] (Some wireXml).

End Converter.

(** The first child element of [root] with the (lower-case) name
    [tagName], if any. *)
Definition firstChild (lower : string → string) (root : Converter.Node) (tagName : string)
    : option Converter.Node :=
  match root with
  | Converter.Element _ _ childNodes =>
      List.find (Converter.isNamed lower tagName None) childNodes
  | Converter.Other => None
  end.

(** The child elements of [root] with the name [tagName], in document
    order. *)
Definition childrenNamed (lower : string → string) (root : Converter.Node) (tagName : string)
    : list Converter.Node :=
  match root with
  | Converter.Element _ _ childNodes =>
      List.filter (Converter.isNamed lower tagName None) childNodes
  | Converter.Other => []
  end.

(** The schematic views of a cell: the [schematicview] children with the
    type [schematic] of its first [views] child. *)
Definition schematicViewsOf (lower : string → string) (cell : Converter.Node)
    : list Converter.Node :=
  match firstChild lower cell "views" with
  | Some views =>
      List.filter (fun node => Converter.attributeIs node "type" "schematic")
                  (childrenNamed lower views "schematicview")
  | None => []
  end.

(** An element node. *)
Definition isElement (node : Converter.Node) : bool :=
  match node with
  | Converter.Element _ _ _ => true
  | Converter.Other => false
  end.

(** What a name given on the command line selects: any node for the
    empty name, else the nodes whose attribute [name] is that name. *)
Definition picks (name : string) (node : Converter.Node) : bool :=
  String.eqb name "" || Converter.attributeIs node "name" name.

(** [x] is the first element of [l] that satisfies [f]. *)
Definition firstWith {A : Type} (f : A → bool) (l : list A) (x : A) : Prop :=
  ∃ before after, l = before ++ x :: after
    ∧ f x = true ∧ Forall (fun y => f y = false) before.

(** * Properties *)

#[local] Arguments append !s1 s2 : simpl nomatch.

(** ** Angles *)

Example normalizeAngle_270 : normalizeAngle (Qc_of 270) = Qc_of (-90).
Proof. vm_compute. apply Qc_is_canon. reflexivity. Qed.

Example normalizeAngle_180 : normalizeAngle (Qc_of 180) = Qc_of 180.
Proof. vm_compute. apply Qc_is_canon. reflexivity. Qed.

Example normalizeAngle_minus_180 : normalizeAngle (Qc_of (-180)) = Qc_of 180.
Proof. vm_compute. apply Qc_is_canon. reflexivity. Qed.

Example normalizeAngle_minus_541 : normalizeAngle (Qc_of (-541)) = Qc_of 179.
Proof. vm_compute. apply Qc_is_canon. reflexivity. Qed.

(** ** Coordinate.sum *)

Lemma forEach_throws {A : Type} (f : A → result unit) (a : A) (l : list A) :
  f a = Throw TypeError → forEach f (a :: l) = Throw TypeError.
Proof. intros H. simpl. rewrite H. reflexivity. Qed.

(** C10: [sum] throws a [TypeError] for every non-empty argument list,
    because [add] reaches [forEach] without its receiver; with no argument
    it returns a copy of the coordinate. *)
Theorem sum_detached_add (c : Coordinate.t) (others : list Coordinate.t) :
  Coordinate.sum c others =
    match others with
    | [] => Ok (Coordinate.mk (Coordinate.x c) (Coordinate.y c))
    | _ :: _ => Throw TypeError
    end.
Proof.
  destruct others as [|other others]; [reflexivity|].
  unfold Coordinate.sum. rewrite forEach_throws; reflexivity.
Qed.

(** ** The name pattern *)

Lemma nonEmpty_true (s : string) : nonEmpty s = true ↔ s ≠ "".
Proof.
  unfold nonEmpty. rewrite negb_true_iff. split.
  - intros H ->. by rewrite String.eqb_refl in H.
  - intros H. by apply String.eqb_neq.
Qed.

Lemma nonEmpty_false (s : string) : nonEmpty s = false ↔ s = "".
Proof.
  unfold nonEmpty. rewrite negb_false_iff. apply String.eqb_eq.
Qed.

Lemma spanChars_spec (f : ascii → bool) (s p r : string) :
  spanChars f s = (p, r) →
  s = p +:+ r ∧ allChars f p = true ∧
  match r with EmptyString => True | String c _ => f c = false end.
Proof.
  revert p r. induction s as [|c s IH]; intros p r; simpl.
  - intros [= <- <-]. done.
  - destruct (f c) eqn:Hc.
    + destruct (spanChars f s) as [p' r'] eqn:Hs. intros [= <- <-].
      destruct (IH _ _ eq_refl) as (-> & Hp & Hr). simpl. rewrite Hc. done.
    + intros [= <- <-]. simpl. rewrite Hc. done.
Qed.

Lemma spanChars_app (f : ascii → bool) (p r : string) :
  allChars f p = true →
  match r with EmptyString => True | String c _ => f c = false end →
  spanChars f (p +:+ r) = (p, r).
Proof.
  induction p as [|c p IH]; simpl; intros Hp Hr.
  - destruct r as [|c r]; [done|]. simpl. by rewrite Hr.
  - apply andb_true_iff in Hp as [Hc Hp]. rewrite Hc, (IH Hp Hr). done.
Qed.

Lemma isSeparator_cases (c : ascii) :
  isSeparator c = true → c = "_"%char ∨ c = "-"%char.
Proof.
  unfold isSeparator. intros H. apply orb_true_iff in H as [H|H];
    apply Nat.eqb_eq in H; rewrite <- (ascii_nat_embedding c), H; auto.
Qed.

Lemma isDigit_not_letter (c : ascii) : isDigit c = true → isLetter c = false.
Proof.
  unfold isDigit, isLetter. intros H.
  apply andb_true_iff in H as [H1 H2].
  apply Nat.leb_le in H1, H2.
  apply orb_false_iff. split; apply andb_false_iff; left; apply Nat.leb_gt; lia.
Qed.

Lemma isDigit_not_separator (c : ascii) : isDigit c = true → isSeparator c = false.
Proof.
  unfold isDigit, isSeparator. intros H.
  apply andb_true_iff in H as [H1 H2].
  apply Nat.leb_le in H1, H2.
  apply orb_false_iff. split; apply Nat.eqb_neq; lia.
Qed.

Lemma string_app_empty_r (s : string) : s +:+ "" = s.
Proof. induction s as [|a s IH]; simpl; [done | by rewrite IH]. Qed.

(** The matcher finds exactly the names of the pattern, with their parts. *)
Lemma matchInstanceName_spec (s name index : string) :
  matchInstanceName s = Some (name, index) ↔ NamePattern s name index.
Proof.
  unfold matchInstanceName. split.
  - destruct (spanChars isLetter s) as [letters rest] eqn:H1.
    destruct (spanChars isDigit (dropSeparator rest)) as [digits tail] eqn:H2.
    destruct (nonEmpty letters && nonEmpty digits && negb (nonEmpty tail)) eqn:H3;
      [|done].
    intros [= <- <-].
    apply andb_true_iff in H3 as [H3 Ht]. apply andb_true_iff in H3 as [Hl Hd].
    apply negb_true_iff, nonEmpty_false in Ht. subst tail.
    apply nonEmpty_true in Hl, Hd.
    apply spanChars_spec in H1 as (-> & Hletters & Hrest).
    apply spanChars_spec in H2 as (Hdrop & Hdigits & _).
    rewrite string_app_empty_r in Hdrop.
    destruct rest as [|c rest]; simpl in Hdrop.
    + subst digits. done.
    + destruct (isSeparator c) eqn:Hc.
      * exists (String c ""). subst rest. simpl.
        destruct (isSeparator_cases _ Hc) as [-> | ->]; split_and!; auto.
      * exists "". subst digits. simpl. split_and!; auto.
  - intros (sep & -> & Hl & Hletters & Hsep & Hd & Hdigits).
    assert (Hfirst : ∃ c index', index = String c index' ∧ isDigit c = true).
    { destruct index as [|c index']; [done|]. simpl in Hdigits.
      apply andb_true_iff in Hdigits as [? _]. eauto. }
    destruct Hfirst as (c & index' & Hindex & Hc).
    rewrite (spanChars_app isLetter name (sep +:+ index)); [|done|].
    2:{ destruct Hsep as [-> | [-> | ->]]; subst index; simpl;
          [by apply isDigit_not_letter | done | done]. }
    assert (Hdrop : dropSeparator (sep +:+ index) = index).
    { destruct Hsep as [-> | [-> | ->]]; subst index; simpl;
        [by rewrite (isDigit_not_separator _ Hc) | done | done]. }
    rewrite Hdrop.
    rewrite <- (string_app_empty_r index) at 1.
    rewrite (spanChars_app isDigit index ""); [|done|done].
    apply nonEmpty_true in Hl, Hd. rewrite Hl, Hd. reflexivity.
Qed.

Lemma matchInstanceName_None (s : string) :
  matchInstanceName s = None ↔ ∀ name index, ¬ NamePattern s name index.
Proof.
  split.
  - intros H name index Hp. apply matchInstanceName_spec in Hp. congruence.
  - intros H. destruct (matchInstanceName s) as [[name index]|] eqn:E; [|done].
    apply matchInstanceName_spec in E. by destruct (H name index).
Qed.

Lemma labelOf_throws (pr : Printer) (s : string) :
  (∀ name index, ¬ NamePattern s name index) → labelOf pr s = Throw TypeError.
Proof.
  intros H. apply matchInstanceName_None in H. unfold labelOf. by rewrite H.
Qed.

Lemma labelOf_returns (pr : Printer) (s name index : string) :
  NamePattern s name index →
  labelOf pr s =
    Ok ("${" +:+ name +:+ "}_{" +:+ showNumber pr (Qc_of (parseDigits index)) +:+ "}$").
Proof.
  intros H. pose proof H as (sep & _ & Hname & _).
  apply matchInstanceName_spec in H. unfold labelOf. rewrite H. simpl.
  apply nonEmpty_true in Hname. by rewrite Hname.
Qed.

(** ** Serialization and instance names *)

(** C9: a placed component whose instance name is not empty and not of
    the form letters, optional separator, digits cannot be serialized: the
    path serializer and the node text of a transistor (hence its
    serializer) throw a [TypeError]. *)
Theorem serialize_throws_on_unmatched_name (pr : Printer) (debug : bool)
    (h : list Coordinate.t) (indent : nat) (instanceName : string) :
  instanceName ≠ "" →
  (∀ name index, ¬ NamePattern instanceName name index) →
  (∀ path, PathComponent.instanceName path = instanceName →
     PathComponent_serialize pr h path indent = Throw TypeError)
  ∧ Transistor.nodeText pr instanceName = Throw TypeError
  ∧ (∀ tr, Transistor.instanceName tr = instanceName →
       Transistor_serialize pr debug h tr indent = Throw TypeError).
Proof.
  intros Hne Hpat. apply nonEmpty_true in Hne.
  pose proof (labelOf_throws pr _ Hpat) as Hl.
  assert (Hnt : Transistor.nodeText pr instanceName = Throw TypeError).
  { unfold Transistor.nodeText. by rewrite Hne. }
  split; [|split; [done|]].
  - intros path <-. unfold PathComponent_serialize. rewrite Hne, Hl. reflexivity.
  - intros tr <-. unfold Transistor_serialize. rewrite Hnt. reflexivity.
Qed.

Lemma serialize_throws_on_unmatched_name_witness :
  "Rin" ≠ "" ∧
  PathComponent_serialize {| showNumber := fun _ => "0" |} []
    (PathComponent.mk "R" "Rin" [] 0 false false) 0 = Throw TypeError.
Proof.
  split; [done|].
  destruct (serialize_throws_on_unmatched_name {| showNumber := fun _ => "0" |}
              false [] 0 "Rin") as [Hpath _].
  - done.
  - apply matchInstanceName_None. reflexivity.
  - apply Hpath. reflexivity.
Defined.

(** Serialization succeeds only for the empty name and the names of the
    pattern. *)
Lemma PathComponent_serialize_Ok_name (pr : Printer) (h : list Coordinate.t)
    (path : PathComponent.t (option (Pin.t CoordRef))) (indent : nat) (s : string) :
  PathComponent_serialize pr h path indent = Ok s →
  PathComponent.instanceName path = ""
  ∨ ∃ name index, NamePattern (PathComponent.instanceName path) name index.
Proof.
  intros H.
  destruct (nonEmpty (PathComponent.instanceName path)) eqn:Hne.
  - right. destruct (matchInstanceName (PathComponent.instanceName path))
      as [[name index]|] eqn:Hm.
    + apply matchInstanceName_spec in Hm. eauto.
    + exfalso. unfold PathComponent_serialize, labelOf in H.
      rewrite Hne, Hm in H. discriminate.
  - left. by apply nonEmpty_false.
Qed.

Lemma Transistor_serialize_Ok_name (pr : Printer) (debug : bool) (h : list Coordinate.t)
    (tr : Transistor.t (option (Pin.t CoordRef))) (indent : nat) (s : string) :
  Transistor_serialize pr debug h tr indent = Ok s →
  Transistor.instanceName tr = ""
  ∨ ∃ name index, NamePattern (Transistor.instanceName tr) name index.
Proof.
  intros H.
  destruct (nonEmpty (Transistor.instanceName tr)) eqn:Hne.
  - right. destruct (matchInstanceName (Transistor.instanceName tr))
      as [[name index]|] eqn:Hm.
    + apply matchInstanceName_spec in Hm. eauto.
    + exfalso. unfold Transistor_serialize, Transistor.nodeText, labelOf in H.
      rewrite Hne, Hm in H. discriminate.
  - left. by apply nonEmpty_false.
Qed.

(** ** Instances without a catalog entry *)

Lemma sameButConsole_refl (s : Schematic.t) : sameButConsole s s.
Proof. by repeat split. Qed.

Lemma consoleBlind_ret {A : Type} (a : A) : consoleBlind (mret a).
Proof.
  intros s1 s2 H. simpl. split_and!; [done..|].
  exists []. by rewrite !app_nil_r.
Qed.

Lemma consoleBlind_bind {A B : Type} (m : StateM Schematic.t A)
    (f : A → StateM Schematic.t B) :
  consoleBlind m → (∀ a, consoleBlind (f a)) → consoleBlind (m ≫= f).
Proof.
  intros Hm Hf s1 s2 H. specialize (Hm s1 s2 H).
  unfold mbind, StateM_bind.
  destruct (m s1) as [[a1 s1']|e1], (m s2) as [[a2 s2']|e2]; try done.
  destruct Hm as (<- & Hs & w1 & E1 & E2).
  specialize (Hf a1 s1' s2' Hs).
  destruct (f a1 s1') as [[b1 s1'']|e1], (f a1 s2') as [[b2 s2'']|e2]; try done.
  destruct Hf as (<- & Hs' & w2 & E1' & E2').
  split_and!; [done..|]. exists (w1 ++ w2).
  rewrite E1', E2', E1, E2, !app_assoc. done.
Qed.

Ltac blind_prim :=
  intros [st1 n1 o1 w1 c1 l1 u1] [st2 n2 o2 w2 c2 l2 u2] (Hst & Hn & Ho & Hw & Hc & Hu);
  simpl in *; subst.

Ltac blind_done written :=
  split_and!; [done..|]; exists written; by rewrite ?app_nil_r.

Lemma consoleBlind_onStore {A : Type} (m : Place A) : consoleBlind (Schematic.onStore m).
Proof.
  blind_prim. unfold Schematic.onStore. simpl.
  destruct (m st2) as [[a st]|e]; [|done]. blind_done (@nil LogEntry).
Qed.

Lemma consoleBlind_logError (e : LogEntry) : consoleBlind (Schematic.logError e).
Proof. blind_prim. unfold Schematic.logError. simpl. blind_done [e]. Qed.

Lemma consoleBlind_getOrCreateNet (netName : string) :
  consoleBlind (Schematic.getOrCreateNet netName).
Proof.
  blind_prim. unfold Schematic.getOrCreateNet. simpl.
  destruct (n2 !! netName); blind_done (@nil LogEntry).
Qed.

Lemma consoleBlind_nextUuid (uuid : nat → string) : consoleBlind (Schematic.nextUuid uuid).
Proof. blind_prim. unfold Schematic.nextUuid. simpl. blind_done (@nil LogEntry). Qed.

Lemma consoleBlind_getWires : consoleBlind Schematic.getWires.
Proof. blind_prim. unfold Schematic.getWires. simpl. blind_done (@nil LogEntry). Qed.

Lemma consoleBlind_setWires (ws : list Wire) : consoleBlind (Schematic.setWires ws).
Proof. blind_prim. unfold Schematic.setWires. simpl. blind_done (@nil LogEntry). Qed.

Lemma consoleBlind_pushComponent (c : Placed) : consoleBlind (Schematic.pushComponent c).
Proof. blind_prim. unfold Schematic.pushComponent. simpl. blind_done (@nil LogEntry). Qed.

Create HintDb blind.
#[local] Hint Resolve consoleBlind_ret consoleBlind_onStore consoleBlind_logError
  consoleBlind_getOrCreateNet consoleBlind_nextUuid consoleBlind_getWires
  consoleBlind_setWires consoleBlind_pushComponent : blind.

Ltac blind_steps :=
  repeat first
    [ apply consoleBlind_bind; [|intros ?]
    | solve [auto with blind]
    | match goal with |- consoleBlind (match ?x with _ => _ end) => destruct x end
    | match goal with |- consoleBlind (if ?x then _ else _) => destruct x end ].

Lemma consoleBlind_parseWireCoords (scale : Qc) (tokens : list (option (Qc * Qc)))
    (wireCoords : list CoordRef) :
  consoleBlind (Schematic.parseWireCoords scale wireCoords tokens).
Proof.
  revert wireCoords. induction tokens as [|token tokens IH]; intros wireCoords; simpl.
  - apply consoleBlind_ret.
  - apply consoleBlind_bind; [|intros ?; apply IH].
    unfold Schematic.parseWireCoord. blind_steps.
Qed.

Lemma consoleBlind_parseWires (scale : Qc) (wireArray : list WireXml) :
  consoleBlind (Schematic.parseWires scale wireArray).
Proof.
  induction wireArray as [|wireXml wireArray IH]; simpl.
  - apply consoleBlind_ret.
  - apply consoleBlind_bind.
    + unfold Schematic.parseWire. blind_steps. apply consoleBlind_parseWireCoords.
    + intros ?. apply consoleBlind_bind; [apply IH|]. intros ?. apply consoleBlind_ret.
Qed.

Lemma consoleBlind_parsePins (uuid : nat → string) (instPinArray : list InstPinXml) :
  consoleBlind (Schematic.parsePins uuid instPinArray).
Proof.
  induction instPinArray as [|pinXml instPinArray IH]; simpl.
  - apply consoleBlind_ret.
  - apply consoleBlind_bind.
    + unfold Schematic.parsePin. blind_steps.
    + intros ?. apply consoleBlind_bind; [apply IH|]. intros ?. apply consoleBlind_ret.
Qed.

Lemma consoleBlind_parseInstance trig pr uuid catalog scale instanceXml :
  consoleBlind (Schematic.parseInstance trig pr uuid catalog scale instanceXml).
Proof.
  unfold Schematic.parseInstance.
  destruct (Schematic.lookupStencil _ _ _); [|apply consoleBlind_logError].
  apply consoleBlind_bind; [apply consoleBlind_parsePins|]. intros ?. blind_steps.
Qed.

Lemma consoleBlind_parseInstances trig pr uuid catalog scale instanceArray :
  consoleBlind (Schematic.parseInstances trig pr uuid catalog scale instanceArray).
Proof.
  induction instanceArray as [|instanceXml instanceArray IH]; simpl.
  - apply consoleBlind_ret.
  - apply consoleBlind_bind; [apply consoleBlind_parseInstance|]. intros ?. apply IH.
Qed.

(** An instance without a catalog entry only writes its warning. *)
Lemma parseInstance_unknown trig pr uuid catalog scale instanceXml (s : Schematic.t) :
  Schematic.lookupStencil catalog (ix_libraryName instanceXml) (ix_cellName instanceXml) = None →
  Schematic.parseInstance trig pr uuid catalog scale instanceXml s =
    Ok (tt, Schematic.mk (Schematic.store s) (Schematic.nets s) (Schematic.netObjects s)
              (Schematic.wires s) (Schematic.components s)
              (Schematic.console s ++
                 [SkippingNotIdentifiedComponent (ix_instanceName instanceXml)
                    (ix_libraryName instanceXml) (ix_cellName instanceXml)])
              (Schematic.uuidCalls s)).
Proof. intros H. unfold Schematic.parseInstance. rewrite H. reflexivity. Qed.

Lemma parseInstances_app trig pr uuid catalog scale (l1 l2 : list InstanceXml) (s : Schematic.t) :
  Schematic.parseInstances trig pr uuid catalog scale (l1 ++ l2) s =
    match Schematic.parseInstances trig pr uuid catalog scale l1 s with
    | Ok (_, s') => Schematic.parseInstances trig pr uuid catalog scale l2 s'
    | Throw e => Throw e
    end.
Proof.
  revert s. induction l1 as [|i l1 IH]; intros s; simpl; [done|].
  unfold mbind, StateM_bind.
  destruct (Schematic.parseInstance trig pr uuid catalog scale i s) as [[[] s']|e]; [|done].
  apply IH.
Qed.

(** C8: an instance whose library and cell have no catalog entry is
    skipped with a warning: the schematic built from a view that contains
    it is, up to the console, the schematic built from the view without it
    (in particular the component lists are equal, and the one run throws
    exactly when the other does), and its console holds the warning. *)
Theorem unknown_instance_is_skipped trig pr uuid catalog scale
    (wireArray : list WireXml) (before after : list InstanceXml) (unknown : InstanceXml) :
  Schematic.lookupStencil catalog (ix_libraryName unknown) (ix_cellName unknown) = None →
  match Schematic.fromXML trig pr uuid catalog scale wireArray (before ++ unknown :: after),
        Schematic.fromXML trig pr uuid catalog scale wireArray (before ++ after) with
  | Ok s1, Ok s2 =>
      sameButConsole s1 s2
      ∧ Schematic.components s1 = Schematic.components s2
      ∧ SkippingNotIdentifiedComponent (ix_instanceName unknown)
          (ix_libraryName unknown) (ix_cellName unknown) ∈ Schematic.console s1
  | Throw e1, Throw e2 => e1 = e2
  | _, _ => False
  end.
Proof.
  intros Hunknown. unfold Schematic.fromXML, Schematic.parse.
  unfold mbind, StateM_bind.
  destruct (Schematic.parseWires scale wireArray Schematic.new) as [[ws s0]|e]; [|done].
  simpl. rewrite !parseInstances_app.
  destruct (Schematic.parseInstances trig pr uuid catalog scale before _) as [[[] s]|e];
    [|done].
  simpl. unfold mbind, StateM_bind.
  rewrite (parseInstance_unknown _ _ _ _ _ _ _ Hunknown).
  set (s' := Schematic.mk _ _ _ _ _ _ _).
  assert (Hs : sameButConsole s' s) by (by repeat split).
  pose proof (consoleBlind_parseInstances trig pr uuid catalog scale after s' s Hs) as H.
  destruct (Schematic.parseInstances trig pr uuid catalog scale after s') as [[[] s1]|e1],
           (Schematic.parseInstances trig pr uuid catalog scale after s) as [[[] s2]|e2];
    try done.
  destruct H as (_ & Hsame & written & E1 & _).
  split_and!; [done|apply Hsame|].
  rewrite E1. subst s'. simpl. set_solver.
Qed.

Lemma unknown_instance_is_skipped_witness :
  match Schematic.fromXML {| cosd := fun _ => 0; sind := fun _ => 0 |}
          {| showNumber := fun _ => "0" |} (fun _ => "net") ∅ 1 []
          ([] ++ mkInstanceXml "lib" "cell" "X1" None [] :: []) with
  | Ok s1 => Schematic.components s1 = [] ∧ length (Schematic.console s1) = 1%nat
  | Throw _ => False
  end.
Proof.
  pose proof (unknown_instance_is_skipped {| cosd := fun _ => 0; sind := fun _ => 0 |}
                {| showNumber := fun _ => "0" |} (fun _ => "net") ∅ 1 [] [] []
                (mkInstanceXml "lib" "cell" "X1" None []) eq_refl) as H.
  vm_compute in H. vm_compute. destruct H as (_ & _ & _). split; reflexivity.
Defined.

(** ** Snapping at the search radius *)

(** C1 (failing input): a vertex at distance exactly 1 on the pin's net is
    within the search radius of [Pin.findPosition] (a lone wire that holds
    it is snapped to), yet whether the pin adopts it depends on the order
    of the wires: when a wire without any vertex inside the radius comes
    first, its empty search record, which carries the seed distance 1,
    sorts before the record of the vertex, and the pin keeps its computed
    coordinate (interned as the equal pool entry 0). *)
Theorem findPosition_boundary_depends_on_wire_order :
  Pin.coord <$> returned
    (Pin.findPosition noTrig [ZERO_PIN] (Some atOrigin) (Some 0%nat)
       [farWire; edgeWire] true (Pin.mk None "" 1 (Some 0%nat)) boundaryStore)
    = Some (Some 0%nat)
  ∧ Pin.coord <$> returned
    (Pin.findPosition noTrig [ZERO_PIN] (Some atOrigin) (Some 0%nat)
       [edgeWire; farWire] true (Pin.mk None "" 1 (Some 0%nat)) boundaryStore)
    = Some (Some 2%nat)
  ∧ Pin.coord <$> returned
    (Pin.findPosition noTrig [ZERO_PIN] (Some atOrigin) (Some 0%nat)
       [edgeWire] true (Pin.mk None "" 1 (Some 0%nat)) boundaryStore)
    = Some (Some 2%nat).
Proof. split_and!; vm_compute; reflexivity. Qed.

(** The component-level search has no such boundary: both orders give the
    nearest vertex. *)
Example positionPin_ignores_wire_order :
  Pin.coord <$> returned
    (Component.positionPin noTrig [ZERO_PIN] atOrigin (Some 0%nat)
       [farWire; edgeWire] (Pin.mk None "" 1 (Some 0%nat)) boundaryStore)
    = Some (Some 2%nat)
  ∧ Pin.coord <$> returned
    (Component.positionPin noTrig [ZERO_PIN] atOrigin (Some 0%nat)
       [edgeWire; farWire] (Pin.mk None "" 1 (Some 0%nat)) boundaryStore)
    = Some (Some 2%nat).
Proof. split; vm_compute; reflexivity. Qed.

(** ** Reordering live pins *)

Lemma pinMatches_by_name {C D : Type} (ablPin : Pin.t C) (pin : Pin.t D) :
  Pin.name pin ≠ "" → Pin.name ablPin ≠ "" →
  pinMatches ablPin pin = true ↔ Pin.name pin = Pin.name ablPin.
Proof.
  intros H1 H2. unfold pinMatches.
  apply nonEmpty_true in H1, H2. rewrite H1, H2. simpl. apply String.eqb_eq.
Qed.

Lemma pinMatches_by_terminal {C D : Type} (ablPin : Pin.t C) (pin : Pin.t D) :
  Pin.name pin = "" ∨ Pin.name ablPin = "" →
  pinMatches ablPin pin = true ↔ Pin.instTermNumber pin = Pin.instTermNumber ablPin.
Proof.
  intros H. unfold pinMatches.
  assert (nonEmpty (Pin.name pin) && nonEmpty (Pin.name ablPin) = false) as ->.
  { apply andb_false_iff. destruct H as [H|H]; [left|right]; by apply nonEmpty_false. }
  apply Z.eqb_eq.
Qed.

(** [findIndex] gives the first element that satisfies the predicate. *)
Lemma findIndex_Some {A : Type} (f : A → bool) (l : list A) (i : nat) :
  findIndex f l = Some i ↔
  ∃ a, l !! i = Some a ∧ f a = true ∧ ∀ j b, (j < i)%nat → l !! j = Some b → f b = false.
Proof.
  revert i. induction l as [|a l IH]; intros i; simpl.
  - split; [done|]. by intros (b & ? & _).
  - destruct (f a) eqn:Ha.
    + split.
      * intros [= <-]. exists a. split_and!; [done..|]. intros j b ?; lia.
      * intros (b & Hb & Hfb & Hfirst). destruct i as [|i]; [done|].
        specialize (Hfirst 0%nat a). simpl in Hfirst.
        rewrite Hfirst in Ha; [done|lia|done].
    + destruct (findIndex f l) as [k|] eqn:Hk; simpl.
      * split.
        -- intros [= <-]. destruct (proj1 (IH k) eq_refl) as (b & Hb & Hfb & Hfirst).
           exists b. split_and!; [done..|]. intros [|j] c Hj Hc.
           ++ by injection Hc as <-.
           ++ apply (Hfirst j); [lia|done].
        -- intros (b & Hb & Hfb & Hfirst). destruct i as [|i].
           ++ injection Hb as <-. congruence.
           ++ f_equal. assert (Some k = Some i) as [= ->]; [|done].
              apply IH. exists b. split_and!; [done..|].
              intros j c Hj Hc. apply (Hfirst (S j)); [lia|done].
      * split; [done|]. intros (b & Hb & Hfb & Hfirst). destruct i as [|i].
        -- injection Hb as <-. congruence.
        -- assert (None = Some i) as E; [|done]. apply IH.
           exists b. split_and!; [done..|].
           intros j c Hj Hc. apply (Hfirst (S j)); [lia|done].
Qed.

Lemma findIndex_None {A : Type} (f : A → bool) (l : list A) :
  findIndex f l = None ↔ ∀ a, a ∈ l → f a = false.
Proof.
  induction l as [|a l IH]; simpl.
  - split; [|done]. intros _ a Ha. by apply elem_of_nil in Ha.
  - destruct (f a) eqn:Ha.
    + split; [done|]. intros H. rewrite H in Ha; [done|]. by left.
    + destruct (findIndex f l); simpl.
      * split; [done|]. intros H. assert (Some n = None) as E; [|done].
        apply IH. intros b Hb. apply H. by right.
      * split; [|done]. intros _ b Hb. apply elem_of_cons in Hb as [->|Hb]; [done|].
        by apply IH.
Qed.

(** The reordered array has one entry for each stencil pin: the first
    live pin that matches it, or [undefined]. *)
Lemma selected_reorder_lookup {C D : Type} (stencilPins : list (Pin.t C))
    (pins : list (Pin.t D)) (k : nat) (ablPin : Pin.t C) :
  stencilPins !! k = Some ablPin →
  ∃ entry, selected pins (reorder stencilPins pins) !! k = Some entry ∧
    match entry with
    | Some pin =>
        ∃ i, pins !! i = Some pin ∧ pinMatches ablPin pin = true
             ∧ ∀ j other, (j < i)%nat → pins !! j = Some other →
                 pinMatches ablPin other = false
    | None => ∀ pin, pin ∈ pins → pinMatches ablPin pin = false
    end.
Proof.
  intros Hk. unfold selected, reorder. rewrite !list_lookup_fmap, Hk. simpl.
  eexists. split; [reflexivity|].
  destruct (findIndex (pinMatches ablPin) pins) as [i|] eqn:Hi; simpl.
  - apply findIndex_Some in Hi as (pin & Hpin & Hm & Hfirst).
    rewrite Hpin. eauto.
  - by apply findIndex_None.
Qed.

(** A live pin that matches no stencil pin is in no entry of the
    reordered array. *)
Lemma selected_reorder_drops {C D : Type} (stencilPins : list (Pin.t C))
    (pins : list (Pin.t D)) (pin : Pin.t D) :
  (∀ ablPin, ablPin ∈ stencilPins → pinMatches ablPin pin = false) →
  Some pin ∉ selected pins (reorder stencilPins pins).
Proof.
  intros Hno Hin. apply list_elem_of_lookup in Hin as [k Hk].
  destruct (stencilPins !! k) as [ablPin|] eqn:Habl.
  - destruct (selected_reorder_lookup stencilPins pins k ablPin Habl)
      as (entry & Hentry & Hspec).
    rewrite Hk in Hentry. injection Hentry as <-.
    destruct Hspec as (i & _ & Hm & _).
    rewrite Hno in Hm; [done|]. apply list_elem_of_lookup. eauto.
  - unfold selected, reorder in Hk. rewrite !list_lookup_fmap, Habl in Hk. done.
Qed.

(** C4 (failing input): a transistor instance with a fourth terminal that
    no pin of the mapper matches.  The oriented placement positions every
    live pin before it reorders them; the unmatched pin has no hint, and
    interning its missing coordinate throws.  The path placement reorders
    first and returns, the unmatched third pin being absent. *)
Theorem unmatched_pin_throws_in_oriented_placement :
  ABLTransistorMapper.useAsStencil noTrig noPrinter MAPPER_BJT "Q1"
    (livePins [1; 2; 3; 4]%Z) atOrigin [] (mkStore [] []) = Throw TypeError
  ∧ (λ c, Pin.instTermNumber <$> omap id (Transistor.pins c)) <$> returned
      (ABLTransistorMapper.useAsStencil noTrig noPrinter MAPPER_BJT "Q1"
         (livePins [1; 2; 3]%Z) atOrigin [] (mkStore [] []))
    = Some [1; 3; 2]%Z
  ∧ (λ c, Pin.instTermNumber <$> omap id (PathComponent.pins c)) <$> returned
      (PathComponent.useAsStencil noTrig TIKZ_R "R1"
         (livePins [1; 2; 3]%Z) atOrigin [] (mkStore [] []))
    = Some [1; 2]%Z.
Proof. split_and!; vm_compute; reflexivity. Qed.

(** ** Relations kept by every step *)

Lemma keeps_ret {S A : Type} (R : S → S → Prop) `{!Reflexive R} (a : A) :
  keeps R (mret a : StateM S A).
Proof. intros s a' s' [= <- <-]. reflexivity. Qed.

Lemma keeps_bind {S A B : Type} (R : S → S → Prop) `{!Transitive R}
    (m : StateM S A) (f : A → StateM S B) :
  keeps R m → (∀ a, keeps R (f a)) → keeps R (m ≫= f).
Proof.
  intros Hm Hf s b s'. unfold mbind, StateM_bind.
  destruct (m s) as [[a s1]|e] eqn:E; [|done].
  intros H. etrans; [by eapply Hm|by eapply Hf].
Qed.

Lemma keeps_lift {A : Type} (R : Store → Store → Prop) `{!Reflexive R} (r : result A) :
  keeps R (lift r).
Proof. intros s a s'. unfold lift. destruct r; [|done]. intros [= <- <-]. reflexivity. Qed.

(** ** One Net object per name *)

#[local] Instance netsStep_preorder : PreOrder netsStep.
Proof.
  split.
  - intros s. split; [intros n r H; exact H|intros H; exact H].
  - intros s1 s2 s3 [H1 H1'] [H2 H2']. split; [|auto].
    intros n r H. by apply H2, H1.
Qed.

Lemma netsStep_same (s s' : Schematic.t) :
  Schematic.nets s' = Schematic.nets s →
  Schematic.netObjects s' = Schematic.netObjects s →
  netsStep s s'.
Proof.
  intros Hn Ho. split.
  - intros n r. by rewrite Hn.
  - intros H n r. rewrite Hn, Ho. apply H.
Qed.

Lemma getOrCreateNet_spec (netName : string) (s : Schematic.t) :
  ∃ r s', Schematic.getOrCreateNet netName s = Ok (r, s')
    ∧ Schematic.nets s' !! netName = Some r
    ∧ netsStep s s'
    ∧ Schematic.uuidCalls s' = Schematic.uuidCalls s.
Proof.
  unfold Schematic.getOrCreateNet.
  destruct (Schematic.nets s !! netName) as [r|] eqn:E.
  - exists r, s. split_and!; [done..|reflexivity|done].
  - eexists _, _. split; [reflexivity|]. simpl. split_and!; [|split|done].
    + apply lookup_insert_eq.
    + intros n r H. simpl. rewrite lookup_insert_ne; [done|]. congruence.
    + unfold netsConsistent. simpl.
      intros Hc n r. destruct (decide (netName = n)) as [->|Hne].
      * rewrite lookup_insert_eq. split.
        -- intros [= <-]. by rewrite lookup_app_r, Nat.sub_diag.
        -- intros H. f_equal.
           destruct (decide (r < length (Schematic.netObjects s))%nat) as [Hlt|Hge].
           ++ rewrite lookup_app_l in H by done. apply Hc in H. congruence.
           ++ apply lookup_lt_Some in H. rewrite length_app in H. simpl in H. lia.
      * rewrite lookup_insert_ne by done. rewrite Hc. split.
        -- intros H. rewrite lookup_app_l; [done|]. by eapply lookup_lt_Some.
        -- intros H.
           destruct (decide (r < length (Schematic.netObjects s))%nat) as [Hlt|Hge].
           ++ by rewrite lookup_app_l in H.
           ++ rewrite lookup_app_r in H by lia.
              destruct (r - length (Schematic.netObjects s))%nat; simpl in H; [|done].
              congruence.
Qed.

Lemma keeps_getOrCreateNet (netName : string) :
  keeps netsStep (Schematic.getOrCreateNet netName).
Proof.
  intros s r s' H.
  destruct (getOrCreateNet_spec netName s) as (r' & s'' & E & _ & Hstep & _).
  congruence.
Qed.

Lemma keeps_onStore {A : Type} (m : Place A) : keeps netsStep (Schematic.onStore m).
Proof.
  intros s a s'. unfold Schematic.onStore.
  destruct (m (Schematic.store s)) as [[a' st]|e]; [|done].
  intros [= <- <-]. by apply netsStep_same.
Qed.

Lemma keeps_logError (e : LogEntry) : keeps netsStep (Schematic.logError e).
Proof. intros s a s' [= <- <-]. by apply netsStep_same. Qed.

Lemma keeps_nextUuid (uuid : nat → string) : keeps netsStep (Schematic.nextUuid uuid).
Proof. intros s a s' [= <- <-]. by apply netsStep_same. Qed.

Lemma keeps_getWires : keeps netsStep Schematic.getWires.
Proof. intros s a s' [= <- <-]. reflexivity. Qed.

Lemma keeps_setWires (ws : list Wire) : keeps netsStep (Schematic.setWires ws).
Proof. intros s a s' [= <- <-]. by apply netsStep_same. Qed.

Lemma keeps_pushComponent (c : Placed) : keeps netsStep (Schematic.pushComponent c).
Proof. intros s a s' [= <- <-]. by apply netsStep_same. Qed.

#[local] Hint Resolve keeps_getOrCreateNet keeps_onStore keeps_logError keeps_nextUuid
  keeps_getWires keeps_setWires keeps_pushComponent : blind.

Ltac keeps_steps :=
  repeat first
    [ apply keeps_bind; [apply _| |intros ?]
    | apply keeps_ret; apply _
    | solve [auto with blind]
    | match goal with |- keeps _ (match ?x with _ => _ end) => destruct x end
    | match goal with |- keeps _ (if ?x then _ else _) => destruct x end ].

Lemma keeps_parseWireCoords (scale : Qc) (tokens : list (option (Qc * Qc)))
    (wireCoords : list CoordRef) :
  keeps netsStep (Schematic.parseWireCoords scale wireCoords tokens).
Proof.
  revert wireCoords. induction tokens as [|token tokens IH]; intros wireCoords; simpl.
  - keeps_steps.
  - apply keeps_bind; [apply _| |intros ?; apply IH].
    unfold Schematic.parseWireCoord. keeps_steps.
Qed.

Lemma keeps_parseWire (scale : Qc) (wireXml : WireXml) :
  keeps netsStep (Schematic.parseWire scale wireXml).
Proof.
  unfold Schematic.parseWire. keeps_steps. apply keeps_parseWireCoords.
Qed.

Lemma keeps_parseWires (scale : Qc) (wireArray : list WireXml) :
  keeps netsStep (Schematic.parseWires scale wireArray).
Proof.
  induction wireArray as [|wireXml wireArray IH]; simpl.
  - keeps_steps.
  - apply keeps_bind; [apply _|apply keeps_parseWire|]. intros ?.
    apply keeps_bind; [apply _|apply IH|]. intros ?. keeps_steps.
Qed.

Lemma keeps_parsePin (uuid : nat → string) (pinXml : InstPinXml) :
  keeps netsStep (Schematic.parsePin uuid pinXml).
Proof. unfold Schematic.parsePin. keeps_steps. Qed.

Lemma keeps_parsePins (uuid : nat → string) (instPinArray : list InstPinXml) :
  keeps netsStep (Schematic.parsePins uuid instPinArray).
Proof.
  induction instPinArray as [|pinXml instPinArray IH]; simpl.
  - keeps_steps.
  - apply keeps_bind; [apply _|apply keeps_parsePin|]. intros ?.
    apply keeps_bind; [apply _|apply IH|]. intros ?. keeps_steps.
Qed.

Lemma keeps_parseInstance trig pr uuid catalog scale instanceXml :
  keeps netsStep (Schematic.parseInstance trig pr uuid catalog scale instanceXml).
Proof.
  unfold Schematic.parseInstance.
  destruct (Schematic.lookupStencil _ _ _); [|apply keeps_logError].
  apply keeps_bind; [apply _|apply keeps_parsePins|]. intros ?. keeps_steps.
Qed.

Lemma keeps_parseInstances trig pr uuid catalog scale instanceArray :
  keeps netsStep (Schematic.parseInstances trig pr uuid catalog scale instanceArray).
Proof.
  induction instanceArray as [|instanceXml instanceArray IH]; simpl.
  - keeps_steps.
  - apply keeps_bind; [apply _|apply keeps_parseInstance|]. intros ?. apply IH.
Qed.

Lemma keeps_parse trig pr uuid catalog scale wireArray instanceArray :
  keeps netsStep (Schematic.parse trig pr uuid catalog scale wireArray instanceArray).
Proof.
  unfold Schematic.parse. apply keeps_bind; [apply _|apply keeps_parseWires|].
  intros ?. apply keeps_bind; [apply _|apply keeps_setWires|]. intros ?.
  apply keeps_parseInstances.
Qed.

Lemma netsConsistent_new : netsConsistent Schematic.new.
Proof. intros n r. simpl. rewrite lookup_empty, lookup_nil. done. Qed.

Lemma parseWire_net (scale : Qc) (wireXml : WireXml) (s : Schematic.t) (wire : Wire)
    (s' : Schematic.t) :
  Schematic.parseWire scale wireXml s = Ok (wire, s') →
  Schematic.nets s' !! wx_netName wireXml = Some (wire_net wire).
Proof.
  unfold Schematic.parseWire, mbind, StateM_bind.
  destruct (getOrCreateNet_spec (wx_netName wireXml) s) as (r & s1 & -> & Hr & _).
  destruct (Schematic.parseWireCoords scale [] (wx_points wireXml) s1)
    as [[cs s2]|e] eqn:E; [|done].
  intros [= <- <-]. simpl.
  destruct (keeps_parseWireCoords _ _ _ _ _ _ E) as [Hp _]. by apply Hp.
Qed.

Lemma parsePin_net (uuid : nat → string) (pinXml : InstPinXml) (s : Schematic.t)
    (pin : Pin.t CoordRef) (s' : Schematic.t) :
  Schematic.parsePin uuid pinXml s = Ok (pin, s') →
  ∃ r, Pin.net pin = Some r ∧ Schematic.nets s' !! pinNetName uuid s pinXml = Some r.
Proof.
  unfold Schematic.parsePin, pinNetName, mbind, StateM_bind.
  destruct (nonEmpty (ipx_netName pinXml)); simpl.
  - destruct (getOrCreateNet_spec (ipx_netName pinXml) s) as (r & s1 & -> & Hr & _).
    intros [= <- <-]. eauto.
  - destruct (getOrCreateNet_spec (uuid (Schematic.uuidCalls s))
                (Schematic.mk (Schematic.store s) (Schematic.nets s)
                   (Schematic.netObjects s) (Schematic.wires s)
                   (Schematic.components s) (Schematic.console s)
                   (S (Schematic.uuidCalls s))))
      as (r & s1 & -> & Hr & _).
    intros [= <- <-]. eauto.
Qed.

(** C5 (counterexample): a wire and an instance pin that both carry the
    empty net name do not share a [Net] object: the pin's empty name is
    replaced by a fresh identifier. *)
Lemma empty_name_not_shared : ¬ netSharedByWireAndPin (fun _ => "f81d4fae").
Proof.
  intros H.
  specialize (H 1 (mkWireXml "" []) (mkInstPinXml 1 "" "") Schematic.new).
  simpl in H. specialize (H _ _ _ _ eq_refl eq_refl eq_refl). discriminate H.
Qed.


(** ** Projections and the rigid motions of the placement *)







Lemma lineLambda_add p a b v :
  lineLambda (Coordinate.add p v) (Coordinate.add a v) (Coordinate.add b v)
  = lineLambda p a b.
Proof. unfold lineLambda. destruct p, a, b, v; simpl; f_equal; ring. Qed.











(** ** The oriented placement *)






(** *** Inversion of the steps of the pipeline *)







#[local] Opaque Coordinate.rotate Coordinate.orthogonalProjection normalizeAngle.









(** *** The alignment in binary64 *)




#[local] Set Warnings "-inexact-float".
(** The two points, as the binary64 pipeline computes them. *)
Example binary64_crossings :
  ∃ abl tikz,
    F64.ABLTransistorMapper.align 0 F64.noTrig F64.MAPPER_BJT (offGrid64 false)
      = F64.Returns (abl, tikz)
    ∧ F64.ABLTransistorMapper.lineCrossingCoord abl
      = F64.Returns (F64.Coordinate.mk 1.524 1.7779999999999998)
    ∧ F64.Transistor.lineCrossingCoord tikz
      = F64.Returns (F64.Coordinate.mk 1.524 1.7779999999999996).
Proof. by eexists _, _; split_and!; vm_compute. Qed.
#[local] Set Warnings "inexact-float".

(** At the origin the same instance has one line-crossing point in
    binary64 too. *)
Example binary64_crossings_at_origin :
  ∃ abl tikz crossing,
    F64.ABLTransistorMapper.align 0 F64.noTrig F64.MAPPER_BJT
      (F64.mkPlacement 0 0 0 1 1 false false (F64.pl_scaling (offGrid64 false)))
      = F64.Returns (abl, tikz)
    ∧ F64.ABLTransistorMapper.lineCrossingCoord abl = F64.Returns crossing
    ∧ F64.Transistor.lineCrossingCoord tikz = F64.Returns crossing.
Proof. by eexists _, _, _; split_and!; vm_compute. Qed.








(** The mappers of the catalog are well formed, with the anchor at the
    origin. *)
Example catalog_mappers_anchored :
  Forall (fun m => wellFormedMapper m = true ∧ anchoredAtOrigin m = true)
    [MAPPER_BJT; MAPPER_SIMPLE_FETN; MAPPER_EE_MOS1; MAPPER_OpAmp].
Proof. repeat constructor. Qed.

#[local] Transparent Coordinate.rotate Coordinate.orthogonalProjection normalizeAngle.

(** ** The coordinate pool *)

Lemma bind_Ok {S A B : Type} (m : StateM S A) (f : A → StateM S B) (s s' : S) (b : B) :
  (m ≫= f) s = Ok (b, s') → ∃ a s1, m s = Ok (a, s1) ∧ f a s1 = Ok (b, s').
Proof.
  unfold mbind, StateM_bind. destruct (m s) as [[a s1]|e]; [|done]. eauto.
Qed.

Lemma lift_Ok {A : Type} (r : result A) (s s' : Store) (a : A) :
  lift r s = Ok (a, s') → r = Ok a ∧ s' = s.
Proof. unfold lift. destruct r; [|done]. by intros [= <- <-]. Qed.

Lemma ret_Ok {S A : Type} (a b : A) (s s' : S) :
  (mret a : StateM S A) s = Ok (b, s') → b = a ∧ s' = s.
Proof. by intros [= <- <-]. Qed.

Lemma onStore_Ok {A : Type} (m : Place A) (s s' : Schematic.t) (a : A) :
  Schematic.onStore m s = Ok (a, s') →
  m (Schematic.store s) = Ok (a, Schematic.store s').
Proof.
  unfold Schematic.onStore. destruct (m (Schematic.store s)) as [[a' st]|e]; [|done].
  by intros [= <- <-].
Qed.

(** *** Every existing coordinate keeps its value *)

#[local] Instance heapKept_preorder : PreOrder heapKept.
Proof. split; [intros s; by unfold heapKept|intros s1 s2 s3; unfold heapKept; by etrans]. Qed.

Lemma heapKept_lookup (s s' : Store) (r : CoordRef) :
  heapKept s s' → (r < length (heap s))%nat → heap s' !! r = heap s !! r.
Proof. intros [k ->] Hlt. by apply lookup_app_l. Qed.

Lemma validRef_kept (s s' : Store) (c : option CoordRef) :
  heapKept s s' → validRef s c → validRef s' c.
Proof.
  intros Hp H r Hr. specialize (H r Hr). apply prefix_length in Hp. lia.
Qed.

Lemma heapKept_getHeap : keeps heapKept getHeap.
Proof. intros s a s' [= <- <-]. reflexivity. Qed.

Lemma heapKept_getCoords : keeps heapKept getCoords.
Proof. intros s a s' [= <- <-]. reflexivity. Qed.

Lemma heapKept_alloc (v : Coordinate.t) : keeps heapKept (alloc v).
Proof. intros s a s' [= <- <-]. by apply prefix_app_r. Qed.

Lemma heapKept_push (c : option CoordRef) : keeps heapKept (push c).
Proof. intros s a s' [= <- <-]. by unfold heapKept. Qed.

Create HintDb heap.
#[local] Hint Resolve heapKept_getHeap heapKept_getCoords heapKept_alloc heapKept_push : heap.
#[local] Hint Extern 1 (keeps heapKept (lift _)) => apply keeps_lift; apply _ : heap.

Ltac heap_steps :=
  repeat first
    [ apply keeps_bind; [apply _| |intros ?]
    | apply keeps_ret; apply _
    | solve [auto with heap]
    | match goal with |- keeps _ (match ?x with _ => _ end) => destruct x end
    | match goal with |- keeps _ (if ?x then _ else _) => destruct x end ].

Lemma heapKept_canonicalize (c : option CoordRef) : keeps heapKept (canonicalize c).
Proof. unfold canonicalize. heap_steps. Qed.
#[local] Hint Resolve heapKept_canonicalize : heap.

Lemma heapKept_snap seed wires pinNet thisCoord :
  keeps heapKept (Pin.snap seed wires pinNet thisCoord).
Proof. unfold Pin.snap. heap_steps. Qed.
#[local] Hint Resolve heapKept_snap : heap.

Lemma heapKept_findPosition trig pins placement instanceCoord wires relativeCoords this :
  keeps heapKept
    (Pin.findPosition trig pins placement instanceCoord wires relativeCoords this).
Proof. unfold Pin.findPosition. heap_steps. Qed.
#[local] Hint Resolve heapKept_findPosition : heap.

Lemma heapKept_positionAt trig stencilPins placement instanceCoord wires relativeCoords pins i :
  keeps heapKept
    (positionAt trig stencilPins placement instanceCoord wires relativeCoords pins i).
Proof. unfold positionAt. heap_steps. Qed.
#[local] Hint Resolve heapKept_positionAt : heap.

Lemma heapKept_positionAll trig stencilPins placement instanceCoord wires relativeCoords
    pins order :
  keeps heapKept
    (positionAll trig stencilPins placement instanceCoord wires relativeCoords pins order).
Proof.
  revert pins. induction order as [|i order IH]; intros pins; simpl; [heap_steps|].
  apply keeps_bind; [apply _|auto with heap|]. intros ?. apply IH.
Qed.
#[local] Hint Resolve heapKept_positionAll : heap.

Lemma heapKept_PathComponent trig this instanceName pins placement wires :
  keeps heapKept (PathComponent.useAsStencil trig this instanceName pins placement wires).
Proof. unfold PathComponent.useAsStencil. heap_steps. Qed.

Lemma heapKept_PotentialComponent trig this pins placement wires :
  keeps heapKept (PotentialComponent.useAsStencil trig this pins placement wires).
Proof. unfold PotentialComponent.useAsStencil. heap_steps. Qed.

Lemma heapKept_positionPin trig stencilPins placement instanceCoord wires pin :
  keeps heapKept (Component.positionPin trig stencilPins placement instanceCoord wires pin).
Proof. unfold Component.positionPin. heap_steps. Qed.
#[local] Hint Resolve heapKept_positionPin : heap.

Lemma heapKept_positionPins trig stencilPins placement instanceCoord wires pins :
  keeps heapKept (Component.positionPins trig stencilPins placement instanceCoord wires pins).
Proof.
  induction pins as [|pin pins IH]; simpl; [heap_steps|].
  apply keeps_bind; [apply _|auto with heap|]. intros ?.
  apply keeps_bind; [apply _|apply IH|]. intros ?. heap_steps.
Qed.
#[local] Hint Resolve heapKept_positionPins : heap.

Lemma heapKept_cloneToPosition trig this attrInstanceName pins placement wires :
  keeps heapKept (Component.cloneToPosition trig this attrInstanceName pins placement wires).
Proof. unfold Component.cloneToPosition. heap_steps. Qed.

Lemma heapKept_useAsStencil trig pr stencil instanceName pins placement wires :
  isOriented stencil = false →
  keeps heapKept (useAsStencil trig pr stencil instanceName pins placement wires).
Proof.
  intros Hs. destruct stencil as [st|st|st]; [| |done]; simpl.
  - apply keeps_bind; [apply _|apply heapKept_PathComponent|]. intros ?. heap_steps.
  - apply keeps_bind; [apply _|apply heapKept_PotentialComponent|]. intros ?. heap_steps.
Qed.

(** *** Canonicalization *)

Lemma equals_spec (a b : Coordinate.t) : Coordinate.equals a (Some b) = true ↔ a = b.
Proof.
  destruct a as [ax ay], b as [bx by_]. simpl. rewrite andb_true_iff, !bool_decide_eq_true.
  split; [by intros [-> ->]|by intros [= -> ->]].
Qed.

Lemma valueOf_app_l (h : list Coordinate.t) (v : Coordinate.t) (r : nat) :
  (r < length h)%nat → valueOf (h ++ [v]) r = valueOf h r.
Proof. intros H. unfold valueOf. by rewrite lookup_total_app_l. Qed.

Lemma findEqual_Some (h : list Coordinate.t) (c : CoordRef) (pool : list (option CoordRef)) :
  findEqual h (Some c) pool =
    Ok (List.find (fun e => Coordinate.equals (valueOf h c) (valueOf h <$> e)) pool).
Proof.
  unfold findEqual. induction pool as [|e pool IH]; simpl; [done|].
  destruct (Coordinate.equals (valueOf h c) (valueOf h <$> e)); [done|]. apply IH.
Qed.

Lemma canonicalize_Some_spec (c : CoordRef) (s : Store) :
  ∃ r s', canonicalize (Some c) s = Ok (Some r, s')
    ∧ heap s' = heap s
    ∧ valueOf (heap s) r = valueOf (heap s) c
    ∧ Some r ∈ coords s'
    ∧ (poolInv s → (c < length (heap s))%nat → poolInv s')
    ∧ (poolDistinct s → ∀ r', Some r' ∈ coords s →
         valueOf (heap s) r' = valueOf (heap s) c → r = r' ∧ s' = s).
Proof.
  unfold canonicalize, mbind, StateM_bind, getHeap, getCoords, lift. simpl.
  rewrite findEqual_Some.
  destruct (List.find _ (coords s)) as [[old|]|] eqn:E.
  - apply find_some in E as [Hin Heq]. apply equals_spec in Heq.
    apply list_elem_of_In in Hin.
    exists old, s. repeat apply conj; try done.
    intros Hd r' Hr' Hv.
    apply list_elem_of_lookup in Hin as [i Hi], Hr' as [j Hj].
    assert (i = j) as -> by (apply (Hd i j old r' Hi Hj); congruence).
    split; [congruence|done].
  - apply find_some in E as [_ Heq]. done.
  - exists c, (mkStore (heap s) (coords s ++ [Some c])). repeat apply conj; simpl; try done.
    + set_solver.
    + intros [Hwf Hd] Hc. split.
      * intros r Hr. simpl in *. apply elem_of_app in Hr as [Hr|Hr]; [by apply Hwf|].
        apply list_elem_of_singleton in Hr. by injection Hr as ->.
      * assert (Hnew : ∀ i r, coords s !! i = Some (Some r) →
                  valueOf (heap s) r ≠ valueOf (heap s) c).
        { intros i r Hi Hv.
          assert (Hin : In (Some r) (coords s))
            by (apply list_elem_of_In, list_elem_of_lookup; eauto).
          pose proof (find_none _ _ E _ Hin) as Hf.
          change (Coordinate.equals (valueOf (heap s) c) (Some (valueOf (heap s) r)) = false)
            in Hf.
          assert (Coordinate.equals (valueOf (heap s) c) (Some (valueOf (heap s) r)) = true)
            by (by apply equals_spec).
          congruence. }
        intros i j r1 r2 H1 H2 Hv. simpl in *.
        apply lookup_app_Some in H1 as [H1|[Hl1 H1]], H2 as [H2|[Hl2 H2]].
        -- by apply (Hd i j r1 r2).
        -- apply list_lookup_singleton_Some in H2 as [? [= ->]].
           by apply Hnew in H1.
        -- apply list_lookup_singleton_Some in H1 as [? [= ->]].
           symmetry in Hv. by apply Hnew in H2.
        -- apply list_lookup_singleton_Some in H1 as [? _].
           apply list_lookup_singleton_Some in H2 as [? _]. lia.
    + intros _ r' Hr' Hv. exfalso.
      apply list_elem_of_In in Hr'.
      pose proof (find_none _ _ E _ Hr') as Hf.
      change (Coordinate.equals (valueOf (heap s) c) (Some (valueOf (heap s) r')) = false)
        in Hf.
      assert (Coordinate.equals (valueOf (heap s) c) (Some (valueOf (heap s) r')) = true)
        by (by apply equals_spec).
      congruence.
Qed.

Lemma canonicalize_inv (c o : option CoordRef) (s s' : Store) :
  poolInv s → validRef s c → canonicalize c s = Ok (o, s') →
  poolInv s' ∧ heap s' = heap s ∧ validRef s' o.
Proof.
  intros Hinv Hc H. destruct c as [c|].
  - destruct (canonicalize_Some_spec c s) as (r & s1 & E & Hh & _ & Hin & Hp & _).
    rewrite E in H. injection H as <- <-.
    specialize (Hp Hinv (Hc c eq_refl)). split_and!; [done..|].
    intros r' [= <-]. by apply Hp.
  - unfold canonicalize, mbind, StateM_bind, getHeap, getCoords, lift in H. simpl in H.
    destruct (coords s) as [|e pool] eqn:E; simpl in H; [|done].
    injection H as <- <-. split_and!; simpl; try done.
    split.
    + intros r Hr. simpl in Hr. rewrite E in Hr.
      by apply list_elem_of_singleton in Hr.
    + intros i j r1 r2 H1. simpl in H1. rewrite E in H1.
      apply list_lookup_singleton_Some in H1 as [_ [=]].
Qed.

(** *** The pool invariant through the placements that intern *)

Lemma poolInv_alloc (v : Coordinate.t) (s : Store) :
  poolInv s → poolInv (mkStore (heap s ++ [v]) (coords s)).
Proof.
  intros [Hwf Hd]. split.
  - intros r Hr. simpl in *. rewrite length_app. specialize (Hwf r Hr). lia.
  - intros i j r1 r2 H1 H2. simpl in *.
    rewrite !valueOf_app_l; [by apply Hd| |].
    + apply Hwf. apply list_elem_of_lookup. eauto.
    + apply Hwf. apply list_elem_of_lookup. eauto.
Qed.

Lemma alloc_inv (v : Coordinate.t) (s s' : Store) (r : CoordRef) :
  poolInv s → alloc v s = Ok (r, s') → poolInv s' ∧ validRef s' (Some r).
Proof.
  intros Hinv [= <- <-]. split; [by apply poolInv_alloc|].
  intros r [= <-]. simpl. rewrite length_app. simpl. lia.
Qed.

Lemma snap_inv seed wires pinNet (c o : option CoordRef) (s s' : Store) :
  poolInv s → validRef s c → Pin.snap seed wires pinNet c s = Ok (o, s') → poolInv s'.
Proof.
  intros Hinv Hc H. unfold Pin.snap in H.
  apply bind_Ok in H as (h & s1 & [= <- <-] & H).
  apply bind_Ok in H as (cands & s1 & E & H). apply lift_Ok in E as [_ ->].
  destruct (head (sortCandidates cands) ≫= cand_coord).
  - by apply ret_Ok in H as [_ ->].
  - by apply canonicalize_inv in H as [? _].
Qed.

Lemma findPosition_inv trig pins placement instanceCoord wires relativeCoords this
    (p : Pin.t CoordRef) (s s' : Store) :
  poolInv s → validRef s instanceCoord →
  Pin.findPosition trig pins placement instanceCoord wires relativeCoords this s = Ok (p, s') →
  poolInv s'.
Proof.
  intros Hinv Hic H. unfold Pin.findPosition in H.
  apply bind_Ok in H as (h & s0 & [= <- <-] & H).
  apply bind_Ok in H as (thisCoord & s1 & E & H).
  apply bind_Ok in H as (coord & s2 & Hsnap & H).
  apply ret_Ok in H as [_ ->].
  assert (poolInv s1 ∧ validRef s1 thisCoord) as [Hinv1 Hv1].
  { destruct (Pin.hint pins (Pin.instTermNumber this)) as [c|], relativeCoords.
    - apply bind_Ok in E as (pl & s3 & E1 & E). apply lift_Ok in E1 as [_ ->].
      apply bind_Ok in E as (ic & s3 & E1 & E). apply lift_Ok in E1 as [_ ->].
      apply bind_Ok in E as (r & s3 & E1 & E). apply ret_Ok in E as [-> ->].
      by apply alloc_inv in E1.
    - apply bind_Ok in E as (r & s3 & E1 & E). apply ret_Ok in E as [-> ->].
      by apply alloc_inv in E1.
    - by apply ret_Ok in E as [-> ->].
    - apply ret_Ok in E as [-> ->]. split; [done|]. by intros r. }
  by eapply snap_inv.
Qed.

Lemma positionAt_inv trig stencilPins placement instanceCoord wires relativeCoords pins i
    (pins' : list (Pin.t CoordRef)) (s s' : Store) :
  poolInv s → validRef s instanceCoord →
  positionAt trig stencilPins placement instanceCoord wires relativeCoords pins i s
    = Ok (pins', s') →
  poolInv s'.
Proof.
  intros Hinv Hic H. unfold positionAt in H.
  apply bind_Ok in H as (pin & s1 & E & H). apply lift_Ok in E as [_ ->].
  apply bind_Ok in H as (pin' & s1 & E & H). apply ret_Ok in H as [_ ->].
  by eapply findPosition_inv.
Qed.

Lemma positionAll_inv trig stencilPins placement instanceCoord wires relativeCoords pins order
    (pins' : list (Pin.t CoordRef)) (s s' : Store) :
  poolInv s → validRef s instanceCoord →
  positionAll trig stencilPins placement instanceCoord wires relativeCoords pins order s
    = Ok (pins', s') →
  poolInv s'.
Proof.
  revert pins s. induction order as [|i order IH]; intros pins s Hinv Hic H; simpl in H.
  - by apply ret_Ok in H as [_ ->].
  - apply bind_Ok in H as (pins1 & s1 & E & H).
    eapply IH; [| |exact H].
    + by eapply positionAt_inv.
    + eapply validRef_kept; [|exact Hic]. by eapply heapKept_positionAt.
Qed.

Lemma instanceCoord_inv (v : Coordinate.t) (s s1 s2 : Store) (fresh : CoordRef)
    (instanceCoord : option CoordRef) :
  poolInv s → alloc v s = Ok (fresh, s1) →
  canonicalize (Some fresh) s1 = Ok (instanceCoord, s2) →
  poolInv s2 ∧ validRef s2 instanceCoord.
Proof.
  intros Hinv E1 E2. apply alloc_inv in E1 as [Hinv1 Hv]; [|done].
  by apply canonicalize_inv in E2 as (? & _ & ?).
Qed.

Lemma PathComponent_inv trig this instanceName pins placement wires c (s s' : Store) :
  poolInv s →
  PathComponent.useAsStencil trig this instanceName pins placement wires s = Ok (c, s') →
  poolInv s'.
Proof.
  intros Hinv H. unfold PathComponent.useAsStencil in H.
  apply bind_Ok in H as (fresh & s1 & E1 & H).
  apply bind_Ok in H as (instanceCoord & s2 & E2 & H).
  apply bind_Ok in H as (pins' & s3 & E3 & H). apply ret_Ok in H as [_ ->].
  destruct (instanceCoord_inv _ _ _ _ _ _ Hinv E1 E2) as [Hinv2 Hv].
  by eapply positionAll_inv.
Qed.

Lemma PotentialComponent_inv trig this pins placement wires c (s s' : Store) :
  poolInv s →
  PotentialComponent.useAsStencil trig this pins placement wires s = Ok (c, s') →
  poolInv s'.
Proof.
  intros Hinv H. unfold PotentialComponent.useAsStencil in H.
  apply bind_Ok in H as (fresh & s1 & E1 & H).
  apply bind_Ok in H as (instanceCoord & s2 & E2 & H).
  apply bind_Ok in H as (pins' & s3 & E3 & H). apply ret_Ok in H as [_ ->].
  destruct (instanceCoord_inv _ _ _ _ _ _ Hinv E1 E2) as [Hinv2 Hv].
  by eapply positionAt_inv.
Qed.

Lemma positionPin_inv trig stencilPins placement instanceCoord wires pin
    (p : Pin.t CoordRef) (s s' : Store) :
  poolInv s → validRef s instanceCoord →
  Component.positionPin trig stencilPins placement instanceCoord wires pin s = Ok (p, s') →
  poolInv s'.
Proof.
  intros Hinv Hic H. unfold Component.positionPin in H.
  apply bind_Ok in H as (h & s0 & [= <- <-] & H).
  apply bind_Ok in H as (pinCoord & s1 & E & H).
  apply bind_Ok in H as (coord & s2 & Hsnap & H).
  apply ret_Ok in H as [_ ->].
  assert (poolInv s1 ∧ validRef s1 pinCoord) as [Hinv1 Hv1].
  { destruct (Pin.hint stencilPins (Pin.instTermNumber pin)) as [c|].
    - apply bind_Ok in E as (ic & s3 & E1 & E). apply lift_Ok in E1 as [_ ->].
      apply bind_Ok in E as (r & s3 & E1 & E). apply ret_Ok in E as [-> ->].
      by apply alloc_inv in E1.
    - by apply ret_Ok in E as [-> ->]. }
  by eapply snap_inv.
Qed.

Lemma positionPins_inv trig stencilPins placement instanceCoord wires pins
    (pins' : list (Pin.t CoordRef)) (s s' : Store) :
  poolInv s → validRef s instanceCoord →
  Component.positionPins trig stencilPins placement instanceCoord wires pins s
    = Ok (pins', s') →
  poolInv s'.
Proof.
  revert pins' s. induction pins as [|pin pins IH]; intros pins' s Hinv Hic H; simpl in H.
  - by apply ret_Ok in H as [_ ->].
  - apply bind_Ok in H as (pin' & s1 & E & H).
    apply bind_Ok in H as (rest' & s2 & E2 & H). apply ret_Ok in H as [_ ->].
    eapply IH; [| |exact E2].
    + by eapply positionPin_inv.
    + eapply validRef_kept; [|exact Hic]. by eapply heapKept_positionPin.
Qed.

Lemma cloneToPosition_inv trig this attrInstanceName pins placement wires c (s s' : Store) :
  poolInv s →
  Component.cloneToPosition trig this attrInstanceName pins placement wires s = Ok (c, s') →
  poolInv s'.
Proof.
  intros Hinv H. unfold Component.cloneToPosition in H.
  apply bind_Ok in H as (fresh & s1 & E1 & H).
  apply bind_Ok in H as (instanceCoord & s2 & E2 & H).
  apply bind_Ok in H as (pins' & s3 & E3 & H). apply ret_Ok in H as [_ ->].
  destruct (instanceCoord_inv _ _ _ _ _ _ Hinv E1 E2) as [Hinv2 Hv].
  by eapply positionPins_inv.
Qed.

Lemma useAsStencil_inv trig pr stencil instanceName pins placement wires c (s s' : Store) :
  isOriented stencil = false → poolInv s →
  useAsStencil trig pr stencil instanceName pins placement wires s = Ok (c, s') →
  poolInv s'.
Proof.
  intros Hs Hinv H. destruct stencil as [st|st|st]; [| |done]; simpl in H.
  - apply bind_Ok in H as (c' & s1 & E & H). apply ret_Ok in H as [_ ->].
    by eapply PathComponent_inv.
  - apply bind_Ok in H as (c' & s1 & E & H). apply ret_Ok in H as [_ ->].
    by eapply PotentialComponent_inv.
Qed.

Lemma poolInv_empty : poolInv (mkStore [] []).
Proof.
  split.
  - intros r Hr. by apply elem_of_nil in Hr.
  - intros i j r1 r2 H1. simpl in H1. by rewrite lookup_nil in H1.
Qed.

(** *** Parsing *)

#[local] Instance poolStep_preorder : PreOrder poolStep.
Proof.
  split.
  - intros s. split; [reflexivity|auto].
  - intros s1 s2 s3 [H1 H1'] [H2 H2']. split; [by etrans|auto].
Qed.

Lemma poolStep_same (s s' : Schematic.t) :
  Schematic.store s' = Schematic.store s → poolStep s s'.
Proof. intros E. unfold poolStep. rewrite E. split; [reflexivity|auto]. Qed.

Lemma poolStep_onStore {A : Type} (m : Place A) :
  (∀ s a s', m s = Ok (a, s') → heapKept s s' ∧ (poolInv s → poolInv s')) →
  keeps poolStep (Schematic.onStore m).
Proof.
  intros Hm s a s'. unfold Schematic.onStore.
  destruct (m (Schematic.store s)) as [[a' st]|e] eqn:E; [|done].
  intros [= <- <-]. by apply Hm in E.
Qed.

Lemma poolStep_getOrCreateNet (netName : string) :
  keeps poolStep (Schematic.getOrCreateNet netName).
Proof.
  intros s r s'. unfold Schematic.getOrCreateNet.
  destruct (Schematic.nets s !! netName); intros [= <- <-]; by apply poolStep_same.
Qed.

Lemma poolStep_logError (e : LogEntry) : keeps poolStep (Schematic.logError e).
Proof. intros s a s' [= <- <-]. by apply poolStep_same. Qed.

Lemma poolStep_nextUuid (uuid : nat → string) : keeps poolStep (Schematic.nextUuid uuid).
Proof. intros s a s' [= <- <-]. by apply poolStep_same. Qed.

Lemma poolStep_getWires : keeps poolStep Schematic.getWires.
Proof. intros s a s' [= <- <-]. reflexivity. Qed.

Lemma poolStep_setWires (ws : list Wire) : keeps poolStep (Schematic.setWires ws).
Proof. intros s a s' [= <- <-]. by apply poolStep_same. Qed.

Lemma poolStep_pushComponent (c : Placed) : keeps poolStep (Schematic.pushComponent c).
Proof. intros s a s' [= <- <-]. by apply poolStep_same. Qed.

Lemma poolStep_parseWireCoord (scale : Qc) (wireCoords : list CoordRef)
    (token : option (Qc * Qc)) :
  keeps poolStep (Schematic.parseWireCoord scale wireCoords token).
Proof.
  destruct token as [[x y]|]; simpl.
  - intros s a s' H.
    apply bind_Ok in H as (coord & s1 & E1 & H). apply onStore_Ok in E1.
    apply bind_Ok in H as (c & s2 & E2 & H). apply onStore_Ok in E2.
    apply ret_Ok in H as [_ ->]. split.
    + etrans; [by eapply heapKept_alloc|by eapply heapKept_canonicalize].
    + intros Hinv. apply alloc_inv in E1 as [Hinv1 Hv]; [|done].
      by apply canonicalize_inv in E2 as [? _].
  - apply keeps_bind; [apply _|apply poolStep_logError|]. intros ?.
    apply keeps_ret; apply _.
Qed.

Create HintDb pool.
#[local] Hint Resolve poolStep_getOrCreateNet poolStep_logError poolStep_nextUuid
  poolStep_getWires poolStep_setWires poolStep_pushComponent poolStep_parseWireCoord : pool.

Ltac pool_steps :=
  repeat first
    [ apply keeps_bind; [apply _| |intros ?]
    | apply keeps_ret; apply _
    | solve [auto with pool]
    | match goal with |- keeps _ (match ?x with _ => _ end) => destruct x end
    | match goal with |- keeps _ (if ?x then _ else _) => destruct x end ].

Lemma poolStep_parseWireCoords (scale : Qc) (tokens : list (option (Qc * Qc)))
    (wireCoords : list CoordRef) :
  keeps poolStep (Schematic.parseWireCoords scale wireCoords tokens).
Proof.
  revert wireCoords. induction tokens as [|token tokens IH]; intros wireCoords; simpl.
  - pool_steps.
  - apply keeps_bind; [apply _|auto with pool|intros ?; apply IH].
Qed.

Lemma poolStep_parseWire (scale : Qc) (wireXml : WireXml) :
  keeps poolStep (Schematic.parseWire scale wireXml).
Proof.
  unfold Schematic.parseWire.
  apply keeps_bind; [apply _|auto with pool|]. intros ?.
  apply keeps_bind; [apply _|apply poolStep_parseWireCoords|]. intros ?. pool_steps.
Qed.

Lemma poolStep_parseWires (scale : Qc) (wireArray : list WireXml) :
  keeps poolStep (Schematic.parseWires scale wireArray).
Proof.
  induction wireArray as [|wireXml wireArray IH]; simpl.
  - pool_steps.
  - apply keeps_bind; [apply _|apply poolStep_parseWire|]. intros ?.
    apply keeps_bind; [apply _|apply IH|]. intros ?. pool_steps.
Qed.

Lemma poolStep_parsePins (uuid : nat → string) (instPinArray : list InstPinXml) :
  keeps poolStep (Schematic.parsePins uuid instPinArray).
Proof.
  induction instPinArray as [|pinXml instPinArray IH]; simpl.
  - pool_steps.
  - apply keeps_bind; [apply _| |].
    + unfold Schematic.parsePin. pool_steps.
    + intros ?. apply keeps_bind; [apply _|apply IH|]. intros ?. pool_steps.
Qed.

Lemma lookupStencil_orientedFree (catalog : gmap string Stencil)
    (libraryName cellName : string) (stencil : Stencil) :
  orientedFree catalog →
  Schematic.lookupStencil catalog libraryName cellName = Some stencil →
  isOriented stencil = false.
Proof.
  intros Hc. unfold Schematic.lookupStencil.
  destruct (catalog !! (libraryName +:+ ":" +:+ cellName)) as [st|] eqn:E.
  - intros [= <-]. by eapply Hc.
  - intros E'. by eapply Hc.
Qed.

Lemma poolStep_parseInstance trig pr uuid catalog scale instanceXml :
  orientedFree catalog →
  keeps poolStep (Schematic.parseInstance trig pr uuid catalog scale instanceXml).
Proof.
  intros Hc. unfold Schematic.parseInstance.
  destruct (Schematic.lookupStencil _ _ _) as [stencil|] eqn:E; [|apply poolStep_logError].
  apply (lookupStencil_orientedFree _ _ _ _ Hc) in E.
  apply keeps_bind; [apply _|apply poolStep_parsePins|]. intros pins.
  apply keeps_bind; [apply _|apply poolStep_getWires|]. intros ws.
  apply keeps_bind; [apply _| |intros ?; apply poolStep_pushComponent].
  apply poolStep_onStore. intros s a s' H. split.
  - by eapply heapKept_useAsStencil.
  - intros Hinv. by eapply useAsStencil_inv.
Qed.

Lemma poolStep_parseInstances trig pr uuid catalog scale instanceArray :
  orientedFree catalog →
  keeps poolStep (Schematic.parseInstances trig pr uuid catalog scale instanceArray).
Proof.
  intros Hc. induction instanceArray as [|instanceXml instanceArray IH]; simpl.
  - pool_steps.
  - apply keeps_bind; [apply _|by apply poolStep_parseInstance|]. intros ?. apply IH.
Qed.

Lemma poolStep_parse trig pr uuid catalog scale wireArray instanceArray :
  orientedFree catalog →
  keeps poolStep (Schematic.parse trig pr uuid catalog scale wireArray instanceArray).
Proof.
  intros Hc. unfold Schematic.parse.
  apply keeps_bind; [apply _|apply poolStep_parseWires|]. intros ?.
  apply keeps_bind; [apply _|apply poolStep_setWires|]. intros ?.
  by apply poolStep_parseInstances.
Qed.

(** *** The oriented placement overwrites the coordinates of its pins *)

Lemma overwriteCoords_others (pins : list (option (Pin.t CoordRef)))
    (tikzPins : list (Pin.t Coordinate.t)) (s s' : Store) (r : CoordRef) :
  ABLTransistorMapper.overwriteCoords pins tikzPins s = Ok (tt, s') →
  (∀ pin, Some pin ∈ pins → Pin.coord pin ≠ Some r) →
  length (heap s') = length (heap s) ∧ heap s' !! r = heap s !! r.
Proof.
  revert tikzPins s. induction pins as [|pin pins IH]; intros tikzPins s H Hr.
  - apply ret_Ok in H as [_ ->]. done.
  - destruct tikzPins as [|tikzPin tikzPins]; [by apply ret_Ok in H as [_ ->]|].
    simpl in H.
    apply bind_Ok in H as (p & s1 & E & H). apply lift_Ok in E as [E ->].
    apply bind_Ok in H as (c & s1 & E1 & H). apply lift_Ok in E1 as [E1 ->].
    apply bind_Ok in H as (v & s1 & E2 & H). apply lift_Ok in E2 as [E2 ->].
    apply bind_Ok in H as ([] & s1 & [= <-] & H).
    apply IH in H as [Hl Hv]; [|intros q Hq; apply Hr; by right].
    simpl in Hl, Hv. rewrite length_insert in Hl. split; [done|].
    rewrite Hv. apply list_lookup_insert_ne.
    destruct pin as [pin|]; [|done]. injection E as ->.
    destruct (Pin.coord p) as [c'|] eqn:Ec; [|done]. injection E1 as ->.
    intros ->. apply (Hr p); [by left|done].
Qed.

Lemma ABLTransistorMapper_others trig pr this instanceName pins placement wires
    (s s' : Store) (c : Transistor.t (option (Pin.t CoordRef))) (r : CoordRef) :
  ABLTransistorMapper.useAsStencil trig pr this instanceName pins placement wires s
    = Ok (c, s') →
  (r < length (heap s))%nat →
  (∀ pin, Some pin ∈ Transistor.pins c → Pin.coord pin ≠ Some r) →
  (length (heap s) ≤ length (heap s'))%nat ∧ heap s' !! r = heap s !! r.
Proof.
  intros H Hlt Hr. unfold ABLTransistorMapper.useAsStencil in H.
  apply bind_Ok in H as ([abl tikz] & s1 & E & H). apply lift_Ok in E as [_ ->].
  apply bind_Ok in H as (pins' & s1 & E1 & H).
  apply bind_Ok in H as ([] & s2 & E2 & H). apply ret_Ok in H as [-> ->].
  apply heapKept_positionAll in E1.
  apply overwriteCoords_others with (r := r) in E2 as [Hl Hv]; [|exact Hr].
  split.
  - rewrite Hl. by apply prefix_length.
  - rewrite Hv. destruct E1 as [k ->]. by apply lookup_app_l.
Qed.

Lemma overwriteCoords_length (pins : list (option (Pin.t CoordRef)))
    (tikzPins : list (Pin.t Coordinate.t)) (s s' : Store) :
  ABLTransistorMapper.overwriteCoords pins tikzPins s = Ok (tt, s') →
  length (heap s') = length (heap s).
Proof.
  revert tikzPins s. induction pins as [|pin pins IH]; intros tikzPins s H.
  - apply ret_Ok in H as [_ ->]. done.
  - destruct tikzPins as [|tikzPin tikzPins]; [by apply ret_Ok in H as [_ ->]|].
    simpl in H.
    apply bind_Ok in H as (p & s1 & E & H). apply lift_Ok in E as [E ->].
    apply bind_Ok in H as (c & s1 & E1 & H). apply lift_Ok in E1 as [E1 ->].
    apply bind_Ok in H as (v & s1 & E2 & H). apply lift_Ok in E2 as [E2 ->].
    apply bind_Ok in H as ([] & s1 & [= <-] & H).
    apply IH in H. simpl in H. by rewrite length_insert in H.
Qed.

Lemma overwriteCoords_rest (pins : list (option (Pin.t CoordRef)))
    (tikzPins : list (Pin.t Coordinate.t)) (s s' : Store) (r : CoordRef) :
  ABLTransistorMapper.overwriteCoords pins tikzPins s = Ok (tt, s') →
  (∀ j pin, (j < length tikzPins)%nat → pins !! j = Some (Some pin) →
            Pin.coord pin ≠ Some r) →
  heap s' !! r = heap s !! r.
Proof.
  revert tikzPins s. induction pins as [|pin pins IH]; intros tikzPins s H Hr.
  - apply ret_Ok in H as [_ ->]. done.
  - destruct tikzPins as [|tikzPin tikzPins]; [by apply ret_Ok in H as [_ ->]|].
    simpl in H.
    apply bind_Ok in H as (p & s1 & E & H). apply lift_Ok in E as [E ->].
    apply bind_Ok in H as (c & s1 & E1 & H). apply lift_Ok in E1 as [E1 ->].
    apply bind_Ok in H as (v & s1 & E2 & H). apply lift_Ok in E2 as [E2 ->].
    apply bind_Ok in H as ([] & s1 & [= <-] & H).
    apply IH in H.
    + rewrite H. simpl. apply list_lookup_insert_ne.
      destruct pin as [pin|]; [|done]. injection E as ->.
      destruct (Pin.coord p) as [c'|] eqn:Ec; [|done]. injection E1 as ->.
      intros ->. apply (Hr 0%nat p); [simpl; lia|done|done].
    + intros j q Hj Hq. apply (Hr (S j) q); [simpl; lia|done].
Qed.

(** What [overwriteCoords] writes: the coordinate object of a pin ends
    with the value of the template pin at the last index whose pin holds
    that object. *)
Lemma overwriteCoords_written (pins : list (option (Pin.t CoordRef)))
    (tikzPins : list (Pin.t Coordinate.t)) (s s' : Store) (r : CoordRef) (i : nat) :
  ABLTransistorMapper.overwriteCoords pins tikzPins s = Ok (tt, s') →
  (r < length (heap s))%nat →
  lastHolder pins (length tikzPins) r i →
  ∃ v, coordAt tikzPins i = Ok v ∧ heap s' !! r = Some v.
Proof.
  revert tikzPins s i. induction pins as [|pin pins IH]; intros tikzPins s i H Hr Hlast.
  - destruct Hlast as (_ & (p & Hp & _) & _). done.
  - destruct tikzPins as [|tikzPin tikzPins].
    { destruct Hlast as (Hi & _). simpl in Hi. lia. }
    simpl in H.
    apply bind_Ok in H as (p & s1 & E & H). apply lift_Ok in E as [E ->].
    apply bind_Ok in H as (c & s1 & E1 & H). apply lift_Ok in E1 as [E1 ->].
    apply bind_Ok in H as (v & s1 & E2 & H). apply lift_Ok in E2 as [E2 ->].
    apply bind_Ok in H as ([] & s1 & [= <-] & H).
    destruct Hlast as (Hi & (q & Hq & Hqc) & Hlater).
    destruct i as [|i].
    + simpl in Hq. injection Hq as ->. simpl in E. injection E as ->.
      rewrite Hqc in E1. simpl in E1. injection E1 as <-.
      exists v. split.
      * unfold coordAt. simpl. exact E2.
      * apply overwriteCoords_rest with (r := r) in H.
        -- rewrite H. simpl. by apply list_lookup_insert_eq.
        -- intros j pin' Hj Hp. apply (Hlater (S j) pin'); [simpl; lia|done].
    + destruct (IH tikzPins _ i H) as (w & Hw & Hv).
      * simpl. by rewrite length_insert.
      * split; [simpl in Hi; lia|]. split; [by exists q|].
        intros j pin' Hj Hp. apply (Hlater (S j) pin'); [simpl; lia|done].
      * exists w. split; [|done]. unfold coordAt in *. simpl. exact Hw.
Qed.

(** C2 (counterexample): an npn transistor placed at the origin, with a
    wire of the base's net that has a vertex at the origin.  The base pin
    snaps onto the vertex, a pooled coordinate, and the placement then
    writes the base pin of the [npn] shape into it: the vertex no longer
    has the value it was interned with. *)
Lemma oriented_placement_overwrites_pooled : ¬ pooledValuesKept noTrig noPrinter.
Proof.
  intros H.
  destruct (useAsStencil noTrig noPrinter (StencilMapper MAPPER_BJT) "Q1"
              (livePins [1; 2; 3]%Z) atOrigin [baseWire] baseWireStore)
    as [[component s']|e] eqn:E; [|by vm_compute in E].
  specialize (H _ _ _ _ _ _ _ _ 0%nat E).
  vm_compute in E. injection E as <- <-.
  assert (Hin : Some 0%nat ∈ coords baseWireStore) by (by left).
  specialize (H Hin). apply (f_equal (fun c => this (Coordinate.x c))) in H.
  vm_compute in H. discriminate H.
Qed.

(** C2 (amended): a placement changes the value of an existing coordinate
    object only if it is an oriented placement and the object is the
    coordinate of one of the placed transistor's pins.  The Node and Path
    placements change no existing coordinate (they only create new
    ones).  The oriented placement, after the search, overwrites in
    place the coordinate object of each pin with the coordinates of the
    pin of the aligned render template at the same index (when several
    pins hold one object, the last of them decides), and changes no
    other coordinate.  Objects are addresses here, so a coordinate
    object is one whose address lies in the heap. *)
Theorem values_change_only_under_oriented_pins trig pr stencil instanceName pins placement
    wires (s s' : Store) (component : Placed) :
  useAsStencil trig pr stencil instanceName pins placement wires s = Ok (component, s') →
  (∀ r : CoordRef, (r < length (heap s))%nat → ¬ orientedPinHolds component r →
     heap s' !! r = heap s !! r)
  ∧ (isOriented stencil = false → heapKept s s')
  ∧ (∀ mapper, stencil = StencilMapper mapper →
       ∃ abl tikz c,
         ABLTransistorMapper.align trig pr mapper
           (withAngle placement (normalizeAngle (pl_angle placement))) = Ok (abl, tikz)
         ∧ component = PlacedTransistor c
         ∧ ∀ (r : CoordRef) (i : nat),
             (r < length (heap s'))%nat →
             lastHolder (Transistor.pins c) (length (Transistor.pins tikz)) r i →
             ∃ v, coordAt (Transistor.pins tikz) i = Ok v ∧ heap s' !! r = Some v).
Proof.
  intros H. split_and!.
  - intros r Hlt Hr. destruct stencil as [st|st|st].
    + apply heapKept_lookup; [|done].
      eapply (heapKept_useAsStencil _ _ (StencilPath st)); [reflexivity|exact H].
    + apply heapKept_lookup; [|done].
      eapply (heapKept_useAsStencil _ _ (StencilPotential st)); [reflexivity|exact H].
    + simpl in H. apply bind_Ok in H as (c & s1 & E & H). apply ret_Ok in H as [-> ->].
      eapply ABLTransistorMapper_others; [exact E|done|].
      intros pin Hin Hc. apply Hr. simpl. eauto.
  - intros Hs. by eapply heapKept_useAsStencil.
  - intros mapper ->. simpl in H.
    apply bind_Ok in H as (c & s1 & E & H). apply ret_Ok in H as [-> ->].
    unfold ABLTransistorMapper.useAsStencil in E.
    apply bind_Ok in E as ([abl tikz] & s2 & E0 & E). apply lift_Ok in E0 as [E0 ->].
    apply bind_Ok in E as (pins' & s2 & E1 & E).
    apply bind_Ok in E as ([] & s3 & E2 & E). apply ret_Ok in E as [-> ->].
    eexists abl, tikz, _. split; [exact E0|]. split; [reflexivity|].
    intros r i Hr Hlast. simpl in Hlast.
    eapply overwriteCoords_written; [exact E2| |exact Hlast].
    by rewrite <- (overwriteCoords_length _ _ _ _ E2).
Qed.

Lemma values_change_only_under_oriented_pins_witness :
  ∃ component s' tikz,
    useAsStencil noTrig noPrinter (StencilMapper MAPPER_BJT) "Q1"
      (livePins [1; 2; 3]%Z) atOrigin [baseWire] baseWireStore = Ok (component, s')
    ∧ heap s' !! 1%nat = heap baseWireStore !! 1%nat
    ∧ ABLTransistorMapper.align noTrig noPrinter MAPPER_BJT atOrigin = Ok (tikz.1, tikz.2)
    ∧ ∃ v, coordAt (Transistor.pins tikz.2) 2 = Ok v ∧ heap s' !! 0%nat = Some v.
Proof.
  destruct (useAsStencil noTrig noPrinter (StencilMapper MAPPER_BJT) "Q1"
              (livePins [1; 2; 3]%Z) atOrigin [baseWire] baseWireStore)
    as [[component s']|e] eqn:E; [|by vm_compute in E].
  destruct (values_change_only_under_oriented_pins _ _ _ _ _ _ _ _ _ _ E)
    as (Hframe & _ & Hwritten).
  destruct (Hwritten MAPPER_BJT eq_refl) as (abl & tikz & c & Ealign & -> & Hw).
  exists (PlacedTransistor c), s', (abl, tikz). split; [reflexivity|].
  vm_compute in E. injection E as <- <-.
  split.
  - apply Hframe; [simpl; lia|].
    intros (pin & Hin & Hc). simpl in Hin.
    repeat (apply elem_of_cons in Hin as [[= ->]|Hin]; [discriminate Hc|]).
    by apply elem_of_nil in Hin.
  - split; [exact Ealign|].
    apply Hw; [simpl; lia|].
    vm_compute in Ealign. injection Ealign as <- <-.
    split; [simpl; lia|]. split; [eexists; split; reflexivity|].
    intros j pin Hj. simpl in Hj. lia.
Defined.

(** Over a catalog without oriented stencils, parsing a view changes no
    existing coordinate. *)
Lemma parse_keeps_values trig pr uuid catalog scale wireArray instanceArray
    (s s' : Schematic.t) (r : CoordRef) :
  orientedFree catalog →
  Schematic.parse trig pr uuid catalog scale wireArray instanceArray s = Ok (tt, s') →
  (r < length (heap (Schematic.store s)))%nat →
  heap (Schematic.store s') !! r = heap (Schematic.store s) !! r.
Proof.
  intros Hc H Hlt. apply heapKept_lookup; [|done].
  by apply (poolStep_parse _ _ _ _ _ _ _ Hc) in H as [? _].
Qed.

(** Two npn transistors in one place, with no wire, parsed at the scale
    of [#parse].  The three coordinates of the first are interned and
    then overwritten with the pins of its aligned template; the second
    computes the coordinates the first had computed, finds none of them
    in the pool any more, interns three new ones, and overwrites them
    with the same template pins.  The computations of the two instances
    are the same step by step, so the values agree whatever the
    rounding. *)
Lemma pool_pair_values_equal :
  ∃ schematic,
    Schematic.fromXML noTrig noPrinter (fun _ => "f81d4fae") ADS_COMPONENTS_MAP defaultScale
      [] [npnXml; secondNpnXml] = Ok schematic
    ∧ coords (Schematic.store schematic) !! 0%nat = Some (Some 0%nat)
    ∧ coords (Schematic.store schematic) !! 3%nat = Some (Some 3%nat)
    ∧ valueOf (heap (Schematic.store schematic)) 0%nat
      = valueOf (heap (Schematic.store schematic)) 3%nat.
Proof.
  eexists. split; [vm_compute; reflexivity|]. split; [reflexivity|]. split; [reflexivity|].
  apply equals_spec. vm_compute. reflexivity.
Qed.

(** C6 (counterexample): a view of two npn transistors in one place.
    After the oriented placement has overwritten the interned
    coordinates of the first, the second interns its own, and the pool
    of the schematic holds two entries (0 and 3) with the same value. *)
Lemma oriented_placement_duplicates_pool_value :
  ¬ poolAlwaysDistinct noTrig noPrinter (fun _ => "f81d4fae").
Proof.
  intros H. destruct pool_pair_values_equal as (schematic & E & H0 & H3 & Hv).
  specialize (H _ _ _ E 0%nat 3%nat 0%nat 3%nat H0 H3 Hv). discriminate H.
Qed.

(** C6 (amended): in a pool without value-equal entries, canonicalizing
    a candidate returns a pool member with the candidate's value, leaves
    every coordinate untouched and keeps the pool without value-equal
    entries; canonicalizing any value-equal candidate next returns the
    identical member and adds nothing.  The Node and Path placements, the
    component-level placement and the parsing of a view over a catalog
    without oriented stencils keep the pool without value-equal entries. *)
Theorem canonicalize_unique_without_overwrite (s : Store) :
  poolInv s →
  (∀ c : CoordRef, (c < length (heap s))%nat →
     ∃ r s', canonicalize (Some c) s = Ok (Some r, s')
       ∧ heap s' = heap s
       ∧ valueOf (heap s) r = valueOf (heap s) c
       ∧ Some r ∈ coords s'
       ∧ poolInv s'
       ∧ ∀ c' : CoordRef, (c' < length (heap s))%nat →
           valueOf (heap s) c' = valueOf (heap s) c →
           canonicalize (Some c') s' = Ok (Some r, s'))
  ∧ (∀ trig pr stencil instanceName pins placement wires component s',
       isOriented stencil = false →
       useAsStencil trig pr stencil instanceName pins placement wires s
         = Ok (component, s') →
       poolInv s')
  ∧ (∀ trig this attrInstanceName pins placement wires component s',
       Component.cloneToPosition trig this attrInstanceName pins placement wires s
         = Ok (component, s') →
       poolInv s')
  ∧ (∀ trig pr uuid catalog scale wireArray instanceArray schematic schematic',
       Schematic.store schematic = s →
       orientedFree catalog →
       Schematic.parse trig pr uuid catalog scale wireArray instanceArray schematic
         = Ok (tt, schematic') →
       poolInv (Schematic.store schematic')).
Proof.
  intros Hinv. split_and!.
  - intros c Hc.
    destruct (canonicalize_Some_spec c s) as (r & s' & E & Hh & Hv & Hin & Hp & _).
    specialize (Hp Hinv Hc).
    exists r, s'. split_and!; try done.
    intros c' Hc' Hv'.
    destruct (canonicalize_Some_spec c' s') as (r' & s'' & E' & _ & _ & _ & _ & Hu).
    rewrite E'. destruct (Hu (proj2 Hp) r Hin) as [-> ->]; [|done].
    rewrite Hh. congruence.
  - intros. by eapply useAsStencil_inv.
  - intros. by eapply cloneToPosition_inv.
  - intros trig pr uuid catalog scale wireArray instanceArray schematic schematic' <- Hc H.
    by apply (poolStep_parse _ _ _ _ _ _ _ Hc) in H as [_ ?]; auto.
Qed.

Lemma canonicalize_unique_without_overwrite_witness :
  poolInv junctionStore
  ∧ ∃ r s', canonicalize (Some 2%nat) junctionStore = Ok (Some r, s')
      ∧ heap s' = heap junctionStore
      ∧ valueOf (heap junctionStore) r = valueOf (heap junctionStore) 2%nat
      ∧ Some r ∈ coords s'
      ∧ poolInv s'
      ∧ ∀ c' : CoordRef, (c' < length (heap junctionStore))%nat →
          valueOf (heap junctionStore) c' = valueOf (heap junctionStore) 2%nat →
          canonicalize (Some c') s' = Ok (Some r, s').
Proof.
  assert (Hinv : poolInv junctionStore).
  { split.
    - intros r Hr. simpl in Hr.
      repeat (apply elem_of_cons in Hr as [[= ->]|Hr]; [simpl; lia|]).
      by apply elem_of_nil in Hr.
    - intros [|[|i]] [|[|j]] r1 r2 H1 H2 Hv; simpl in H1, H2; try done.
      + injection H1 as <-. injection H2 as <-.
        apply (f_equal (fun c => this (Coordinate.x c))) in Hv.
        vm_compute in Hv. discriminate Hv.
      + injection H1 as <-. injection H2 as <-.
        apply (f_equal (fun c => this (Coordinate.x c))) in Hv.
        vm_compute in Hv. discriminate Hv. }
  split; [exact Hinv|].
  apply (canonicalize_unique_without_overwrite junctionStore Hinv).
  simpl. lia.
Defined.

(** A schematic parsed over a catalog without oriented stencils has a
    pool without value-equal entries. *)
Lemma fromXML_pool_distinct trig pr uuid catalog scale wireArray instanceArray
    (schematic : Schematic.t) :
  orientedFree catalog →
  Schematic.fromXML trig pr uuid catalog scale wireArray instanceArray = Ok schematic →
  poolInv (Schematic.store schematic).
Proof.
  intros Hc. unfold Schematic.fromXML.
  destruct (Schematic.parse _ _ _ _ _ _ _ _) as [[[] s']|e] eqn:E; [|done].
  intros [= <-].
  apply (poolStep_parse _ _ _ _ _ _ _ Hc) in E as [_ H]. apply H, poolInv_empty.
Qed.

(** A resistor on a wire: the view parses and its pool has no value-equal
    entries. *)
Example resistor_schematic_pool :
  orientedFree resistorCatalog
  ∧ ∃ schematic,
      Schematic.fromXML noTrig noPrinter (fun _ => "f81d4fae") resistorCatalog 1
        [baseWireXml] [resistorXml] = Ok schematic
      ∧ poolInv (Schematic.store schematic).
Proof.
  assert (Hc : orientedFree resistorCatalog) by (by apply map_Forall_singleton).
  split; [exact Hc|].
  destruct (Schematic.fromXML noTrig noPrinter (fun _ => "f81d4fae") resistorCatalog 1
              [baseWireXml] [resistorXml]) as [schematic|e] eqn:E; [|by vm_compute in E].
  exists schematic. split; [reflexivity|]. by eapply fromXML_pool_distinct.
Qed.

(** ** The nets of a whole view *)

(** *** The names the pins resolve to *)

Lemma resolvedNames_length uuid k instPins :
  length (resolvedNames uuid k instPins) = length instPins.
Proof.
  revert k. induction instPins as [|p rest IH]; intros k; [done|].
  simpl. destruct (nonEmpty (ipx_netName p)); simpl; by rewrite IH.
Qed.

Lemma unnamedPins_cons p rest :
  unnamedPins (p :: rest)
  = ((if nonEmpty (ipx_netName p) then 0 else 1) + unnamedPins rest)%nat.
Proof.
  unfold unnamedPins. rewrite filter_cons.
  destruct (nonEmpty (ipx_netName p)) eqn:E.
  - apply nonEmpty_true in E. by rewrite decide_False.
  - apply nonEmpty_false in E. by rewrite decide_True.
Qed.

(** A resolved name is the net name of its element, or the identifier of
    the call its element makes. *)
Lemma resolvedNames_lookup uuid k instPins i name :
  resolvedNames uuid k instPins !! i = Some name →
  ∃ pinXml, instPins !! i = Some pinXml
    ∧ ((ipx_netName pinXml ≠ "" ∧ name = ipx_netName pinXml)
       ∨ (ipx_netName pinXml = ""
          ∧ name = uuid (k + unnamedPins (take i instPins))%nat
          ∧ (unnamedPins (take i instPins) < unnamedPins instPins)%nat)).
Proof.
  revert k i. induction instPins as [|p rest IH]; intros k i H; [done|].
  simpl in H. destruct i as [|i].
  - exists p. split; [done|]. rewrite unnamedPins_cons.
    destruct (nonEmpty (ipx_netName p)) eqn:E; simpl in H; injection H as <-.
    + left. by apply nonEmpty_true in E.
    + right. apply nonEmpty_false in E. split; [done|].
      split; [f_equal; unfold unnamedPins; simpl; lia|]. unfold unnamedPins at 1. simpl. lia.
  - assert (H' : ∃ k', resolvedNames uuid k' rest !! i = Some name
                   ∧ (k' = k + (if nonEmpty (ipx_netName p) then 0 else 1))%nat).
    { destruct (nonEmpty (ipx_netName p)); simpl in H; eexists; (split; [exact H|lia]). }
    destruct H' as (k' & H' & ->).
    destruct (IH _ _ H') as (pinXml & Hp & Hcase).
    exists pinXml. split; [done|].
    rewrite firstn_cons, !unnamedPins_cons.
    destruct Hcase as [[? ?]|(? & -> & ?)]; [by left|right].
    split; [done|]. split; [f_equal; lia|lia].
Qed.

Lemma placedInstances_counters catalog k instanceArray j j' position position' :
  placedInstances catalog k instanceArray !! j = Some position →
  placedInstances catalog k instanceArray !! j' = Some position' →
  (j < j')%nat →
  (k ≤ position.1)%nat
  ∧ (position.1 + unnamedPins (ix_instPins position.2) ≤ position'.1)%nat.
Proof.
  revert k j j'. induction instanceArray as [|ix rest IH]; intros k j j' H H' Hlt; [done|].
  simpl in H, H'.
  destruct (Schematic.lookupStencil catalog (ix_libraryName ix) (ix_cellName ix)).
  - destruct j' as [|j']; [lia|]. simpl in H'.
    destruct j as [|j].
    + simpl in H. injection H as <-. simpl. split; [lia|].
      clear IH Hlt. revert j' H'.
      generalize (k + unnamedPins (ix_instPins ix))%nat as k0.
      induction rest as [|ix' rest IH]; intros k0 j' H'; [done|].
      simpl in H'.
      destruct (Schematic.lookupStencil catalog (ix_libraryName ix') (ix_cellName ix')).
      * destruct j' as [|j']; simpl in H'.
        -- injection H' as <-. simpl. lia.
        -- apply IH in H'. lia.
      * by eapply IH.
    + simpl in H. destruct (IH _ _ _ H H') as [? ?]; [lia|]. split; lia.
  - destruct (IH _ _ _ H H' Hlt) as [? ?]. done.
Qed.

Lemma placedInstances_elem catalog k instanceArray j position :
  placedInstances catalog k instanceArray !! j = Some position →
  position.2 ∈ instanceArray.
Proof.
  revert k j. induction instanceArray as [|ix rest IH]; intros k j H; [done|].
  simpl in H.
  destruct (Schematic.lookupStencil catalog (ix_libraryName ix) (ix_cellName ix)).
  - destruct j as [|j]; simpl in H.
    + injection H as <-. by left.
    + right. by eapply IH.
  - right. by eapply IH.
Qed.

(** With fresh identifiers, two elements resolve to one name only when
    both carry it as their net name, and an element resolves to the name
    of a wire only when it carries it. *)
Lemma resolved_names_differ uuid catalog wireArray instanceArray :
  uuidsFresh uuid wireArray instanceArray →
  (∀ j i j' i' pinXml pinXml' name,
     resolvedAt uuid (placedInstances catalog 0 instanceArray) j i pinXml name →
     resolvedAt uuid (placedInstances catalog 0 instanceArray) j' i' pinXml' name →
     (j, i) ≠ (j', i') →
     ipx_netName pinXml = name ∧ ipx_netName pinXml' = name ∧ name ≠ "")
  ∧ (∀ j i pinXml wireXml,
       resolvedAt uuid (placedInstances catalog 0 instanceArray) j i pinXml
         (wx_netName wireXml) →
       wireXml ∈ wireArray →
       ipx_netName pinXml = wx_netName wireXml ∧ wx_netName wireXml ≠ "").
Proof.
  intros (Hinj & Hwires & Hpins). split.
  - intros j i j' i' pinXml pinXml' name
      (pos & Hpos & Hp & Hn) (pos' & Hpos' & Hp' & Hn') Hne.
    pose proof (placedInstances_elem _ _ _ _ _ Hpos) as Hin.
    pose proof (placedInstances_elem _ _ _ _ _ Hpos') as Hin'.
    apply resolvedNames_lookup in Hn as (q & Hq & Hcase).
    apply resolvedNames_lookup in Hn' as (q' & Hq' & Hcase').
    rewrite Hp in Hq. injection Hq as <-. rewrite Hp' in Hq'. injection Hq' as <-.
    destruct Hcase as [[Hne1 E1]|(He1 & E1 & Hb1)], Hcase' as [[Hne2 E2]|(He2 & E2 & Hb2)].
    + subst name. by rewrite <- E2.
    + exfalso. rewrite E1 in E2.
      eapply Hpins; [exact Hin| |exact E2]. by eapply list_elem_of_lookup_2.
    + exfalso. rewrite E2 in E1.
      eapply Hpins; [exact Hin'| |exact E1]. by eapply list_elem_of_lookup_2.
    + exfalso. rewrite E1 in E2. apply Hinj in E2.
      destruct (Nat.lt_trichotomy j j') as [Hlt|[->|Hlt]].
      * destruct (placedInstances_counters _ _ _ _ _ _ _ Hpos Hpos' Hlt). lia.
      * rewrite Hpos in Hpos'. injection Hpos' as <-.
        assert (Hii : i ≠ i') by (intros ->; by apply Hne).
        assert (Hmono : ∀ l a b p, (a < b)%nat → l !! a = Some p → ipx_netName p = "" →
                  (unnamedPins (take a l) < unnamedPins (take b l))%nat).
        { clear. intros l a b p Hab Hl He.
          replace b with (a + (b - a))%nat by lia.
          rewrite <- take_take_drop. unfold unnamedPins.
          rewrite filter_app, length_app.
          destruct (b - a)%nat as [|d] eqn:Ed; [lia|].
          rewrite (drop_S _ _ _ Hl). simpl. rewrite filter_cons, decide_True; [|done].
          simpl. lia. }
        destruct (Nat.lt_trichotomy i i') as [Hlt|[->|Hlt]]; [|done|].
        -- pose proof (Hmono _ _ _ _ Hlt Hp He1). lia.
        -- pose proof (Hmono _ _ _ _ Hlt Hp' He2). lia.
      * destruct (placedInstances_counters _ _ _ _ _ _ _ Hpos' Hpos Hlt). lia.
  - intros j i pinXml wireXml (pos & Hpos & Hp & Hn) Hw.
    apply resolvedNames_lookup in Hn as (q & Hq & Hcase).
    rewrite Hp in Hq. injection Hq as <-.
    destruct Hcase as [[Hne1 E1]|(He1 & E1 & Hb1)].
    + split; [done|]. by rewrite E1.
    + exfalso. by eapply Hwires.
Qed.

(** *** The pins of a placed component are pins of its instance *)

Lemma samePin_refl (p : Pin.t CoordRef) : samePin p p.
Proof. by split_and!. Qed.

Lemma samePin_trans (p q r : Pin.t CoordRef) : samePin p q → samePin q r → samePin p r.
Proof. intros (? & ? & ?) (? & ? & ?). split_and!; congruence. Qed.

Lemma findPosition_samePin trig stencilPins placement instanceCoord wires relativeCoords
    (this pin' : Pin.t CoordRef) (s s' : Store) :
  Pin.findPosition trig stencilPins placement instanceCoord wires relativeCoords this s
    = Ok (pin', s') →
  samePin this pin'.
Proof.
  intros H. unfold Pin.findPosition in H.
  apply bind_Ok in H as (h & s0 & _ & H).
  apply bind_Ok in H as (thisCoord & s1 & _ & H).
  apply bind_Ok in H as (coord & s2 & _ & H).
  apply ret_Ok in H as [-> ->]. by split_and!.
Qed.

Lemma positionAt_samePin trig stencilPins placement instanceCoord wires relativeCoords
    (pins pins' : list (Pin.t CoordRef)) (i : option nat) (s s' : Store) :
  positionAt trig stencilPins placement instanceCoord wires relativeCoords pins i s
    = Ok (pins', s') →
  Forall2 samePin pins pins'.
Proof.
  intros H. unfold positionAt in H.
  apply bind_Ok in H as (pin & s0 & E0 & H). apply lift_Ok in E0 as [E0 ->].
  apply bind_Ok in H as (pin' & s1 & E1 & H). apply ret_Ok in H as [-> ->].
  apply findPosition_samePin in E1.
  destruct i as [k|]; [|done]. simpl in E0 |- *.
  destruct (pins !! k) as [q|] eqn:Hq; [|done]. injection E0 as ->.
  apply Forall2_same_length_lookup_2; [by rewrite length_insert|].
  intros j p p' Hp Hp'. destruct (decide (j = k)) as [->|Hne].
  - rewrite list_lookup_insert_eq in Hp'; [|by eapply lookup_lt_Some].
    injection Hp' as <-. rewrite Hq in Hp. by injection Hp as <-.
  - rewrite list_lookup_insert_ne in Hp'; [|done].
    rewrite Hp in Hp'. injection Hp' as <-. apply samePin_refl.
Qed.

Lemma positionAll_samePin trig stencilPins placement instanceCoord wires relativeCoords
    (order : list (option nat)) (pins pins' : list (Pin.t CoordRef)) (s s' : Store) :
  positionAll trig stencilPins placement instanceCoord wires relativeCoords pins order s
    = Ok (pins', s') →
  Forall2 samePin pins pins'.
Proof.
  revert pins s. induction order as [|i order IH]; intros pins s H; simpl in H.
  - apply ret_Ok in H as [-> ->].
    apply Forall2_same_length_lookup_2; [done|]. intros j p p' Hp Hp'.
    rewrite Hp in Hp'. injection Hp' as <-. apply samePin_refl.
  - apply bind_Ok in H as (pins1 & s1 & E & H).
    apply positionAt_samePin in E. apply IH in H.
    apply Forall2_same_length_lookup_2.
    + by rewrite (Forall2_length _ _ _ E), (Forall2_length _ _ _ H).
    + intros j p p' Hp Hp'.
      destruct (Forall2_lookup_l _ _ _ _ _ E Hp) as (q & Hq & H1).
      destruct (Forall2_lookup_l _ _ _ _ _ H Hq) as (q' & Hq' & H2).
      rewrite Hp' in Hq'. injection Hq' as <-. by eapply samePin_trans.
Qed.

Lemma selected_lookup (pins : list (Pin.t CoordRef)) (order : list (option nat))
    (pin : Pin.t CoordRef) :
  pin ∈ omap id (selected pins order) → ∃ i, pins !! i = Some pin.
Proof.
  intros Hin. apply list_elem_of_omap in Hin as (e & Hin & He). simpl in He. subst e.
  unfold selected in Hin. apply list_elem_of_fmap in Hin as (i & Hi & _).
  destruct i as [k|]; [|done]. simpl in Hi. by exists k.
Qed.

(** Every pin of a placed component is a live pin of its instance, with
    a coordinate. *)
Lemma useAsStencil_samePin trig pr stencil instanceName (pins : list (Pin.t CoordRef))
    placement (wires : list Wire) (component : Placed) (s s' : Store) (pin' : Pin.t CoordRef) :
  useAsStencil trig pr stencil instanceName pins placement wires s = Ok (component, s') →
  pin' ∈ placedPins component →
  ∃ i pin, pins !! i = Some pin ∧ samePin pin pin'.
Proof.
  intros H Hin.
  assert (Hfrom : ∀ pins', Forall2 samePin pins pins' → (∃ i, pins' !! i = Some pin') →
            ∃ i pin, pins !! i = Some pin ∧ samePin pin pin').
  { intros pins' Hsame [i Hi].
    destruct (Forall2_lookup_r _ _ _ _ _ Hsame Hi) as (pin & Hp & Hs). by exists i, pin. }
  destruct stencil as [st|st|st]; simpl in H.
  - apply bind_Ok in H as (c & s1 & E & H). apply ret_Ok in H as [-> ->].
    unfold PathComponent.useAsStencil in E.
    apply bind_Ok in E as (fresh & s2 & E1 & E).
    apply bind_Ok in E as (ic & s3 & E2 & E).
    apply bind_Ok in E as (pins' & s4 & E3 & E). apply ret_Ok in E as [-> ->].
    simpl in Hin. apply (Hfrom pins'); [by eapply positionAll_samePin|].
    by eapply selected_lookup.
  - apply bind_Ok in H as (c & s1 & E & H). apply ret_Ok in H as [-> ->].
    unfold PotentialComponent.useAsStencil in E.
    apply bind_Ok in E as (fresh & s2 & E1 & E).
    apply bind_Ok in E as (ic & s3 & E2 & E).
    apply bind_Ok in E as (pins' & s4 & E3 & E). apply ret_Ok in E as [-> ->].
    simpl in Hin. apply (Hfrom pins'); [by eapply positionAt_samePin|].
    exists 0%nat. destruct (pins' !! 0%nat) as [q|]; simpl in Hin.
    + by apply list_elem_of_singleton in Hin as ->.
    + by apply elem_of_nil in Hin.
  - apply bind_Ok in H as (c & s1 & E & H). apply ret_Ok in H as [-> ->].
    unfold ABLTransistorMapper.useAsStencil in E.
    apply bind_Ok in E as ([abl tikz] & s2 & E1 & E). apply lift_Ok in E1 as [_ ->].
    apply bind_Ok in E as (pins' & s3 & E2 & E).
    apply bind_Ok in E as ([] & s4 & E3 & E). apply ret_Ok in E as [-> ->].
    simpl in Hin. apply (Hfrom pins'); [by eapply positionAll_samePin|].
    by eapply selected_lookup.
Qed.

(** *** Parsing the pins and the instances *)

Lemma getOrCreateNet_lists (netName : string) (s s' : Schematic.t) (r : NetRef) :
  Schematic.getOrCreateNet netName s = Ok (r, s') →
  Schematic.nets s' !! netName = Some r
  ∧ netsPreserved s s'
  ∧ Schematic.uuidCalls s' = Schematic.uuidCalls s
  ∧ Schematic.wires s' = Schematic.wires s
  ∧ Schematic.components s' = Schematic.components s.
Proof.
  intros H.
  destruct (getOrCreateNet_spec netName s) as (r' & s1 & E & Hr & [Hp _] & Hu).
  rewrite H in E. injection E as <- <-. split_and!; try done.
  all: unfold Schematic.getOrCreateNet in H;
    destruct (Schematic.nets s !! netName); by injection H as <- <-.
Qed.

Lemma parsePin_frame (uuid : nat → string) (pinXml : InstPinXml) (s s' : Schematic.t)
    (pin : Pin.t CoordRef) :
  Schematic.parsePin uuid pinXml s = Ok (pin, s') →
  netsPreserved s s'
  ∧ Schematic.uuidCalls s'
    = (Schematic.uuidCalls s + (if nonEmpty (ipx_netName pinXml) then 0 else 1))%nat
  ∧ Schematic.wires s' = Schematic.wires s
  ∧ Schematic.components s' = Schematic.components s
  ∧ Pin.name pin = ipx_pinName pinXml
  ∧ Pin.instTermNumber pin = ipx_instTermNumber pinXml
  ∧ ∃ r, Pin.net pin = Some r
         ∧ Schematic.nets s' !!
             (if nonEmpty (ipx_netName pinXml) then ipx_netName pinXml
              else uuid (Schematic.uuidCalls s)) = Some r.
Proof.
  intros H. unfold Schematic.parsePin in H.
  apply bind_Ok in H as (netName & s1 & E & H).
  apply bind_Ok in H as (net & s2 & E1 & H). apply ret_Ok in H as [-> ->].
  apply getOrCreateNet_lists in E1 as (Hr & Hp & Hu & Hw & Hc).
  destruct (nonEmpty (ipx_netName pinXml)).
  - injection E as <- <-. split_and!; try done; [lia|by exists net].
  - injection E as <- <-. simpl in *. split_and!; try done; [lia|by exists net].
Qed.

Lemma parsePins_resolved (uuid : nat → string) (instPinArray : list InstPinXml)
    (s s' : Schematic.t) (pins : list (Pin.t CoordRef)) :
  Schematic.parsePins uuid instPinArray s = Ok (pins, s') →
  netsPreserved s s'
  ∧ Schematic.uuidCalls s' = (Schematic.uuidCalls s + unnamedPins instPinArray)%nat
  ∧ Schematic.wires s' = Schematic.wires s
  ∧ Schematic.components s' = Schematic.components s
  ∧ ∀ i pin, pins !! i = Some pin →
      ∃ pinXml name r,
        instPinArray !! i = Some pinXml
        ∧ resolvedNames uuid (Schematic.uuidCalls s) instPinArray !! i = Some name
        ∧ Pin.name pin = ipx_pinName pinXml
        ∧ Pin.instTermNumber pin = ipx_instTermNumber pinXml
        ∧ Pin.net pin = Some r
        ∧ Schematic.nets s' !! name = Some r.
Proof.
  revert s pins. induction instPinArray as [|pinXml rest IH]; intros s pins H; simpl in H.
  - apply ret_Ok in H as [-> ->].
    split_and!; try done; try (by intros n r); try (unfold unnamedPins; simpl; lia).
  - apply bind_Ok in H as (pin & s1 & E & H).
    apply bind_Ok in H as (pins' & s2 & E' & H). apply ret_Ok in H as [-> ->].
    apply parsePin_frame in E as (Hp & Hu & Hw & Hc & Hn & Ht & r & Hr & Hnet).
    apply IH in E' as (Hp' & Hu' & Hw' & Hc' & Hpins).
    split_and!.
    + intros n q Hq. by apply Hp', Hp.
    + rewrite Hu', Hu, unnamedPins_cons. lia.
    + congruence.
    + congruence.
    + intros [|i] p Hi; simpl in Hi.
      * injection Hi as <-. exists pinXml. simpl.
        destruct (nonEmpty (ipx_netName pinXml)); eexists _, r;
          (split_and!; try done; by apply Hp').
      * destruct (Hpins _ _ Hi) as (px & name & r' & Hpx & Hname & H1 & H2 & H3 & H4).
        exists px, name, r'. simpl. split_and!; try done.
        rewrite Hu in Hname. destruct (nonEmpty (ipx_netName pinXml)); simpl.
        -- by rewrite Nat.add_0_r in Hname.
        -- by rewrite Nat.add_1_r in Hname.
Qed.

Lemma onStore_frame {A : Type} (m : Place A) (s s' : Schematic.t) (a : A) :
  Schematic.onStore m s = Ok (a, s') →
  m (Schematic.store s) = Ok (a, Schematic.store s')
  ∧ Schematic.nets s' = Schematic.nets s
  ∧ Schematic.wires s' = Schematic.wires s
  ∧ Schematic.components s' = Schematic.components s
  ∧ Schematic.uuidCalls s' = Schematic.uuidCalls s.
Proof.
  unfold Schematic.onStore. destruct (m (Schematic.store s)) as [[a' st]|e]; [|done].
  by intros [= <- <-].
Qed.

Lemma pinResolved_preserved uuid (s s' : Schematic.t) position pin :
  netsPreserved s s' →
  pinResolved uuid (Schematic.nets s) position pin →
  pinResolved uuid (Schematic.nets s') position pin.
Proof.
  intros Hp (i & pinXml & name & r & H1 & H2 & H3 & H4 & H5 & H6).
  exists i, pinXml, name, r. split_and!; try done. by apply Hp.
Qed.

Lemma parseInstances_resolved trig pr uuid catalog scale instanceArray (s s' : Schematic.t) :
  Schematic.parseInstances trig pr uuid catalog scale instanceArray s = Ok (tt, s') →
  Schematic.wires s' = Schematic.wires s
  ∧ ∃ placed,
      Schematic.components s' = Schematic.components s ++ placed
      ∧ Forall2 (fun position component =>
                   Forall (pinResolved uuid (Schematic.nets s') position)
                          (placedPins component))
          (placedInstances catalog (Schematic.uuidCalls s) instanceArray) placed.
Proof.
  revert s. induction instanceArray as [|instanceXml rest IH]; intros s H; simpl in H.
  - apply ret_Ok in H as [_ ->]. split; [done|]. exists [].
    split; [by rewrite app_nil_r|constructor].
  - apply bind_Ok in H as ([] & s1 & E & H).
    pose proof (keeps_parseInstances _ _ _ _ _ _ _ _ _ H) as [Hkeep _].
    apply IH in H as (Hw & placed & Hc & Hall).
    unfold Schematic.parseInstance in E. simpl.
    destruct (Schematic.lookupStencil catalog (ix_libraryName instanceXml)
                (ix_cellName instanceXml)) as [stencil|].
    + apply bind_Ok in E as (pins & s2 & E1 & E).
      apply bind_Ok in E as (ws & s3 & [= <- <-] & E).
      apply bind_Ok in E as (component & s3 & E2 & E).
      injection E as <-.
      apply parsePins_resolved in E1 as (Hp1 & Hu1 & Hw1 & Hc1 & Hpins).
      apply onStore_frame in E2 as (E2 & Hn2 & Hw2 & Hc2 & Hu2).
      simpl in Hw, Hc, Hall, Hkeep.
      split; [congruence|].
      exists (component :: placed). split.
      { rewrite Hc, Hc2, Hc1. by rewrite <- app_assoc. }
      constructor.
      * apply Forall_forall. intros pin' Hin.
        destruct (useAsStencil_samePin _ _ _ _ _ _ _ _ _ _ _ E2 Hin)
          as (i & pin & Hi & Hn & Ht & Hnet).
        destruct (Hpins _ _ Hi) as (pinXml & name & r & H1 & H2 & H3 & H4 & H5 & H6).
        exists i, pinXml, name, r. simpl. split_and!; try congruence.
        apply Hkeep. simpl. by rewrite Hn2.
      * rewrite <- Hu1, <- Hu2. exact Hall.
    + unfold Schematic.logError in E. injection E as <-. simpl in *.
      split; [done|]. by exists placed.
Qed.

Lemma parseWireCoords_frame (scale : Qc) (tokens : list (option (Qc * Qc)))
    (wireCoords wireCoords' : list CoordRef) (s s' : Schematic.t) :
  Schematic.parseWireCoords scale wireCoords tokens s = Ok (wireCoords', s') →
  Schematic.uuidCalls s' = Schematic.uuidCalls s
  ∧ Schematic.components s' = Schematic.components s.
Proof.
  revert wireCoords s. induction tokens as [|token tokens IH]; intros acc s H; simpl in H.
  - by apply ret_Ok in H as [_ ->].
  - apply bind_Ok in H as (acc' & s1 & E & H). apply IH in H as [-> ->].
    unfold Schematic.parseWireCoord in E. destruct token as [[x y]|].
    + apply bind_Ok in E as (c & s2 & Ea & E).
      apply onStore_frame in Ea as (_ & _ & _ & Hc2 & Hu2).
      apply bind_Ok in E as (c' & s3 & Eb & E).
      apply onStore_frame in Eb as (_ & _ & _ & Hc3 & Hu3).
      apply ret_Ok in E as [_ ->]. split; congruence.
    + apply bind_Ok in E as ([] & s2 & Ea & E). injection Ea as <-.
      by apply ret_Ok in E as [_ ->].
Qed.

Lemma parseWires_nets (scale : Qc) (wireArray : list WireXml) (s s' : Schematic.t)
    (ws : list Wire) :
  Schematic.parseWires scale wireArray s = Ok (ws, s') →
  Schematic.uuidCalls s' = Schematic.uuidCalls s
  ∧ Schematic.components s' = Schematic.components s
  ∧ Forall2 (fun wireXml wire => Schematic.nets s' !! wx_netName wireXml = Some (wire_net wire))
      wireArray ws.
Proof.
  revert s ws. induction wireArray as [|wireXml rest IH]; intros s ws H; simpl in H.
  - apply ret_Ok in H as [-> ->]. by split_and!.
  - apply bind_Ok in H as (wire & s1 & E & H).
    apply bind_Ok in H as (ws' & s2 & E' & H). apply ret_Ok in H as [-> ->].
    pose proof (keeps_parseWires _ _ _ _ _ E') as [Hkeep _].
    pose proof (parseWire_net _ _ _ _ _ E) as Hnet.
    apply IH in E' as (Hu & Hc & Hall).
    assert (Hframe : Schematic.uuidCalls s1 = Schematic.uuidCalls s
                     ∧ Schematic.components s1 = Schematic.components s).
    { unfold Schematic.parseWire in E.
      apply bind_Ok in E as (net & s3 & E1 & E).
      apply bind_Ok in E as (cs & s4 & E2 & E). apply ret_Ok in E as [_ ->].
      apply getOrCreateNet_lists in E1 as (_ & _ & Hu1 & _ & Hc1).
      apply parseWireCoords_frame in E2 as [Hu2 Hc2]. split; congruence. }
    destruct Hframe as [Hu1 Hc1].
    split_and!; [congruence|congruence|].
    constructor; [by apply Hkeep|done].
Qed.

Lemma netsConsistent_injective (s : Schematic.t) (n n' : string) (r : NetRef) :
  netsConsistent s →
  Schematic.nets s !! n = Some r → Schematic.nets s !! n' = Some r → n = n'.
Proof.
  intros Hc H H'. apply Hc in H, H'. rewrite H in H'. by injection H'.
Qed.

(** C5 (amended): in the schematic [Schematic.fromXML] returns, the net
    table and the [Net] objects agree (one object per name, one name per
    object); every wire holds the table's [Net] for its net name, the
    empty name included; every pin of every placed component is the pin
    parsed from an [instpin] element of its instance and holds the
    table's [Net] for the name that element resolves to: its net name,
    or, when it has none, the identifier of the [uuid()] call made for
    it.  So wires and pins that carry one non-empty name, and wires
    that carry the empty name, hold the identical [Net] object.  When
    the identifiers are pairwise different and are not net names of the
    view, an element without a net name resolves to a name of its own:
    no wire and no other element resolves to it, so its [Net] is an
    object of its own. *)
Theorem nets_shared_by_name trig pr uuid catalog scale wireArray instanceArray
    (schematic : Schematic.t) :
  Schematic.fromXML trig pr uuid catalog scale wireArray instanceArray = Ok schematic →
  netsConsistent schematic
  ∧ (∀ n n' r, Schematic.nets schematic !! n = Some r →
               Schematic.nets schematic !! n' = Some r → n = n')
  ∧ Forall2 (fun wireXml wire =>
               Schematic.nets schematic !! wx_netName wireXml = Some (wire_net wire))
      wireArray (Schematic.wires schematic)
  ∧ Forall2 (fun position component =>
               Forall (pinResolved uuid (Schematic.nets schematic) position)
                      (placedPins component))
      (placedInstances catalog 0 instanceArray) (Schematic.components schematic)
  ∧ (uuidsFresh uuid wireArray instanceArray →
     (∀ j i j' i' pinXml pinXml' name,
        resolvedAt uuid (placedInstances catalog 0 instanceArray) j i pinXml name →
        resolvedAt uuid (placedInstances catalog 0 instanceArray) j' i' pinXml' name →
        (j, i) ≠ (j', i') →
        ipx_netName pinXml = name ∧ ipx_netName pinXml' = name ∧ name ≠ "")
     ∧ (∀ j i pinXml wireXml,
          resolvedAt uuid (placedInstances catalog 0 instanceArray) j i pinXml
            (wx_netName wireXml) →
          wireXml ∈ wireArray →
          ipx_netName pinXml = wx_netName wireXml ∧ wx_netName wireXml ≠ "")).
Proof.
  unfold Schematic.fromXML.
  destruct (Schematic.parse _ _ _ _ _ _ _ _) as [[[] s']|e] eqn:E; [|done].
  intros [= <-].
  assert (Hc : netsConsistent s').
  { destruct (keeps_parse _ _ _ _ _ _ _ _ _ _ E) as [_ Hc]. apply Hc, netsConsistent_new. }
  split; [exact Hc|]. split; [intros n n' r; by apply netsConsistent_injective|].
  unfold Schematic.parse in E.
  apply bind_Ok in E as (ws & s1 & E1 & E).
  apply bind_Ok in E as ([] & s2 & [= <-] & E).
  pose proof (keeps_parseInstances _ _ _ _ _ _ _ _ _ E) as [Hkeep _].
  apply parseWires_nets in E1 as (Hu & Hcomp & Hwires).
  apply parseInstances_resolved in E as (Hw & placed & Hplaced & Hall).
  simpl in Hw, Hplaced, Hall, Hkeep.
  split_and!.
  - rewrite Hw. eapply Forall2_impl; [exact Hwires|].
    intros wireXml wire H. by apply Hkeep.
  - rewrite Hplaced, Hcomp. simpl. by rewrite Hu in Hall.
  - apply resolved_names_differ.
Qed.

Lemma lettersUuid_length (k : nat) : String.length (lettersUuid k) = S k.
Proof.
  unfold lettersUuid. induction (S k) as [|n IH]; [done|].
  change (repeatString "u" (S n)) with (String "u"%char (repeatString "u" n)).
  simpl. by rewrite IH.
Qed.

Lemma lettersUuid_fresh :
  uuidsFresh lettersUuid [baseWireXml; unnamedWireXml] [danglingResistorXml].
Proof.
  split_and!.
  - intros k k' H. apply (f_equal String.length) in H.
    rewrite !lettersUuid_length in H. lia.
  - intros k wireXml Hin.
    repeat (apply elem_of_cons in Hin as [->|Hin]); [| |by apply elem_of_nil in Hin];
      discriminate.
  - intros k instanceXml pinXml Hin Hp.
    apply list_elem_of_singleton in Hin as ->. simpl in Hp.
    repeat (apply elem_of_cons in Hp as [->|Hp]); [| |by apply elem_of_nil in Hp];
      discriminate.
Qed.

Lemma nets_shared_by_name_witness :
  ∃ schematic wireB wireE component pinB pinE,
    Schematic.fromXML noTrig noPrinter lettersUuid ADS_COMPONENTS_MAP defaultScale
      [baseWireXml; unnamedWireXml] [danglingResistorXml] = Ok schematic
    ∧ uuidsFresh lettersUuid [baseWireXml; unnamedWireXml] [danglingResistorXml]
    ∧ Schematic.wires schematic = [wireB; wireE]
    ∧ Schematic.components schematic = [component]
    ∧ placedPins component = [pinB; pinE]
    ∧ Pin.net pinB = Some (wire_net wireB)
    ∧ Pin.net pinE ≠ Some (wire_net wireE)
    ∧ Schematic.nets schematic !! "b" = Some (wire_net wireB)
    ∧ Schematic.nets schematic !! "" = Some (wire_net wireE)
    ∧ Schematic.nets schematic !! "u" = Pin.net pinE.
Proof.
  destruct (Schematic.fromXML noTrig noPrinter lettersUuid ADS_COMPONENTS_MAP defaultScale
              [baseWireXml; unnamedWireXml] [danglingResistorXml])
    as [schematic|e] eqn:E; [|by vm_compute in E].
  destruct (nets_shared_by_name _ _ _ _ _ _ _ _ E) as (_ & _ & Hwires & Hpins & _).
  vm_compute in E. injection E as <-.
  eexists _, _, _, _, _, _. split; [reflexivity|]. split; [exact lettersUuid_fresh|].
  split; [reflexivity|]. split; [reflexivity|]. split; [reflexivity|].
  apply Forall2_cons_1 in Hwires as [HwB Hwires].
  apply Forall2_cons_1 in Hwires as [HwE _].
  split; [reflexivity|]. split; [discriminate|].
  split; [exact HwB|]. split; [exact HwE|]. reflexivity.
Defined.

(** ** The search for the real position of a pin *)

#[local] Arguments Dist_ltb : simpl never.
#[local] Arguments distTo : simpl never.

Lemma Dist_ltb_irrefl (a : Dist) : Dist_ltb a a = false.
Proof.
  destruct a as [p|]; unfold Dist_ltb; [|done].
  apply bool_decide_eq_false, Qcle_not_lt, Qcle_refl.
Qed.

Lemma Dist_ltb_asym (a b : Dist) : Dist_ltb a b = true → Dist_ltb b a = false.
Proof.
  destruct a as [p|], b as [q|]; unfold Dist_ltb; try done.
  rewrite bool_decide_eq_true, bool_decide_eq_false. intros H.
  by apply Qcle_not_lt, Qclt_le_weak.
Qed.

Lemma Dist_le_trans (a b c : Dist) :
  Dist_ltb b a = false → Dist_ltb c b = false → Dist_ltb c a = false.
Proof.
  destruct a as [p|], b as [q|], c as [r|]; unfold Dist_ltb; try done.
  rewrite !bool_decide_eq_false. intros H1 H2.
  apply Qcnot_lt_le in H1, H2. apply Qcle_not_lt. by eapply Qcle_trans.
Qed.

Lemma Dist_le_lt_trans (a b c : Dist) :
  Dist_ltb b a = false → Dist_ltb b c = true → Dist_ltb a c = true.
Proof.
  destruct a as [p|], b as [q|], c as [r|]; unfold Dist_ltb; try done.
  rewrite !bool_decide_eq_true, bool_decide_eq_false. intros H1 H2.
  apply Qcnot_lt_le in H1. by eapply Qcle_lt_trans.
Qed.

(** The record of one wire: the seed record when every vertex is farther
    than the record before, and else a vertex that is not farther than
    the record before; no vertex of the wire is nearer than the record. *)
Lemma closestVertex_spec (h : list Coordinate.t) (c : CoordRef) (prevVal : Candidate)
    (wireCoords : list CoordRef) :
  ∃ rec, Pin.closestVertex h (Some c) prevVal wireCoords = Ok rec
    ∧ Dist_ltb (distance prevVal) (distance rec) = false
    ∧ (∀ v, v ∈ wireCoords → Dist_ltb (distTo h c v) (distance rec) = false)
    ∧ (rec = prevVal
       ∨ ∃ v, v ∈ wireCoords ∧ rec = mkCandidate (distTo h c v) (Some v)).
Proof.
  revert prevVal. induction wireCoords as [|coord rest IH]; intros prevVal; simpl.
  - exists prevVal. split_and!; [done|apply Dist_ltb_irrefl| |by left].
    intros v Hv. by apply elem_of_nil in Hv.
  - unfold Pin.nearer. simpl. fold (distTo h c coord).
    destruct (Dist_ltb (distance prevVal) (distTo h c coord)) eqn:E; simpl.
    + destruct (IH prevVal) as (rec & -> & Hle & Hall & Hrec).
      exists rec. split_and!; [done..| |].
      * intros v [->|Hv]%elem_of_cons; [|by apply Hall].
        apply Dist_ltb_asym. by eapply Dist_le_lt_trans.
      * destruct Hrec as [->|(v & Hv & ->)]; [by left|right].
        exists v. split; [by right|done].
    + destruct (IH (mkCandidate (distTo h c coord) (Some coord)))
        as (rec & -> & Hle & Hall & Hrec). simpl in Hle.
      exists rec. split_and!; [done| | |].
      * by eapply Dist_le_trans.
      * intros v [->|Hv]%elem_of_cons; [done|by apply Hall].
      * right. destruct Hrec as [->|(v & Hv & ->)].
        -- exists coord. split; [by left|done].
        -- exists v. split; [by right|done].
Qed.

Lemma possibleCoordsOf_spec (h : list Coordinate.t) (c : CoordRef) (seed : Dist)
    (wires : list Wire) :
  ∃ cands, Pin.possibleCoordsOf h (Some c) seed wires = Ok cands
    ∧ Forall2 (fun wire rec =>
         Dist_ltb seed (distance rec) = false
         ∧ (∀ v, v ∈ wire_coords wire → Dist_ltb (distTo h c v) (distance rec) = false)
         ∧ (rec = mkCandidate seed None
            ∨ ∃ v, v ∈ wire_coords wire ∧ rec = mkCandidate (distTo h c v) (Some v)))
       wires cands.
Proof.
  induction wires as [|wire wires (cands & IH & Hall)]; simpl.
  - by exists [].
  - destruct (closestVertex_spec h c (mkCandidate seed None) (wire_coords wire))
      as (rec & -> & Hrec).
    simpl. rewrite IH. simpl. exists (rec :: cands). split; [done|].
    by constructor.
Qed.

(** The first record of the sorted list is a record of the list, and no
    record is nearer. *)
Lemma head_insertCandidate (a : Candidate) (l : list Candidate) :
  head (insertCandidate a l) =
    Some match head l with
         | Some b => if Dist_ltb (distance b) (distance a) then b else a
         | None => a
         end.
Proof. destruct l as [|b l]; simpl; [done|]. by destruct (Dist_ltb _ _). Qed.

Lemma head_sortCandidates (l : list Candidate) :
  match head (sortCandidates l) with
  | Some r =>
      r ∈ l ∧ ∀ r', r' ∈ l → Dist_ltb (distance r') (distance r) = false
  | None => l = []
  end.
Proof.
  induction l as [|a l IH]; simpl; [done|].
  rewrite head_insertCandidate.
  destruct (head (sortCandidates l)) as [b|].
  - destruct IH as [Hb Hmin].
    destruct (Dist_ltb (distance b) (distance a)) eqn:E.
    + split; [by right|]. intros r' [->|Hr]%elem_of_cons; [|by apply Hmin].
      by apply Dist_ltb_asym.
    + split; [by left|]. intros r' [->|Hr]%elem_of_cons; [apply Dist_ltb_irrefl|].
      eapply Dist_le_trans; [exact E|by apply Hmin].
  - subst l. split; [by left|]. intros r' [->|Hr]%elem_of_cons; [apply Dist_ltb_irrefl|].
    by apply elem_of_nil in Hr.
Qed.

(** The search, for a pin on a net and with a computed coordinate: it
    returns, and either the pin adopts a vertex of a wire on its net that
    is not farther than the seed and is nearest among all vertices of all
    wires on the net, or no vertex on the net is nearer than the seed and
    the computed coordinate is interned. *)
Theorem snap_nearest (seed : Dist) (wires : list Wire) (n : NetRef) (c : CoordRef)
    (s : Store) :
  ∃ o s', Pin.snap seed wires (Some n) (Some c) s = Ok (o, s')
    ∧ ((∃ v, o = Some v ∧ s' = s
          ∧ vertexOnNet wires n v
          ∧ Dist_ltb seed (distTo (heap s) c v) = false
          ∧ ∀ v', vertexOnNet wires n v' →
              Dist_ltb (distTo (heap s) c v') (distTo (heap s) c v) = false)
       ∨ (canonicalize (Some c) s = Ok (o, s')
          ∧ ∀ v, vertexOnNet wires n v → Dist_ltb (distTo (heap s) c v) seed = false)).
Proof.
  unfold Pin.snap, mbind at 1, StateM_bind at 1, getHeap. simpl.
  destruct (possibleCoordsOf_spec (heap s) c seed (filter (fun wire => wire_net wire = n) wires))
    as (cands & E & Hall).
  unfold mbind at 1, StateM_bind at 1, lift. rewrite E.
  assert (Hvertex : ∀ v, vertexOnNet wires n v →
            ∃ rec, rec ∈ cands ∧ Dist_ltb (distTo (heap s) c v) (distance rec) = false).
  { intros v (wire & Hw & Hn & Hv).
    assert (Hf : wire ∈ filter (fun wire => wire_net wire = n) wires)
      by (by apply list_elem_of_filter).
    apply list_elem_of_lookup in Hf as [i Hi].
    destruct (Forall2_lookup_l _ _ _ _ _ Hall Hi) as (rec & Hrec & _ & Hmin & _).
    exists rec. split; [by eapply list_elem_of_lookup_2|by apply Hmin]. }
  pose proof (head_sortCandidates cands) as Hhead.
  destruct (head (sortCandidates cands)) as [r|] eqn:Eh; simpl.
  - destruct Hhead as [Hr Hmin].
    apply list_elem_of_lookup in Hr as [i Hi].
    destruct (Forall2_lookup_r _ _ _ _ _ Hall Hi) as (wire & Hw & Hseed & _ & Hrec).
    apply list_elem_of_lookup_2, list_elem_of_filter in Hw as [Hn Hw].
    destruct Hrec as [->|(v & Hv & ->)]; simpl.
    + destruct (canonicalize_Some_spec c s) as (r & s' & Ec & _).
      exists (Some r), s'. split; [done|]. right. split; [done|].
      intros v Hv. destruct (Hvertex v Hv) as (rec & Hrec & Hle).
      eapply Dist_le_trans; [|exact Hle]. by apply (Hmin rec).
    + exists (Some v), s. split; [done|]. left. exists v. split_and!; [done..| | |].
      * by exists wire.
      * done.
      * intros v' Hv'. destruct (Hvertex v' Hv') as (rec & Hrec & Hle).
        eapply Dist_le_trans; [|exact Hle]. by apply (Hmin rec).
  - destruct (canonicalize_Some_spec c s) as (r & s' & Ec & _).
    exists (Some r), s'. split; [done|]. right. split; [done|].
    intros v Hv. destruct (Hvertex v Hv) as (rec & Hrec & _).
    subst cands. by apply elem_of_nil in Hrec.
Qed.

(** A vertex on the pin's net nearer than the seed: the pin adopts a
    nearest vertex. *)
Corollary snap_adopts_inside (seed : Dist) (wires : list Wire) (n : NetRef) (c v0 : CoordRef)
    (s : Store) :
  vertexOnNet wires n v0 → Dist_ltb (distTo (heap s) c v0) seed = true →
  ∃ v, Pin.snap seed wires (Some n) (Some c) s = Ok (Some v, s)
    ∧ vertexOnNet wires n v
    ∧ ∀ v', vertexOnNet wires n v' →
        Dist_ltb (distTo (heap s) c v') (distTo (heap s) c v) = false.
Proof.
  intros Hv0 Hlt.
  destruct (snap_nearest seed wires n c s)
    as (o & s' & E & [(v & -> & -> & Hv & _ & Hmin)|[_ Hout]]).
  - by exists v.
  - specialize (Hout v0 Hv0). congruence.
Qed.

(** The component-level search, whose seed is [Number.MAX_VALUE], adopts a
    nearest vertex as soon as a wire on the pin's net has a vertex. *)
Corollary snap_unlimited (wires : list Wire) (n : NetRef) (c v0 : CoordRef) (s : Store) :
  vertexOnNet wires n v0 →
  ∃ v, Pin.snap MAX_VALUE wires (Some n) (Some c) s = Ok (Some v, s)
    ∧ vertexOnNet wires n v
    ∧ ∀ v', vertexOnNet wires n v' →
        Dist_ltb (distTo (heap s) c v') (distTo (heap s) c v) = false.
Proof. intros Hv0. by apply (snap_adopts_inside MAX_VALUE wires n c v0). Qed.

(** Every vertex on the pin's net farther than the seed: the computed
    coordinate is interned. *)
Corollary snap_interns_outside (seed : Dist) (wires : list Wire) (n : NetRef) (c : CoordRef)
    (s : Store) :
  (∀ v, vertexOnNet wires n v → Dist_ltb seed (distTo (heap s) c v) = true) →
  Pin.snap seed wires (Some n) (Some c) s = canonicalize (Some c) s.
Proof.
  intros Hout.
  destruct (snap_nearest seed wires n c s)
    as (o & s' & E & [(v & -> & -> & Hv & Hin & _)|[Ec _]]).
  - specialize (Hout v Hv). congruence.
  - congruence.
Qed.

(** * Further properties of the code *)

(** ** The search, at the level of a placement *)

(** In the model the search always returns a coordinate when the pin has
    a computed coordinate. *)
Lemma snap_returns (seed : Dist) (wires : list Wire) (pinNet : option NetRef) (c : CoordRef)
    (s : Store) :
  ∃ w s', Pin.snap seed wires pinNet (Some c) s = Ok (Some w, s').
Proof.
  destruct pinNet as [n|].
  - destruct (snap_nearest seed wires n c s)
      as (o & s' & E & [(w & -> & -> & _)|[Ec _]]); [by eauto|].
    destruct (canonicalize_Some_spec c s) as (w & s2 & Ec' & _).
    rewrite Ec' in Ec. injection Ec as <- <-. eauto.
  - destruct (canonicalize_Some_spec c s) as (w & s2 & Ec & _).
    exists w, s2. unfold Pin.snap, mbind at 1, StateM_bind at 1, getHeap.
    unfold mbind at 1, StateM_bind at 1, lift. simpl. exact Ec.
Qed.

(** ** When a placement returns *)

Lemma bind_run {S A B : Type} (m : StateM S A) (f : A → StateM S B) (s s1 : S) (a : A) :
  m s = Ok (a, s1) → (m ≫= f) s = f a s1.
Proof. intros E. unfold mbind, StateM_bind. by rewrite E. Qed.

Lemma findPosition_returns trig stencilPins placement (instanceCoord : CoordRef) wires
    (this : Pin.t CoordRef) (s : Store) :
  ∃ pin' s',
    Pin.findPosition trig stencilPins (Some placement) (Some instanceCoord) wires true this s
      = Ok (pin', s')
    ∧ samePin this pin' ∧ is_Some (Pin.coord pin').
Proof.
  unfold Pin.findPosition. erewrite bind_run; [|reflexivity].
  destruct (Pin.hint stencilPins (Pin.instTermNumber this)) as [c|].
  - erewrite bind_run; [|reflexivity].
    match goal with |- context [(Pin.snap ?seed ?ws ?net (Some ?r) ≫= _) ?s1] =>
      destruct (snap_returns seed ws net r s1) as (w & s' & E) end.
    erewrite bind_run; [|exact E].
    exists (Pin.setCoord this (Some w)), s'. split; [done|by split].
  - erewrite bind_run; [|reflexivity].
    destruct (snap_returns (Fin 1) wires (Pin.net this) instanceCoord s) as (w & s' & E).
    erewrite bind_run; [|exact E].
    exists (Pin.setCoord this (Some w)), s'. split; [done|by split].
Qed.

(** The pins after [positionAll], against the pins before: the same
    objects, none has lost its coordinate, and those of the positions in
    [order] have one. *)
Lemma positionAll_returns trig stencilPins placement (instanceCoord : CoordRef) wires
    (order : list (option nat)) (pins : list (Pin.t CoordRef)) (s : Store) :
  Forall (fun i => ∃ k, i = Some k ∧ (k < length pins)%nat) order →
  ∃ pins' s',
    positionAll trig stencilPins (Some placement) (Some instanceCoord) wires true pins order s
      = Ok (pins', s')
    ∧ Forall2 (fun p p' => samePin p p' ∧ (is_Some (Pin.coord p) → is_Some (Pin.coord p')))
        pins pins'
    ∧ ∀ k, Some k ∈ order → ∃ pin, pins' !! k = Some pin ∧ is_Some (Pin.coord pin).
Proof.
  revert pins s. induction order as [|i order IH]; intros pins s Horder; simpl.
  - exists pins, s. split_and!; [done| |].
    + apply Forall2_same_length_lookup_2; [done|]. intros j p p' Hp Hp'.
      rewrite Hp in Hp'. injection Hp' as <-. done.
    + intros k Hk. by apply elem_of_nil in Hk.
  - apply Forall_cons in Horder as [(k & -> & Hk) Horder].
    destruct (lookup_lt_is_Some_2 pins k Hk) as [pin Hpin].
    destruct (findPosition_returns trig stencilPins placement instanceCoord wires pin s)
      as (pin' & s1 & E & Hsame & Hcoord).
    assert (E1 : positionAt trig stencilPins (Some placement) (Some instanceCoord) wires true
                   pins (Some k) s = Ok (<[k := pin']> pins, s1)).
    { unfold positionAt. simpl. rewrite Hpin. simpl.
      erewrite bind_run; [|reflexivity]. erewrite bind_run; [|exact E]. done. }
    erewrite bind_run; [|exact E1].
    destruct (IH (<[k := pin']> pins) s1) as (pins' & s' & E' & Hsame' & Hcoords).
    { eapply Forall_impl; [exact Horder|]. intros i (j & -> & Hj).
      exists j. split; [done|]. by rewrite length_insert. }
    exists pins', s'. split; [exact E'|]. split.
    + apply Forall2_same_length_lookup_2.
      * by rewrite <- (Forall2_length _ _ _ Hsame'), length_insert.
      * intros j p p' Hp Hp'.
        destruct (decide (j = k)) as [->|Hne].
        -- assert (Hq : <[k := pin']> pins !! k = Some pin')
             by (by apply list_lookup_insert_eq).
           destruct (Forall2_lookup_l _ _ _ _ _ Hsame' Hq) as (q' & Hq' & H2 & H3).
           rewrite Hp' in Hq'. injection Hq' as <-.
           rewrite Hpin in Hp. injection Hp as <-.
           destruct Hsame as (? & ? & ?), H2 as (? & ? & ?).
           split; [split_and!; congruence|]. intros _. by apply H3.
        -- assert (Hq : <[k := pin']> pins !! j = Some p)
             by (by rewrite list_lookup_insert_ne).
           destruct (Forall2_lookup_l _ _ _ _ _ Hsame' Hq) as (q' & Hq' & H2).
           rewrite Hp' in Hq'. by injection Hq' as <-.
    + intros j [[= ->]|Hj]%elem_of_cons; [|by apply Hcoords].
      assert (Hq : <[k := pin']> pins !! k = Some pin')
        by (by apply list_lookup_insert_eq).
      destruct (Forall2_lookup_l _ _ _ _ _ Hsame' Hq) as (q' & Hq' & _ & H3).
      exists q'. split; [done|]. by apply H3.
Qed.

(** A position that holds no pin object ends the loop with a
    [TypeError]. *)
Lemma positionAll_throws trig stencilPins placement instanceCoord wires relativeCoords
    (order : list (option nat)) (pins : list (Pin.t CoordRef)) (s : Store) :
  None ∈ order →
  positionAll trig stencilPins placement instanceCoord wires relativeCoords pins order s
    = Throw TypeError.
Proof.
  revert pins s. induction order as [|i order IH]; intros pins s Hin; simpl.
  - by apply elem_of_nil in Hin.
  - unfold mbind, StateM_bind.
    destruct (positionAt _ _ _ _ _ _ _ _ _) as [[pins' s1]|[]] eqn:E; [|done].
    apply elem_of_cons in Hin as [<-|Hin]; [|by apply IH].
    unfold positionAt in E. simpl in E. discriminate E.
Qed.

Lemma reorder_allMatched {C : Type} (stencilPins : list (Pin.t C))
    (pins : list (Pin.t CoordRef)) :
  allMatched stencilPins pins →
  Forall (fun i => ∃ k, i = Some k ∧ (k < length pins)%nat) (reorder stencilPins pins).
Proof.
  intros Hall. apply Forall_forall. intros i Hi.
  apply list_elem_of_fmap in Hi as (ablPin & -> & Hin).
  destruct (findIndex (pinMatches ablPin) pins) as [k|] eqn:E.
  - exists k. split; [done|]. apply findIndex_Some in E as (pin & Hpin & _).
    by eapply lookup_lt_Some.
  - exfalso. destruct (Hall ablPin Hin) as (pin & Hpin & Hm).
    rewrite (proj1 (findIndex_None _ _) E pin Hpin) in Hm. discriminate.
Qed.

Lemma allMatched_findIndex {C : Type} (stencilPins : list (Pin.t C))
    (pins : list (Pin.t CoordRef)) :
  allMatched stencilPins pins
  ↔ Forall (fun ablPin => is_Some (findIndex (pinMatches ablPin) pins)) stencilPins.
Proof.
  rewrite Forall_forall. split.
  - intros Hall ablPin Hin. destruct (Hall ablPin Hin) as (pin & Hpin & Hm).
    destruct (findIndex (pinMatches ablPin) pins) eqn:E; [by eexists|].
    rewrite (proj1 (findIndex_None _ _) E pin Hpin) in Hm. discriminate.
  - intros Hall ablPin Hin. destruct (Hall ablPin Hin) as [i Hi].
    apply findIndex_Some in Hi as (pin & Hpin & Hm & _).
    exists pin. split; [by eapply list_elem_of_lookup_2|done].
Qed.

Lemma PathComponent_useAsStencil_returns (trig : Trig)
    (this : PathComponent.t (Pin.t Coordinate.t)) (instanceName : string)
    (pins : list (Pin.t CoordRef)) (placement : Placement) (wires : list Wire) (s : Store) :
  allMatched (PathComponent.pins this) pins →
  ∃ c s',
    PathComponent.useAsStencil trig this instanceName pins placement wires s = Ok (c, s')
    ∧ PathComponent.instanceName c = instanceName
    ∧ PathComponent.tikzComponentName c = PathComponent.tikzComponentName this
    ∧ PathComponent.angle c = normalizeAngle (pl_angle placement)
    ∧ length (PathComponent.pins c) = length (PathComponent.pins this)
    ∧ ∀ k ablPin, PathComponent.pins this !! k = Some ablPin →
        ∃ pin, PathComponent.pins c !! k = Some (Some pin)
          ∧ pinMatches ablPin pin = true
          ∧ is_Some (Pin.coord pin).
Proof.
  intros Hall. unfold PathComponent.useAsStencil.
  erewrite bind_run; [|reflexivity].
  match goal with |- context [(canonicalize (Some ?r) ≫= _) ?s1] =>
    destruct (canonicalize_Some_spec r s1) as (ic & s2 & Ec & _) end.
  erewrite bind_run; [|exact Ec].
  match goal with |- context [(positionAll ?t ?sp (Some ?pl) _ ?ws _ _ _ ≫= _) _] =>
    destruct (positionAll_returns t sp pl ic ws (reorder (PathComponent.pins this) pins)
                pins s2 (reorder_allMatched _ _ Hall)) as (pins' & s' & E & Hsame & Hcoords)
  end.
  erewrite bind_run; [|exact E].
  eexists _, _. split; [reflexivity|]. simpl. split_and!; [done..| |].
  - unfold selected, reorder. by rewrite !length_map.
  - intros k ablPin Hk.
    destruct (Hall ablPin (list_elem_of_lookup_2 _ _ _ Hk)) as (pin0 & Hpin0 & Hm0).
    destruct (findIndex (pinMatches ablPin) pins) as [i|] eqn:Ei.
    2:{ rewrite (proj1 (findIndex_None _ _) Ei pin0 Hpin0) in Hm0. discriminate. }
    apply findIndex_Some in Ei as Hi. destruct Hi as (pin & Hpin & Hm & _).
    destruct (Hcoords i) as (pin' & Hpin' & Hc).
    { unfold reorder. apply list_elem_of_fmap. exists ablPin.
      split; [done|by eapply list_elem_of_lookup_2]. }
    exists pin'. split_and!; [|  |done].
    + unfold selected, reorder. rewrite !list_lookup_fmap, Hk. simpl.
      rewrite Ei. simpl. by rewrite Hpin'.
    + destruct (Forall2_lookup_l _ _ _ _ _ Hsame Hpin) as (q & Hq & (Hn & Ht & _) & _).
      rewrite Hpin' in Hq. injection Hq as <-.
      unfold pinMatches in *. by rewrite Hn, Ht.
Qed.

Lemma PathComponent_useAsStencil_throws (trig : Trig)
    (this : PathComponent.t (Pin.t Coordinate.t)) (instanceName : string)
    (pins : list (Pin.t CoordRef)) (placement : Placement) (wires : list Wire) (s : Store) :
  ¬ allMatched (PathComponent.pins this) pins →
  PathComponent.useAsStencil trig this instanceName pins placement wires s = Throw TypeError.
Proof.
  intros Hnot. unfold PathComponent.useAsStencil.
  erewrite bind_run; [|reflexivity].
  match goal with |- context [(canonicalize (Some ?r) ≫= _) ?s1] =>
    destruct (canonicalize_Some_spec r s1) as (ic & s2 & Ec & _) end.
  erewrite bind_run; [|exact Ec].
  unfold mbind, StateM_bind. rewrite positionAll_throws; [done|].
  unfold reorder. apply list_elem_of_fmap.
  rewrite allMatched_findIndex in Hnot.
  apply not_Forall_Exists in Hnot; [|apply _].
  apply Exists_exists in Hnot as (ablPin & Hin & Hnone).
  exists ablPin. split; [|done].
  destruct (findIndex (pinMatches ablPin) pins) eqn:E; [|done].
  exfalso. apply Hnone. rewrite E. by eexists.
Qed.

(** X3: for a placement angle of a whole
    number of degrees (of a size at which the loops of the source count
    exactly and end), [PathComponent.useAsStencil] returns exactly when
    every pin of the stencil has a matching live pin (by name when both
    are named, else by terminal number): then the placed component has
    one pin per stencil pin, in the stencil's order, each the matching
    live pin with a coordinate, and carries the instance name and the
    normalized angle.  When some stencil pin has no matching live pin
    (an instance with too few pins, say), the call throws a
    [TypeError]. *)
Theorem PathComponent_placement_outcome (trig : Trig)
    (this : PathComponent.t (Pin.t Coordinate.t)) (instanceName : string)
    (pins : list (Pin.t CoordRef)) (placement : Placement) (wires : list Wire) (s : Store) :
  wholeDegrees (pl_angle placement) →
  (allMatched (PathComponent.pins this) pins →
   ∃ c s',
     PathComponent.useAsStencil trig this instanceName pins placement wires s = Ok (c, s')
     ∧ PathComponent.instanceName c = instanceName
     ∧ PathComponent.tikzComponentName c = PathComponent.tikzComponentName this
     ∧ PathComponent.angle c = normalizeAngle (pl_angle placement)
     ∧ length (PathComponent.pins c) = length (PathComponent.pins this)
     ∧ ∀ k ablPin, PathComponent.pins this !! k = Some ablPin →
         ∃ pin, PathComponent.pins c !! k = Some (Some pin)
           ∧ pinMatches ablPin pin = true
           ∧ is_Some (Pin.coord pin))
  ∧ (¬ allMatched (PathComponent.pins this) pins →
     PathComponent.useAsStencil trig this instanceName pins placement wires s
       = Throw TypeError).
Proof.
  intros _. split.
  - apply PathComponent_useAsStencil_returns.
  - apply PathComponent_useAsStencil_throws.
Qed.

Lemma turnedPlacement_wholeDegrees : wholeDegrees (pl_angle turnedPlacement).
Proof. exists 270%Z. split; [reflexivity|]. simpl. lia. Qed.

Lemma PathComponent_placement_outcome_witness :
  wholeDegrees (pl_angle turnedPlacement)
  ∧ ∃ c s',
      PathComponent.useAsStencil noTrig TIKZ_R "R1" (livePins [1; 2]%Z) turnedPlacement []
        (mkStore [] []) = Ok (c, s')
      ∧ PathComponent.angle c = Qc_of (-90)
      ∧ length (PathComponent.pins c) = 2%nat.
Proof.
  split; [exact turnedPlacement_wholeDegrees|].
  destruct (PathComponent_placement_outcome noTrig TIKZ_R "R1" (livePins [1; 2]%Z)
              turnedPlacement [] (mkStore [] []) turnedPlacement_wholeDegrees)
    as [Hreturns _].
  destruct Hreturns as (c & s' & E & _ & _ & Ha & Hl & _).
  - intros ablPin Hin. simpl in Hin.
    apply elem_of_cons in Hin as [->|Hin].
    { exists (Pin.mk None "" 1%Z (Some 0%nat)). split; [by left|reflexivity]. }
    apply list_elem_of_singleton in Hin as ->.
    exists (Pin.mk None "" 2%Z (Some 1%nat)). split; [right; by left|reflexivity].
  - exists c, s'. split; [exact E|]. split; [|exact Hl].
    rewrite Ha. apply Qc_is_canon. reflexivity.
Defined.

Lemma PotentialComponent_useAsStencil_returns (trig : Trig)
    (this : PotentialComponent.stencil) (pin : Pin.t CoordRef) (rest : list (Pin.t CoordRef))
    (placement : Placement) (wires : list Wire) (s : Store) :
  ∃ pin' s',
    PotentialComponent.useAsStencil trig this (pin :: rest) placement wires s
    = Ok (PotentialComponent.mk (PotentialComponent.s_tikzComponentName this)
            (PotentialComponent.s_printNetName this) (Some pin')
            (normalizeAngle (pl_angle placement + Qc_of 90))
            (pl_mirrorX placement) (pl_mirrorY placement), s')
    ∧ samePin pin pin' ∧ is_Some (Pin.coord pin').
Proof.
  unfold PotentialComponent.useAsStencil.
  erewrite bind_run; [|reflexivity].
  match goal with |- context [(canonicalize (Some ?r) ≫= _) ?s1] =>
    destruct (canonicalize_Some_spec r s1) as (ic & s2 & Ec & _) end.
  erewrite bind_run; [|exact Ec].
  match goal with |- context [(positionAt ?t ?sp (Some ?pl) _ ?ws _ _ _ ≫= _) _] =>
    destruct (findPosition_returns t sp pl ic ws pin s2) as (pin' & s' & E & Hsame & Hc)
  end.
  erewrite bind_run.
  2:{ unfold positionAt. simpl. erewrite bind_run; [|reflexivity].
      erewrite bind_run; [|exact E]. reflexivity. }
  by exists pin', s'.
Qed.

Lemma PotentialComponent_useAsStencil_empty (trig : Trig)
    (this : PotentialComponent.stencil) (placement : Placement) (wires : list Wire)
    (s : Store) :
  PotentialComponent.useAsStencil trig this [] placement wires s = Throw TypeError.
Proof.
  unfold PotentialComponent.useAsStencil.
  erewrite bind_run; [|reflexivity].
  match goal with |- context [(canonicalize (Some ?r) ≫= _) ?s1] =>
    destruct (canonicalize_Some_spec r s1) as (ic & s2 & Ec & _) end.
  erewrite bind_run; [|exact Ec]. reflexivity.
Qed.

(** X4: for a placement angle of a
    whole number of degrees (of a size at which the loops of the source
    count exactly and end), [PotentialComponent.useAsStencil] throws a
    [TypeError] for an instance without pins ([pins[0]] is [undefined])
    and returns for every other: the placed potential holds the first
    live pin, now with a coordinate, is turned by a further 90 degrees
    (normalized), and keeps the two mirror flags of the placement. *)
Theorem PotentialComponent_placement_outcome (trig : Trig)
    (this : PotentialComponent.stencil) (pins : list (Pin.t CoordRef))
    (placement : Placement) (wires : list Wire) (s : Store) :
  wholeDegrees (pl_angle placement) →
  match pins with
  | [] => PotentialComponent.useAsStencil trig this pins placement wires s = Throw TypeError
  | pin :: _ =>
      ∃ c s',
        PotentialComponent.useAsStencil trig this pins placement wires s = Ok (c, s')
        ∧ PotentialComponent.tikzComponentName c = PotentialComponent.s_tikzComponentName this
        ∧ PotentialComponent.angle c = normalizeAngle (pl_angle placement + Qc_of 90)
        ∧ PotentialComponent.mirrorX c = pl_mirrorX placement
        ∧ PotentialComponent.mirrorY c = pl_mirrorY placement
        ∧ ∃ pin', PotentialComponent.pin c = Some pin'
            ∧ samePin pin pin' ∧ is_Some (Pin.coord pin')
  end.
Proof.
  intros _. destruct pins as [|pin rest].
  - apply PotentialComponent_useAsStencil_empty.
  - destruct (PotentialComponent_useAsStencil_returns trig this pin rest placement wires s)
      as (pin' & s' & E & Hsame & Hc).
    eexists _, s'. split; [exact E|]. simpl. split_and!; [done..|].
    exists pin'. by split_and!.
Qed.

Lemma PotentialComponent_placement_outcome_witness :
  wholeDegrees (pl_angle turnedPlacement)
  ∧ ∃ c s',
      PotentialComponent.useAsStencil noTrig TIKZ_ground (livePins [1]%Z) turnedPlacement []
        (mkStore [] []) = Ok (c, s')
      ∧ PotentialComponent.angle c = 0.
Proof.
  split; [exact turnedPlacement_wholeDegrees|].
  destruct (PotentialComponent_placement_outcome noTrig TIKZ_ground (livePins [1]%Z)
              turnedPlacement [] (mkStore [] []) turnedPlacement_wholeDegrees)
    as (c & s' & E & _ & Ha & _).
  exists c, s'. split; [exact E|]. rewrite Ha. apply Qc_is_canon. reflexivity.
Defined.

(** ** The pool only grows, and holds every coordinate in use *)

#[local] Instance poolGrows_preorder : PreOrder poolGrows.
Proof.
  split.
  - intros s. by split.
  - intros s1 s2 s3 [H1 H1'] [H2 H2']. split; [by etrans|lia].
Qed.

#[local] Instance schematicPoolGrows_preorder : PreOrder schematicPoolGrows.
Proof.
  split.
  - intros s. unfold schematicPoolGrows. reflexivity.
  - intros s1 s2 s3. unfold schematicPoolGrows. by etrans.
Qed.

Lemma poolGrows_getHeap : keeps poolGrows getHeap.
Proof. intros s a s' [= <- <-]. reflexivity. Qed.

Lemma poolGrows_getCoords : keeps poolGrows getCoords.
Proof. intros s a s' [= <- <-]. reflexivity. Qed.

Lemma poolGrows_alloc (v : Coordinate.t) : keeps poolGrows (alloc v).
Proof. intros s a s' [= <- <-]. split; simpl; [done|]. rewrite length_app. lia. Qed.

Lemma poolGrows_push (c : option CoordRef) : keeps poolGrows (push c).
Proof. intros s a s' [= <- <-]. split; simpl; [by apply prefix_app_r|done]. Qed.

Lemma poolGrows_overwrite (c : CoordRef) (v : Coordinate.t) : keeps poolGrows (overwrite c v).
Proof. intros s a s' [= <- <-]. split; simpl; [done|]. by rewrite length_insert. Qed.

Create HintDb grows.
#[local] Hint Resolve poolGrows_getHeap poolGrows_getCoords poolGrows_alloc poolGrows_push
  poolGrows_overwrite : grows.
#[local] Hint Extern 1 (keeps poolGrows (lift _)) => apply keeps_lift; apply _ : grows.

Ltac grows_steps :=
  repeat first
    [ apply keeps_bind; [apply _| |intros ?]
    | apply keeps_ret; apply _
    | solve [auto with grows]
    | match goal with |- keeps _ (match ?x with _ => _ end) => destruct x end
    | match goal with |- keeps _ (if ?x then _ else _) => destruct x end ].

Lemma poolGrows_canonicalize (c : option CoordRef) : keeps poolGrows (canonicalize c).
Proof. unfold canonicalize. grows_steps. Qed.
#[local] Hint Resolve poolGrows_canonicalize : grows.

Lemma poolGrows_snap seed wires pinNet thisCoord :
  keeps poolGrows (Pin.snap seed wires pinNet thisCoord).
Proof. unfold Pin.snap. grows_steps. Qed.
#[local] Hint Resolve poolGrows_snap : grows.

Lemma poolGrows_findPosition trig pins placement instanceCoord wires relativeCoords this :
  keeps poolGrows
    (Pin.findPosition trig pins placement instanceCoord wires relativeCoords this).
Proof. unfold Pin.findPosition. grows_steps. Qed.
#[local] Hint Resolve poolGrows_findPosition : grows.

Lemma poolGrows_positionAt trig stencilPins placement instanceCoord wires relativeCoords
    pins i :
  keeps poolGrows
    (positionAt trig stencilPins placement instanceCoord wires relativeCoords pins i).
Proof. unfold positionAt. grows_steps. Qed.
#[local] Hint Resolve poolGrows_positionAt : grows.

Lemma poolGrows_positionAll trig stencilPins placement instanceCoord wires relativeCoords
    pins order :
  keeps poolGrows
    (positionAll trig stencilPins placement instanceCoord wires relativeCoords pins order).
Proof.
  revert pins. induction order as [|i order IH]; intros pins; simpl; [grows_steps|].
  apply keeps_bind; [apply _|auto with grows|]. intros ?. apply IH.
Qed.
#[local] Hint Resolve poolGrows_positionAll : grows.

Lemma poolGrows_overwriteCoords pins tikzPins :
  keeps poolGrows (ABLTransistorMapper.overwriteCoords pins tikzPins).
Proof.
  revert tikzPins. induction pins as [|pin pins IH]; intros tikzPins; simpl; [grows_steps|].
  destruct tikzPins as [|tikzPin tikzPins]; [grows_steps|].
  apply keeps_bind; [apply _|auto with grows|]. intros ?.
  apply keeps_bind; [apply _|auto with grows|]. intros ?.
  apply keeps_bind; [apply _|auto with grows|]. intros ?.
  apply keeps_bind; [apply _|auto with grows|]. intros ?. apply IH.
Qed.
#[local] Hint Resolve poolGrows_overwriteCoords : grows.

Lemma poolGrows_useAsStencil trig pr stencil instanceName pins placement wires :
  keeps poolGrows (useAsStencil trig pr stencil instanceName pins placement wires).
Proof.
  destruct stencil as [st|st|st]; simpl.
  - unfold PathComponent.useAsStencil. grows_steps.
  - unfold PotentialComponent.useAsStencil. grows_steps.
  - unfold ABLTransistorMapper.useAsStencil.
    apply keeps_bind; [apply _| |intros ?; grows_steps].
    apply keeps_bind; [apply _|auto with grows|]. intros [abl tikz]. grows_steps.
Qed.

Lemma schematicPoolGrows_same (s s' : Schematic.t) :
  Schematic.store s' = Schematic.store s → schematicPoolGrows s s'.
Proof. intros E. unfold schematicPoolGrows. rewrite E. reflexivity. Qed.

Lemma schematicPoolGrows_onStore {A : Type} (m : Place A) :
  keeps poolGrows m → keeps schematicPoolGrows (Schematic.onStore m).
Proof.
  intros Hm s a s' H. apply onStore_Ok in H. by apply Hm in H.
Qed.

Lemma schematicPoolGrows_getOrCreateNet (netName : string) :
  keeps schematicPoolGrows (Schematic.getOrCreateNet netName).
Proof.
  intros s r s'. unfold Schematic.getOrCreateNet.
  destruct (Schematic.nets s !! netName); intros [= <- <-];
    by apply schematicPoolGrows_same.
Qed.

Lemma schematicPoolGrows_logError (e : LogEntry) :
  keeps schematicPoolGrows (Schematic.logError e).
Proof. intros s a s' [= <- <-]. by apply schematicPoolGrows_same. Qed.

Lemma schematicPoolGrows_nextUuid (uuid : nat → string) :
  keeps schematicPoolGrows (Schematic.nextUuid uuid).
Proof. intros s a s' [= <- <-]. by apply schematicPoolGrows_same. Qed.

Lemma schematicPoolGrows_getWires : keeps schematicPoolGrows Schematic.getWires.
Proof. intros s a s' [= <- <-]. reflexivity. Qed.

Lemma schematicPoolGrows_setWires (ws : list Wire) :
  keeps schematicPoolGrows (Schematic.setWires ws).
Proof. intros s a s' [= <- <-]. by apply schematicPoolGrows_same. Qed.

Lemma schematicPoolGrows_pushComponent (c : Placed) :
  keeps schematicPoolGrows (Schematic.pushComponent c).
Proof. intros s a s' [= <- <-]. by apply schematicPoolGrows_same. Qed.

Create HintDb sgrows.
#[local] Hint Resolve schematicPoolGrows_getOrCreateNet schematicPoolGrows_logError
  schematicPoolGrows_nextUuid schematicPoolGrows_getWires schematicPoolGrows_setWires
  schematicPoolGrows_pushComponent : sgrows.
#[local] Hint Extern 1 (keeps schematicPoolGrows (Schematic.onStore _)) =>
  apply schematicPoolGrows_onStore; auto with grows : sgrows.

Ltac sgrows_steps :=
  repeat first
    [ apply keeps_bind; [apply _| |intros ?]
    | apply keeps_ret; apply _
    | solve [auto with sgrows]
    | match goal with |- keeps _ (match ?x with _ => _ end) => destruct x end
    | match goal with |- keeps _ (if ?x then _ else _) => destruct x end ].

Lemma schematicPoolGrows_parseWireCoords (scale : Qc) (tokens : list (option (Qc * Qc)))
    (wireCoords : list CoordRef) :
  keeps schematicPoolGrows (Schematic.parseWireCoords scale wireCoords tokens).
Proof.
  revert wireCoords. induction tokens as [|token tokens IH]; intros wireCoords; simpl.
  - sgrows_steps.
  - apply keeps_bind; [apply _| |intros ?; apply IH].
    unfold Schematic.parseWireCoord. sgrows_steps.
Qed.

Lemma schematicPoolGrows_parseWires (scale : Qc) (wireArray : list WireXml) :
  keeps schematicPoolGrows (Schematic.parseWires scale wireArray).
Proof.
  induction wireArray as [|wireXml wireArray IH]; simpl.
  - sgrows_steps.
  - apply keeps_bind; [apply _| |].
    + unfold Schematic.parseWire.
      apply keeps_bind; [apply _|auto with sgrows|]. intros ?.
      apply keeps_bind; [apply _|apply schematicPoolGrows_parseWireCoords|]. intros ?.
      sgrows_steps.
    + intros ?. apply keeps_bind; [apply _|apply IH|]. intros ?. sgrows_steps.
Qed.

Lemma schematicPoolGrows_parsePins (uuid : nat → string) (instPinArray : list InstPinXml) :
  keeps schematicPoolGrows (Schematic.parsePins uuid instPinArray).
Proof.
  induction instPinArray as [|pinXml instPinArray IH]; simpl.
  - sgrows_steps.
  - apply keeps_bind; [apply _| |].
    + unfold Schematic.parsePin. sgrows_steps.
    + intros ?. apply keeps_bind; [apply _|apply IH|]. intros ?. sgrows_steps.
Qed.

Lemma schematicPoolGrows_parseInstance trig pr uuid catalog scale instanceXml :
  keeps schematicPoolGrows (Schematic.parseInstance trig pr uuid catalog scale instanceXml).
Proof.
  unfold Schematic.parseInstance.
  destruct (Schematic.lookupStencil _ _ _) as [stencil|]; [|auto with sgrows].
  apply keeps_bind; [apply _|apply schematicPoolGrows_parsePins|]. intros pins.
  apply keeps_bind; [apply _|auto with sgrows|]. intros ws.
  apply keeps_bind; [apply _| |intros ?; auto with sgrows].
  apply schematicPoolGrows_onStore, poolGrows_useAsStencil.
Qed.

Lemma schematicPoolGrows_parseInstances trig pr uuid catalog scale instanceArray :
  keeps schematicPoolGrows
    (Schematic.parseInstances trig pr uuid catalog scale instanceArray).
Proof.
  induction instanceArray as [|instanceXml instanceArray IH]; simpl.
  - sgrows_steps.
  - apply keeps_bind; [apply _|apply schematicPoolGrows_parseInstance|]. intros ?. apply IH.
Qed.

(** X5: whatever the catalog, parsing a view never removes,
    replaces or reorders an entry of the coordinate pool and never
    discards a coordinate object: the pool before is a prefix of the pool
    after, and the heap has not shrunk. *)
Theorem pool_only_grows trig pr uuid catalog scale wireArray instanceArray
    (s s' : Schematic.t) :
  Schematic.parse trig pr uuid catalog scale wireArray instanceArray s = Ok (tt, s') →
  coords (Schematic.store s) `prefix_of` coords (Schematic.store s')
  ∧ (length (heap (Schematic.store s)) ≤ length (heap (Schematic.store s')))%nat.
Proof.
  intros H.
  assert (Hk : keeps schematicPoolGrows
            (Schematic.parse trig pr uuid catalog scale wireArray instanceArray)).
  { unfold Schematic.parse.
    apply keeps_bind; [apply _|apply schematicPoolGrows_parseWires|]. intros ?.
    apply keeps_bind; [apply _|auto with sgrows|]. intros ?.
    apply schematicPoolGrows_parseInstances. }
  exact (Hk _ _ _ H).
Qed.

Lemma pool_only_grows_witness :
  ∃ s',
    Schematic.parse noTrig noPrinter (fun _ => "f81d4fae") ADS_COMPONENTS_MAP 1
      [baseWireXml; otherWireXml] [npnXml] Schematic.new = Ok (tt, s')
    ∧ coords (Schematic.store Schematic.new) `prefix_of` coords (Schematic.store s').
Proof.
  eexists. split; [vm_compute; reflexivity|].
  eapply (pool_only_grows noTrig noPrinter (fun _ => "f81d4fae") ADS_COMPONENTS_MAP 1
            [baseWireXml; otherWireXml] [npnXml] Schematic.new).
  vm_compute. reflexivity.
Defined.


Lemma pooled_grows (l : list CoordRef) (s s' : Store) :
  poolGrows s s' → pooled l s → pooled l s'.
Proof.
  intros [[k Hk] _] H v Hv. rewrite Hk. apply elem_of_app. left. by apply H.
Qed.

Lemma wiresPooled_grows (wires : list Wire) (s s' : Store) :
  poolGrows s s' → wiresPooled wires s → wiresPooled wires s'.
Proof.
  intros [[k Hk] _] H wire v Hw Hv. rewrite Hk. apply elem_of_app. left. by eapply H.
Qed.

(** A record of the search holds the seed record's [null] or a vertex of
    its wire. *)
Lemma closestVertex_member h thisCoord (prevVal rec : Candidate) (wireCoords : list CoordRef)
    (v : CoordRef) :
  Pin.closestVertex h thisCoord prevVal wireCoords = Ok rec →
  cand_coord rec = Some v →
  cand_coord prevVal = Some v ∨ v ∈ wireCoords.
Proof.
  revert prevVal. induction wireCoords as [|coord rest IH]; intros prevVal; simpl.
  - intros [= <-] Hv. by left.
  - unfold Pin.nearer. destruct thisCoord as [c|]; simpl; [|done].
    destruct (Dist_ltb _ _); simpl; intros H Hv.
    + destruct (IH _ H Hv) as [?|?]; [by left|right; by right].
    + destruct (IH _ H Hv) as [Hc|?]; [|right; by right].
      simpl in Hc. injection Hc as ->. right. by left.
Qed.

Lemma possibleCoordsOf_member h thisCoord seed (wires : list Wire) (cands : list Candidate)
    (rec : Candidate) (v : CoordRef) :
  Pin.possibleCoordsOf h thisCoord seed wires = Ok cands →
  rec ∈ cands → cand_coord rec = Some v →
  ∃ wire, wire ∈ wires ∧ v ∈ wire_coords wire.
Proof.
  revert cands. induction wires as [|wire wires IH]; intros cands; simpl.
  - intros [= <-] Hin. by apply elem_of_nil in Hin.
  - destruct (Pin.closestVertex _ _ _ _) as [c|] eqn:Ec; simpl; [|done].
    destruct (Pin.possibleCoordsOf _ _ _ _) as [cs|] eqn:Ecs; simpl; [|done].
    intros [= <-] [->|Hin]%elem_of_cons Hv.
    + destruct (closestVertex_member _ _ _ _ _ _ Ec Hv) as [Hc|Hc]; [done|].
      exists wire. split; [by left|done].
    + destruct (IH cs eq_refl Hin Hv) as (w & Hw & Hvw).
      exists w. split; [by right|done].
Qed.

Lemma head_sortCandidates_member (l : list Candidate) (r : Candidate) :
  head (sortCandidates l) = Some r → r ∈ l.
Proof.
  intros H. pose proof (head_sortCandidates l) as Hh. rewrite H in Hh. by destruct Hh.
Qed.

Lemma canonicalize_member (c o : option CoordRef) (s s' : Store) (w : CoordRef) :
  canonicalize c s = Ok (o, s') → o = Some w → Some w ∈ coords s'.
Proof.
  intros H ->. destruct c as [c|].
  - destruct (canonicalize_Some_spec c s) as (r & s1 & E & _ & _ & Hin & _).
    rewrite E in H. by injection H as <- <-.
  - unfold canonicalize in H.
    apply bind_Ok in H as (h & s0 & [= <- <-] & H).
    apply bind_Ok in H as (pool & s0 & [= <- <-] & H).
    apply bind_Ok in H as (e & s0 & E & H). apply lift_Ok in E as [E ->].
    destruct e as [[old|]|].
    + destruct (coords s) as [|e0 pool]; simpl in E; discriminate E.
    + apply bind_Ok in H as ([] & s0 & _ & H). by apply ret_Ok in H as [[=] _].
    + apply bind_Ok in H as ([] & s0 & _ & H). by apply ret_Ok in H as [[=] _].
Qed.

Lemma snap_member seed (wires : list Wire) pinNet thisCoord (o : option CoordRef)
    (s s' : Store) (w : CoordRef) :
  wiresPooled wires s →
  Pin.snap seed wires pinNet thisCoord s = Ok (o, s') → o = Some w → Some w ∈ coords s'.
Proof.
  intros Hw H ->. unfold Pin.snap in H.
  apply bind_Ok in H as (h & s0 & [= <- <-] & H).
  apply bind_Ok in H as (cands & s0 & E & H). apply lift_Ok in E as [E ->].
  destruct (head (sortCandidates cands) ≫= cand_coord) as [coord|] eqn:Eh.
  - apply ret_Ok in H as [[= ->] ->].
    destruct (head (sortCandidates cands)) as [rec|] eqn:Er; [|done]. simpl in Eh.
    apply head_sortCandidates_member in Er.
    destruct pinNet as [n|]; [|injection E as <-; by apply elem_of_nil in Er].
    destruct (possibleCoordsOf_member _ _ _ _ _ _ _ E Er Eh) as (wire & Hin & Hv).
    apply list_elem_of_filter in Hin as [_ Hin]. by eapply Hw.
  - by eapply canonicalize_member.
Qed.

Lemma findPosition_member trig stencilPins placement instanceCoord (wires : list Wire)
    relativeCoords (this pin' : Pin.t CoordRef) (s s' : Store) (w : CoordRef) :
  wiresPooled wires s →
  Pin.findPosition trig stencilPins placement instanceCoord wires relativeCoords this s
    = Ok (pin', s') →
  Pin.coord pin' = Some w → Some w ∈ coords s'.
Proof.
  intros Hw H Hc. unfold Pin.findPosition in H.
  apply bind_Ok in H as (h & s0 & [= <- <-] & H).
  apply bind_Ok in H as (thisCoord & s1 & E & H).
  apply bind_Ok in H as (coord & s2 & Hsnap & H).
  apply ret_Ok in H as [-> ->]. simpl in Hc.
  eapply snap_member; [|exact Hsnap|exact Hc].
  eapply wiresPooled_grows; [|exact Hw].
  assert (Hk : keeps poolGrows
    (match Pin.hint stencilPins (Pin.instTermNumber this) with
     | Some c =>
         if relativeCoords
         then pl ← lift (deref placement); ic ← lift (deref instanceCoord);
              r ← alloc (Pin.toAbsolute trig pl (valueOf (heap s) ic) c); mret (Some r)
         else r ← alloc c; mret (Some r)
     | None => if relativeCoords then mret instanceCoord else mret None
     end)) by grows_steps.
  exact (Hk _ _ _ E).
Qed.

Lemma positionAll_pooled trig stencilPins placement instanceCoord (wires : list Wire)
    relativeCoords (order : list (option nat)) (pins pins' : list (Pin.t CoordRef))
    (s s' : Store) :
  wiresPooled wires s → pooled (pinCoords pins) s →
  positionAll trig stencilPins placement instanceCoord wires relativeCoords pins order s
    = Ok (pins', s') →
  pooled (pinCoords pins') s'.
Proof.
  revert pins s. induction order as [|i order IH]; intros pins s Hw Hp H; simpl in H.
  - by apply ret_Ok in H as [-> ->].
  - apply bind_Ok in H as (pins1 & s1 & E & H).
    pose proof (poolGrows_positionAt _ _ _ _ _ _ _ _ _ _ _ E) as Hg.
    eapply IH; [| |exact H].
    + by eapply wiresPooled_grows.
    + unfold positionAt in E.
      apply bind_Ok in E as (pin & s0 & E0 & E). apply lift_Ok in E0 as [E0 ->].
      apply bind_Ok in E as (pin' & s0 & E1 & E). apply ret_Ok in E as [-> ->].
      intros v Hv. unfold pinCoords in Hv. apply list_elem_of_omap in Hv as (p & Hin & Hc).
      apply list_elem_of_lookup in Hin as [j Hj].
      destruct i as [k|]; [|done]. simpl in Hj, E0.
      destruct (decide (j = k)) as [->|Hne].
      * destruct (pins !! k) as [q|] eqn:Hq; [|done].
        rewrite list_lookup_insert_eq in Hj; [|by eapply lookup_lt_Some].
        injection Hj as <-. by eapply findPosition_member.
      * rewrite list_lookup_insert_ne in Hj; [|done].
        eapply pooled_grows; [exact Hg|exact Hp|].
        unfold pinCoords. apply list_elem_of_omap. exists p.
        split; [by eapply list_elem_of_lookup_2|done].
Qed.

Lemma selected_pooled (pins : list (Pin.t CoordRef)) (order : list (option nat)) (s : Store) :
  pooled (pinCoords pins) s → pooled (pinCoords (omap id (selected pins order))) s.
Proof.
  intros Hp v Hv. apply Hp. unfold pinCoords in *.
  apply list_elem_of_omap in Hv as (p & Hin & Hc).
  apply list_elem_of_omap in Hin as (e & Hin & He). simpl in He. subst e.
  unfold selected in Hin. apply list_elem_of_fmap in Hin as (i & Hi & _).
  destruct i as [k|]; [|done]. simpl in Hi.
  apply list_elem_of_omap. exists p. split; [|done].
  by eapply list_elem_of_lookup_2.
Qed.

(** A placement gives the component pooled coordinates only. *)
Lemma useAsStencil_pooled trig pr stencil instanceName (pins : list (Pin.t CoordRef))
    placement (wires : list Wire) (component : Placed) (s s' : Store) :
  wiresPooled wires s → pooled (pinCoords pins) s →
  useAsStencil trig pr stencil instanceName pins placement wires s = Ok (component, s') →
  pooled (placedCoords component) s'.
Proof.
  intros Hw Hp H. destruct stencil as [st|st|st]; simpl in H.
  - apply bind_Ok in H as (c & s1 & E & H). apply ret_Ok in H as [-> ->].
    unfold PathComponent.useAsStencil in E.
    apply bind_Ok in E as (fresh & s2 & E1 & E).
    apply bind_Ok in E as (ic & s3 & E2 & E).
    apply bind_Ok in E as (pins' & s4 & E3 & E). apply ret_Ok in E as [-> ->].
    simpl. apply selected_pooled.
    assert (Hg : poolGrows s s3).
    { etrans; [by eapply poolGrows_alloc|by eapply poolGrows_canonicalize]. }
    eapply positionAll_pooled; [| |exact E3].
    + by eapply wiresPooled_grows.
    + by eapply pooled_grows.
  - apply bind_Ok in H as (c & s1 & E & H). apply ret_Ok in H as [-> ->].
    unfold PotentialComponent.useAsStencil in E.
    apply bind_Ok in E as (fresh & s2 & E1 & E).
    apply bind_Ok in E as (ic & s3 & E2 & E).
    apply bind_Ok in E as (pins' & s4 & E3 & E). apply ret_Ok in E as [-> ->].
    simpl.
    assert (Hg : poolGrows s s3).
    { etrans; [by eapply poolGrows_alloc|by eapply poolGrows_canonicalize]. }
    assert (Hp' : pooled (pinCoords pins') s4).
    { eapply (positionAll_pooled _ _ _ _ _ _ [Some 0%nat]).
      - by eapply wiresPooled_grows.
      - by eapply pooled_grows.
      - simpl. erewrite bind_run; [|exact E3]. reflexivity. }
    intros v Hv. apply Hp'. unfold pinCoords in *.
    apply list_elem_of_omap in Hv as (p & Hin & Hc).
    apply list_elem_of_omap. exists p. split; [|done].
    destruct (pins' !! 0%nat) as [q|] eqn:Hq; simpl in Hin.
    + apply list_elem_of_singleton in Hin as ->. by eapply list_elem_of_lookup_2.
    + by apply elem_of_nil in Hin.
  - apply bind_Ok in H as (c & s1 & E & H). apply ret_Ok in H as [-> ->].
    unfold ABLTransistorMapper.useAsStencil in E.
    apply bind_Ok in E as ([abl tikz] & s2 & E1 & E). apply lift_Ok in E1 as [_ ->].
    apply bind_Ok in E as (pins' & s3 & E2 & E).
    apply bind_Ok in E as ([] & s4 & E3 & E). apply ret_Ok in E as [-> ->].
    simpl. apply selected_pooled.
    eapply pooled_grows; [by eapply poolGrows_overwriteCoords|].
    by eapply positionAll_pooled.
Qed.

#[local] Instance sameLists_preorder : PreOrder sameLists.
Proof.
  split.
  - intros s. by split.
  - intros s1 s2 s3 [H1 H1'] [H2 H2']. split; congruence.
Qed.

Lemma sameLists_onStore {A : Type} (m : Place A) : keeps sameLists (Schematic.onStore m).
Proof.
  intros s a s'. unfold Schematic.onStore.
  destruct (m (Schematic.store s)) as [[a' st]|e]; [|done]. by intros [= <- <-].
Qed.

Lemma sameLists_getOrCreateNet (netName : string) :
  keeps sameLists (Schematic.getOrCreateNet netName).
Proof.
  intros s r s'. unfold Schematic.getOrCreateNet.
  destruct (Schematic.nets s !! netName); by intros [= <- <-].
Qed.

Lemma sameLists_logError (e : LogEntry) : keeps sameLists (Schematic.logError e).
Proof. by intros s a s' [= <- <-]. Qed.

Lemma sameLists_nextUuid (uuid : nat → string) : keeps sameLists (Schematic.nextUuid uuid).
Proof. by intros s a s' [= <- <-]. Qed.

Create HintDb lists.
#[local] Hint Resolve sameLists_onStore sameLists_getOrCreateNet sameLists_logError
  sameLists_nextUuid : lists.

Ltac lists_steps :=
  repeat first
    [ apply keeps_bind; [apply _| |intros ?]
    | apply keeps_ret; apply _
    | solve [auto with lists]
    | match goal with |- keeps _ (match ?x with _ => _ end) => destruct x end
    | match goal with |- keeps _ (if ?x then _ else _) => destruct x end ].

Lemma sameLists_parseWireCoords (scale : Qc) (tokens : list (option (Qc * Qc)))
    (wireCoords : list CoordRef) :
  keeps sameLists (Schematic.parseWireCoords scale wireCoords tokens).
Proof.
  revert wireCoords. induction tokens as [|token tokens IH]; intros wireCoords; simpl.
  - lists_steps.
  - apply keeps_bind; [apply _| |intros ?; apply IH].
    unfold Schematic.parseWireCoord. lists_steps.
Qed.

Lemma sameLists_parseWire (scale : Qc) (wireXml : WireXml) :
  keeps sameLists (Schematic.parseWire scale wireXml).
Proof.
  unfold Schematic.parseWire.
  apply keeps_bind; [apply _|auto with lists|]. intros ?.
  apply keeps_bind; [apply _|apply sameLists_parseWireCoords|]. intros ?. lists_steps.
Qed.

Lemma sameLists_parseWires (scale : Qc) (wireArray : list WireXml) :
  keeps sameLists (Schematic.parseWires scale wireArray).
Proof.
  induction wireArray as [|wireXml wireArray IH]; simpl.
  - lists_steps.
  - apply keeps_bind; [apply _|apply sameLists_parseWire|]. intros ?.
    apply keeps_bind; [apply _|apply IH|]. intros ?. lists_steps.
Qed.

Lemma sameLists_parsePins (uuid : nat → string) (instPinArray : list InstPinXml) :
  keeps sameLists (Schematic.parsePins uuid instPinArray).
Proof.
  induction instPinArray as [|pinXml instPinArray IH]; simpl.
  - lists_steps.
  - apply keeps_bind; [apply _| |].
    + unfold Schematic.parsePin. lists_steps.
    + intros ?. apply keeps_bind; [apply _|apply IH|]. intros ?. lists_steps.
Qed.

Lemma parseWireCoords_pooled (scale : Qc) (tokens : list (option (Qc * Qc)))
    (wireCoords wireCoords' : list CoordRef) (s s' : Schematic.t) :
  pooled wireCoords (Schematic.store s) →
  Schematic.parseWireCoords scale wireCoords tokens s = Ok (wireCoords', s') →
  pooled wireCoords' (Schematic.store s').
Proof.
  revert wireCoords s. induction tokens as [|token tokens IH]; intros wireCoords s Hp H;
    simpl in H.
  - by apply ret_Ok in H as [-> ->].
  - apply bind_Ok in H as (wc & s1 & E & H). eapply IH; [|exact H].
    unfold Schematic.parseWireCoord in E. destruct token as [[x y]|].
    + apply bind_Ok in E as (coord & s2 & E1 & E).
      apply bind_Ok in E as (c & s3 & E2 & E). apply ret_Ok in E as [-> <-].
      apply onStore_Ok in E1, E2.
      intros v [Hv|Hv]%elem_of_app.
      * eapply (pooled_grows wireCoords); [|exact Hp|exact Hv].
        etrans; [by eapply poolGrows_alloc|by eapply poolGrows_canonicalize].
      * apply list_elem_of_singleton in Hv as ->.
        destruct (canonicalize_Some_spec coord (Schematic.store s2))
          as (r & st & Ec & _ & _ & Hin & _).
        rewrite Ec in E2. by injection E2 as <- <-.
    + apply bind_Ok in E as ([] & s2 & E1 & E). apply ret_Ok in E as [-> <-].
      by injection E1 as <-.
Qed.

Lemma parseWires_pooled (scale : Qc) (wireArray : list WireXml) (ws : list Wire)
    (s s' : Schematic.t) :
  Schematic.parseWires scale wireArray s = Ok (ws, s') →
  wiresPooled ws (Schematic.store s').
Proof.
  revert ws s. induction wireArray as [|wireXml wireArray IH]; intros ws s H; simpl in H.
  - apply ret_Ok in H as [-> ->]. intros wire v Hw. by apply elem_of_nil in Hw.
  - apply bind_Ok in H as (wire & s1 & E & H).
    apply bind_Ok in H as (rest & s2 & E' & H). apply ret_Ok in H as [-> <-].
    pose proof (IH _ _ E') as Hrest.
    pose proof (schematicPoolGrows_parseWires _ _ _ _ _ E') as Hg.
    unfold Schematic.parseWire in E.
    apply bind_Ok in E as (net & s3 & E1 & E).
    apply bind_Ok in E as (wc & s4 & E2 & E). apply ret_Ok in E as [-> <-].
    apply parseWireCoords_pooled in E2.
    2:{ intros v Hv. by apply elem_of_nil in Hv. }
    intros w v [->|Hw]%elem_of_cons Hv; [|by eapply Hrest].
    eapply pooled_grows; [exact Hg|exact E2|exact Hv].
Qed.

Lemma parsePins_unplaced (uuid : nat → string) (instPinArray : list InstPinXml)
    (pins : list (Pin.t CoordRef)) (s s' : Schematic.t) :
  Schematic.parsePins uuid instPinArray s = Ok (pins, s') →
  pinCoords pins = [] ∧ Schematic.store s' = Schematic.store s.
Proof.
  revert pins s. induction instPinArray as [|pinXml rest IH]; intros pins s H; simpl in H.
  - by apply ret_Ok in H as [-> ->].
  - apply bind_Ok in H as (pin & s1 & E & H).
    apply bind_Ok in H as (pins' & s2 & E' & H). apply ret_Ok in H as [-> <-].
    destruct (IH _ _ E') as (Hp & H1).
    unfold Schematic.parsePin in E.
    apply bind_Ok in E as (netName & s3 & E1 & E).
    apply bind_Ok in E as (net & s4 & E2 & E). apply ret_Ok in E as [-> <-].
    assert (Ha : Schematic.store s3 = Schematic.store s).
    { destruct (nonEmpty _); [by apply ret_Ok in E1 as [_ ->]|by injection E1 as _ <-]. }
    assert (Ha' : Schematic.store s1 = Schematic.store s3).
    { unfold Schematic.getOrCreateNet in E2.
      destruct (Schematic.nets s3 !! _); by injection E2 as <- <-. }
    split; [done|congruence].
Qed.

Lemma parseInstance_pooled trig pr uuid catalog scale instanceXml (s s' : Schematic.t) :
  coordsInUsePooled s →
  Schematic.parseInstance trig pr uuid catalog scale instanceXml s = Ok (tt, s') →
  coordsInUsePooled s'.
Proof.
  intros Hinv H. unfold Schematic.parseInstance in H.
  destruct (Schematic.lookupStencil _ _ _) as [stencil|].
  2:{ injection H as <-. exact Hinv. }
  apply bind_Ok in H as (pins & s1 & E1 & H).
  apply bind_Ok in H as (ws & s2 & [= <- <-] & H).
  apply bind_Ok in H as (component & s3 & E3 & H).
  injection H as <-.
  destruct (sameLists_parsePins _ _ _ _ _ E1) as [Hw1 Hc1].
  destruct (sameLists_onStore _ _ _ _ E3) as [Hw3 Hc3].
  apply parsePins_unplaced in E1 as (Hpins & Hst).
  apply onStore_Ok in E3.
  destruct Hinv as [Hwires Hcomps].
  pose proof (poolGrows_useAsStencil _ _ _ _ _ _ _ _ _ _ E3) as Hg.
  rewrite Hst in Hg. split; simpl.
  - rewrite Hw3, Hw1. by eapply wiresPooled_grows.
  - rewrite Hc3, Hc1. intros c [Hin|Hin]%elem_of_app.
    + eapply pooled_grows; [exact Hg|by apply Hcomps].
    + apply list_elem_of_singleton in Hin as ->.
      eapply useAsStencil_pooled; [| |exact E3].
      * rewrite Hst, Hw1. exact Hwires.
      * rewrite Hpins. intros v Hv. by apply elem_of_nil in Hv.
Qed.

Lemma parseInstances_pooled trig pr uuid catalog scale instanceArray (s s' : Schematic.t) :
  coordsInUsePooled s →
  Schematic.parseInstances trig pr uuid catalog scale instanceArray s = Ok (tt, s') →
  coordsInUsePooled s'.
Proof.
  revert s. induction instanceArray as [|instanceXml rest IH]; intros s Hinv H; simpl in H.
  - by apply ret_Ok in H as [_ ->].
  - apply bind_Ok in H as ([] & s1 & E & H).
    eapply IH; [|exact H]. by eapply parseInstance_pooled.
Qed.

(** X6: in every schematic that
    [Schematic.fromXML] returns, whatever the catalog, each vertex of each
    wire and each coordinate held by a pin of a placed component is an
    entry of the coordinate pool. *)
Theorem coordinates_in_use_are_pooled trig pr uuid catalog scale wireArray instanceArray
    (schematic : Schematic.t) :
  Schematic.fromXML trig pr uuid catalog scale wireArray instanceArray = Ok schematic →
  (∀ wire v, wire ∈ Schematic.wires schematic → v ∈ wire_coords wire →
     Some v ∈ coords (Schematic.store schematic))
  ∧ (∀ component v, component ∈ Schematic.components schematic →
       v ∈ placedCoords component → Some v ∈ coords (Schematic.store schematic)).
Proof.
  unfold Schematic.fromXML.
  destruct (Schematic.parse _ _ _ _ _ _ _ _) as [[[] s']|e] eqn:E; [|done].
  intros [= <-]. unfold Schematic.parse in E.
  apply bind_Ok in E as (ws & s1 & E1 & E).
  apply bind_Ok in E as ([] & s2 & [= <-] & E).
  destruct (sameLists_parseWires _ _ _ _ _ E1) as [_ Hc1].
  apply parseWires_pooled in E1 as Hws.
  assert (Hinv : coordsInUsePooled s').
  { eapply parseInstances_pooled; [|exact E]. split; simpl; [exact Hws|].
    rewrite Hc1. simpl. intros c Hc. by apply elem_of_nil in Hc. }
  destruct Hinv as [H1 H2]. split; [exact H1|]. intros c v Hc Hv. by eapply H2.
Qed.

Lemma coordinates_in_use_are_pooled_witness :
  ∃ schematic,
    Schematic.fromXML noTrig noPrinter (fun _ => "f81d4fae") ADS_COMPONENTS_MAP 1
      [baseWireXml; otherWireXml] [npnXml] = Ok schematic
    ∧ ∀ component v, component ∈ Schematic.components schematic →
        v ∈ placedCoords component → Some v ∈ coords (Schematic.store schematic).
Proof.
  eexists. split; [vm_compute; reflexivity|].
  eapply (coordinates_in_use_are_pooled noTrig noPrinter (fun _ => "f81d4fae")
            ADS_COMPONENTS_MAP 1 [baseWireXml; otherWireXml] [npnXml]).
  vm_compute. reflexivity.
Defined.

(** ** What parsing produces *)

Lemma canonicalize_wf (c r : CoordRef) (s s' : Store) :
  poolWf s → (c < length (heap s))%nat →
  canonicalize (Some c) s = Ok (Some r, s') →
  poolWf s' ∧ (r < length (heap s'))%nat ∧ heap s' = heap s
  ∧ valueOf (heap s) r = valueOf (heap s) c.
Proof.
  intros Hwf Hc H. unfold canonicalize in H.
  apply bind_Ok in H as (h & s0 & [= <- <-] & H).
  apply bind_Ok in H as (pool & s0 & [= <- <-] & H).
  apply bind_Ok in H as (e & s0 & E & H). apply lift_Ok in E as [E ->].
  rewrite findEqual_Some in E. injection E as <-.
  destruct (List.find _ (coords s)) as [[old|]|] eqn:Ef.
  - apply ret_Ok in H as [[= ->] ->].
    apply find_some in Ef as [Hin Heq]. apply equals_spec in Heq.
    apply list_elem_of_In in Hin. split_and!; [done|by apply Hwf|done|done..].
  - apply find_some in Ef as [_ Heq]. discriminate Heq.
  - apply bind_Ok in H as ([] & s1 & [= <-] & H). apply ret_Ok in H as [[= ->] ->].
    simpl. split_and!; try done.
    intros v [Hv|Hv]%elem_of_app; [by apply Hwf|].
    apply list_elem_of_singleton in Hv. by injection Hv as ->.
Qed.

Lemma heapKept_valueOf (s s' : Store) (r : CoordRef) :
  heapKept s s' → (r < length (heap s))%nat → valueOf (heap s') r = valueOf (heap s) r.
Proof. intros [k ->] Hlt. unfold valueOf. by apply lookup_total_app_l. Qed.

Lemma parseWireCoords_values (scale : Qc) (tokens : list (option (Qc * Qc)))
    (wireCoords : list CoordRef) (s : Schematic.t) :
  poolWf (Schematic.store s) →
  Forall (fun v => (v < length (heap (Schematic.store s)))%nat) wireCoords →
  ∃ new s',
    Schematic.parseWireCoords scale wireCoords tokens s = Ok (wireCoords ++ new, s')
    ∧ poolWf (Schematic.store s')
    ∧ heapKept (Schematic.store s) (Schematic.store s')
    ∧ Forall (fun v => (v < length (heap (Schematic.store s')))%nat) (wireCoords ++ new)
    ∧ Forall2 (fun token v =>
                 valueOf (heap (Schematic.store s')) v = tokenCoord scale token)
        (omap id tokens) new
    ∧ Schematic.console s'
      = Schematic.console s
        ++ replicate (length (filter (fun token => token = None) tokens))
             CouldNotParseWireCoordinate
    ∧ Schematic.nets s' = Schematic.nets s
    ∧ sameLists s s'.
Proof.
  revert wireCoords s. induction tokens as [|token tokens IH]; intros wireCoords s Hwf Hvalid.
  - exists [], s. simpl. rewrite !app_nil_r. split_and!; try done; by unfold heapKept.
  - simpl. destruct token as [[x y]|].
    + unfold Schematic.parseWireCoord.
      set (fresh := length (heap (Schematic.store s))).
      set (st1 := mkStore (heap (Schematic.store s) ++ [Coordinate.mk (scale * x) (scale * y)])
                    (coords (Schematic.store s))).
      destruct (canonicalize_Some_spec fresh st1) as (r & st2 & Ec & _).
      destruct (canonicalize_wf fresh r st1 st2) as (Hwf2 & Hr & Hh & Hval); [| |done|].
      { intros v Hv. simpl. rewrite length_app. specialize (Hwf v Hv). lia. }
      { unfold fresh, st1. simpl. rewrite length_app. simpl. lia. }
      set (s2 := Schematic.mk st2 (Schematic.nets s) (Schematic.netObjects s)
                   (Schematic.wires s) (Schematic.components s) (Schematic.console s)
                   (Schematic.uuidCalls s)).
      destruct (IH (wireCoords ++ [r]) s2)
        as (new & s' & E & Hwf' & Hk & Hv' & Hvals & Hcon & Hn & Hl); [exact Hwf2| |].
      { apply Forall_app. split.
        - eapply Forall_impl; [exact Hvalid|]. intros v Hv. simpl. rewrite Hh.
          unfold st1. simpl. rewrite length_app. simpl. simpl in Hv. lia.
        - by apply Forall_singleton. }
      exists (r :: new), s'.
      replace (wireCoords ++ r :: new) with ((wireCoords ++ [r]) ++ new)
        by (by rewrite <- app_assoc).
      split_and!; try done.
      * erewrite bind_run; [exact E|].
        erewrite bind_run; [|reflexivity]. erewrite bind_run; [|].
        2:{ unfold Schematic.onStore. simpl. fold fresh. fold st1. rewrite Ec. reflexivity. }
        reflexivity.
      * etrans; [|exact Hk]. unfold heapKept. simpl. rewrite Hh. unfold st1. simpl.
        by apply prefix_app_r.
      * constructor; [|done].
        rewrite (heapKept_valueOf _ _ r Hk); [|done]. simpl. rewrite Hh, Hval.
        unfold valueOf, st1, fresh. simpl. by rewrite lookup_total_app_r, Nat.sub_diag.
    + unfold Schematic.parseWireCoord.
      set (s1 := Schematic.mk (Schematic.store s) (Schematic.nets s) (Schematic.netObjects s)
                   (Schematic.wires s) (Schematic.components s)
                   (Schematic.console s ++ [CouldNotParseWireCoordinate])
                   (Schematic.uuidCalls s)).
      destruct (IH wireCoords s1)
        as (new & s' & E & Hwf' & Hk & Hv' & Hvals & Hcon & Hn & Hl); [exact Hwf|exact Hvalid|].
      exists new, s'. split_and!; try done.
      * rewrite Hcon, filter_cons_True; [|done]. unfold s1. simpl.
        by rewrite <- app_assoc.
Qed.

Lemma getOrCreateNet_frame (netName : string) (s : Schematic.t) :
  ∃ net s', Schematic.getOrCreateNet netName s = Ok (net, s')
    ∧ Schematic.store s' = Schematic.store s
    ∧ Schematic.console s' = Schematic.console s
    ∧ sameLists s s'.
Proof.
  unfold Schematic.getOrCreateNet. destruct (Schematic.nets s !! netName).
  - by eexists _, _.
  - by eexists _, _.
Qed.

(** X7: the wire elements a [WireXml] describes
    are those that have their [genpolyline], [centerline] and [points]
    nodes (for any other, [#parse] stops with an error before it reads a
    coordinate, see [Converter.pointsOf]).  Parsing a list of such wires
    does not throw.  It returns one wire for each wire element, in the
    order of the view; the vertices of a wire are, in order, the
    coordinates of its tokens that [parseFloat] could read, scaled; the
    console gains one ["Couldn't parse wire coordinate"] entry for each
    token it could not read; and the wire list and the component list
    of the schematic are not touched (the wires are handed back). *)
Theorem wires_are_parsed_in_full (scale : Qc) (wireArray : list WireXml) (s : Schematic.t) :
  poolWf (Schematic.store s) →
  ∃ ws s',
    Schematic.parseWires scale wireArray s = Ok (ws, s')
    ∧ Forall2 (fun wireXml wire =>
                 Forall2 (fun token v =>
                            valueOf (heap (Schematic.store s')) v = tokenCoord scale token)
                         (parsableTokens wireXml) (wire_coords wire))
        wireArray ws
    ∧ Schematic.console s'
      = Schematic.console s
        ++ replicate (unparsableCount wireArray) CouldNotParseWireCoordinate
    ∧ sameLists s s'.
Proof.
  assert (H : ∀ s, poolWf (Schematic.store s) →
    ∃ ws s',
      Schematic.parseWires scale wireArray s = Ok (ws, s')
      ∧ poolWf (Schematic.store s')
      ∧ heapKept (Schematic.store s) (Schematic.store s')
      ∧ Forall2 (fun wireXml wire =>
                   Forall2 (fun token v =>
                              valueOf (heap (Schematic.store s')) v = tokenCoord scale token)
                           (parsableTokens wireXml) (wire_coords wire))
          wireArray ws
      ∧ Schematic.console s'
        = Schematic.console s
          ++ replicate (unparsableCount wireArray) CouldNotParseWireCoordinate
      ∧ sameLists s s').
  { clear s. induction wireArray as [|wireXml wireArray IH]; intros s Hwf.
    - exists [], s. simpl. unfold unparsableCount. simpl. rewrite app_nil_r.
      split_and!; try done; by unfold heapKept.
    - simpl. unfold Schematic.parseWire.
      destruct (getOrCreateNet_frame (wx_netName wireXml) s)
        as (net & s0 & E0 & Hst0 & Hcon0 & Hl0).
      destruct (parseWireCoords_values scale (wx_points wireXml) [] s0)
        as (new & s1 & E1 & Hwf1 & Hk1 & Hv1 & Hvals1 & Hcon1 & _ & Hl1).
      { by rewrite Hst0. } { done. }
      destruct (IH s1 Hwf1) as (ws & s' & E' & Hwf' & Hk' & Hvals' & Hcon' & Hl').
      exists (mkWire net new :: ws), s'. split_and!.
      + erewrite bind_run.
        2:{ erewrite bind_run; [|exact E0]. erewrite bind_run; [|exact E1]. reflexivity. }
        erewrite bind_run; [|exact E']. reflexivity.
      + done.
      + rewrite <- Hst0. by etrans.
      + constructor; [|done]. simpl. unfold parsableTokens.
        apply Forall2_same_length_lookup_2; [by eapply Forall2_length|].
        intros i token v Htoken Hv.
        rewrite (heapKept_valueOf _ _ v Hk').
        * by eapply (Forall2_lookup_lr _ _ _ _ _ _ Hvals1).
        * rewrite Forall_forall in Hv1. apply Hv1. simpl.
          by eapply list_elem_of_lookup_2.
      + rewrite Hcon', Hcon1, Hcon0. unfold unparsableCount. simpl.
        rewrite filter_app, length_app, replicate_add. by rewrite <- app_assoc.
      + etrans; [exact Hl0|]. etrans; [exact Hl1|exact Hl']. }
  intros Hwf. destruct (H s Hwf) as (ws & s' & E & _ & _ & Hvals & Hcon & Hl).
  by exists ws, s'.
Qed.

Lemma wires_are_parsed_in_full_witness :
  ∃ ws s',
    Schematic.parseWires 1 [baseWireXml; mkWireXml "z" [None; Some (1, 1)]] Schematic.new
      = Ok (ws, s')
    ∧ length ws = 2%nat
    ∧ Schematic.console s' = [CouldNotParseWireCoordinate].
Proof.
  destruct (wires_are_parsed_in_full 1 [baseWireXml; mkWireXml "z" [None; Some (1, 1)]]
              Schematic.new) as (ws & s' & E & Hvals & Hcon & _).
  - intros r Hr. by apply elem_of_nil in Hr.
  - exists ws, s'. split; [exact E|]. split; [|exact Hcon].
    by rewrite <- (Forall2_length _ _ _ Hvals).
Defined.

#[local] Instance sameOutput_preorder : PreOrder sameOutput.
Proof.
  split.
  - intros s. by split.
  - intros s1 s2 s3 [H1 H1'] [H2 H2']. split; congruence.
Qed.

Lemma sameOutput_onStore {A : Type} (m : Place A) : keeps sameOutput (Schematic.onStore m).
Proof.
  intros s a s'. unfold Schematic.onStore.
  destruct (m (Schematic.store s)) as [[a' st]|e]; [|done]. by intros [= <- <-].
Qed.

Lemma sameOutput_getOrCreateNet (netName : string) :
  keeps sameOutput (Schematic.getOrCreateNet netName).
Proof.
  intros s r s'. unfold Schematic.getOrCreateNet.
  destruct (Schematic.nets s !! netName); by intros [= <- <-].
Qed.

Lemma sameOutput_nextUuid (uuid : nat → string) : keeps sameOutput (Schematic.nextUuid uuid).
Proof. by intros s a s' [= <- <-]. Qed.

Lemma sameOutput_parsePins (uuid : nat → string) (instPinArray : list InstPinXml) :
  keeps sameOutput (Schematic.parsePins uuid instPinArray).
Proof.
  induction instPinArray as [|pinXml instPinArray IH]; simpl.
  - apply keeps_ret; apply _.
  - apply keeps_bind; [apply _| |].
    + unfold Schematic.parsePin.
      apply keeps_bind; [apply _| |].
      * destruct (nonEmpty _); [apply keeps_ret; apply _|apply sameOutput_nextUuid].
      * intros ?. apply keeps_bind; [apply _|apply sameOutput_getOrCreateNet|].
        intros ?. apply keeps_ret; apply _.
    + intros ?. apply keeps_bind; [apply _|apply IH|]. intros ?. apply keeps_ret; apply _.
Qed.

(** X8: when the parsing of the instances of
    a view returns, the component list has gained exactly one component
    for each instance the catalog knows (by its library and cell, or by
    its cell alone) and nothing for the others, and the console has gained
    exactly the ["Skipping not identified component"] warnings of the
    others, in the order of the view. *)
Theorem components_follow_the_catalog trig pr uuid catalog scale
    (instanceArray : list InstanceXml) (s s' : Schematic.t) :
  Schematic.parseInstances trig pr uuid catalog scale instanceArray s = Ok (tt, s') →
  (∃ added, Schematic.components s' = Schematic.components s ++ added
            ∧ length added = length (knownInstances catalog instanceArray))
  ∧ Schematic.console s' = Schematic.console s ++ skipWarnings catalog instanceArray.
Proof.
  revert s. induction instanceArray as [|instanceXml rest IH]; intros s H; simpl in H.
  - apply ret_Ok in H as [_ ->]. split; [exists []|]; by rewrite app_nil_r.
  - apply bind_Ok in H as ([] & s1 & E & H).
    destruct (IH _ H) as [(added & Hc & Hlen) Hcon].
    unfold knownInstances, skipWarnings. unfold Schematic.parseInstance in E.
    destruct (Schematic.lookupStencil catalog (ix_libraryName instanceXml)
                (ix_cellName instanceXml)) as [stencil|] eqn:El.
    + apply bind_Ok in E as (pins & s2 & E1 & E).
      apply bind_Ok in E as (ws & s3 & [= <- <-] & E).
      apply bind_Ok in E as (component & s3 & E3 & E).
      injection E as <-.
      destruct (sameOutput_parsePins _ _ _ _ _ E1) as [Hc2 Hcon2].
      destruct (sameOutput_onStore _ _ _ _ E3) as [Hc3 Hcon3].
      rewrite filter_cons_True; [|by rewrite El].
      rewrite filter_cons_False; [|by rewrite El].
      split.
      * exists (component :: added). split; [|by rewrite !length_cons, Hlen].
        rewrite Hc. simpl. rewrite Hc3, Hc2. by rewrite <- app_assoc.
      * rewrite Hcon. simpl. by rewrite Hcon3, Hcon2.
    + injection E as <-.
      rewrite filter_cons_False; [|rewrite El; by intros [? ?]].
      rewrite filter_cons_True; [|by rewrite El].
      split.
      * exists added. by split.
      * rewrite Hcon. simpl. by rewrite <- app_assoc.
Qed.

Lemma components_follow_the_catalog_witness :
  ∃ s',
    Schematic.parseInstances noTrig noPrinter (fun _ => "f81d4fae") ADS_COMPONENTS_MAP 1
      [mkInstanceXml "lib" "NoSuchCell" "U1" None []; npnXml] Schematic.new = Ok (tt, s')
    ∧ Schematic.console s' = [SkippingNotIdentifiedComponent "U1" "lib" "NoSuchCell"].
Proof.
  eexists. split; [vm_compute; reflexivity|].
  eapply (components_follow_the_catalog noTrig noPrinter (fun _ => "f81d4fae")
            ADS_COMPONENTS_MAP 1 [mkInstanceXml "lib" "NoSuchCell" "U1" None []; npnXml]
            Schematic.new).
  vm_compute. reflexivity.
Defined.

(** ** Angles: the loops and their closed form *)

Lemma this_normalizeAngle (angle : Qc) :
  (this (normalizeAngle angle)
   == this angle + 360 * inject_Z (Qfloor ((180 - this angle) / 360)))%Q.
Proof.
  unfold normalizeAngle, Qc_of, Qcminus, Qcplus, Qcmult, Qcopp, Qcdiv, Qcinv, Qc_of_Z.
  simpl. rewrite !Qred_correct.
  match goal with |- context [Z.div ?a ?b] => set (z := Z.div a b) end.
  rewrite inject_Z_opp. change (inject_Z 360) with 360%Q. ring.
Qed.

(** The closed form lies in the half-open turn the loops aim at. *)
Lemma normalizeAngle_range (angle : Qc) :
  Qc_of (-180) < normalizeAngle angle ∧ normalizeAngle angle <= Qc_of 180.
Proof.
  unfold Qclt, Qcle. rewrite this_normalizeAngle.
  set (q := ((180 - this angle) / 360)%Q).
  pose proof (Qfloor_le q) as H1. pose proof (Qlt_floor q) as H2.
  rewrite inject_Z_plus in H2. change (inject_Z 1) with 1%Q in H2.
  assert (Hq : (this angle == 180 - 360 * q)%Q) by (unfold q; field).
  change (this (Qc_of (-180))) with (-180)%Q. change (this (Qc_of 180)) with 180%Q.
  split; lra.
Qed.

Lemma this_plus (a b : Qc) : (this (a + b) == this a + this b)%Q.
Proof. unfold Qcplus. simpl. apply Qred_correct. Qed.

Lemma this_minus (a b : Qc) : (this (a - b) == this a - this b)%Q.
Proof.
  unfold Qcminus, Qcplus, Qcopp. simpl. rewrite !Qred_correct. reflexivity.
Qed.

Lemma this_mult (a b : Qc) : (this (a * b) == this a * this b)%Q.
Proof. unfold Qcmult. simpl. apply Qred_correct. Qed.

Lemma this_Qc_of (z : Z) : (this (Qc_of z) == inject_Z z)%Q.
Proof. reflexivity. Qed.

Lemma raiseAngle_steps (n fuel : nat) (angle : Qc) :
  (n ≤ fuel)%nat →
  Qc_of (-180) < angle + Qc_of 360 * Qc_of (Z.of_nat n) →
  (n = 0%nat ∨ angle + Qc_of 360 * Qc_of (Z.of_nat n) <= Qc_of 180) →
  raiseAngle fuel angle = Some (angle + Qc_of 360 * Qc_of (Z.of_nat n)).
Proof.
  revert fuel angle. induction n as [|n IH]; intros fuel angle Hfuel Hlow Hhigh.
  - assert (E : angle + Qc_of 360 * Qc_of (Z.of_nat 0) = angle).
    { apply Qc_is_canon. rewrite this_plus, this_mult, !this_Qc_of. simpl. ring. }
    rewrite E in *. destruct fuel; simpl; rewrite bool_decide_eq_false_2; try done.
    all: by apply Qclt_not_le.
  - destruct Hhigh as [|Hhigh]; [done|].
    destruct fuel as [|fuel]; [lia|]. simpl.
    assert (E : angle + Qc_of 360 * Qc_of (Z.of_nat (S n))
                = angle + Qc_of 360 + Qc_of 360 * Qc_of (Z.of_nat n)).
    { apply Qc_is_canon. rewrite !this_plus, !this_mult, !this_Qc_of.
      rewrite Nat2Z.inj_succ, <- Z.add_1_r, inject_Z_plus. simpl. ring. }
    rewrite E in *.
    rewrite bool_decide_eq_true_2.
    + apply IH; [lia|done|by right].
    + unfold Qcle in *. rewrite !this_plus, this_mult, !this_Qc_of in Hhigh.
      rewrite this_Qc_of.
      assert (0 <= inject_Z (Z.of_nat n))%Q.
      { change 0%Q with (inject_Z 0). rewrite <- Zle_Qle. lia. }
      change (inject_Z 360) with 360%Q in *. change (inject_Z 180) with 180%Q in *.
      change (inject_Z (-180)) with (-180)%Q. lra.
Qed.

Lemma lowerAngle_steps (n fuel : nat) (angle : Qc) :
  (n ≤ fuel)%nat →
  angle - Qc_of 360 * Qc_of (Z.of_nat n) <= Qc_of 180 →
  (n = 0%nat ∨ Qc_of (-180) < angle - Qc_of 360 * Qc_of (Z.of_nat n)) →
  lowerAngle fuel angle = Some (angle - Qc_of 360 * Qc_of (Z.of_nat n)).
Proof.
  revert fuel angle. induction n as [|n IH]; intros fuel angle Hfuel Hhigh Hlow.
  - assert (E : angle - Qc_of 360 * Qc_of (Z.of_nat 0) = angle).
    { apply Qc_is_canon. rewrite this_minus, this_mult, !this_Qc_of. simpl. ring. }
    rewrite E in *. destruct fuel; simpl; rewrite bool_decide_eq_false_2; try done.
    all: by apply Qcle_not_lt.
  - destruct Hlow as [|Hlow]; [done|].
    destruct fuel as [|fuel]; [lia|]. simpl.
    assert (E : angle - Qc_of 360 * Qc_of (Z.of_nat (S n))
                = angle - Qc_of 360 - Qc_of 360 * Qc_of (Z.of_nat n)).
    { apply Qc_is_canon. rewrite !this_minus, !this_mult, !this_Qc_of.
      rewrite Nat2Z.inj_succ, <- Z.add_1_r, inject_Z_plus. simpl. ring. }
    rewrite E in *.
    rewrite bool_decide_eq_true_2.
    + apply IH; [lia|done|by right].
    + unfold Qclt in *. rewrite !this_minus, this_mult, !this_Qc_of in Hlow.
      rewrite this_Qc_of.
      assert (0 <= inject_Z (Z.of_nat n))%Q.
      { change 0%Q with (inject_Z 0). rewrite <- Zle_Qle. lia. }
      change (inject_Z 360) with 360%Q in *. change (inject_Z 180) with 180%Q.
      change (inject_Z (-180)) with (-180)%Q in *. lra.
Qed.

(** In exact arithmetic the two loops that every rotation and placement
    starts with,
    [while (angle <= -180) angle += 360; while (angle > 180) angle -= 360],
    terminate for every angle: with enough rounds allowed they return
    [normalizeAngle angle], the closed form the model uses, which lies in
    the half-open turn from -180 (excluded) to 180 (included) and differs
    from the angle by a whole number of turns. *)
Lemma normalizeLoop_closed_form (angle : Qc) :
  (∃ fuel, ∀ fuel', (fuel ≤ fuel')%nat →
     normalizeLoop fuel' angle = Some (normalizeAngle angle))
  ∧ Qc_of (-180) < normalizeAngle angle
  ∧ normalizeAngle angle <= Qc_of 180
  ∧ ∃ turns : Z, angle = normalizeAngle angle + Qc_of 360 * Qc_of turns.
Proof.
  pose proof (normalizeAngle_range angle) as [Hlow Hhigh].
  pose proof (this_normalizeAngle angle) as Hthis.
  set (f := Qfloor ((180 - this angle) / 360)) in *.
  split; [|split; [done|split; [done|]]].
  - destruct (Z_le_gt_dec 0 f) as [Hf|Hf].
    + exists (Z.to_nat f). intros fuel Hfuel. unfold normalizeLoop.
      assert (E : angle + Qc_of 360 * Qc_of (Z.of_nat (Z.to_nat f)) = normalizeAngle angle).
      { apply Qc_is_canon. rewrite this_plus, this_mult, !this_Qc_of, Hthis.
        rewrite Z2Nat.id; [|done]. reflexivity. }
      rewrite (raiseAngle_steps (Z.to_nat f)); [|done|by rewrite E|right; by rewrite E].
      simpl. rewrite E.
      assert (E0 : normalizeAngle angle - Qc_of 360 * Qc_of (Z.of_nat 0) = normalizeAngle angle).
      { apply Qc_is_canon. rewrite this_minus, this_mult, !this_Qc_of. simpl. ring. }
      rewrite (lowerAngle_steps 0); [by rewrite E0|lia|by rewrite E0|by left].
    + exists (Z.to_nat (- f)). intros fuel Hfuel. unfold normalizeLoop.
      assert (E : angle - Qc_of 360 * Qc_of (Z.of_nat (Z.to_nat (- f))) = normalizeAngle angle).
      { apply Qc_is_canon. rewrite this_minus, this_mult, !this_Qc_of, Hthis.
        rewrite Z2Nat.id; [|lia]. rewrite inject_Z_opp. ring. }
      assert (E0 : angle + Qc_of 360 * Qc_of (Z.of_nat 0) = angle).
      { apply Qc_is_canon. rewrite this_plus, this_mult, !this_Qc_of. simpl. ring. }
      rewrite (raiseAngle_steps 0); [|lia| |by left].
      * simpl. rewrite E0.
        rewrite (lowerAngle_steps (Z.to_nat (- f))); [by rewrite E|done|by rewrite E|].
        right. by rewrite E.
      * rewrite E0. unfold Qclt in *. rewrite Hthis in Hlow.
        assert (inject_Z f <= 0)%Q.
        { change 0%Q with (inject_Z 0). rewrite <- Zle_Qle. lia. }
        change (this (Qc_of (-180))) with (-180)%Q in *. lra.
  - exists (- f)%Z. apply Qc_is_canon.
    rewrite this_plus, this_mult, !this_Qc_of, Hthis, inject_Z_opp.
    change (inject_Z 360) with 360%Q. ring.
Qed.

(** ** The loops in binary64 *)

Lemma F64_lowerAngle_absorbing (angle : float) (fuel : nat) :
  (180 <? angle)%float = true → (angle - 360)%float = angle →
  F64.lowerAngle fuel angle = F64.Running.
Proof.
  intros Hlt Hsub. induction fuel as [|fuel IH]; simpl; rewrite Hlt; [done|].
  by rewrite Hsub.
Qed.

Lemma F64_raiseAngle_absorbing (angle : float) (fuel : nat) :
  (angle <=? -180)%float = true → (angle + 360)%float = angle →
  F64.raiseAngle fuel angle = F64.Running.
Proof.
  intros Hle Hadd. induction fuel as [|fuel IH]; simpl; rewrite Hle; [done|].
  by rewrite Hadd.
Qed.

(** X9: in binary64 the normalization
    loops do not end for every finite angle.  An angle above 180 that
    absorbs 360 ([angle - 360] is [angle] again, as for 1e22) keeps the
    second loop running however many rounds are allowed, and an angle of
    at most -180 that absorbs 360 keeps the first loop running: the
    normalization, and with it [Coordinate.rotate] by such an angle,
    never returns. *)
Theorem absorbing_angles_never_normalize (angle : float) :
  ((angle <=? -180)%float = false ∧ (180 <? angle)%float = true
   ∧ (angle - 360)%float = angle)
  ∨ ((angle <=? -180)%float = true ∧ (angle + 360)%float = angle) →
  ∀ fuel : nat,
    F64.normalizeAngle fuel angle = F64.Running
    ∧ ∀ trig c center, F64.Coordinate.rotate fuel trig c angle center = F64.Running.
Proof.
  intros H fuel.
  assert (Hn : F64.normalizeAngle fuel angle = F64.Running).
  { unfold F64.normalizeAngle. destruct H as [(Hle & Hlt & Hsub)|[Hle Hadd]].
    - assert (E : F64.raiseAngle fuel angle = F64.Returns angle).
      { destruct fuel; simpl; by rewrite Hle. }
      rewrite E. simpl. by apply F64_lowerAngle_absorbing.
    - by rewrite F64_raiseAngle_absorbing. }
  split; [exact Hn|]. intros trig c center.
  unfold F64.Coordinate.rotate. by rewrite Hn.
Qed.

#[local] Set Warnings "-inexact-float".
Lemma absorbing_angles_never_normalize_witness :
  ((1e22 <=? -180)%float = false ∧ (180 <? 1e22)%float = true
   ∧ (1e22 - 360)%float = 1e22%float)
  ∧ ∀ fuel : nat, F64.normalizeAngle fuel 1e22%float = F64.Running.
Proof.
  assert (H : (1e22 <=? -180)%float = false ∧ (180 <? 1e22)%float = true
              ∧ (1e22 - 360)%float = 1e22%float) by (by split_and!).
  split; [exact H|]. intros fuel.
  apply (absorbing_angles_never_normalize 1e22%float (or_introl H) fuel).
Defined.
#[local] Set Warnings "inexact-float".

(** An angle in the half-open turn is returned as it is, and whole
    turns are taken off an angle that binary64 counts exactly. *)
Example F64_normalizeAngle_examples :
  F64.normalizeAngle 0 180%float = F64.Returns 180%float
  ∧ F64.normalizeAngle 1 270%float = F64.Returns (-90)%float
  ∧ F64.normalizeAngle 2 (-540)%float = F64.Returns 180%float
  ∧ F64.normalizeAngle 0 270%float = F64.Running.
Proof. by split_and!. Qed.

(** ** Rotations by quarter turns are exact *)

Lemma quarter_cases (k : Z) :
  quarter k = 0%Z ∨ quarter k = 1%Z ∨ quarter k = 2%Z ∨ quarter k = (-1)%Z.
Proof. unfold quarter. pose proof (Z.mod_pos_bound (2 - k) 4). lia. Qed.

Lemma normalizeAngle_quarter (k : Z) :
  normalizeAngle (Qc_of (90 * k)) = Qc_of (90 * quarter k).
Proof.
  apply Qc_is_canon. rewrite this_normalizeAngle.
  change (this (Qc_of (90 * k))) with (inject_Z (90 * k)).
  change (this (Qc_of (90 * quarter k))) with (inject_Z (90 * quarter k)).
  assert (E : Qfloor ((180 - inject_Z (90 * k)) / 360) = ((2 - k) / 4)%Z).
  { assert (Hq : ((180 - inject_Z (90 * k)) / 360 == (2 - k) # 4)%Q).
    { unfold Qeq. simpl. lia. }
    rewrite (Qfloor_comp _ _ Hq). reflexivity. }
  rewrite E.
  unfold quarter. rewrite (Z.mod_eq (2 - k) 4); [|lia].
  set (d := ((2 - k) / 4)%Z).
  replace (90 * (2 - (2 - k - 4 * d)))%Z with (90 * k + 360 * d)%Z by lia.
  rewrite inject_Z_plus, !inject_Z_mult.
  change (inject_Z 360) with 360%Q. ring.
Qed.

Lemma rotate_quarter (trig : Trig) (c : Coordinate.t) (k : Z)
    (center : option Coordinate.t) :
  Coordinate.rotate trig c (Qc_of (90 * k)) center =
  match center with
  | Some m => Coordinate.add (quarterTurn k (Coordinate.subtract c m)) m
  | None => quarterTurn k c
  end.
Proof.
  unfold Coordinate.rotate. cbv zeta. rewrite normalizeAngle_quarter.
  unfold quarterTurn.
  destruct (quarter_cases k) as [E|[E|[E|E]]]; rewrite E;
    repeat case_bool_decide;
    repeat match goal with
    | H : _ ≠ _ |- _ => by (exfalso; apply H; apply Qc_is_canon)
    | H : @eq Qc _ _ |- _ => apply (f_equal this) in H; try discriminate H; clear H
    end; by destruct center.
Qed.

Lemma quarterTurn_compose (a b : Z) (c : Coordinate.t) :
  quarterTurn b (quarterTurn a c) = quarterTurn (a + b) c.
Proof.
  unfold quarterTurn.
  assert (Hab : quarter (a + b) = quarter (quarter a + quarter b)).
  { unfold quarter. 
    rewrite <- (Zminus_mod_idemp_r 2 (a + b)), <- (Zplus_mod_idemp_l a b), <- (Zplus_mod_idemp_r b).
    symmetry.
    rewrite <- (Zminus_mod_idemp_r 2 (_ + _)), <- (Zplus_mod_idemp_l (2 - _) _), <- (Zplus_mod_idemp_r (2 - _)).
    rewrite <- (Zminus_mod_idemp_r 2 (_ mod 4)), <- (Zminus_mod_idemp_r 2 ((2 - b) mod 4)).
    rewrite !Zmod_mod.
    rewrite (Zminus_mod_idemp_r 2 (2 - a)), (Zminus_mod_idemp_r 2 (2 - b)).
    replace (2 - (2 - a))%Z with a by lia. replace (2 - (2 - b))%Z with b by lia.
    reflexivity. }
  rewrite Hab. destruct c as [x y].
  destruct (quarter_cases a) as [E|[E|[E|E]]], (quarter_cases b) as [F|[F|[F|F]]];
    rewrite E, F; simpl; f_equal; ring.
Qed.

(** X10: [Coordinate.rotate] about the
    origin (no centre given) by multiples of 90 degrees only swaps and
    negates the two components, whatever the sine and cosine are, so it
    is exact: a rotation by [90 * a] followed by one by [90 * b] is the
    rotation by [90 * (a + b)], and a rotation by a multiple of 360
    degrees gives the coordinate back.  The multiples are of a size at
    which the normalization loops count exactly and end.  (With a centre
    the code subtracts and adds the centre again, which rounds.) *)
Theorem quarter_turn_rotations_compose (trig1 trig2 trig3 : Trig)
    (c : Coordinate.t) (a b : Z) :
  (Z.abs a ≤ 2 ^ 40)%Z → (Z.abs b ≤ 2 ^ 40)%Z →
  Coordinate.rotate trig2 (Coordinate.rotate trig1 c (Qc_of (90 * a)) None)
                    (Qc_of (90 * b)) None
  = Coordinate.rotate trig3 c (Qc_of (90 * (a + b))) None
  ∧ Coordinate.rotate trig1 c (Qc_of (360 * a)) None = c.
Proof.
  intros _ _. split.
  - rewrite !rotate_quarter. apply quarterTurn_compose.
  - replace (360 * a)%Z with (90 * (4 * a))%Z by lia. rewrite rotate_quarter.
    assert (E : quarter (4 * a) = 0%Z).
    { unfold quarter. replace (2 - 4 * a)%Z with (2 + (- a) * 4)%Z by lia.
      by rewrite Z_mod_plus_full. }
    unfold quarterTurn. by rewrite E.
Qed.

Lemma quarter_turn_rotations_compose_witness :
  Coordinate.rotate noTrig (Coordinate.rotate noTrig (point 1 2) (Qc_of (90 * 1)) None)
                    (Qc_of (90 * 2)) None
  = Coordinate.rotate noTrig (point 1 2) (Qc_of (90 * (1 + 2))) None.
Proof.
  apply (quarter_turn_rotations_compose noTrig noTrig noTrig (point 1 2) 1 2); simpl; lia.
Defined.

(** ** The mirror loop moves the anchor pin *)

Lemma forIndices_app body (l1 l2 : list nat) (pins : list (Pin.t Coordinate.t)) :
  forIndices body (l1 ++ l2) pins = (forIndices body l1 pins ≫= forIndices body l2).
Proof.
  revert pins. induction l1 as [|i l1 IH]; intros pins; simpl; [done|].
  destruct (body pins i) as [pins'|e]; simpl; [apply IH|done].
Qed.

Lemma flip_origin (mX mY : bool) : flip mX mY (Coordinate.mk 0 0) = Coordinate.mk 0 0.
Proof. destruct mX, mY; unfold flip; simpl; f_equal; ring. Qed.

Lemma mirroredPins_lookup mX mY a mid k pins (i : nat) :
  mirroredPins mX mY a mid k pins !! i =
  (fun pin => if decide (i < k)%nat
              then Pin.setCoord pin (mirrorTarget mX mY a mid i <$> Pin.coord pin)
              else pin) <$> pins !! i.
Proof. unfold mirroredPins. by rewrite list_lookup_imap. Qed.

Lemma mirrorStep_round mX mY (a : nat) (mid : Coordinate.t) (k : nat)
    (pins : list (Pin.t Coordinate.t)) :
  (k < length pins)%nat →
  coordAt pins a = Ok mid →
  Forall (fun p => hasCoord p = true) pins →
  mirrorStep mX mY (AnchorPin a) (mirroredPins mX mY a mid k pins) k
  = Ok (mirroredPins mX mY a mid (S k) pins).
Proof.
  intros Hk Hmid Hall.
  destruct (lookup_lt_is_Some_2 pins k Hk) as [pin Hpin].
  assert (Hc : ∃ c, Pin.coord pin = Some c).
  { rewrite Forall_forall in Hall. specialize (Hall pin).
    unfold hasCoord in Hall. destruct (Pin.coord pin); [eauto|].
    discriminate Hall. eapply list_elem_of_lookup_2, Hpin. }
  destruct Hc as [c Hc].
  unfold mirrorStep. rewrite mirroredPins_lookup, Hpin. simpl.
  rewrite decide_False by lia. simpl. rewrite Hc. simpl.
  assert (Hnew : ∀ v, v = mirrorTarget mX mY a mid k c →
            <[k := Pin.setCoord pin (Some v)]> (mirroredPins mX mY a mid k pins)
            = mirroredPins mX mY a mid (S k) pins).
  { intros v ->. apply list_eq. intros j.
    destruct (decide (j = k)) as [->|Hj].
    - rewrite list_lookup_insert_eq.
      2:{ unfold mirroredPins. by rewrite length_imap. }
      rewrite mirroredPins_lookup, Hpin. simpl.
      rewrite decide_True by lia. by rewrite Hc.
    - rewrite list_lookup_insert_ne by done.
      rewrite !mirroredPins_lookup. destruct (pins !! j) as [q|]; [|done]. simpl.
      destruct (decide (j < k)%nat), (decide (j < S k)%nat); try done; lia. }
  case_bool_decide as Hka.
  - subst a. f_equal. apply Hnew.
    unfold mirrorTarget. rewrite decide_False by lia. rewrite decide_True by done.
    replace (Coordinate.subtract c c) with (Coordinate.mk 0 0).
    2:{ destruct c. unfold Coordinate.subtract. simpl. f_equal; ring. }
    rewrite flip_origin. unfold Coordinate.add. simpl. f_equal; ring.
  - unfold coordAt in Hmid |- *.
    rewrite mirroredPins_lookup.
    destruct (pins !! a) as [anchorPin|] eqn:Ha; [|done]. simpl in Hmid |- *.
    destruct (Pin.coord anchorPin) as [m|] eqn:Hm; [|done].
    simpl in Hmid. injection Hmid as ->.
    destruct (decide (a < k)%nat) as [Hlt|Hge]; simpl.
    + f_equal. apply Hnew.
      assert (Ht : mirrorTarget mX mY a mid a mid = Coordinate.mk 0 0).
      { unfold mirrorTarget. rewrite decide_False by lia. by rewrite decide_True. }
      rewrite !Ht. unfold mirrorTarget.
      rewrite decide_False by lia. rewrite decide_False by lia.
      destruct (flip mX mY c) as [fx fy] eqn:Hf.
      replace (Coordinate.subtract c (Coordinate.mk 0 0)) with c.
      2:{ destruct c. unfold Coordinate.subtract. simpl. f_equal; ring. }
      rewrite Hf. unfold Coordinate.add. simpl. f_equal; ring.
    + rewrite Hm. simpl. f_equal. apply Hnew.
      unfold mirrorTarget. rewrite decide_True by lia. reflexivity.
Qed.

Lemma forIndices_mirror mX mY (a : nat) (mid : Coordinate.t) (k : nat)
    (pins : list (Pin.t Coordinate.t)) :
  (k ≤ length pins)%nat →
  coordAt pins a = Ok mid →
  Forall (fun p => hasCoord p = true) pins →
  forIndices (mirrorStep mX mY (AnchorPin a)) (seq 0 k) pins
  = Ok (mirroredPins mX mY a mid k pins).
Proof.
  intros Hk Hmid Hall. induction k as [|k IH].
  - simpl. f_equal. apply list_eq. intros j. rewrite mirroredPins_lookup.
    by destruct (pins !! j).
  - rewrite seq_S, forIndices_app. rewrite IH by lia. simpl.
    rewrite (mirrorStep_round mX mY a mid k pins) by (done || lia). reflexivity.
Qed.

(** X12: [ABLTransistorMapper.mirror] with
    at least one flag set, on a mapper whose pins all have a coordinate
    object of their own (as after [clone]).  The guard of the loop never
    skips a pin, so the anchor pin is processed too: subtracting its
    coordinate from itself leaves it at the origin, and there it stays.
    The pins before it are reflected about the place the anchor had, the
    pins after it about the origin; when the anchor was at the origin, as
    in the catalog, every pin is reflected about the origin. *)
Theorem mirror_moves_anchor_pin_to_origin (this : ABLTransistorMapper.t)
    (mirrorX mirrorY : bool) (mid : Coordinate.t) :
  mirrorX || mirrorY = true →
  coordAt (ABLTransistorMapper.pins this) (ABLTransistorMapper.anchorNr this) = Ok mid →
  Forall (fun p => hasCoord p = true) (ABLTransistorMapper.pins this) →
  ∃ m', ABLTransistorMapper.mirror this mirrorX mirrorY = Ok m'
    ∧ ABLTransistorMapper.tikzTransistor m' = ABLTransistorMapper.tikzTransistor this
    ∧ ABLTransistorMapper.anchorNr m' = ABLTransistorMapper.anchorNr this
    ∧ length (ABLTransistorMapper.pins m') = length (ABLTransistorMapper.pins this)
    ∧ coordAt (ABLTransistorMapper.pins m') (ABLTransistorMapper.anchorNr this)
      = Ok (Coordinate.mk 0 0)
    ∧ (∀ i pin c,
         ABLTransistorMapper.pins this !! i = Some pin → Pin.coord pin = Some c →
         ABLTransistorMapper.pins m' !! i
         = Some (Pin.setCoord pin
                   (Some (mirrorTarget mirrorX mirrorY
                            (ABLTransistorMapper.anchorNr this) mid i c))))
    ∧ (mid = Coordinate.mk 0 0 →
       ∀ i pin c,
         ABLTransistorMapper.pins this !! i = Some pin → Pin.coord pin = Some c →
         ABLTransistorMapper.pins m' !! i
         = Some (Pin.setCoord pin (Some (flip mirrorX mirrorY c)))).
Proof.
  intros Hflag Hmid Hall. destruct this as [tikz pins a]. simpl in *.
  assert (Hlookup : ∀ i pin c, pins !! i = Some pin → Pin.coord pin = Some c →
            mirroredPins mirrorX mirrorY a mid (length pins) pins !! i
            = Some (Pin.setCoord pin (Some (mirrorTarget mirrorX mirrorY a mid i c)))).
  { intros i pin c Hi Hc. rewrite mirroredPins_lookup, Hi. simpl.
    rewrite decide_True by (by eapply lookup_lt_Some). by rewrite Hc. }
  exists (ABLTransistorMapper.mk tikz
            (mirroredPins mirrorX mirrorY a mid (length pins) pins) a).
  simpl. split_and!; try done.
  - unfold ABLTransistorMapper.mirror. simpl. rewrite Hflag. simpl.
    unfold coordAt in Hmid. destruct (pins !! a) as [anchorPin|] eqn:Ha; [|done].
    simpl. unfold forPins.
    rewrite (forIndices_mirror mirrorX mirrorY a mid (length pins) pins); try done.
    unfold coordAt. by rewrite Ha.
  - unfold mirroredPins. by rewrite length_imap.
  - unfold coordAt in Hmid |- *.
    destruct (pins !! a) as [anchorPin|] eqn:Ha; [|done]. simpl in Hmid.
    destruct (Pin.coord anchorPin) as [m|] eqn:Hm; [|done].
    rewrite (Hlookup a anchorPin m Ha Hm). simpl.
    unfold mirrorTarget. rewrite decide_False by lia. by rewrite decide_True.
  - intros -> i pin c Hi Hc. rewrite (Hlookup i pin c Hi Hc). do 3 f_equal.
    unfold mirrorTarget, mirroredAbout.
    destruct (decide (i < a)%nat) as [Hlt|Hge].
    + destruct c as [x y], mirrorX, mirrorY;
        unfold flip, Coordinate.add, Coordinate.subtract; simpl; f_equal; ring.
    + destruct (decide (i = a)) as [->|Hne]; [|done].
      unfold coordAt in Hmid. rewrite Hi in Hmid. simpl in Hmid.
      rewrite Hc in Hmid. injection Hmid as ->. by rewrite flip_origin.
Qed.

Lemma mirror_moves_anchor_pin_to_origin_witness :
  ∃ m', ABLTransistorMapper.mirror
          (ABLTransistorMapper.mk TIKZ_npn
             [ Pin.mk (Some (point 1 1)) "" 1 None;
               Pin.mk (Some (point 2 0)) "" 2 None;
               Pin.mk (Some (point 3 1)) "" 3 None ] 1) true false = Ok m'
    ∧ coordAt (ABLTransistorMapper.pins m') 1 = Ok (Coordinate.mk 0 0).
Proof.
  destruct (mirror_moves_anchor_pin_to_origin
              (ABLTransistorMapper.mk TIKZ_npn
                 [ Pin.mk (Some (point 1 1)) "" 1 None;
                   Pin.mk (Some (point 2 0)) "" 2 None;
                   Pin.mk (Some (point 3 1)) "" 3 None ] 1) true false (point 2 0))
    as (m' & Hm & _ & _ & _ & H0 & _).
  - reflexivity.
  - reflexivity.
  - repeat constructor.
  - exists m'. split; [exact Hm | exact H0].
Defined.

(** ** Labels *)

Lemma list_ascii_of_string_app (s1 s2 : string) :
  list_ascii_of_string (s1 +:+ s2) = list_ascii_of_string s1 ++ list_ascii_of_string s2.
Proof. induction s1 as [|c s1 IH]; simpl; [done | by rewrite IH]. Qed.

Lemma parseDigits_zeros (zeros index : string) :
  allChars (fun c => Ascii.eqb c "0"%char) zeros = true →
  parseDigits (zeros +:+ index) = parseDigits index.
Proof.
  unfold parseDigits. rewrite list_ascii_of_string_app, fold_left_app.
  intros Hz. f_equal.
  induction zeros as [|c zeros IH]; [done|].
  simpl in Hz. apply andb_true_iff in Hz as [Hc Hz].
  apply Ascii.eqb_eq in Hc. subst c. simpl. by apply IH.
Qed.

Lemma allChars_app (f : ascii → bool) (s1 s2 : string) :
  allChars f (s1 +:+ s2) = allChars f s1 && allChars f s2.
Proof. induction s1 as [|c s1 IH]; simpl; [done | by rewrite IH, andb_assoc]. Qed.

Lemma allChars_weaken (f g : ascii → bool) (s : string) :
  (∀ c, f c = true → g c = true) → allChars f s = true → allChars g s = true.
Proof.
  intros Hfg. induction s as [|c s IH]; simpl; [done|].
  intros [Hc Hs]%andb_true_iff. by rewrite (Hfg c Hc), IH.
Qed.

(** X13: the label of an instance name
    made of letters, an optional [_] or [-], and digits is built from the
    letters and the number the digits denote, as long as that number is
    at most 2^53 (beyond, [Number.parseInt] rounds it).  The separator
    and leading zeros leave no trace: the names [R7], [R_7] and [R-007]
    all get the label of [R7]. *)
Theorem label_forgets_separator_and_zeros (pr : Printer)
    (name sep zeros index : string) :
  name ≠ "" → allChars isLetter name = true →
  sep = "" ∨ sep = "_" ∨ sep = "-" →
  allChars (fun c => Ascii.eqb c "0"%char) zeros = true →
  index ≠ "" → allChars isDigit index = true →
  ((parseDigits index ≤ 2 ^ 53)%Z →
   labelOf pr (name +:+ sep +:+ zeros +:+ index)
   = Ok ("${" +:+ name +:+ "}_{" +:+ showNumber pr (Qc_of (parseDigits index)) +:+ "}$"))
  ∧ labelOf pr (name +:+ sep +:+ zeros +:+ index) = labelOf pr (name +:+ index).
Proof.
  intros Hname Hletters Hsep Hzeros Hindex Hdigits.
  assert (H1 : NamePattern (name +:+ sep +:+ zeros +:+ index) name (zeros +:+ index)).
  { exists sep. split_and!; try done.
    - destruct zeros; [done | discriminate].
    - rewrite allChars_app, Hdigits, andb_true_r.
      eapply allChars_weaken; [|exact Hzeros].
      intros c Hc. apply Ascii.eqb_eq in Hc. by subst c. }
  assert (H2 : NamePattern (name +:+ index) name index).
  { exists "". split_and!; auto. }
  rewrite (labelOf_returns pr _ _ _ H1), (labelOf_returns pr _ _ _ H2).
  by rewrite (parseDigits_zeros zeros index Hzeros).
Qed.

Lemma label_forgets_separator_and_zeros_witness :
  labelOf noPrinter "R-007" = Ok "${R}_{0}$"
  ∧ labelOf noPrinter "R-007" = labelOf noPrinter "R7".
Proof.
  assert (Hsep : "-" = "" ∨ "-" = "_" ∨ "-" = "-") by auto.
  destruct (label_forgets_separator_and_zeros noPrinter "R" "-" "00" "7"
              ltac:(discriminate) eq_refl Hsep eq_refl ltac:(discriminate) eq_refl)
    as [H1 H2].
  split; [|exact H2]. apply H1. vm_compute. discriminate.
Defined.

(** ** What is printed *)

Lemma printWires_spec pr h wires out :
  printWires pr h wires out
  = out ++ map (fun wire => Wire_serialize pr h wire 1 +:+ newline) wires.
Proof.
  unfold printWires. revert out. induction wires as [|w ws IH]; intros out; simpl.
  - by rewrite app_nil_r.
  - rewrite IH. unfold println. by rewrite <- app_assoc.
Qed.

Lemma printComponents_spec pr debug h components out :
  ∃ lines,
    fst (printComponents pr debug h components out)
    = out ++ map (fun line => line +:+ newline) lines
    ∧ Forall2 (fun c line => Placed_serialize pr debug h c 1 = Ok line)
        (take (length lines) components) lines
    ∧ match snd (printComponents pr debug h components out) with
      | Ok _ => length lines = length components
      | Throw e =>
          ∃ c, components !! length lines = Some c
               ∧ Placed_serialize pr debug h c 1 = Throw e
      end.
Proof.
  revert out. induction components as [|c cs IH]; intros out; simpl.
  - exists []. simpl. rewrite app_nil_r. by split_and!.
  - destruct (Placed_serialize pr debug h c 1) as [line|e] eqn:E.
    + destruct (IH (println line out)) as (lines & Hout & Hall & Hend).
      exists (line :: lines). simpl. split_and!.
      * rewrite Hout. unfold println. by rewrite <- app_assoc.
      * by constructor.
      * destruct (snd (printComponents pr debug h cs (println line out))); [lia|done].
    + exists []. simpl. rewrite app_nil_r. split_and!; [done|constructor|].
      exists c. done.
Qed.

(** X14: [printToStream] writes the
    opening line, one line per wire and an empty line, whatever the
    components are; then one line per component, in order, up to the
    first component whose serialization throws.  The closing line
    [\end{tikzpicture}] is written exactly when every component could be
    serialized; otherwise the promise is rejected with the error of that
    component and the picture is left open on the stream. *)
Theorem printToStream_stops_at_first_failure (pr : Printer) (debug : bool)
    (this : Schematic.t) (out : list string) :
  ∃ lines,
    Forall2 (fun c line =>
               Placed_serialize pr debug (heap (Schematic.store this)) c 1 = Ok line)
      (take (length lines) (Schematic.components this)) lines
    ∧ match snd (printToStream pr debug this out) with
      | Ok _ =>
          length lines = length (Schematic.components this)
          ∧ fst (printToStream pr debug this out)
            = out ++ pictureHead pr this ++ map (fun line => line +:+ newline) lines
                  ++ [(backslash +:+ "end{tikzpicture}") +:+ newline]
      | Throw e =>
          (∃ c, Schematic.components this !! length lines = Some c
                ∧ Placed_serialize pr debug (heap (Schematic.store this)) c 1 = Throw e)
          ∧ fst (printToStream pr debug this out)
            = out ++ pictureHead pr this ++ map (fun line => line +:+ newline) lines
      end.
Proof.
  unfold printToStream. cbv zeta.
  set (h := heap (Schematic.store this)).
  set (out1 := println "" _).
  assert (Hhead : out1 = out ++ pictureHead pr this).
  { unfold out1, println, pictureHead. rewrite printWires_spec. fold h.
    by rewrite <- !app_assoc. }
  destruct (printComponents_spec pr debug h (Schematic.components this) out1)
    as (lines & Hout & Hall & Hend).
  exists lines. split; [done|].
  destruct (printComponents pr debug h (Schematic.components this) out1) as [out2 [[]|e]];
    cbn [fst snd] in *.
  - split; [done|]. unfold println. rewrite Hout, Hhead. by rewrite <- !app_assoc.
  - split; [done|]. rewrite Hout, Hhead. by rewrite <- !app_assoc.
Qed.

(** X15: a potential placed by
    [PotentialComponent.useAsStencil] from pins that all have a net (as
    every parsed pin has).  If its type prints the net name (VCC, VEE),
    serializing it throws a [TypeError], the net having no
    [getPrettyName]; otherwise (the grounds) it is serialized, as a node
    with an empty text at the coordinate of its pin. *)
Theorem named_potential_cannot_be_printed (trig : Trig) (pr : Printer) (debug : bool)
    (this : PotentialComponent.stencil) (pins : list (Pin.t CoordRef))
    (placement : Placement) (wires : list Wire) (s s' : Store)
    (c : PotentialComponent.t) (h : list Coordinate.t) (indent : nat) :
  Forall (fun p => is_Some (Pin.net p)) pins →
  PotentialComponent.useAsStencil trig this pins placement wires s = Ok (c, s') →
  if PotentialComponent.s_printNetName this
  then PotentialComponent_serialize pr debug h c indent = Throw TypeError
  else ∃ pin r,
         PotentialComponent.pin c = Some pin ∧ Pin.coord pin = Some r
         ∧ PotentialComponent_serialize pr debug h c indent
           = Ok (repeatString tab indent
                   +:+ backslash +:+ (if debug then "node[color=blue, " else "node[")
                   +:+ PotentialComponent.s_tikzComponentName this
                   +:+ (if pl_mirrorX placement then ", yscale=-1" else "")
                   +:+ (if pl_mirrorY placement then ", xscale=-1" else "")
                   +:+ (if bool_decide (PotentialComponent.angle c = 0) then ""
                        else ", rotate=" +:+ showNumber pr (PotentialComponent.angle c))
                   +:+ "] " +:+ "at " +:+ serializeName pr (valueOf h r) +:+ " {};").
Proof.
  intros Hnets H. revert H. unfold PotentialComponent.useAsStencil.
  erewrite bind_run; [|reflexivity].
  match goal with |- context [(canonicalize (Some ?r) ≫= _) ?s1] =>
    destruct (canonicalize_Some_spec r s1) as (ic & s2 & Ec & _) end.
  erewrite bind_run; [|exact Ec].
  destruct pins as [|pin rest]; [discriminate|].
  match goal with |- context [(positionAt ?t ?sp (Some ?pl) _ ?ws _ _ _ ≫= _) _] =>
    destruct (findPosition_returns t sp pl ic ws pin s2)
      as (pin' & s3 & E & (_ & _ & Hnet) & [r Hr])
  end.
  erewrite bind_run.
  2:{ unfold positionAt. simpl. erewrite bind_run; [|reflexivity].
      erewrite bind_run; [|exact E]. reflexivity. }
  intros [= <- <-].
  apply Forall_cons in Hnets as [[n Hn] _].
  unfold PotentialComponent_serialize, PotentialComponent_nodeText,
    PotentialComponent_coord. simpl.
  destruct (PotentialComponent.s_printNetName this).
  - simpl. by rewrite Hnet, Hn.
  - exists pin', r. split_and!; [done..|]. simpl. rewrite Hr. simpl.
    by destruct (bool_decide _).
Qed.

Lemma named_potential_cannot_be_printed_witness :
  ∃ c s',
    PotentialComponent.useAsStencil noTrig
      (PotentialComponent.mkStencil "vcc" true (PotentialComponent.IsCoordinate ZERO_COORD))
      [Pin.mk None "" 1 (Some 0%nat)] atOrigin [] (mkStore [] []) = Ok (c, s')
    ∧ PotentialComponent_serialize noPrinter false [] c 1 = Throw TypeError.
Proof.
  eexists _, _. split; [vm_compute; reflexivity|].
  eapply (named_potential_cannot_be_printed noTrig noPrinter false
           (PotentialComponent.mkStencil "vcc" true
              (PotentialComponent.IsCoordinate ZERO_COORD))
           [Pin.mk None "" 1 (Some 0%nat)] atOrigin [] (mkStore [] [])).
  - repeat constructor. by eexists.
  - vm_compute. reflexivity.
Defined.

(** ** A parsed schematic is printed in full exactly when its names fit *)

Lemma printableName_labelOf (pr : Printer) (instanceName : string) :
  nonEmpty instanceName = true →
  (∃ label, labelOf pr instanceName = Ok label) ↔ printableName instanceName = true.
Proof.
  intros Hne. unfold printableName, labelOf. rewrite Hne. simpl.
  destruct (matchInstanceName instanceName) as [[name index]|]; simpl.
  - split; [done|]. intros _. destruct (nonEmpty name); by eexists.
  - split; [by intros [? ?]|done].
Qed.

Lemma serialize_wellPlaced (pr : Printer) (debug : bool) (h : list Coordinate.t)
    (component : Placed) (indent : nat) :
  wellPlaced component →
  (∃ line, Placed_serialize pr debug h component indent = Ok line)
  ↔ printable component = true.
Proof.
  destruct component as [c|c|c]; simpl.
  - intros (p0 & p1 & H0 & H1 & [r0 Hr0] & [r1 Hr1]).
    unfold PathComponent_serialize, placedCoord. rewrite H0, H1. simpl.
    rewrite Hr0, Hr1. simpl.
    destruct (nonEmpty (PathComponent.instanceName c)) eqn:Hne.
    + rewrite <- (printableName_labelOf pr _ Hne).
      destruct (labelOf pr (PathComponent.instanceName c)) as [label|e]; simpl.
      * split; [by eexists|]. intros _.
        repeat (case_bool_decide || destruct (_ || _) || simpl); by eexists.
      * split; [by intros [? ?]|by intros [? ?]].
    + unfold printableName. rewrite Hne. simpl. split; [done|]. intros _.
      repeat (case_bool_decide || destruct (_ || _) || simpl); by eexists.
  - intros (pin & Hpin & [r Hr] & [n Hn]).
    unfold PotentialComponent_serialize, PotentialComponent_nodeText,
      PotentialComponent_coord. rewrite Hpin. simpl. rewrite Hn, Hr.
    destruct (PotentialComponent.printNetName c); simpl.
    + split; [by intros [? ?]|done].
    + split; [done|]. intros _. by eexists.
  - intros (anchorCoord & Ha).
    unfold Transistor_serialize, Transistor_coord, Transistor.nodeText. rewrite Ha.
    destruct (nonEmpty (Transistor.instanceName c)) eqn:Hne.
    + rewrite <- (printableName_labelOf pr _ Hne).
      destruct (labelOf pr (Transistor.instanceName c)) as [label|e]; simpl.
      * split; [by eexists|]. intros _. by eexists.
      * split; [by intros [? ?]|by intros [? ?]].
    + unfold printableName. rewrite Hne. simpl. split; [done|]. intros _. by eexists.
Qed.

Lemma printComponents_Ok (pr : Printer) (debug : bool) (h : list Coordinate.t)
    (components : list Placed) (out : list string) :
  snd (printComponents pr debug h components out) = Ok tt
  ↔ Forall (fun c => ∃ line, Placed_serialize pr debug h c 1 = Ok line) components.
Proof.
  revert out. induction components as [|c cs IH]; intros out; simpl.
  - split; [constructor|done].
  - destruct (Placed_serialize pr debug h c 1) as [line|e] eqn:E.
    + rewrite IH. split.
      * intros H. constructor; [by eexists|done].
      * by intros [_ H]%Forall_cons.
    + simpl. split; [done|]. intros [[? ?] _]%Forall_cons. congruence.
Qed.

Lemma Transistor_rotate_anchor trig (t t' : Transistor.t (Pin.t Coordinate.t)) angle :
  Transistor.rotate trig t angle = Ok t' → Transistor.anchor t' = Transistor.anchor t.
Proof.
  unfold Transistor.rotate. destruct (bool_decide _); [by intros [= <-]|].
  destruct (forPins _ _) as [pins'|e]; simpl; [|done]. by intros [= <-].
Qed.

Lemma Transistor_mirror_anchor (t t' : Transistor.t (Pin.t Coordinate.t)) mX mY :
  Transistor.mirror t mX mY = Ok t' → Transistor.anchor t' = Transistor.anchor t.
Proof.
  unfold Transistor.mirror. destruct (negb _); [by intros [= <-]|].
  destruct (forPins _ _) as [pins'|e]; simpl; [|done]. by intros [= <-].
Qed.

Lemma align_anchor trig pr (m m' : ABLTransistorMapper.t) placement
    (transistor : Transistor.t (Pin.t Coordinate.t)) (anchorCoord : Coordinate.t) :
  Transistor.s_anchor (ABLTransistorMapper.tikzTransistor m) = AnchorCoord anchorCoord →
  ABLTransistorMapper.align trig pr m placement = Ok (m', transistor) →
  ∃ anchorCoord', Transistor.anchor transistor = AnchorCoord anchorCoord'.
Proof.
  intros Ha H. unfold ABLTransistorMapper.align in H.
  destruct (ABLTransistorMapper.placed _ _ _) as [clone|]; simpl in H; [|done].
  destruct (ABLTransistorMapper.turned _ _ _ _) as [tr|] eqn:Et; simpl in H; [|done].
  destruct (ABLTransistorMapper.lineCrossingCoord _) as [c1|]; simpl in H; [|done].
  destruct (Transistor.lineCrossingCoord _) as [c2|]; simpl in H; [|done].
  injection H as _ <-.
  assert (Htr : ∃ c, Transistor.anchor tr = AnchorCoord c).
  { unfold ABLTransistorMapper.turned in Et.
    destruct (Transistor.deepClone _ _) as [t0|] eqn:E0; simpl in Et; [|done].
    destruct (Transistor.rotate _ _ _) as [t1|] eqn:E1; simpl in Et; [|done].
    apply Transistor_mirror_anchor in Et. apply Transistor_rotate_anchor in E1.
    rewrite Et, E1. unfold Transistor.deepClone in E0.
    destruct (deepClonePins _) as [pins'|]; simpl in E0; [|done].
    destruct (Transistor.nodeText _ _) as [text|]; simpl in E0; [|done].
    injection E0 as <-. simpl. rewrite Ha. by eexists. }
  destruct Htr as [c Hc]. unfold Transistor.translate. simpl. rewrite Hc. by eexists.
Qed.

Lemma useAsStencil_wellPlaced trig pr (stencil : Stencil) (instanceName : string)
    (pins : list (Pin.t CoordRef)) (placement : Placement) (wires : list Wire)
    (s s' : Store) (component : Placed) :
  stencilShape stencil →
  Forall (fun p => is_Some (Pin.net p)) pins →
  useAsStencil trig pr stencil instanceName pins placement wires s = Ok (component, s') →
  wellPlaced component.
Proof.
  intros Hshape Hnets H. destruct stencil as [st|st|m]; simpl in *.
  - apply bind_Ok in H as (c & s1 & E & H). apply ret_Ok in H as [-> _]. simpl.
    destruct (decide (Forall (fun ablPin => is_Some (findIndex (pinMatches ablPin) pins))
                        (PathComponent.pins st))) as [Hall|Hnot];
      rewrite <- allMatched_findIndex in *.
    2:{ by rewrite PathComponent_useAsStencil_throws in E. }
    destruct (PathComponent_useAsStencil_returns trig st instanceName pins placement wires s
                Hall) as (c' & s2 & E' & _ & _ & _ & _ & Hpins).
    rewrite E' in E. injection E as <- _.
    destruct (lookup_lt_is_Some_2 (PathComponent.pins st) 0) as [a0 Ha0]; [lia|].
    destruct (lookup_lt_is_Some_2 (PathComponent.pins st) 1) as [a1 Ha1]; [lia|].
    destruct (Hpins _ _ Ha0) as (p0 & H0 & _ & Hc0).
    destruct (Hpins _ _ Ha1) as (p1 & H1 & _ & Hc1).
    by exists p0, p1.
  - apply bind_Ok in H as (c & s1 & E & H). apply ret_Ok in H as [-> _]. simpl.
    destruct pins as [|pin rest].
    { by rewrite PotentialComponent_useAsStencil_empty in E. }
    destruct (PotentialComponent_useAsStencil_returns trig st pin rest placement wires s)
      as (pin' & s2 & E' & (_ & _ & Hnet) & Hc).
    rewrite E' in E. injection E as <- _. simpl.
    exists pin'. split_and!; [done..|]. rewrite Hnet.
    by apply Forall_cons in Hnets as [? _].
  - apply bind_Ok in H as (c & s1 & E & H). apply ret_Ok in H as [-> _]. simpl.
    destruct Hshape as [anchorCoord Ha].
    unfold ABLTransistorMapper.useAsStencil in E.
    apply bind_Ok in E as ([clone transistor] & s2 & E1 & E).
    apply lift_Ok in E1 as [E1 _].
    apply bind_Ok in E as (pins' & s3 & _ & E).
    apply bind_Ok in E as ([] & s4 & _ & E). apply ret_Ok in E as [-> _]. simpl.
    eapply align_anchor; [exact Ha|exact E1].
Qed.

Lemma parsePins_nets (uuid : nat → string) (instPinArray : list InstPinXml)
    (pins : list (Pin.t CoordRef)) (s s' : Schematic.t) :
  Schematic.parsePins uuid instPinArray s = Ok (pins, s') →
  Forall (fun p => is_Some (Pin.net p)) pins.
Proof.
  revert pins s s'.
  induction instPinArray as [|pinXml rest IH]; intros pins s s' H; simpl in H.
  - apply ret_Ok in H as [-> _]. constructor.
  - apply bind_Ok in H as (pin & s1 & E & H).
    apply bind_Ok in H as (pins' & s2 & E' & H). apply ret_Ok in H as [-> _].
    constructor; [|by eapply IH].
    unfold Schematic.parsePin in E.
    apply bind_Ok in E as (netName & s3 & _ & E).
    apply bind_Ok in E as (net & s4 & _ & E). apply ret_Ok in E as [-> _].
    by eexists.
Qed.

Lemma lookupStencil_shape (catalog : gmap string Stencil) (libraryName cellName : string)
    (stencil : Stencil) :
  map_Forall (fun _ stencil => stencilShape stencil) catalog →
  Schematic.lookupStencil catalog libraryName cellName = Some stencil →
  stencilShape stencil.
Proof.
  intros Hall H. unfold Schematic.lookupStencil in H.
  destruct (catalog !! (libraryName +:+ ":" +:+ cellName)) eqn:E.
  - injection H as <-. by eapply Hall.
  - by eapply Hall.
Qed.

Lemma parseInstances_wellPlaced trig pr uuid catalog scale instanceArray
    (s s' : Schematic.t) :
  map_Forall (fun _ stencil => stencilShape stencil) catalog →
  Forall wellPlaced (Schematic.components s) →
  Schematic.parseInstances trig pr uuid catalog scale instanceArray s = Ok (tt, s') →
  Forall wellPlaced (Schematic.components s').
Proof.
  intros Hcat. revert s.
  induction instanceArray as [|instanceXml rest IH]; intros s Hinv H; simpl in H.
  - by apply ret_Ok in H as [_ ->].
  - apply bind_Ok in H as ([] & s1 & E & H). eapply IH; [|exact H].
    unfold Schematic.parseInstance in E.
    destruct (Schematic.lookupStencil _ _ _) as [stencil|] eqn:El.
    2:{ by injection E as <-. }
    apply bind_Ok in E as (pins & s2 & E1 & E).
    apply bind_Ok in E as (ws & s3 & [= <- <-] & E).
    apply bind_Ok in E as (component & s4 & E3 & E).
    injection E as <-. simpl.
    destruct (sameLists_parsePins _ _ _ _ _ E1) as [_ Hc1].
    destruct (sameLists_onStore _ _ _ _ E3) as [_ Hc3].
    rewrite Hc3, Hc1. apply Forall_app. split; [done|].
    constructor; [|constructor].
    eapply useAsStencil_wellPlaced; [|by eapply parsePins_nets|by eapply onStore_Ok].
    by eapply lookupStencil_shape.
Qed.

(** X16: for a catalog whose two-poles have
    two pins and whose transistors have no anchor pin (as the catalog of
    the converter), and every schematic that [Schematic.fromXML] returns:
    [printToStream] writes the whole picture, closing line included,
    exactly when every placed two-pole and transistor has an instance
    name that is empty or of the form letters, optional separator,
    digits, and no placed potential is of a type that prints its net
    name.  Otherwise the promise is rejected and the picture stays open. *)
Theorem picture_is_closed_iff_names_fit trig pr (debug : bool) uuid
    (catalog : gmap string Stencil) scale wireArray instanceArray
    (schematic : Schematic.t) (out : list string) :
  map_Forall (fun _ stencil => stencilShape stencil) catalog →
  Schematic.fromXML trig pr uuid catalog scale wireArray instanceArray = Ok schematic →
  snd (printToStream pr debug schematic out) = Ok tt
  ↔ Forall (fun component => printable component = true) (Schematic.components schematic).
Proof.
  intros Hcat. unfold Schematic.fromXML.
  destruct (Schematic.parse _ _ _ _ _ _ _ _) as [[[] s']|e] eqn:E; [|done].
  intros [= <-]. unfold Schematic.parse in E.
  apply bind_Ok in E as (ws & s1 & E1 & E).
  apply bind_Ok in E as ([] & s2 & [= <-] & E).
  destruct (sameLists_parseWires _ _ _ _ _ E1) as [_ Hc1].
  assert (Hwell : Forall wellPlaced (Schematic.components s')).
  { eapply parseInstances_wellPlaced; [exact Hcat| |exact E]. simpl.
    rewrite Hc1. constructor. }
  unfold printToStream. cbv zeta.
  set (h := heap (Schematic.store s')). set (out1 := println "" _).
  pose proof (printComponents_Ok pr debug h (Schematic.components s') out1) as Hp.
  destruct (printComponents pr debug h (Schematic.components s') out1) as [out2 [[]|e]];
    cbn [fst snd] in *.
  - split; [|done]. intros _. apply proj1 in Hp. specialize (Hp eq_refl).
    rewrite Forall_forall in Hp, Hwell. apply Forall_forall. intros c Hc.
    apply (serialize_wellPlaced pr debug h c 1 (Hwell c Hc)), Hp, Hc.
  - split; [done|]. intros Hall. apply Hp.
    rewrite Forall_forall in Hall, Hwell. apply Forall_forall. intros c Hc.
    apply (serialize_wellPlaced pr debug h c 1 (Hwell c Hc)), Hall, Hc.
Qed.

Lemma ADS_COMPONENTS_MAP_shape :
  map_Forall (fun _ stencil => stencilShape stencil) ADS_COMPONENTS_MAP.
Proof.
  unfold ADS_COMPONENTS_MAP. simpl.
  repeat (apply map_Forall_insert_2; [simpl; first [lia | done | by eexists]|]).
  apply map_Forall_empty.
Qed.

Lemma picture_is_closed_iff_names_fit_witness :
  ∃ schematic,
    Schematic.fromXML noTrig noPrinter (fun _ => "f81d4fae") ADS_COMPONENTS_MAP 1
      [baseWireXml; otherWireXml] [npnXml] = Ok schematic
    ∧ snd (printToStream noPrinter false schematic []) = Ok tt.
Proof.
  eexists. split; [vm_compute; reflexivity|].
  eapply (picture_is_closed_iff_names_fit noTrig noPrinter false (fun _ => "f81d4fae")
            ADS_COMPONENTS_MAP 1 [baseWireXml; otherWireXml] [npnXml]).
  - exact ADS_COMPONENTS_MAP_shape.
  - vm_compute. reflexivity.
  - repeat constructor.
Defined.

(** ** The sections of a schematic view *)

(** X17: step 1 of [Schematic.#parse].
    A view without a [shapes] child fails with the error
    [XML-Tag not found: shapes].  A view with [shapes] but without an
    [instances] child is not reported in that way: the assertion looks at
    [shapes] again, and reading the children of the missing node throws a
    [TypeError].  With both, the step returns the [wire] children of the
    first [shapes] and the [instance] children of the first [instances]. *)
Theorem view_without_instances_is_a_TypeError (lower : string → string)
    (schematicView : Converter.Node) :
  match firstChild lower schematicView "shapes",
        firstChild lower schematicView "instances" with
  | None, _ =>
      Converter.sectionsOf lower schematicView
      = Converter.Threw (Converter.JsError "XML-Tag not found: shapes")
  | Some _, None =>
      Converter.sectionsOf lower schematicView = Converter.Threw Converter.JsTypeError
  | Some shapes, Some instances =>
      Converter.sectionsOf lower schematicView
      = Converter.Returned (childrenNamed lower shapes "wire",
                            childrenNamed lower instances "instance")
  end.
Proof.
  unfold Converter.sectionsOf, Converter.getNamedTag, Converter.getNamedTags, firstChild.
  destruct schematicView as [name attributes childNodes|]; simpl; [|done].
  destruct (List.find (Converter.isNamed lower "shapes" None) childNodes)
    as [shapes|]; simpl; [|done].
  destruct (List.find (Converter.isNamed lower "instances" None) childNodes)
    as [instances|]; simpl.
  - by destruct shapes, instances.
  - by destruct shapes.
Qed.

(** ** Selecting the cell and the schematic view *)

Lemma filter_isNamed_elements lower tagName additionalFilter (l : list Converter.Node) :
  Forall (fun node => isElement node = true)
    (List.filter (Converter.isNamed lower tagName additionalFilter) l).
Proof.
  apply Forall_forall. intros node Hin. apply list_elem_of_In, filter_In in Hin as [_ H].
  by destruct node.
Qed.

Lemma filter_elements (f : Converter.Node → bool) (l : list Converter.Node) :
  Forall (fun node => isElement node = true) l →
  Forall (fun node => isElement node = true) (List.filter f l).
Proof.
  rewrite !Forall_forall. intros H node Hin.
  apply list_elem_of_In, filter_In in Hin as [Hin _]. by apply H, list_elem_of_In.
Qed.

Lemma filter_andb {A : Type} (g f : A → bool) (l : list A) :
  List.filter (fun x => g x && f x) l = List.filter f (List.filter g l).
Proof.
  induction l as [|x l IH]; simpl; [done|].
  destruct (g x); simpl; [|done]. destruct (f x); by rewrite IH.
Qed.

Lemma findFirst_elements (name text : string) (l : list Converter.Node) :
  Forall (fun node => isElement node = true) l →
  Converter.findFirst (Converter.attributeEquals name text) l
  = Converter.Returned (List.find (fun node => Converter.attributeIs node name text) l).
Proof.
  induction 1 as [|node l Hnode _ IH]; simpl; [done|].
  destruct node as [localName attributes childNodes|]; [|done]. simpl.
  destruct (match Converter.attributeOf attributes name with
            | Some value => String.eqb value text
            | None => false
            end); [done|exact IH].
Qed.

Lemma find_firstWith {A : Type} (f : A → bool) (l : list A) :
  match List.find f l with
  | Some x => firstWith f l x
  | None => Forall (fun y => f y = false) l
  end.
Proof.
  induction l as [|y l IH]; simpl; [constructor|].
  destruct (f y) eqn:E.
  - exists [], l. by split_and!.
  - destruct (List.find f l) as [x|].
    + destruct IH as (before & after & -> & Hx & Hb).
      exists (y :: before), after. split_and!; [done..|by constructor].
    + by constructor.
Qed.

Lemma outcome_bind_Returned {A B : Type} (m : Converter.outcome A)
    (f : A → Converter.outcome B) (b : B) :
  m ≫= f = Converter.Returned b → ∃ a, m = Converter.Returned a ∧ f a = Converter.Returned b.
Proof. destruct m as [a|e]; [|done]. intros H. by exists a. Qed.

Lemma getNamedTags_elements lower root tagName additionalFilter (l : list Converter.Node) :
  Converter.getNamedTags lower root tagName additionalFilter = Converter.Returned l →
  Forall (fun node => isElement node = true) l.
Proof.
  unfold Converter.getNamedTags. intros (childNodes & _ & [= <-])%outcome_bind_Returned.
  apply filter_isNamed_elements.
Qed.

Lemma cellsOf_elements lower root (cells : list Converter.Node) :
  Converter.cellsOf lower root = Converter.Returned cells →
  Forall (fun node => isElement node = true) cells.
Proof.
  unfold Converter.cellsOf. intros H.
  apply outcome_bind_Returned in H as (? & _ & H).
  apply outcome_bind_Returned in H as (Library & _ & H).
  apply outcome_bind_Returned in H as (? & _ & H).
  apply outcome_bind_Returned in H as (Cells & _ & H).
  apply outcome_bind_Returned in H as (? & _ & H).
  by eapply getNamedTags_elements.
Qed.

Lemma getSchematicViews_spec lower (cell : Converter.Node) :
  Converter.getSchematicViews lower cell
  = Converter.Returned (schematicViewsOf lower cell).
Proof.
  unfold Converter.getSchematicViews, Converter.getNamedTag, Converter.getNamedTags,
    schematicViewsOf, firstChild, childrenNamed.
  destruct cell as [localName attributes childNodes|]; simpl; [|done].
  destruct (List.find _ childNodes) as [views|]; simpl; [|done].
  destruct views as [vName vAttributes vChildren|]; simpl; [|done].
  f_equal. rewrite <- filter_andb. clear.
  induction vChildren as [|node l IH]; simpl; [done|].
  assert (E : Converter.isNamed lower "schematicview"
                (Some (fun node => Converter.attributeIs node "type" "schematic")) node
              = Converter.isNamed lower "schematicview" None node
                && Converter.attributeIs node "type" "schematic").
  { destruct node; simpl; [|done]. by rewrite andb_true_r. }
  rewrite E. destruct (_ && _); by rewrite IH.
Qed.

Lemma schematicViewsOf_elements lower (cell : Converter.Node) :
  Forall (fun node => isElement node = true) (schematicViewsOf lower cell).
Proof.
  unfold schematicViewsOf. destruct (firstChild lower cell "views") as [views|]; [|constructor].
  apply filter_elements. unfold childrenNamed.
  destruct views; [apply filter_isNamed_elements|constructor].
Qed.

Lemma findCell_spec (cells : list Converter.Node) (cellname : string) :
  Forall (fun node => isElement node = true) cells →
  match Converter.findCell cells cellname with
  | Converter.Returned cell => firstWith (picks cellname) cells cell
  | Converter.Threw e =>
      Forall (fun cell => picks cellname cell = false) cells
      ∧ e = Converter.JsError
              (if String.eqb cellname "" then "No cells found"
               else "Cell " +:+ Converter.quote +:+ cellname +:+ Converter.quote
                      +:+ " not found")
  end.
Proof.
  intros Hel. unfold Converter.findCell, picks.
  destruct (String.eqb cellname "") eqn:E; simpl.
  - destruct cells as [|cell rest]; [by split|].
    exists [], rest. by split_and!.
  - rewrite (findFirst_elements "name" cellname cells Hel). simpl.
    pose proof (find_firstWith (fun node => Converter.attributeIs node "name" cellname) cells)
      as H.
    by destruct (List.find _ cells).
Qed.

Lemma findSchematicView_spec (views : list Converter.Node) (schematicname : string) :
  Forall (fun node => isElement node = true) views →
  match Converter.findSchematicView views schematicname with
  | Converter.Returned view => firstWith (picks schematicname) views view
  | Converter.Threw e =>
      Forall (fun view => picks schematicname view = false) views
      ∧ e = Converter.JsError
              (if String.eqb schematicname "" then "Error: No schematic found"
               else "Error: Schematic " +:+ Converter.quote +:+ schematicname
                      +:+ Converter.quote +:+ " not found")
  end.
Proof.
  intros Hel. unfold Converter.findSchematicView, picks.
  destruct (String.eqb schematicname "") eqn:E; simpl.
  - destruct views as [|view rest]; [by split|].
    exists [], rest. by split_and!.
  - rewrite (findFirst_elements "name" schematicname views Hel). simpl.
    pose proof (find_firstWith
                  (fun node => Converter.attributeIs node "name" schematicname) views) as H.
    by destruct (List.find _ views).
Qed.

(** X18: the selection of the [convert]
    command on the cells that [parseFile] returns.  It yields the first
    schematic view (a [schematicview] of type [schematic] under the
    first [views] of the cell) that the schematic name picks, in the
    first cell that the cell name picks; an empty name picks anything, a
    name picks the nodes whose attribute [name] equals it.  It fails, with
    one of four messages and never with a [TypeError], when no cell is
    picked, or when the picked cell has no picked schematic view; cells
    after the first picked one are not tried. *)
Theorem convert_selects_first_match (lower : string → string)
    (root : option Converter.Node) (cells : list Converter.Node)
    (cellname schematicname : string) :
  Converter.cellsOf lower root = Converter.Returned cells →
  match Converter.selectView lower cells cellname schematicname with
  | Converter.Returned view =>
      ∃ cell, firstWith (picks cellname) cells cell
              ∧ firstWith (picks schematicname) (schematicViewsOf lower cell) view
  | Converter.Threw e =>
      (Forall (fun cell => picks cellname cell = false) cells
       ∧ e = Converter.JsError
               (if String.eqb cellname "" then "No cells found"
                else "Cell " +:+ Converter.quote +:+ cellname +:+ Converter.quote
                       +:+ " not found"))
      ∨ (∃ cell, firstWith (picks cellname) cells cell
                 ∧ Forall (fun view => picks schematicname view = false)
                     (schematicViewsOf lower cell)
                 ∧ e = Converter.JsError
                         (if String.eqb schematicname "" then "Error: No schematic found"
                          else "Error: Schematic " +:+ Converter.quote +:+ schematicname
                                 +:+ Converter.quote +:+ " not found"))
  end.
Proof.
  intros Hcells. apply cellsOf_elements in Hcells.
  unfold Converter.selectView.
  pose proof (findCell_spec cells cellname Hcells) as Hcell.
  destruct (Converter.findCell cells cellname) as [cell|e]; simpl; [|by left].
  rewrite getSchematicViews_spec. simpl.
  pose proof (findSchematicView_spec (schematicViewsOf lower cell) schematicname
                (schematicViewsOf_elements lower cell)) as Hview.
  destruct (Converter.findSchematicView _ _) as [view|e].
  - by exists cell.
  - right. exists cell. by destruct Hview.
Qed.

Lemma convert_selects_first_match_witness :
  Converter.selectView (fun s => s)
    [Converter.Element "cell" [("name", "top")]
       [Converter.Element "views" []
          [Converter.Element "schematicview" [("type", "schematic"); ("name", "sch")] []]]]
    "" "other"
  = Converter.Threw (Converter.JsError
      ("Error: Schematic " +:+ Converter.quote +:+ "other" +:+ Converter.quote
         +:+ " not found")).
Proof.
  pose proof (convert_selects_first_match (fun s => s)
    (Some (Converter.Element "abl" []
       [Converter.Element "library" []
          [Converter.Element "cells" []
             [Converter.Element "cell" [("name", "top")]
                [Converter.Element "views" []
                   [Converter.Element "schematicview"
                      [("type", "schematic"); ("name", "sch")] []]]]]]))
    [Converter.Element "cell" [("name", "top")]
       [Converter.Element "views" []
          [Converter.Element "schematicview" [("type", "schematic"); ("name", "sch")] []]]]
    "" "other" eq_refl) as H.
  destruct (Converter.selectView _ _ _ _) as [view|e] eqn:E; [discriminate E|].
  destruct H as [[_ ->]|(cell & _ & _ & ->)]; [discriminate E|reflexivity].
Defined.

(** ** The coordinates node of a wire *)

Lemma descend_firstChild (lower : string → string) (node : Converter.Node) (tagname : string) :
  Converter.descend lower (Some node) tagname
  = match firstChild lower node tagname with
    | Some child => Converter.Returned (Some child)
    | None => Converter.Threw (Converter.JsError ("XML-Tag not found: " +:+ tagname))
    end.
Proof.
  unfold Converter.descend, Converter.getNamedTag, firstChild.
  destruct node as [localName attributes childNodes|]; simpl.
  - by destruct (List.find _ childNodes).
  - done.
Qed.

(** X19: the search for the coordinates of
    a wire element goes down its first [genpolyline] child, the first
    [centerline] child of that and the first [points] child of that, and
    returns the [points] node.  When one of the three is missing it
    stops with the error ["XML-Tag not found: "] followed by the name of
    the first missing tag (which ends the whole [#parse]); it never
    throws a [TypeError]. *)
Theorem wire_without_points_is_an_Error (lower : string → string)
    (wireXml : Converter.Node) :
  Converter.pointsOf lower wireXml
  = match firstChild lower wireXml "genpolyline" with
    | None => Converter.Threw (Converter.JsError "XML-Tag not found: genpolyline")
    | Some genpolyline =>
        match firstChild lower genpolyline "centerline" with
        | None => Converter.Threw (Converter.JsError "XML-Tag not found: centerline")
        | Some centerline =>
            match firstChild lower centerline "points" with
            | None => Converter.Threw (Converter.JsError "XML-Tag not found: points")
            | Some points => Converter.Returned (Some points)
            end
        end
    end.
Proof.
  unfold Converter.pointsOf. simpl. rewrite descend_firstChild.
  destruct (firstChild lower wireXml "genpolyline") as [genpolyline|]; [|done].
  simpl. rewrite descend_firstChild.
  destruct (firstChild lower genpolyline "centerline") as [centerline|]; [|done].
  simpl. rewrite descend_firstChild.
  by destruct (firstChild lower centerline "points").
Qed.

(** A wire with a [net] child and a [genpolyline] without [centerline]. *)
Example wire_without_centerline :
  Converter.pointsOf id
    (Converter.Element "wire" []
       [Converter.Element "net" [("name", "b")] []; Converter.Element "genpolyline" [] []])
  = Converter.Threw (Converter.JsError "XML-Tag not found: centerline").
Proof. reflexivity. Qed.
